(** * PyTreeNet: tree topology, contraction glue, Trotter and time-evolution set-up

    A shallow embedding of the Python sources
      - pytreenet/node.py
      - pytreenet/tree_structure.py
      - pytreenet/node_contraction.py
      - pytreenet/time_evolution/time_evolution.py
      - pytreenet/time_evolution/trotter.py
    together with the properties their specification states about them.
    The TDVP engine and its path planners (tdvp.py) are not among these
    sources; where a property needs them they are modelled from the
    specification and the tests of test_tdvp.py, and say so.

    Conventions.
      - A Python dict keyed by identifiers is a [gmap string _]; a Python list
        is a [list].
      - A method that mutates [self] is a state transformer.  A Python
        exception does not roll the object back, so a failing call returns the
        exception together with the state reached when it was raised.
      - Node objects live in the [_nodes] dict of one tree and are reached
        through their key only, so "fetch the object, mutate it" is "look the
        key up, store the changed record under the same key". *)

From stdpp Require Import gmap strings list fin_maps.
From Stdlib Require Import QArith Qcanon Qround Qpower Lqa.

Close Scope Qc_scope.
Close Scope Q_scope.
#[local] Set Warnings "-clear-no-such-hyp".
#[local] Set Warnings "-notation-incompatible-prefix".
Local Open Scope string_scope.
Local Open Scope list_scope.

(** ** Exceptions and the state-and-exception monad *)

Inductive exn : Type :=
  | ValueError
  | KeyError
  | AssertionError
  | TypeError
  | NoConnectionException
  | NotImplementedError
  | UnboundLocalError
  | RecursionError
  | ZeroDivisionError
  | OverflowError
  | IndexError.

#[global] Instance exn_eq_dec : EqDecision exn.
Proof. solve_decision. Defined.

(** A computation over a mutable object of type [S]: the outcome and the
    object as the call leaves it. *)
Definition M (S A : Type) : Type := S → (exn + A) * S.

Definition ret {S A} (a : A) : M S A := λ s, (inr a, s).
Definition raise {S A} (e : exn) : M S A := λ s, (inl e, s).
Definition bind {S A B} (m : M S A) (f : A → M S B) : M S B :=
  λ s, match m s with
       | (inl e, s') => (inl e, s')
       | (inr a, s') => f a s'
       end.
Definition get {S} : M S S := λ s, (inr s, s).
Definition put {S} (s : S) : M S unit := λ _, (inr tt, s).
Definition modify {S} (f : S → S) : M S unit := λ s, (inr tt, f s).
(** Lift a pure fallible step. *)
Definition lift {S A} (r : exn + A) : M S A := λ s, (r, s).

#[global] Instance M_ret {S} : MRet (M S) := λ A, ret.
#[global] Instance M_bind {S} : MBind (M S) := λ A B f m, bind m f.

(** Code that may raise but touches no object: [exn + A]. *)
#[global] Instance result_ret : MRet (sum exn) := λ A, inr.
#[global] Instance result_bind : MBind (sum exn) :=
  λ A B f r, match r with inl e => inl e | inr a => f a end.

(** [for x in l: body x] *)
Fixpoint for_each {S A} (l : list A) (body : A → M S unit) : M S unit :=
  match l with
  | [] => ret tt
  | x :: l' => body x ;; for_each l' body
  end.

Definition succeeded {A S} (r : (exn + A) * S) : bool :=
  match r.1 with inr _ => true | inl _ => false end.

(** ** node.py *)

Record Node : Type := mkNode {
  identifier : string;
  tag : string;
  parent : option string;
  children : list string
}.

#[global] Instance Node_eq_dec : EqDecision Node.
Proof. solve_decision. Defined.

(** [Node.__init__(tag, identifier)].  An empty identifier is replaced by
    [str(uuid.uuid1())]; [uuid] is the string that call yields. *)
Definition Node_init (uuid : string) (tg ident : string) : Node :=
  let ident' := if decide (ident = "") then uuid else ident in
  let tg' := if decide (tg = "") then ident' else tg in
  {| identifier := ident'; tag := tg'; parent := None; children := [] |}.

(** [Node.__eq__]: same identifier, parent and children (the tag is not
    compared). *)
Definition Node_eqb (a b : Node) : bool :=
  bool_decide (identifier a = identifier b)
  && bool_decide (parent a = parent b)
  && bool_decide (children a = children b).

Definition set_parent (p : option string) (n : Node) : Node :=
  {| identifier := identifier n; tag := tag n; parent := p; children := children n |}.
Definition set_children (cs : list string) (n : Node) : Node :=
  {| identifier := identifier n; tag := tag n; parent := parent n; children := cs |}.

Definition is_root (n : Node) : bool :=
  match parent n with None => true | Some _ => false end.

(** [add_parent]: refuses when a parent is present.  The callers in
    tree_structure.py also pass [None] (the parent of a root). *)
Definition add_parent (parent_id : option string) (n : Node) : exn + Node :=
  match parent n with
  | Some _ => inl ValueError
  | None => inr (set_parent parent_id n)
  end.

Definition remove_parent (n : Node) : Node := set_parent None n.

Definition add_child (child_id : string) (n : Node) : Node :=
  set_children (children n ++ [child_id]) n.

Definition add_children (children_ids : list string) (n : Node) : Node :=
  set_children (children n ++ children_ids) n.

(** [list.remove(x)]: drops the first occurrence, [ValueError] when absent. *)
Fixpoint list_remove (x : string) (l : list string) : option (list string) :=
  match l with
  | [] => None
  | y :: l' => if decide (y = x) then Some l'
               else match list_remove x l' with
                    | Some r => Some (y :: r)
                    | None => None
                    end
  end.

(** [list.index(x)]: position of the first occurrence. *)
Fixpoint list_index (x : string) (l : list string) : option nat :=
  match l with
  | [] => None
  | y :: l' => if decide (y = x) then Some 0
               else match list_index x l' with
                    | Some i => Some (S i)
                    | None => None
                    end
  end.

Definition remove_child (child_id : string) (n : Node) : exn + Node :=
  match list_remove child_id (children n) with
  | Some cs => inr (set_children cs n)
  | None => inl ValueError
  end.

Definition child_index (child_id : string) (n : Node) : exn + nat :=
  match list_index child_id (children n) with
  | Some i => inr i
  | None => inl ValueError
  end.

Definition replace_child (child_id new_child_id : string) (n : Node) : exn + Node :=
  if decide (child_id = new_child_id) then inr n
  else match child_index child_id n with
       | inr i => inr (set_children (<[i := new_child_id]> (children n)) n)
       | inl e => inl e
       end.

Definition nchildren (n : Node) : nat := length (children n).
Definition nparents (n : Node) : nat := if is_root n then 0 else 1.
Definition nneighbours (n : Node) : nat := nchildren n + nparents n.
Definition has_x_children (x : nat) (n : Node) : bool :=
  bool_decide (length (children n) = x).
Definition is_leaf (n : Node) : bool := has_x_children 0 n.

(** Parent first (when there is one), then the children in order. *)
Definition neighbouring_nodes (n : Node) : list string :=
  match parent n with
  | None => children n
  | Some p => p :: children n
  end.

Definition is_child_of (other_node_id : string) (n : Node) : bool :=
  match parent n with
  | None => false
  | Some p => bool_decide (p = other_node_id)
  end.

Definition is_parent_of (other_node_id : string) (n : Node) : bool :=
  bool_decide (other_node_id ∈ children n).

(** ** tree_structure.py *)

Record TreeStructure : Type := mkTree {
  nodes : gmap string Node;
  root_id : option string
}.

(** [TreeStructure.__init__] *)
Definition empty_tree : TreeStructure := {| nodes := ∅; root_id := None |}.

Definition set_nodes (f : gmap string Node → gmap string Node) (t : TreeStructure)
  : TreeStructure := {| nodes := f (nodes t); root_id := root_id t |}.
Definition set_root_id (r : option string) (t : TreeStructure) : TreeStructure :=
  {| nodes := nodes t; root_id := r |}.

Abbreviation TM := (M TreeStructure).

(** [self._nodes[key]] *)
Definition get_node (key : string) : TM Node :=
  λ t, match nodes t !! key with
       | Some n => (inr n, t)
       | None => (inl KeyError, t)
       end.

(** [self._nodes[key] = node] *)
Definition store_node (key : string) (n : Node) : TM unit :=
  modify (set_nodes (insert key n)).

(** [self._nodes.pop(key)] *)
Definition pop_node (key : string) : TM Node :=
  λ t, match nodes t !! key with
       | Some n => (inr n, set_nodes (delete key) t)
       | None => (inl KeyError, t)
       end.

(** [self._nodes[key].method(...)] for a method that mutates the node and may
    raise. *)
Definition update_node (key : string) (f : Node → exn + Node) : TM unit :=
  n ← get_node key;
  n' ← lift (f n);
  store_node key n'.

Definition contains (ident : string) (t : TreeStructure) : bool :=
  bool_decide (is_Some (nodes t !! ident)).

Definition ensure_uniqueness (node_id : string) : TM unit :=
  λ t, if contains node_id t then (inl ValueError, t) else (inr tt, t).

Definition ensure_existence (node_id : string) : TM unit :=
  λ t, if contains node_id t then (inr tt, t) else (inl ValueError, t).

Definition _add_node (new_node : Node) : TM unit :=
  let new_node_id := identifier new_node in
  ensure_uniqueness new_node_id;;
  store_node new_node_id new_node.

(** [add_root]: the [assert] guards the root identifier only. *)
Definition add_root (node : Node) : TM unit :=
  t ← get;
  match root_id t with
  | Some _ => raise AssertionError
  | None =>
      modify (set_root_id (Some (identifier node)));;
      store_node (identifier node) node
  end.

Definition add_child_to_parent (child : Node) (parent_id : string) : TM unit :=
  ensure_existence parent_id;;
  _add_node child;;
  update_node (identifier child) (add_parent (Some parent_id));;
  let child_id := identifier child in
  update_node parent_id (λ p, inr (add_child child_id p)).

(** [add_parent_to_root].  With no root yet, Python appends [None] to the
    children of [new_root] and then fails on [self._nodes[None]].  Children
    are strings here, so the node that this [KeyError] leaves in the dict is
    recorded without that entry: on a tree without a root the outcome is the
    one of the code, the state left behind is not. *)
Definition add_parent_to_root (new_root : Node) : TM unit :=
  _add_node new_root;;
  t ← get;
  match root_id t with
  | None => raise KeyError
  | Some r =>
      update_node (identifier new_root) (λ n, inr (add_child r n));;
      let new_id := identifier new_root in
      update_node r (add_parent (Some new_id));;
      modify (set_root_id (Some new_id))
  end.

Definition is_child_of_t (node_id1 node_id2 : string) : TM bool :=
  n ← get_node node_id1; mret (is_child_of node_id2 n).

Definition is_parent_of_t (node_id1 node_id2 : string) : TM bool :=
  n ← get_node node_id1; mret (is_parent_of node_id2 n).

(** [determine_parentage]: the pair ordered as (parent, child). *)
Definition determine_parentage (node_id1 node_id2 : string) : TM (string * string) :=
  node1 ← get_node node_id1;
  node2 ← get_node node_id2;
  if is_child_of node_id1 node2 then mret (node_id1, node_id2)
  else if is_child_of node_id2 node1 then mret (node_id2, node_id1)
  else raise ValueError.

(** [_replace_node]: the children of the new node are pointed at it, and its
    parent (read after the loop, from the live object) gets it in place of the
    old node. *)
Definition _replace_node (new_node_id old_node_id : string) : TM unit :=
  new_node ← get_node new_node_id;
  for_each (children new_node) (λ node_id,
    update_node node_id (λ n, add_parent (Some (identifier new_node)) (remove_parent n)));;
  new_node' ← get_node new_node_id;
  match parent new_node' with
  | None => mret tt
  | Some p => update_node p (replace_child old_node_id (identifier new_node'))
  end.

(** [replace_node] (the public variant, driven by the old node). *)
Definition replace_node (new_node_id old_node_id : string) : TM unit :=
  old_node ← get_node old_node_id;
  for_each (children old_node) (λ child_id,
    if decide (child_id ≠ new_node_id)
    then update_node child_id (λ n, inr (set_parent (Some new_node_id) n))
    else mret tt);;
  old_node' ← get_node old_node_id;
  (match parent old_node' with
   | None => modify (set_root_id (Some new_node_id))
   | Some p =>
       if decide (p ≠ new_node_id)
       then update_node p (replace_child old_node_id new_node_id)
       else mret tt
   end);;
  _ ← pop_node old_node_id; mret tt.

(** The identifier of the merged node: the given one, or the default
    [node_id1 + "contr" + node_id2] for the empty string. *)
Definition combined_identifier (node_id1 node_id2 new_identifier : string) : string :=
  if decide (new_identifier = "") then node_id1 +:+ "contr" +:+ node_id2
  else new_identifier.

(** [combine_nodes].  [total_children] aliases the children list of [temp[0]]
    and extending it also changes that node, which is popped a few lines
    later without being read again. *)
Definition combine_nodes (node_id1 node_id2 : string) (new_identifier : string)
  : TM unit :=
  '(parent_id, child_id) ← determine_parentage node_id1 node_id2;
  let new_identifier := combined_identifier node_id1 node_id2 new_identifier in
  parent_node ← get_node parent_id;
  let parent_parent_id := parent parent_node in
  update_node parent_id (remove_child child_id);;
  parent_node ← get_node parent_id;
  child_node ← get_node child_id;
  let temp := if decide (parent_id ≠ node_id1)
              then (child_node, parent_node) else (parent_node, child_node) in
  let total_children := children temp.1 ++ children temp.2 in
  (if is_root parent_node then modify (set_root_id (Some new_identifier))
   else mret tt);;
  _ ← pop_node parent_id;
  _ ← pop_node child_id;
  let new_node := Node_init "" "" new_identifier in
  let new_node := add_children total_children new_node in
  new_node ← lift (add_parent parent_parent_id new_node);
  store_node (identifier new_node) new_node;;
  _replace_node new_identifier parent_id.

(** [split_node].  [uuid_p] and [uuid_c] are what [uuid.uuid1()] yields for
    the two [Node(...)] calls, consulted only for an empty identifier. *)
Definition split_node (uuid_p uuid_c : string)
    (old_node_id node1_id : string) (neighbours1 : list string)
    (node2_id : string) (neighbours2 : list string) : TM unit :=
  node ← get_node old_node_id;
  '(parent_id, child_id, parent_neighbours, child_neighbours) ←
    (if is_root node || bool_decide (parent node ∈ (Some <$> neighbours1))
     then mret (node1_id, node2_id, neighbours1, neighbours2)
     else if bool_decide (parent node ∈ (Some <$> neighbours2))
     then mret (node2_id, node1_id, neighbours2, neighbours1)
     else raise AssertionError);
  let parent_node := Node_init uuid_p "" parent_id in
  '(parent_node, parent_neighbours) ←
    match parent node with
    | Some p =>
        parent_node ← lift (add_parent (Some p) parent_node);
        match list_remove p parent_neighbours with
        | Some l => mret (parent_node, l)
        | None => raise ValueError
        end
    | None =>
        modify (set_root_id (Some parent_id));;
        mret (parent_node, parent_neighbours)
    end;
  let parent_node := add_children parent_neighbours parent_node in
  let parent_node := add_child child_id parent_node in
  let child_node := Node_init uuid_c "" child_id in
  child_node ← lift (add_parent (Some parent_id) child_node);
  let child_node := add_children child_neighbours child_node in
  _ ← pop_node old_node_id;
  store_node parent_id parent_node;;
  store_node child_id child_node;;
  _replace_node child_id child_id;;
  _replace_node parent_id old_node_id.

(** *** Well-formed trees *)

(** The invariant of the data model: one parentless node, named by [root_id];
    keys are the identifiers; parent and children fields agree; no cycle
    (parents are strictly shallower for some depth assignment). *)
Record wf (t : TreeStructure) : Prop := mk_wf {
  wf_root : ∃ r nr, root_id t = Some r ∧ nodes t !! r = Some nr ∧ parent nr = None;
  wf_ident : ∀ k n, nodes t !! k = Some n → identifier n = k;
  wf_one_root : ∀ k n, nodes t !! k = Some n → parent n = None → root_id t = Some k;
  wf_children : ∀ k n c, nodes t !! k = Some n → c ∈ children n →
      ∃ m, nodes t !! c = Some m ∧ parent m = Some k;
  wf_parent : ∀ c m p, nodes t !! c = Some m → parent m = Some p →
      ∃ n, nodes t !! p = Some n ∧ c ∈ children n;
  wf_nodup : ∀ k n, nodes t !! k = Some n → NoDup (children n);
  wf_depth : ∃ depth : string → nat,
      ∀ c m p, nodes t !! c = Some m → parent m = Some p → depth p < depth c
}.

(** What the specification asks of a tree: exactly one node without a parent,
    and the identifier of that node is [root_id]. *)
Definition one_root (t : TreeStructure) : Prop :=
  ∃ r nr, root_id t = Some r ∧ nodes t !! r = Some nr ∧ identifier nr = r
          ∧ parent nr = None
          ∧ ∀ k n, nodes t !! k = Some n → parent n = None → k = r ∧ n = nr.

(** The identifiers of the parentless nodes, for running on examples. *)
Definition parentless (t : TreeStructure) : list string :=
  identifier <$> filter (λ n, parent n = None) (map_to_list (nodes t)).*2.

(** A node freshly built by [Node(...)]: no parent, no children. *)
Definition fresh (n : Node) : Prop := parent n = None ∧ children n = [].

(** The effect of the loop of [_replace_node] on the dict: every listed node
    gets the parent [new_id]. *)
Definition reparent (new_id : string) (l : list string) (m : gmap string Node)
  : gmap string Node :=
  foldl (λ m x, alter (set_parent (Some new_id)) x m) m l.

(** The tree [combine_nodes] leaves behind when it merges the child [c] into
    its parent [p] under the identifier [new_id]: both nodes are gone, the
    merged node carries the remaining children of the first-named node
    followed by those of the other, all of them point at it, and the
    grandparent lists it where [p] was. *)
Definition combined_children (node_id1 p c : string) (P C : Node) : list string :=
  let rest := default [] (list_remove c (children P)) in
  if decide (p ≠ node_id1) then children C ++ rest else rest ++ children C.

Definition combined_node (node_id1 p c new_id : string) (P C : Node) : Node :=
  {| identifier := new_id; tag := new_id; parent := parent P;
     children := combined_children node_id1 p c P C |}.

Definition combined_nodes (node_id1 p c new_id : string) (P C : Node)
    (m : gmap string Node) : gmap string Node :=
  let nn := combined_node node_id1 p c new_id P C in
  let m2 := reparent new_id (children nn) (<[new_id := nn]> (delete c (delete p m))) in
  match parent P with
  | None => m2
  | Some q =>
      match m2 !! q with
      | Some Q =>
          match replace_child p new_id Q with
          | inr Q' => <[q := Q']> m2
          | inl _ => m2
          end
      | None => m2
      end
  end.

Definition combined_tree (node_id1 p c new_id : string) (P C : Node)
    (t : TreeStructure) : TreeStructure :=
  {| nodes := combined_nodes node_id1 p c new_id P C (nodes t);
     root_id := if is_root P then Some new_id else root_id t |}.

(** What becomes of a surviving node [n] stored under [k] when [c] is merged
    into [p]: the children of the two get the merged node as parent, and the
    grandparent lists the merged node in place of [p]. *)
Definition combined_other (node_id1 p c new_id : string) (P C : Node)
    (k : string) (n : Node) : Node :=
  if decide (k ∈ combined_children node_id1 p c P C) then set_parent (Some new_id) n
  else if decide (parent P = Some k)
       then match replace_child p new_id n with inr n' => n' | inl _ => n end
       else n.

(** The tree [split_node] leaves behind when the node [old], with parent
    field [par], is split into [pid] (which keeps the parent and the children
    [pn]) and its new child [cid] (which takes the children [cn]). *)
Definition split_parent_node (pid cid : string) (par : option string)
    (pn : list string) : Node :=
  {| identifier := pid; tag := pid; parent := par; children := pn ++ [cid] |}.

Definition split_child_node (pid cid : string) (cn : list string) : Node :=
  {| identifier := cid; tag := cid; parent := Some pid; children := cn |}.

Definition split_nodes (old pid cid : string) (par : option string)
    (pn cn : list string) (m : gmap string Node) : gmap string Node :=
  let m0 := <[cid := split_child_node pid cid cn]>
              (<[pid := split_parent_node pid cid par pn]> (delete old m)) in
  let m2 := reparent pid (pn ++ [cid]) (reparent cid cn m0) in
  match par with
  | None => m2
  | Some q =>
      match m2 !! q with
      | Some Q =>
          match replace_child old pid Q with
          | inr Q' => <[q := Q']> m2
          | inl _ => m2
          end
      | None => m2
      end
  end.

Definition split_tree (old pid cid : string) (par : option string)
    (pn cn : list string) (t : TreeStructure) : TreeStructure :=
  {| nodes := split_nodes old pid cid par pn cn (nodes t);
     root_id := match par with None => Some pid | Some _ => root_id t end |}.

(** What becomes of a surviving node stored under [k]. *)
Definition split_other (old pid cid : string) (par : option string)
    (pn cn : list string) (k : string) (n : Node) : Node :=
  if decide (k ∈ pn) then set_parent (Some pid) n
  else if decide (k ∈ cn) then set_parent (Some cid) n
  else if decide (par = Some k)
       then match replace_child old pid n with inr n' => n' | inl _ => n end
       else n.

(** *** Calls of the public mutators *)

Inductive call : Type :=
  | CallAddRoot (node : Node)
  | CallAddChildToParent (child : Node) (parent_id : string)
  | CallAddParentToRoot (new_root : Node)
  | CallCombineNodes (node_id1 node_id2 new_identifier : string)
  | CallSplitNode (uuid_p uuid_c : string) (old_node_id node1_id : string)
      (neighbours1 : list string) (node2_id : string) (neighbours2 : list string).

Definition run_call (c : call) : TM unit :=
  match c with
  | CallAddRoot node => add_root node
  | CallAddChildToParent child parent_id => add_child_to_parent child parent_id
  | CallAddParentToRoot new_root => add_parent_to_root new_root
  | CallCombineNodes node_id1 node_id2 new_identifier =>
      combine_nodes node_id1 node_id2 new_identifier
  | CallSplitNode uuid_p uuid_c old node1_id neighbours1 node2_id neighbours2 =>
      split_node uuid_p uuid_c old node1_id neighbours1 node2_id neighbours2
  end.

(** The tree after a call, whatever its outcome. *)
Definition after (c : call) (t : TreeStructure) : TreeStructure := (run_call c t).2.

Definition run_calls (cs : list call) (t : TreeStructure) : TreeStructure :=
  foldl (λ t c, after c t) t cs.

(** All calls of the sequence return normally. *)
Fixpoint all_succeed (cs : list call) (t : TreeStructure) : bool :=
  match cs with
  | [] => true
  | c :: cs' => succeeded (run_call c t) && all_succeed cs' (after c t)
  end.

(** Trees reachable from the empty tree by any calls of the mutators. *)
Inductive reachable : TreeStructure → Prop :=
  | reachable_empty : reachable empty_tree
  | reachable_call t c : reachable t → reachable (after c t).

(** Calls used as the docstrings intend: the nodes handed in are freshly
    constructed (no parent, no children); a parent is only added above an
    existing root; the identifier of a merged node is new to the tree or that
    of one of the two nodes merged; the two identifiers of a split are not
    empty, differ from each other, and each is new to the tree or that of the
    node split; the two neighbour lists of a split share out the neighbours of
    the old node. *)
Definition proper_call (t : TreeStructure) (c : call) : Prop :=
  match c with
  | CallAddRoot node => fresh node
  | CallAddChildToParent child _ => fresh child
  | CallAddParentToRoot new_root => fresh new_root ∧ is_Some (root_id t)
  | CallCombineNodes node_id1 node_id2 new_identifier =>
      let i := combined_identifier node_id1 node_id2 new_identifier in
      nodes t !! i = None ∨ i = node_id1 ∨ i = node_id2
  | CallSplitNode _ _ old node1_id neighbours1 node2_id neighbours2 =>
      node1_id ≠ "" ∧ node2_id ≠ "" ∧ node1_id ≠ node2_id
      ∧ (nodes t !! node1_id = None ∨ node1_id = old)
      ∧ (nodes t !! node2_id = None ∨ node2_id = old)
      ∧ ∀ N, nodes t !! old = Some N →
             neighbours1 ++ neighbours2 ≡ₚ neighbouring_nodes N
  end.

Inductive properly_reachable : TreeStructure → Prop :=
  | properly_reachable_empty : properly_reachable empty_tree
  | properly_reachable_call t c :
      properly_reachable t → proper_call t c → properly_reachable (after c t).

(** A chain root - a - b - c built with fresh nodes, then [b] and [c] merged
    under the identifier of the root. *)
Definition chain_calls : list call :=
  [ CallAddRoot (Node_init "" "" "root");
    CallAddChildToParent (Node_init "" "" "a") "root";
    CallAddChildToParent (Node_init "" "" "b") "a";
    CallAddChildToParent (Node_init "" "" "c") "b" ].

Definition clobbered_tree : TreeStructure :=
  run_calls (chain_calls ++ [CallCombineNodes "b" "c" "root"]) empty_tree.

(** ** node_contraction.py *)

(** The numeric kernel the contraction code calls into (numpy): the number
    of legs of an array, [np.tensordot] along one leg of each argument, which
    raises an exception when it refuses the legs (it raises [ValueError] when
    the two legs differ in size), and [np.conj]. *)
Class TensorKernel (T : Type) : Type := {
  ndim : T → Z;
  tensordot : T → T → Z → Z → exn + T;
  tensor_conj : T → T
}.

(** A node that carries its tensor.  The class itself (tensornode.py) is not
    among the sources; the attributes are the ones node_contraction.py and
    [conjugate_node] read and write: [parent_leg] is empty or
    [[parent_id, leg]], [children_legs] is a dict from child identifier to
    leg (kept in insertion order).  [is_root] and [is_parent_of] read them the
    way [Node] in node.py reads [parent] and [children]. *)
Record TensorNode (T : Type) : Type := mkTensorNode {
  tn_identifier : string;
  tn_tag : string;
  tn_tensor : T;
  parent_leg : option (string * Z);
  children_legs : list (string * Z)
}.
Arguments mkTensorNode {T}.
Arguments tn_identifier {T}.
Arguments tn_tag {T}.
Arguments tn_tensor {T}.
Arguments parent_leg {T}.
Arguments children_legs {T}.

Definition tn_is_root {T} (n : TensorNode T) : bool :=
  match parent_leg n with None => true | Some _ => false end.

Definition tn_is_parent_of {T} (other_node_id : string) (n : TensorNode T) : bool :=
  bool_decide (other_node_id ∈ (children_legs n).*1).

(** [d[key]] on an insertion-ordered dict. *)
Fixpoint dict_get {V} (key : string) (d : list (string * V)) : option V :=
  match d with
  | [] => None
  | (k, v) :: d' => if decide (k = key) then Some v else dict_get key d'
  end.

(** [d[key] = v]: overwrite in place, or append. *)
Fixpoint dict_set {V} (key : string) (v : V) (d : list (string * V)) : list (string * V) :=
  match d with
  | [] => [(key, v)]
  | (k, w) :: d' => if decide (k = key) then (k, v) :: d' else (k, w) :: dict_set key v d'
  end.

(** [d.update(e)] *)
Definition dict_update {V} (d e : list (string * V)) : list (string * V) :=
  foldl (λ acc kv, dict_set kv.1 kv.2 acc) d e.

Definition _construct_contracted_identifier (node1_id node2_id : string)
    (new_identifier : option string) : string :=
  match new_identifier with
  | None => node1_id +:+ "_contr_" +:+ node2_id
  | Some i => i
  end.

Definition _construct_contracted_tag (node1_tag node2_tag : string)
    (new_tag : option string) : string :=
  match new_tag with
  | None => node1_tag +:+ "_contr_" +:+ node2_tag
  | Some s => s
  end.

(** [find_connecting_legs]: the [assert] looks the parent identifier up in
    the [parent_leg] list of the child. *)
Definition find_connecting_legs {T} (parent child : TensorNode T) : exn + (Z * Z) :=
  let parent_id := tn_identifier parent in
  match parent_leg child with
  | None => inl AssertionError
  | Some (pid, leg_child_to_parent) =>
      if decide (pid = parent_id) then
        match dict_get (tn_identifier child) (children_legs parent) with
        | Some leg_parent_to_child => inr (leg_parent_to_child, leg_child_to_parent)
        | None => inl KeyError
        end
      else inl AssertionError
  end.

(** [_find_total_parent_leg]: when the old parent leg is the contracted leg
    neither branch assigns the result and the [return] fails. *)
Definition _find_total_parent_leg {T} (parent : TensorNode T) (offset contracted_leg : Z)
  : exn + option (string * Z) :=
  match parent_leg parent with
  | None => inr None
  | Some (total_parent_id, old_parent_leg) =>
      if decide (old_parent_leg < contracted_leg)%Z
      then inr (Some (total_parent_id, old_parent_leg + offset)%Z)
      else if decide (contracted_leg < old_parent_leg)%Z
      then inr (Some (total_parent_id, old_parent_leg + offset - 1)%Z)
      else inl UnboundLocalError
  end.

Definition _find_new_children_legs {T} (node1 node2 : TensorNode T)
    (leg_node1_to_node2 leg_node2_to_node1 num_uncontracted_legs_node1 : Z)
  : list (string * Z) :=
  let node1_children_legs :=
    filter (λ kv, (kv.2 < leg_node1_to_node2)%Z) (children_legs node1) in
  let node1_children_legs :=
    dict_update node1_children_legs
      (prod_map id (λ l, l - 1)%Z
         <$> filter (λ kv, (leg_node1_to_node2 < kv.2)%Z) (children_legs node1)) in
  let node2_children_legs :=
    prod_map id (λ l, l + num_uncontracted_legs_node1)%Z
      <$> filter (λ kv, (kv.2 < leg_node2_to_node1)%Z) (children_legs node2) in
  let node2_children_legs :=
    dict_update node2_children_legs
      (prod_map id (λ l, l + num_uncontracted_legs_node1 - 1)%Z
         <$> filter (λ kv, (leg_node2_to_node1 < kv.2)%Z) (children_legs node2)) in
  dict_update node1_children_legs node2_children_legs.

(** [contract_nodes].  The new [TensorNode] is built from the contracted
    tensor, and [open_leg_to_parent] / [open_legs_to_children] record the legs
    computed above. *)
Definition contract_nodes {T} `{TensorKernel T} (node1 node2 : TensorNode T)
    (new_tag new_identifier : option string) : exn + TensorNode T :=
  let node1_id := tn_identifier node1 in
  let node2_id := tn_identifier node2 in
  let tensor1 := tn_tensor node1 in
  let tensor2 := tn_tensor node2 in
  let num_uncontracted_legs_node1 := (ndim tensor1 - 1)%Z in
  let new_identifier :=
    _construct_contracted_identifier node1_id node2_id new_identifier in
  let new_tag := _construct_contracted_tag (tn_tag node1) (tn_tag node2) new_tag in
  '(leg_node1_to_node2, leg_node2_to_node1, new_parent_leg) ←
    (if tn_is_parent_of node2_id node1 then
       '(l12, l21) ← find_connecting_legs node1 node2;
       new_parent_leg ← _find_total_parent_leg node1 0 l12;
       inr (l12, l21, new_parent_leg)
     else if tn_is_parent_of node1_id node2 then
       '(l21, l12) ← find_connecting_legs node2 node1;
       new_parent_leg ← _find_total_parent_leg node2 num_uncontracted_legs_node1 l21;
       inr (l12, l21, new_parent_leg)
     else inl NoConnectionException);
  new_tensor ← tensordot tensor1 tensor2 leg_node1_to_node2 leg_node2_to_node1;
  let new_children_legs :=
    _find_new_children_legs node1 node2 leg_node1_to_node2 leg_node2_to_node1
      num_uncontracted_legs_node1 in
  inr {| tn_identifier := new_identifier; tn_tag := new_tag; tn_tensor := new_tensor;
         parent_leg := new_parent_leg; children_legs := new_children_legs |}.

(** [conjugate_node] (node.py): a copy with conjugated entries and
    ["conj_"] in front of identifier and tag, and, on request, in front of
    the identifiers of the neighbours. *)
Definition conjugate_node {T} `{TensorKernel T} (node : TensorNode T)
    (deep_copy conj_neighbours : bool) : TensorNode T :=
  let new_identifier := "conj_" +:+ tn_identifier node in
  let new_tag := "conj_" +:+ tn_tag node in
  let new_parent_leg :=
    if conj_neighbours
    then prod_map (λ p, "conj_" +:+ p) id <$> parent_leg node
    else parent_leg node in
  let new_children_legs :=
    if conj_neighbours
    then foldl (λ d kv, dict_set ("conj_" +:+ kv.1) kv.2 d) [] (children_legs node)
    else children_legs node in
  {| tn_identifier := new_identifier; tn_tag := new_tag;
     tn_tensor := tensor_conj (tn_tensor node);
     parent_leg := new_parent_leg; children_legs := new_children_legs |}.

(** [transfer_tensor]: the body stops after the identifier and the tag; the
    function has no [return], so the caller receives [None]. *)
Definition transfer_tensor {T} `{TensorKernel T} (node : TensorNode T)
    (new_tag new_identifier : option string) : option (TensorNode T) :=
  let conj_node := conjugate_node node true true in
  let node_id := tn_identifier node in
  let conj_node_id := tn_identifier conj_node in
  let new_identifier :=
    _construct_contracted_identifier node_id conj_node_id new_identifier in
  let new_tag := _construct_contracted_tag (tn_tag node) (tn_tag conj_node) new_tag in
  None.

(** [shape[leg]] for a tuple: a negative index counts from the end, and an
    index outside the tuple raises [IndexError]. *)
Definition tuple_index (s : list nat) (leg : Z) : exn + (nat * nat) :=
  let n := Z.of_nat (length s) in
  let i := Z.to_nat (if decide (leg < 0)%Z then leg + n else leg)%Z in
  if decide (- n ≤ leg < n)%Z
  then match s !! i with
       | Some size => inr (i, size)
       | None => inl IndexError
       end
  else inl IndexError.

(** The kernel on shapes alone: what numpy does to the shape of the arrays
    (the entries play no part in the bookkeeping of legs).  [np.tensordot]
    reads the sizes of the two legs, raises [ValueError] when they differ, and
    returns the legs of the first array without the contracted one, followed
    by those of the second. *)
Definition shape_kernel : TensorKernel (list nat) :=
  {| ndim s := Z.of_nat (length s);
     tensordot s1 s2 l1 l2 :=
       '(i1, size1) ← tuple_index s1 l1;
       '(i2, size2) ← tuple_index s2 l2;
       if decide (size1 = size2) then inr (delete i1 s1 ++ delete i2 s2)
       else inl ValueError;
     tensor_conj s := s |}.

(** ** tree_structure.py: distances and subtrees *)

(** [_distance_to_node_rec]: the distances of the nodes beyond
    [center_node_id], seen from it, as a dict in the order Python fills it.
    The recursion depth is bounded by [fuel]; Python gives up with
    [RecursionError] on a cyclic structure. *)
Fixpoint _distance_to_node_rec (fuel : nat) (t : TreeStructure)
    (center_node_id last_node_id : string) : exn + list (string * nat) :=
  match fuel with
  | 0 => inl RecursionError
  | S fuel' =>
      match nodes t !! center_node_id with
      | None => inl KeyError
      | Some n =>
          match list_remove last_node_id (neighbouring_nodes n) with
          | None => inl ValueError
          | Some neighbours =>
              foldl (λ acc node_id,
                       distance_dict ← acc;
                       neighbour_distances ←
                         _distance_to_node_rec fuel' t node_id center_node_id;
                       inr (dict_update distance_dict
                              (prod_map id S <$> neighbour_distances)))
                (inr [(center_node_id, 0)]) neighbours
          end
      end
  end.

(** [distance_to_node] *)
Definition distance_to_node (t : TreeStructure) (center_node_id : string)
  : exn + list (string * nat) :=
  match nodes t !! center_node_id with
  | None => inl KeyError
  | Some n =>
      foldl (λ acc node_id,
               distance_dict ← acc;
               neighbour_distances ←
                 _distance_to_node_rec (size (nodes t)) t node_id center_node_id;
               inr (dict_update distance_dict
                      (prod_map id S <$> neighbour_distances)))
        (inr [(center_node_id, 0)]) (neighbouring_nodes n)
  end.

(** [max(d, key=d.get)]: the first key with the largest value. *)
Fixpoint dict_argmax (d : list (string * nat)) : option (string * nat) :=
  match d with
  | [] => None
  | (k, v) :: d' =>
      match dict_argmax d' with
      | Some (k', v') => if decide (v' ≤ v)%nat then Some (k, v) else Some (k', v')
      | None => Some (k, v)
      end
  end.

(** [find_subtree_size_of_node] *)
Fixpoint find_subtree_size_of_node (fuel : nat) (t : TreeStructure) (node_id : string)
    (size : nat) : exn + nat :=
  match fuel with
  | 0 => inl RecursionError
  | S fuel' =>
      match nodes t !! node_id with
      | None => inl ValueError
      | Some current_node =>
          if is_leaf current_node then inr 1
          else
            foldl (λ acc children_id,
                     size ← acc;
                     s ← find_subtree_size_of_node fuel' t children_id 0;
                     inr (size + s))
              (inr (size + 1)) (children current_node)
      end
  end.

(** ** Numbers and arrays *)

(** Python floats are modelled by the rationals they denote, numpy's complex
    entries by pairs of rationals.  The arithmetic on the entries of arrays
    is exact; where a rounded result decides what the code does, in
    [_compute_num_time_steps], the rounding is modelled (see the
    floating-point numbers below). *)
Definition complex : Type := Qc * Qc.

Definition C_of_Q (q : Qc) : complex := (q, 0%Qc).
Definition C_of_Z (z : Z) : complex := (Q2Qc (inject_Z z), 0%Qc).
(** [1.0j] *)
Definition Ci : complex := (0%Qc, 1%Qc).
Definition Cadd (a b : complex) : complex := ((a.1 + b.1)%Qc, (a.2 + b.2)%Qc).
Definition Copp (a : complex) : complex := ((- a.1)%Qc, (- a.2)%Qc).
Definition Cmul (a b : complex) : complex :=
  ((a.1 * b.1 - a.2 * b.2)%Qc, (a.1 * b.2 + a.2 * b.1)%Qc).
Definition Cconj (a : complex) : complex := (a.1, (- a.2)%Qc).

(** A numpy array: its shape and its entries in row-major order. *)
Record ndarray : Type := mkArray {
  shape : list nat;
  data : list complex
}.


(** [a.flatten()] *)
Definition flatten (a : ndarray) : list complex := data a.

(** [np.reshape(v, newshape)] of a vector: the entries stay in order; the
    sizes have to agree. *)
Definition reshape (v : list complex) (newshape : list nat) : exn + ndarray :=
  if decide (length v = foldr Nat.mul 1 newshape)
  then inr {| shape := newshape; data := v |}
  else inl ValueError.

(** [c * a] and [a * c] for a scalar [c]: entry by entry. *)
Definition scale_left (c : complex) (a : ndarray) : ndarray :=
  {| shape := shape a; data := (λ x, Cmul c x) <$> data a |}.
Definition scale_right (a : ndarray) (c : complex) : ndarray :=
  {| shape := shape a; data := (λ x, Cmul x c) <$> data a |}.

(** ** Floating-point numbers

    A Python float is an IEEE 754 double.  A finite double is the rational it
    denotes, and a floating-point operation returns its exact result rounded
    to the nearest double, the one with the even last bit of two that are
    equally near. *)

(** [2 ** e] *)
Definition pow2 (e : Z) : Q := ((2 # 1) ^ e)%Q.
Arguments pow2 : simpl never.

(** The exponent of the leading bit of a positive number: the largest [e]
    with [2 ** e <= q]. *)
Definition ilog2 (q : Q) : Z :=
  let e := (Z.log2 (Qnum q) - Z.log2 (Z.pos (Qden q)))%Z in
  if Qle_bool (pow2 e) q then e else (e - 1)%Z.

(** The nearest integer, the even one of two that are equally near. *)
Definition round_half_even (q : Q) : Z :=
  let f := Qfloor q in
  match (q - inject_Z f ?= 1 # 2)%Q with
  | Lt => f
  | Gt => (f + 1)%Z
  | Eq => if Z.even f then f else (f + 1)%Z
  end.

(** The exponent of the last place of the double nearest to a positive
    number: 53 significant bits, and never below [2 ** -1074] (the subnormal
    numbers). *)
Definition last_place (q : Q) : Z := Z.max (ilog2 q - 52) (-1074).

(** The double nearest to a positive number, the exponent range taken as
    unbounded above. *)
Definition round_positive (q : Q) : Q :=
  (inject_Z (round_half_even (q / pow2 (last_place q))) * pow2 (last_place q))%Q.

(** The result of a floating-point operation whose exact value is [q]: the
    nearest double, or an infinity ([None]) beyond the largest double. *)
Definition to_float (q : Q) : option Qc :=
  match (q ?= 0)%Q with
  | Eq => Some (Q2Qc 0)
  | Gt => let r := round_positive q in
          if Qle_bool (pow2 1024) r then None else Some (Q2Qc r)
  | Lt => let r := round_positive (- q) in
          if Qle_bool (pow2 1024) r then None else Some (Q2Qc (- r))
  end.

(** A float literal such as [0.1]: the double nearest to the decimal
    number. *)
Definition float_of (q : Q) : Qc := default (Q2Qc 0) (to_float q).

(** [int(x)] of a float: the digits after the point are dropped. *)
Definition int_of_float (x : Qc) : Z := Z.quot (Qnum x) (Z.pos (Qden x)).

(** ** time_evolution.py *)

(** [math.modf]: fractional and integer part, both with the sign of [x]. *)
Definition modf (x : Qc) : Qc * Z :=
  let i := Z.quot (Qnum x) (Z.pos (Qden x)) in
  ((x - Q2Qc (inject_Z i))%Qc, i).

Record TimeEvolution (State Operator : Type) : Type := mkTimeEvolution {
  _intital_state : State;
  te_state : State;
  _time_step_size : Qc;
  _final_time : Qc;
  _num_time_steps : Z;
  te_operators : list Operator;
  _results : option (list (list complex))
}.
Arguments mkTimeEvolution {State Operator}.
Arguments _intital_state {State Operator}.
Arguments te_state {State Operator}.
Arguments _time_step_size {State Operator}.
Arguments _final_time {State Operator}.
Arguments _num_time_steps {State Operator}.
Arguments te_operators {State Operator}.
Arguments _results {State Operator}.

(** [_compute_num_time_steps].  The two attributes are floats (or both
    integers, whose true division Python rounds in the same way).  The
    division is a floating-point division: its result is rounded, and beyond
    the largest double it is an infinity, of which [modf] returns the parts
    [0.0] and [inf], so that [int] raises [OverflowError].  [modf] itself is
    exact, [0.1] is the double nearest to one tenth, and [integer + 1] is a
    floating-point addition. *)
Definition _compute_num_time_steps (final_time time_step_size : Qc) : exn + Z :=
  if decide (time_step_size = Q2Qc 0) then inl ZeroDivisionError
  else
    match to_float (final_time / time_step_size)%Qc with
    | None => inl OverflowError
    | Some quotient =>
        let '(decimal, integer) := modf quotient in
        if bool_decide (decimal < float_of (1 # 10))%Qc then inr integer
        else match to_float (inject_Z (integer + 1)) with
             | Some steps => inr (int_of_float steps)
             | None => inl OverflowError
             end
    end.

(** [TimeEvolution.__init__].  [operators] is one tensor product or a list
    of them. *)
Definition TimeEvolution_init {State Operator : Type} (initial_state : State)
    (time_step_size final_time : Qc) (operators : Operator + list Operator)
  : exn + TimeEvolution State Operator :=
  let state := initial_state in
  if bool_decide (time_step_size ≤ 0)%Qc then inl ValueError
  else if bool_decide (final_time ≤ 0)%Qc then inl ValueError
  else
    num_time_steps ← _compute_num_time_steps final_time time_step_size;
    inr {| _intital_state := initial_state;
           te_state := state;
           _time_step_size := time_step_size;
           _final_time := final_time;
           _num_time_steps := num_time_steps;
           te_operators := match operators with inl op => [op] | inr ops => ops end;
           _results := None |}.

(** [run_one_time_step] of the abstract class. *)
Definition run_one_time_step {State Operator : Type}
  : M (TimeEvolution State Operator) unit := raise NotImplementedError.

(** [time_evolve].  [fast_exp_action exponent vector] (util.py, not among
    the sources) returns the matrix exponential of [exponent] applied to
    [vector]; it is a parameter here.  [forward] enters the arithmetic as the
    integer 1 or 0. *)
Definition time_evolve (fast_exp_action : ndarray → list complex → list complex)
    (psi hamiltonian : ndarray) (time_difference : Qc) (forward : bool)
  : exn + ndarray :=
  let sign := (-2 * Z.b2z forward + 1)%Z in
  let exponent :=
    scale_right (scale_left (Cmul (C_of_Z sign) Ci) hamiltonian) (C_of_Q time_difference) in
  reshape (fast_exp_action exponent (flatten psi)) (shape psi).


(** ** trotter.py *)

(** The Python values a caller may put into a [splitting] list. *)
#[local] Set Warnings "-register-all".
Inductive pyval : Type :=
  | PyNone
  | PyBool (b : bool)
  | PyInt (z : Z)
  | PyFloat (q : Qc)
  | PyStr (s : string)
  | PyTuple (items : list pyval)
  | PyList (items : list pyval).

(** [isinstance(v, int)]: [bool] is a subclass of [int]. *)
Definition isinstance_int (v : pyval) : bool :=
  match v with PyInt _ | PyBool _ => true | _ => false end.
Definition isinstance_tuple (v : pyval) : bool :=
  match v with PyTuple _ => true | _ => false end.

(** A list of symbolic SWAP gates; each entry names the nodes to swap. *)
Definition SWAPlist : Type := list (list string).

(** [for pair in swap_list: if not len(pair) == 2: raise ValueError] *)
Fixpoint check_swap_pairs (swap_list : list (list string)) : exn + unit :=
  match swap_list with
  | [] => inr tt
  | swap_pair :: rest =>
      if negb (bool_decide (length swap_pair = 2)) then inl ValueError
      else check_swap_pairs rest
  end.

(** [SWAPlist.__init__]: the loop runs before the test for [None], and
    iterating [None] is a [TypeError]. *)
Definition SWAPlist_init (swap_list : option (list (list string))) : exn + SWAPlist :=
  match swap_list with
  | None => inl TypeError
  | Some l => check_swap_pairs l
  end;;
  let swap_list := match swap_list with None => [] | Some l => l end in
  inr swap_list.

Record TrotterStep (TensorProduct : Type) : Type := mkTrotterStep {
  ts_operator : TensorProduct;
  ts_factor : Qc;
  ts_swaps_before : SWAPlist;
  ts_swaps_after : SWAPlist
}.
Arguments mkTrotterStep {TensorProduct}.

(** [TrotterStep.__init__] *)
Definition TrotterStep_init {TensorProduct : Type} (operator : TensorProduct)
    (factor : Qc) (swaps_before swaps_after : option SWAPlist)
  : exn + TrotterStep TensorProduct :=
  sb ← match swaps_before with
       | None => SWAPlist_init None
       | Some l => inr l
       end;
  sa ← match swaps_after with
       | None => SWAPlist_init None
       | Some l => inr l
       end;
  inr {| ts_operator := operator; ts_factor := factor;
         ts_swaps_before := sb; ts_swaps_after := sa |}.

Record TrotterSplitting (TensorProduct : Type) : Type := mkTrotterSplitting {
  tensor_products : list TensorProduct;
  splitting : list pyval;
  tsp_swaps_before : list SWAPlist;
  tsp_swaps_after : list SWAPlist
}.
Arguments mkTrotterSplitting {TensorProduct}.

(** The loop over a given [splitting]: an [int] becomes the pair
    [(item, 1)], a tuple is kept, anything else is refused. *)
Fixpoint normalise_splitting (items : list pyval) (acc : list pyval) : exn + list pyval :=
  match items with
  | [] => inr acc
  | item :: items' =>
      if isinstance_int item
      then normalise_splitting items' (acc ++ [PyTuple [item; PyInt 1]])
      else if isinstance_tuple item
      then normalise_splitting items' (acc ++ [item])
      else inl TypeError
  end.

(** [TrotterSplitting.__init__] *)
Definition TrotterSplitting_init {TensorProduct : Type}
    (tensor_products : list TensorProduct) (splitting : option (list pyval))
    (swaps_before swaps_after : option (list SWAPlist))
  : exn + TrotterSplitting TensorProduct :=
  splitting ←
    match splitting with
    | None =>
        inr ((λ index, PyTuple [PyInt (Z.of_nat index); PyInt 1])
               <$> seq 0 (length tensor_products))
    | Some items => normalise_splitting items []
    end;
  swaps_before ←
    match swaps_before with
    | None => sw ← SWAPlist_init (Some []); inr (replicate (length splitting) sw)
    | Some l => inr l
    end;
  swaps_after ←
    match swaps_after with
    | None => sw ← SWAPlist_init (Some []); inr (replicate (length splitting) sw)
    | Some l => inr l
    end;
  inr {| tensor_products := tensor_products; splitting := splitting;
         tsp_swaps_before := swaps_before; tsp_swaps_after := swaps_after |}.

(** ** The TDVP engine *)

(** Modelled from the spec: the state container (ttns.py) is not among the
    sources.  It holds the topology, one tensor per node and the
    orthogonality center; the fields are those of section 3 ("owns one tensor
    per tree node plus one scalar orthogonality center identifier"). *)
Record TTNS : Type := mkTTNS {
  ttns_tree : TreeStructure;
  tensors : gmap string ndarray;
  orthogonality_center_id : option string
}.

(** Modelled from the spec: the engine class (tdvp.py) is not among the
    sources.  It holds the state, the Hamiltonian, the cache of partial
    contractions, the step size and the two planned paths; the fields are
    those of sections 2 and 3. *)
Record TDVP : Type := mkTDVP {
  tdvp_state : TTNS;
  hamiltonian : gmap string ndarray;
  partial_tree_cache : gmap (string * string) ndarray;
  time_step_size : Qc;
  update_path : list string;
  orthogonalization_path : list (list string)
}.

Definition set_tdvp_state (f : TTNS → TTNS) (e : TDVP) : TDVP :=
  {| tdvp_state := f (tdvp_state e); hamiltonian := hamiltonian e;
     partial_tree_cache := partial_tree_cache e; time_step_size := time_step_size e;
     update_path := update_path e; orthogonalization_path := orthogonalization_path e |}.

Definition set_cache (f : gmap (string * string) ndarray → gmap (string * string) ndarray)
    (e : TDVP) : TDVP :=
  {| tdvp_state := tdvp_state e; hamiltonian := hamiltonian e;
     partial_tree_cache := f (partial_tree_cache e); time_step_size := time_step_size e;
     update_path := update_path e; orthogonalization_path := orthogonalization_path e |}.

Definition set_tensor (node_id : string) (a : ndarray) (s : TTNS) : TTNS :=
  {| ttns_tree := ttns_tree s; tensors := <[node_id := a]> (tensors s);
     orthogonality_center_id := orthogonality_center_id s |}.

Definition set_center (c : option string) (s : TTNS) : TTNS :=
  {| ttns_tree := ttns_tree s; tensors := tensors s; orthogonality_center_id := c |}.

(** Run a state-container method on the state of the engine. *)
Definition on_state {A} (m : M TTNS A) : M TDVP A :=
  λ e, match m (tdvp_state e) with
       | (r, s') => (r, set_tdvp_state (λ _, s') e)
       end.

(** Modelled from the spec: the numeric kernels (util.py, the contraction
    modules) and the methods of the state container (ttns.py) are not among
    the sources.  The engine consumes them through the interface of
    section 6; they are taken as parameters. *)
Class TDVPKernel : Type := {
  (** [exp(exponent) @ vector] *)
  fast_exp_action : ndarray → list complex → list complex;
  (** [move_orthogonalization_center(target, mode)] *)
  move_orthogonalization_center : string → M TTNS unit;
  (** [split_node_qr(id, legs_q, legs_r, q_id, r_id, mode)], the legs being
      those towards the neighbour [towards] *)
  split_node_qr : string → string → string → string → M TTNS unit;
  (** [contract_nodes(id_a, id_b, new_id)] *)
  ttns_contract_nodes : string → string → string → M TTNS unit;
  (** the contraction of a node, its Hamiltonian tensor, its conjugate and
      the cached blocks of its other neighbours, away from [next] *)
  contract_any : string → string → TTNS → gmap string ndarray →
                 gmap (string * string) ndarray → exn + ndarray;
  (** section 4.4 *)
  effective_site_hamiltonian : TDVP → string → exn + ndarray;
  effective_link_hamiltonian : TDVP → string → string → exn + ndarray
}.

(** *** The cache (section 4.3) *)

(** Modelled from the spec: the cache class is not among the sources.
    [get_entry(A,B)] returns the cached tensor or fails with a lookup
    error. *)
Definition get_entry (a b : string) : M TDVP ndarray :=
  λ e, match partial_tree_cache e !! (a, b) with
       | Some x => (inr x, e)
       | None => (inl KeyError, e)
       end.

(** Modelled from the spec: the cache class is not among the sources.
    [add_entry(A,B,tensor)] inserts or overwrites. *)
Definition add_entry (a b : string) (x : ndarray) : M TDVP unit :=
  modify (set_cache (insert (a, b) x)).

(** Modelled from the spec: the cache class is not among the sources.
    [contains(A,B)]. *)
Definition cache_contains (a b : string) (e : TDVP) : bool :=
  bool_decide (is_Some (partial_tree_cache e !! (a, b))).

(** *** The update state machine (section 4.5)

    The methods below are those of tdvp.py that the tests in test_tdvp.py
    call; each follows the numbered steps of section 4.5 and its error
    conditions, with [AssertionError] as the state error the tests expect. *)

(** Modelled from the spec: tdvp.py is not among the sources.  The identifier
    of the transient link tensor, in the form the tests read it back. *)
Definition create_link_id (node_id next_node_id : string) : string :=
  "link_" +:+ node_id +:+ "_with_" +:+ next_node_id.

(** Modelled from the spec: the state container (ttns.py) is not among the
    sources.  [tensors[id]], read. *)
Definition the_tensor (node_id : string) : M TDVP ndarray :=
  λ e, match tensors (tdvp_state e) !! node_id with
       | Some x => (inr x, e)
       | None => (inl KeyError, e)
       end.

(** Modelled from the spec: tdvp.py is not among the sources.  The
    orthogonality center has to be at [node_id]; otherwise the operation
    fails with the state error and nothing is moved. *)
Definition assert_center (node_id : string) : M TDVP unit :=
  λ e, if decide (orthogonality_center_id (tdvp_state e) = Some node_id)
       then (inr tt, e) else (inl AssertionError, e).

Section tdvp.
Context `{TDVPKernel}.

(** Modelled from the spec: tdvp.py is not among the sources.  Cache Update:
    recompute the entry [(node_id, next_node_id)]. *)
Definition update_tree_cache (node_id next_node_id : string) : M TDVP unit :=
  e ← get;
  x ← lift (contract_any node_id next_node_id (tdvp_state e) (hamiltonian e)
              (partial_tree_cache e));
  add_entry node_id next_node_id x.

(** Modelled from the spec: tdvp.py is not among the sources.  Step 1,
    Site-Update: with the center at [node_id], build the effective site
    Hamiltonian and evolve the tensor forward in time. *)
Definition _update_site (node_id : string) (time_step_factor : Qc) : M TDVP unit :=
  assert_center node_id;;
  e ← get;
  hamiltonian_eff_site ← lift (effective_site_hamiltonian e node_id);
  psi ← the_tensor node_id;
  psi' ← lift (time_evolve fast_exp_action psi hamiltonian_eff_site
                 (time_step_size e * time_step_factor)%Qc true);
  modify (set_tdvp_state (set_tensor node_id psi')).

(** Modelled from the spec: tdvp.py is not among the sources.  Steps 2 and
    3, Split and Cache Update; a non-adjacent pair is refused with the
    "no connection" error. *)
Definition _split_updated_site (node_id next_node_id : string) : M TDVP unit :=
  e ← get;
  match nodes (ttns_tree (tdvp_state e)) !! node_id with
  | None => raise KeyError
  | Some node =>
      if is_parent_of next_node_id node || is_child_of next_node_id node
      then
        on_state (split_node_qr node_id next_node_id node_id
                    (create_link_id node_id next_node_id));;
        update_tree_cache node_id next_node_id
      else raise NoConnectionException
  end.

(** Modelled from the spec: tdvp.py is not among the sources.  Step 4, Link
    Evolution: evolve the link tensor backward in time with the effective
    link Hamiltonian. *)
Definition _time_evolve_link_tensor (node_id next_node_id : string)
    (time_step_factor : Qc) : M TDVP unit :=
  let link_id := create_link_id node_id next_node_id in
  e ← get;
  hamiltonian_eff_link ← lift (effective_link_hamiltonian e node_id next_node_id);
  link_tensor ← the_tensor link_id;
  link_tensor' ← lift (time_evolve fast_exp_action link_tensor hamiltonian_eff_link
                         (time_step_size e * time_step_factor)%Qc false);
  modify (set_tdvp_state (set_tensor link_id link_tensor')).

(** Modelled from the spec: tdvp.py is not among the sources.  Steps 2 to 5
    for one link: with the center at [node_id], split, evolve the link, merge
    it into the next node, which becomes the orthogonality center. *)
Definition _update_link (node_id next_node_id : string) (time_step_factor : Qc)
  : M TDVP unit :=
  assert_center node_id;;
  _split_updated_site node_id next_node_id;;
  _time_evolve_link_tensor node_id next_node_id time_step_factor;;
  let link_id := create_link_id node_id next_node_id in
  on_state (ttns_contract_nodes link_id next_node_id next_node_id);;
  modify (set_tdvp_state (set_center (Some next_node_id))).

(** Modelled from the spec: tdvp.py is not among the sources.  Move the
    center node by node and refresh the cache entry behind each move. *)
Fixpoint move_along (previous : string) (rest : list string) : M TDVP unit :=
  match rest with
  | [] => mret tt
  | node_id :: rest' =>
      on_state (move_orthogonalization_center node_id);;
      update_tree_cache previous node_id;;
      move_along node_id rest'
  end.

(** Modelled from the spec: tdvp.py is not among the sources.  Move the
    center along [path], which has to start at the center; an empty path
    does nothing. *)
Definition _move_orth_and_update_cache_for_path (path : list string) : M TDVP unit :=
  match path with
  | [] => mret tt
  | first :: rest =>
      assert_center first;;
      move_along first rest
  end.
End tdvp.

(** ** The path planners of the TDVP engine (sections 4.1 and 4.2)

    Modelled from the spec: tdvp.py, with [_find_tdvp_update_path],
    [_find_tdvp_orthogonalization_path] and [_find_caching_path], is not among
    the sources.  The planners below follow sections 3, 4.1 and 4.2 in the
    reading the tests of test_tdvp.py fix on the 3-node and the 8-node tree:
    the sweep starts at the leaf farthest from the root (the first such leaf
    in the order of [distance_to_node]), climbs to the root taking every side
    branch children-first, and then descends from the root to a last leaf,
    again taking side branches children-first before the node they hang off. *)

(** The topology as the planner walks it: a node and its ordered subtrees. *)
Inductive rtree : Type :=
  | RNode (rid : string) (rchildren : list rtree).

Definition rid (rt : rtree) : string := match rt with RNode i _ => i end.
Definition rchildren (rt : rtree) : list rtree := match rt with RNode _ cs => cs end.

(** Read the subtree below [node_id] off the dict of nodes. *)
Fixpoint unfold_tree (fuel : nat) (t : TreeStructure) (node_id : string) : option rtree :=
  match fuel with
  | 0 => None
  | S fuel' =>
      n ← nodes t !! node_id;
      cs ← mapM (unfold_tree fuel' t) (children n);
      Some (RNode node_id cs)
  end.

Definition topology (t : TreeStructure) : option rtree :=
  r ← root_id t; unfold_tree (size (nodes t)) t r.

(** All identifiers, a node before its subtrees. *)
Fixpoint ids (rt : rtree) : list string :=
  match rt with
  | RNode i cs => i :: concat (ids <$> cs)
  end.

(** The number of edges down to the deepest leaf. *)
Fixpoint height (rt : rtree) : nat :=
  match rt with
  | RNode _ cs => foldr (λ c acc, S (height c) `max` acc) 0 cs
  end.

(** A whole branch, children first. *)
Fixpoint post_order (rt : rtree) : list string :=
  match rt with
  | RNode i cs => concat (post_order <$> cs) ++ [i]
  end.

(** The position of the first maximum: the subtree holding the first of the
    farthest leaves. *)
Fixpoint first_max (hs : list nat) : option nat :=
  match hs with
  | [] => None
  | h :: hs' =>
      match first_max hs' with
      | None => Some 0
      | Some k => if decide (default 0 (hs' !! k) ≤ h)%nat then Some 0 else Some (S k)
      end
  end.

(** Modelled from the spec: tdvp.py is not among the sources.  From the
    farthest leaf of a subtree up to its top: the branch the sweep comes from
    first, then the other branches, then the node. *)
Fixpoint up_sweep (rt : rtree) : list string :=
  match rt with
  | RNode i cs =>
      match first_max (height <$> cs) with
      | None => [i]
      | Some k =>
          default [] ((up_sweep <$> cs) !! k)
          ++ concat (delete k (post_order <$> cs)) ++ [i]
      end
  end.

(** Modelled from the spec: tdvp.py is not among the sources.  From the top
    of a subtree down to its farthest leaf: the side branches, then the node,
    then the branch the sweep continues into. *)
Fixpoint down_sweep (rt : rtree) : list string :=
  match rt with
  | RNode i cs =>
      match first_max (height <$> cs) with
      | None => [i]
      | Some k =>
          concat (delete k (post_order <$> cs)) ++ [i]
          ++ default [] ((down_sweep <$> cs) !! k)
      end
  end.

(** Modelled from the spec: [_find_tdvp_update_path] (tdvp.py) is not among
    the sources.  [update_path]: up from the farthest leaf to the root, then
    down into the branch holding the farthest leaf not visited yet. *)
Definition find_update_path (rt : rtree) : list string :=
  match rt with
  | RNode r cs =>
      match first_max (height <$> cs) with
      | None => [r]
      | Some k =>
          let up := default [] ((up_sweep <$> cs) !! k) in
          let others := delete k cs in
          match first_max (height <$> others) with
          | None => up ++ [r]
          | Some j =>
              up ++ concat (delete j (post_order <$> others)) ++ [r]
              ++ default [] ((down_sweep <$> others) !! j)
          end
      end
  end.

(** The identifiers from the top of [rt] down to [target]. *)
Fixpoint root_path (rt : rtree) (target : string) : option (list string) :=
  match rt with
  | RNode i cs =>
      if decide (i = target) then Some [i]
      else
        (fix along (cs : list rtree) : option (list string) :=
           match cs with
           | [] => None
           | c :: cs' =>
               match root_path c target with
               | Some p => Some (i :: p)
               | None => along cs'
               end
           end) cs
  end.

(** Drop the common prefix of two root paths, keeping the last common node. *)
Fixpoint fork (pa pb : list string) (last : option string)
  : option string * list string * list string :=
  match pa, pb with
  | a :: pa', b :: pb' =>
      if decide (a = b) then fork pa' pb' (Some a) else (last, pa, pb)
  | _, _ => (last, pa, pb)
  end.

(** [path_from_to(a, b)]: up from [a] to the last common ancestor, down to
    [b]. *)
Definition path_from_to (rt : rtree) (a b : string) : option (list string) :=
  pa ← root_path rt a;
  pb ← root_path rt b;
  let '(last, ra, rb) := fork pa pb None in
  Some (reverse ra ++ option_list last ++ rb).

(** Modelled from the spec: [_find_tdvp_orthogonalization_path] (tdvp.py) is
    not among the sources.  [orthogonalization_path]: for each move of the
    update path the nodes the center passes, without the source and with the
    destination. *)
Fixpoint find_orthogonalization_path (rt : rtree) (update_path : list string)
  : list (list string) :=
  match update_path with
  | a :: ((b :: _) as rest) =>
      drop 1 (default [] (path_from_to rt a b)) :: find_orthogonalization_path rt rest
  | _ => []
  end.

(** The subtree with identifier [node_id]. *)
Fixpoint find_subtree (rt : rtree) (node_id : string) : option rtree :=
  match rt with
  | RNode i cs =>
      if decide (i = node_id) then Some rt
      else
        (fix among (cs : list rtree) : option rtree :=
           match cs with
           | [] => None
           | c :: cs' =>
               match find_subtree c node_id with
               | Some s => Some s
               | None => among cs'
               end
           end) cs
  end.

(** Modelled from the spec: tdvp.py is not among the sources.  The recursion
    of the caching planner: the branches off the initial path first, each
    pointing at the node they hang off, then the node. *)
Fixpoint caching_branch (initial_path : list string) (rt : rtree)
  : list string * list (string * string) :=
  match rt with
  | RNode i cs =>
      let '(path, next) :=
        (fix branches (cs : list rtree) : list string * list (string * string) :=
           match cs with
           | [] => ([], [])
           | c :: cs' =>
               if decide (rid c ∈ initial_path) then branches cs'
               else
                 let '(p, d) := caching_branch initial_path c in
                 let '(p', d') := branches cs' in
                 (p ++ p', dict_update (dict_set (rid c) i d) d')
           end) cs in
      (path ++ [i], next)
  end.

(** Modelled from the spec: tdvp.py is not among the sources.  The walk of
    the caching planner from the root to the first node of the update path;
    every node on the way points at the next one. *)
Fixpoint caching_walk (rt : rtree) (initial_path walk : list string)
  : list string * list (string * string) :=
  match walk with
  | [] => ([], [])
  | node_id :: walk' =>
      let '(p, d) := match find_subtree rt node_id with
                     | Some s => caching_branch initial_path s
                     | None => ([], [])
                     end in
      let d := match walk' with
               | next :: _ => dict_set node_id next d
               | [] => d
               end in
      let '(p', d') := caching_walk rt initial_path walk' in
      (p ++ p', dict_update d d')
  end.

(** Modelled from the spec: [_find_caching_path] (tdvp.py) is not among the
    sources.  The caching path and the next-node dict, both computed along
    the way from the root to the first node of the update path. *)
Definition find_caching_path (rt : rtree) (update_path : list string)
  : list string * list (string * string) :=
  match update_path with
  | [] => ([], [])
  | first :: _ =>
      let initial_path := default [] (root_path rt first) in
      caching_walk rt initial_path initial_path
  end.

(** Parents paired with their children. *)
Fixpoint family (rt : rtree) : list (string * string) :=
  match rt with
  | RNode i cs => ((λ c, (i, rid c)) <$> cs) ++ concat (family <$> cs)
  end.

(** Does [path] visit every node with children after all of them? *)
Definition children_first (rt : rtree) (path : list string) : bool :=
  forallb (λ pc, match list_index pc.1 path, list_index pc.2 path with
                 | Some ip, Some ic => bool_decide (ic < ip)%nat
                 | _, _ => false
                 end) (family rt).

(** The trees of the tests: the chain c1 - root - c2 built as the fixture
    builds it, and the tree on eight sites. *)
Definition chain_tree : TreeStructure :=
  run_calls [ CallAddRoot (Node_init "" "" "root");
              CallAddChildToParent (Node_init "" "" "c1") "root";
              CallAddChildToParent (Node_init "" "" "c2") "root" ] empty_tree.

Definition chain : rtree := RNode "root" [RNode "c1" []; RNode "c2" []].

Definition big_tree : rtree :=
  RNode "site0"
    [ RNode "site1"
        [ RNode "site2" [];
          RNode "site3" [RNode "site4" []; RNode "site5" []] ];
      RNode "site6" [RNode "site7" []] ].

(** ** The order of the update path *)

(** The way a sweep goes down a subtree: from its top into the branch that
    holds the farthest leaf, and so on to a leaf. *)
Fixpoint down_chain (rt : rtree) : list string :=
  match rt with
  | RNode i cs =>
      match first_max (height <$> cs) with
      | None => [i]
      | Some k => i :: default [] ((down_chain <$> cs) !! k)
      end
  end.

(** The final descent of the update path: the root, and, when the root has
    two children or more, the way down the branch the path ends in. *)
Definition descent (rt : rtree) : list string :=
  match rt with
  | RNode r cs =>
      match first_max (height <$> cs) with
      | None => [r]
      | Some k =>
          let others := delete k cs in
          match first_max (height <$> others) with
          | None => [r]
          | Some j => r :: default [] ((down_chain <$> others) !! j)
          end
      end
  end.

(** The pairs of consecutive entries of a list. *)
Definition steps (l : list string) : list (string * string) := zip l (drop 1 l).

(** [a] comes before [b] in [path]. *)
Definition before (path : list string) (a b : string) : Prop :=
  ∃ i j, path !! i = Some a ∧ path !! j = Some b ∧ (i < j)%nat.

(** ** Engines for examples *)

(** A kernel for running the engine on examples: evolution under the zero
    Hamiltonian ([exp(0) v = v]), a state container whose moves and
    contractions keep the tensors, and effective Hamiltonians that are the
    1 x 1 zero matrix. *)
Definition rest_kernel : TDVPKernel :=
  {| fast_exp_action _ v := v;
     move_orthogonalization_center target := modify (set_center (Some target));
     split_node_qr _ _ _ _ := mret tt;
     ttns_contract_nodes _ _ _ := mret tt;
     contract_any _ _ _ _ _ := inr {| shape := [1]; data := [C_of_Z 0] |};
     effective_site_hamiltonian _ _ := inr {| shape := [1; 1]; data := [C_of_Z 0] |};
     effective_link_hamiltonian _ _ _ := inr {| shape := [1; 1]; data := [C_of_Z 0] |} |}.

(** The engine of the tests at rest: the chain, a tensor on every site and on
    the link between c1 and the root, the center at c1. *)
Definition unit_tensor : ndarray := {| shape := [1]; data := [C_of_Z 1] |}.

Definition chain_engine : TDVP :=
  {| tdvp_state :=
       {| ttns_tree := chain_tree;
          tensors := {[ "c1" := unit_tensor; "root" := unit_tensor; "c2" := unit_tensor;
                        create_link_id "c1" "root" := unit_tensor ]};
          orthogonality_center_id := Some "c1" |};
     hamiltonian := {[ "c1" := unit_tensor; "root" := unit_tensor; "c2" := unit_tensor ]};
     partial_tree_cache := ∅;
     time_step_size := Q2Qc (1 # 10);
     update_path := ["c1"; "root"; "c2"];
     orthogonalization_path := [["root"]; ["c2"]] |}.






(** The trees of test_ttn.py. *)
Definition basics_calls : list call :=
  [ CallAddRoot (Node_init "" "" "orig_root");
    CallAddChildToParent (Node_init "" "" "child1") "orig_root";
    CallAddChildToParent (Node_init "" "" "child2") "child1" ].

Definition nine_nodes : TreeStructure :=
  run_calls
    [ CallAddRoot (Node_init "" "" "id1");
      CallAddChildToParent (Node_init "" "" "id2") "id1";
      CallAddChildToParent (Node_init "" "" "id3") "id2";
      CallAddChildToParent (Node_init "" "" "id4") "id3";
      CallAddChildToParent (Node_init "" "" "id5") "id2";
      CallAddChildToParent (Node_init "" "" "id6") "id5";
      CallAddChildToParent (Node_init "" "" "id7") "id5";
      CallAddChildToParent (Node_init "" "" "id8") "id1";
      CallAddChildToParent (Node_init "" "" "id9") "id8" ] empty_tree.

(** Parent and children of a node of a tree. *)
Definition links (t : TreeStructure) (node_id : string)
  : option (option string * list string) :=
  n ← nodes t !! node_id; Some (parent n, children n).

(** The tree on eight sites as the fixture of the tests builds it. *)
Definition eight_sites : TreeStructure :=
  run_calls
    [ CallAddRoot (Node_init "" "" "site0");
      CallAddChildToParent (Node_init "" "" "site1") "site0";
      CallAddChildToParent (Node_init "" "" "site2") "site1";
      CallAddChildToParent (Node_init "" "" "site3") "site1";
      CallAddChildToParent (Node_init "" "" "site4") "site3";
      CallAddChildToParent (Node_init "" "" "site5") "site3";
      CallAddChildToParent (Node_init "" "" "site6") "site0";
      CallAddChildToParent (Node_init "" "" "site7") "site6" ] empty_tree.

(** ** Notions for stating properties of trees *)

(** The node reached from [node_id] by following the parent field [i]
    times. *)
Fixpoint nth_parent (t : TreeStructure) (i : nat) (node_id : string) : option string :=
  match i with
  | 0 => Some node_id
  | S i' =>
      match nodes t !! node_id with
      | Some n =>
          match parent n with
          | Some p => nth_parent t i' p
          | None => None
          end
      | None => None
      end
  end.

(** The list without the first occurrence of [x], if there is one. *)
Definition without (x : string) (l : list string) : list string :=
  default l (list_remove x l).

(** A reference to a node, after the nodes [a] and [b] were merged into
    [new]. *)
Definition renamed (a b new : string) (x : string) : string :=
  if decide (x = a ∨ x = b) then new else x.

(** A node whose references to [a] and [b] are renamed to [new]. *)
Definition rename_node (a b new : string) (n : Node) : Node :=
  {| identifier := identifier n; tag := tag n;
     parent := renamed a b new <$> parent n;
     children := renamed a b new <$> children n |}.

(** The choice [split_node] makes: the first new node becomes the upper one
    when the old node is the root or its parent is among [neighbours1]. *)
Definition first_is_upper (N : Node) (neighbours1 : list string) : bool :=
  is_root N || bool_decide (parent N ∈ (Some <$> neighbours1)).

(** A neighbour list without the parent of [N]. *)
Definition without_parent (N : Node) (l : list string) : list string :=
  match parent N with
  | Some q => without q l
  | None => l
  end.

(** ** Notions for stating properties of the leg bookkeeping *)

(** The legs a tensor node has given away: the leg to the parent, then the
    legs to the children. *)
Definition connected_legs {T} (n : TensorNode T) : list Z :=
  option_list (snd <$> parent_leg n) ++ (children_legs n).*2.

(** A consistent leg assignment: the children are named once, no leg is given
    away twice, and every leg is a leg of the tensor. *)
Definition legs_valid {T} `{TensorKernel T} (n : TensorNode T) : Prop :=
  NoDup (children_legs n).*1
  ∧ NoDup (connected_legs n)
  ∧ Forall (λ l, 0 ≤ l < ndim (tn_tensor n))%Z (connected_legs n).

(** Where [np.tensordot] along one leg of each argument puts the remaining
    legs: those of the first tensor in order, then those of the second. *)
Definition leg_of_first (contracted : Z) (l : Z) : Z :=
  if decide (l < contracted)%Z then l else (l - 1)%Z.
Definition leg_of_second (ndim1 contracted : Z) (l : Z) : Z :=
  if decide (l < contracted)%Z then (l + (ndim1 - 1))%Z else (l + (ndim1 - 1) - 1)%Z.

(** ** tree_structure.py: neighbours and leaves *)

(** A Python dict is iterated in the order in which its keys were inserted;
    the map of nodes does not record that order, so the functions that
    iterate over [self._nodes] take it as the argument [order]. *)

(** [nearest_neighbours]: all (parent, child) pairs. *)
Definition nearest_neighbours (order : list string) (t : TreeStructure)
  : list (string * string) :=
  order ≫= (λ node_id,
    match nodes t !! node_id with
    | Some current_node => (λ child_id, (node_id, child_id)) <$> children current_node
    | None => []
    end).

(** [get_leaves]: the identifiers of the nodes without children. *)
Definition get_leaves (order : list string) (t : TreeStructure) : list string :=
  omap (λ node_id,
          match nodes t !! node_id with
          | Some node => if is_leaf node then Some node_id else None
          | None => None
          end) order.

(** [__len__] *)
Definition len (t : TreeStructure) : nat := size (nodes t).

(** ** common_operators.py *)

(** [swap_gate].  The two loops run over [range(dimension**2)]; the indices
    are natural numbers, and [int(i / dimension)] is their quotient (the
    float division is exact for every index an array can have). *)
Definition swap_gate (dimension : Z) : exn + list (list complex) :=
  if decide (dimension < 1)%Z then inl ValueError
  else
    let d := Z.to_nat dimension in
    inr ((λ i,
            (λ j,
               let output_sys1 := (i / d)%nat in
               let output_sys2 := (i mod d)%nat in
               let input_sys1 := (j / d)%nat in
               let input_sys2 := (j mod d)%nat in
               if bool_decide (output_sys1 = input_sys2) && bool_decide (input_sys1 = output_sys2)
               then C_of_Z 1 else C_of_Z 0)
            <$> seq 0 (Z.to_nat (dimension ^ 2)))
           <$> seq 0 (Z.to_nat (dimension ^ 2))).

(** *** Notions for stating what the operators do *)

(** The scalar product of a row with a vector, a matrix applied to a vector
    ([m @ v]) and the Kronecker product of two vectors ([np.kron]). *)
Definition dot (a b : list complex) : complex :=
  foldr Cadd (C_of_Z 0) (zip_with Cmul a b).

Definition matvec (m : list (list complex)) (v : list complex) : list complex :=
  (λ row, dot row v) <$> m.

Definition kron (u v : list complex) : list complex :=
  u ≫= (λ a, Cmul a <$> v).

(** Two-dimensional arrays as lists of rows: [m.T], [m.conj()], [a + b] for
    arrays of one shape and [c * m] for a scalar [c]. *)
Definition transpose (m : list (list complex)) : list (list complex) :=
  (λ j, (λ row, default (C_of_Z 0) (row !! j)) <$> m) <$> seq 0 (length (default [] (head m))).

Definition mat_conj (m : list (list complex)) : list (list complex) :=
  (λ row : list complex, Cconj <$> row) <$> m.

Definition mat_add (a b : list (list complex)) : list (list complex) :=
  zip_with (zip_with Cadd) a b.

Definition mat_scale (c : complex) (m : list (list complex)) : list (list complex) :=
  (λ row : list complex, Cmul c <$> row) <$> m.

(** [random_hermitian_matrix].  [crandn] (util.py) is not among the sources;
    [drawn i j] stands for the entry [(i, j)] of the [size] x [size] array
    that the call [crandn((size, size))] returns. *)
Definition random_hermitian_matrix (drawn : nat → nat → complex) (size : Z)
  : exn + list (list complex) :=
  if decide (size < 1)%Z then inl ValueError
  else
    let n := Z.to_nat size in
    let matrix := (λ i, drawn i <$> seq 0 n) <$> seq 0 n in
    inr (mat_scale (Q2Qc (1 # 2), 0%Qc) (mat_add matrix (mat_conj (transpose matrix)))).

(** ** time_evolution.py: running a time evolution *)

Section run.
Context {State Operator : Type}.

(** What a concrete algorithm and the state supply: [run_one_time_step] of
    the subclass, taken as a function of the state it evolves, and
    [state.operator_expectation_value] (ttns.py is not among the sources). *)
Variable one_time_step : State → exn + State.
Variable operator_expectation_value : State → Operator → exn + complex.

Definition set_te_state (s : State) (te : TimeEvolution State Operator)
  : TimeEvolution State Operator :=
  {| _intital_state := _intital_state te; te_state := s;
     _time_step_size := _time_step_size te; _final_time := _final_time te;
     _num_time_steps := _num_time_steps te; te_operators := te_operators te;
     _results := _results te |}.

Definition set_results (r : option (list (list complex))) (te : TimeEvolution State Operator)
  : TimeEvolution State Operator :=
  {| _intital_state := _intital_state te; te_state := te_state te;
     _time_step_size := _time_step_size te; _final_time := _final_time te;
     _num_time_steps := _num_time_steps te; te_operators := te_operators te;
     _results := r |}.

(** The property [results]. *)
Definition results : M (TimeEvolution State Operator) (list (list complex)) :=
  te ← get;
  match _results te with
  | None => raise AssertionError
  | Some r => mret r
  end.

(** [reset_to_initial_state] *)
Definition reset_to_initial_state : M (TimeEvolution State Operator) unit :=
  modify (λ te, set_te_state (_intital_state te) te).

(** [self.run_one_time_step()] of the subclass. *)
Definition run_step : M (TimeEvolution State Operator) unit :=
  te ← get;
  s ← lift (one_time_step (te_state te));
  put (set_te_state s te).

(** The loop of [evaluate_operators] over the operators. *)
Fixpoint expectation_values (s : State) (ops : list Operator) : exn + list complex :=
  match ops with
  | [] => inr []
  | tensor_product :: ops' =>
      exp_val ← operator_expectation_value s tensor_product;
      rest ← expectation_values s ops';
      inr (exp_val :: rest)
  end.

Definition evaluate_operators : M (TimeEvolution State Operator) (list complex) :=
  te ← get;
  lift (expectation_values (te_state te) (te_operators te)).

(** [_init_results].  [evaluation_time] is a positive number of steps (zero
    and negative values are not modelled); a negative number of columns makes
    [np.zeros] raise [ValueError]. *)
Definition _init_results (evaluation_time : positive)
  : M (TimeEvolution State Operator) unit :=
  te ← get;
  let columns := (_num_time_steps te `div` Z.pos evaluation_time + 1)%Z in
  if decide (columns < 0)%Z then raise ValueError
  else put (set_results
              (Some (replicate (length (te_operators te) + 1)
                       (replicate (Z.to_nat columns) (C_of_Z 0)))) te).

(** [self._results[0:-1, index] = current_results] followed by
    [self._results[-1, index] = time]: the column [index] receives the
    values, its last entry the time.  [index] is a column of the array
    whenever it is reached (it is at most [num_time_steps // evaluation_time]),
    so numpy's [IndexError] does not arise; [current_results] has one entry
    for each row but the last, as [evaluate_operators] returns it. *)
Definition record_column (index : nat) (current_results : list complex) (time : complex)
    (r : list (list complex)) : list (list complex) :=
  let last := (length r - 1)%nat in
  imap (λ row line,
          if decide (row = last) then <[index := time]> line
          else match current_results !! row with
               | Some x => <[index := x]> line
               | None => line
               end) r.

(** One round of the loop of [run], for the step counter [i]. *)
Definition run_round (evaluation_time : positive) (i : nat)
  : M (TimeEvolution State Operator) unit :=
  (if decide (i ≠ 0%nat) then run_step else mret tt);;
  te ← get;
  match _results te with
  | None => raise TypeError
  | Some r =>
      if bool_decide (i mod Pos.to_nat evaluation_time = 0)%nat
         && bool_decide (0 < length r)%nat
      then
        let index := (i / Pos.to_nat evaluation_time)%nat in
        current_results ← evaluate_operators;
        te ← get;
        put (set_results
               (Some (record_column index current_results
                        (C_of_Q (Q2Qc (inject_Z (Z.of_nat i)) * _time_step_size te)%Qc) r))
               te)
      else mret tt
  end.

(** [run] with the default [filepath], for which nothing is written to a
    file; the progress bar plays no part. *)
Definition run (evaluation_time : positive) : M (TimeEvolution State Operator) unit :=
  _init_results evaluation_time;;
  te ← get;
  for_each (seq 0 (Z.to_nat (_num_time_steps te + 1))) (run_round evaluation_time).

End run.

(** [r[row, column]] *)
Definition entry (r : list (list complex)) (row column : nat) : option complex :=
  r !! row ≫= (λ line, line !! column).

(** What the array of results holds for the step counter [i], [state] being
    the state after [i] steps: the expectation values of the operators and,
    in the last row, the time. *)
Definition measured {State Operator : Type} (value : State → Operator → complex)
    (te : TimeEvolution State Operator) (evaluation_time : positive) (state : State)
    (i : nat) (r : list (list complex)) : Prop :=
  (∀ row op, te_operators te !! row = Some op →
       entry r row (i / Pos.to_nat evaluation_time) = Some (value state op))
  ∧ entry r (length (te_operators te)) (i / Pos.to_nat evaluation_time)
    = Some (C_of_Q (Q2Qc (inject_Z (Z.of_nat i)) * _time_step_size te)%Qc).

(** The state of the object after the rounds [0 .. k-1] of the loop of [run]
    started on [te0]. *)
Definition run_invariant {State Operator : Type} (next : State → State)
    (value : State → Operator → complex) (evaluation_time : positive)
    (te0 : TimeEvolution State Operator) (k : nat) (te : TimeEvolution State Operator)
  : Prop :=
  te_state te = Nat.iter (k - 1) next (te_state te0)
  ∧ _intital_state te = _intital_state te0
  ∧ _time_step_size te = _time_step_size te0
  ∧ _final_time te = _final_time te0
  ∧ _num_time_steps te = _num_time_steps te0
  ∧ te_operators te = te_operators te0
  ∧ ∃ r, _results te = Some r
      ∧ length r = S (length (te_operators te0))
      ∧ Forall (λ line, length line
                        = S (Z.to_nat (_num_time_steps te0) / Pos.to_nat evaluation_time)) r
      ∧ ∀ i, (i < k)%nat → (i mod Pos.to_nat evaluation_time = 0)%nat →
             measured value te0 evaluation_time (Nat.iter i next (te_state te0)) i r.

(** ** tree_structure.py: the subtree below a node *)

(** [find_subtree_of_node]: the nodes below [node_id], itself included, as a
    dict in the order Python fills it.  The recursion depth is bounded by
    [fuel]; Python gives up with [RecursionError] on a cyclic structure. *)
Fixpoint find_subtree_of_node (fuel : nat) (t : TreeStructure) (node_id : string)
  : exn + list (string * Node) :=
  match fuel with
  | 0 => inl RecursionError
  | S fuel' =>
      match nodes t !! node_id with
      | None => inl ValueError
      | Some subtree_root =>
          let subtree := [(node_id, subtree_root)] in
          if is_leaf subtree_root then inr subtree
          else
            foldl (λ acc child_id,
                     subtree ← acc;
                     sub ← find_subtree_of_node fuel' t child_id;
                     inr (dict_update subtree sub))
              (inr subtree) (children subtree_root)
      end
  end.

(** * Properties *)

(** ** Stepping through the monad *)

Lemma bind_inr {S A B} (m : M S A) (f : A → M S B) s a s' :
  m s = (inr a, s') → (m ≫= f) s = f a s'.
Proof. intros H. unfold mbind, M_bind, bind. by rewrite H. Qed.

Lemma bind_inl {S A B} (m : M S A) (f : A → M S B) s e s' :
  m s = (inl e, s') → (m ≫= f) s = (inl e, s').
Proof. intros H. unfold mbind, M_bind, bind. by rewrite H. Qed.

Lemma get_node_Some t k n :
  nodes t !! k = Some n → get_node k t = (inr n, t).
Proof. intros H. unfold get_node. by rewrite H. Qed.

Lemma get_node_None t k :
  nodes t !! k = None → get_node k t = (inl KeyError, t).
Proof. intros H. unfold get_node. by rewrite H. Qed.

Lemma pop_node_Some t k n :
  nodes t !! k = Some n → pop_node k t = (inr n, set_nodes (delete k) t).
Proof. intros H. unfold pop_node. by rewrite H. Qed.

Lemma update_node_Some t k f n n' :
  nodes t !! k = Some n → f n = inr n' →
  update_node k f t = (inr tt, set_nodes (insert k n') t).
Proof.
  intros Hk Hf. unfold update_node.
  rewrite (bind_inr _ _ _ _ _ (get_node_Some _ _ _ Hk)).
  unfold lift, mbind, M_bind, bind. by rewrite Hf.
Qed.

Lemma update_node_None t k f :
  nodes t !! k = None → update_node k f t = (inl KeyError, t).
Proof.
  intros Hk. unfold update_node.
  by rewrite (bind_inl _ _ _ _ _ (get_node_None _ _ Hk)).
Qed.

Lemma contains_true t k : contains k t = true ↔ is_Some (nodes t !! k).
Proof. unfold contains. by rewrite bool_decide_eq_true. Qed.

Lemma contains_false t k : contains k t = false ↔ nodes t !! k = None.
Proof.
  unfold contains. rewrite bool_decide_eq_false. by rewrite eq_None_not_Some.
Qed.

(** ** [add_root], [add_child_to_parent], [add_parent_to_root] keep trees well formed *)

Lemma wf_one_root_of t : wf t → one_root t.
Proof.
  intros [(r & nr & Hr & Hnr & Hp) Hid Hone _ _ _ _].
  exists r, nr. split_and!; eauto.
  intros k n Hk Hn. specialize (Hone _ _ Hk Hn).
  rewrite Hr in Hone. simplify_eq. split; [done|congruence].
Qed.

Lemma add_root_empty node :
  add_root node empty_tree
  = (inr tt, {| nodes := {[ identifier node := node ]};
                root_id := Some (identifier node) |}).
Proof. reflexivity. Qed.

Lemma add_root_rooted node t r :
  root_id t = Some r → add_root node t = (inl AssertionError, t).
Proof.
  intros Hr. unfold add_root, get, raise, mbind, M_bind, bind. by rewrite Hr.
Qed.

Lemma add_root_wf node :
  fresh node → wf (add_root node empty_tree).2.
Proof.
  intros [Hp Hc]. rewrite add_root_empty. simpl.
  split; simpl.
  - exists (identifier node), node. by rewrite lookup_singleton_eq.
  - intros k n [<- <-]%lookup_singleton_Some. done.
  - intros k n [<- <-]%lookup_singleton_Some _. done.
  - intros k n c [<- <-]%lookup_singleton_Some Hin. rewrite Hc in Hin.
    by apply elem_of_nil in Hin.
  - intros c m p [<- <-]%lookup_singleton_Some Hm. congruence.
  - intros k n [<- <-]%lookup_singleton_Some. rewrite Hc. constructor.
  - exists (λ _, 0). intros c m p [<- <-]%lookup_singleton_Some Hm. congruence.
Qed.

Lemma add_child_to_parent_ok t child parent_id p :
  nodes t !! parent_id = Some p →
  nodes t !! identifier child = None →
  parent child = None →
  add_child_to_parent child parent_id t
  = (inr tt,
     set_nodes (λ m, <[parent_id := add_child (identifier child) p]>
                       (<[identifier child := set_parent (Some parent_id) child]> m)) t).
Proof.
  intros Hp Hc Hfresh.
  assert (Hne : parent_id ≠ identifier child) by congruence.
  unfold add_child_to_parent, _add_node, ensure_existence, ensure_uniqueness.
  unfold mbind at 1, M_bind at 1, bind at 1.
  rewrite (proj2 (contains_true t parent_id)) by eauto.
  unfold mbind at 1, M_bind at 1, bind at 1.
  unfold mbind at 1, M_bind at 1, bind at 1.
  rewrite (proj2 (contains_false t _) Hc).
  unfold store_node at 1, modify.
  unfold mbind at 1, M_bind at 1, bind at 1.
  erewrite update_node_Some; [| simpl; apply lookup_insert_eq
                              | unfold add_parent; by rewrite Hfresh].
  erewrite update_node_Some; [| simpl; rewrite !lookup_insert_ne by done; apply Hp
                              | reflexivity].
  unfold set_nodes; simpl. by rewrite insert_insert_eq.
Qed.

Lemma add_child_to_parent_no_parent t child parent_id :
  nodes t !! parent_id = None →
  add_child_to_parent child parent_id t = (inl ValueError, t).
Proof.
  intros Hp. unfold add_child_to_parent, ensure_existence.
  unfold mbind at 1, M_bind at 1, bind at 1.
  by rewrite (proj2 (contains_false t parent_id) Hp).
Qed.

Lemma add_child_to_parent_taken t child parent_id :
  is_Some (nodes t !! parent_id) →
  is_Some (nodes t !! identifier child) →
  add_child_to_parent child parent_id t = (inl ValueError, t).
Proof.
  intros Hp Hc. unfold add_child_to_parent, _add_node, ensure_existence, ensure_uniqueness.
  unfold mbind at 1, M_bind at 1, bind at 1.
  rewrite (proj2 (contains_true t parent_id) Hp).
  unfold mbind at 1, M_bind at 1, bind at 1.
  unfold mbind at 1, M_bind at 1, bind at 1.
  by rewrite (proj2 (contains_true t _) Hc).
Qed.

Lemma elem_of_add_child c x n : c ∈ children (add_child x n) ↔ c ∈ children n ∨ c = x.
Proof. unfold add_child; simpl. rewrite elem_of_app, list_elem_of_singleton. done. Qed.

Lemma add_child_to_parent_wf t child parent_id :
  wf t → fresh child → wf (add_child_to_parent child parent_id t).2.
Proof.
  intros Hwf [Hfp Hfc].
  destruct (nodes t !! parent_id) as [p|] eqn:Hp;
    [| by rewrite add_child_to_parent_no_parent].
  destruct (nodes t !! identifier child) as [c0|] eqn:Hc;
    [by rewrite add_child_to_parent_taken by eauto |].
  rewrite (add_child_to_parent_ok _ _ _ _ Hp Hc Hfp). simpl.
  assert (Hne : parent_id ≠ identifier child) by congruence.
  set (cid := identifier child) in *.
  destruct Hwf as [(r & nr & Hr & Hnr & Hpr) Hid Hone Hch Hpa Hnd (depth & Hdepth)].
  assert (Hlk : ∀ k n,
    <[parent_id := add_child cid p]> (<[cid := set_parent (Some parent_id) child]> (nodes t)) !! k = Some n ↔
    (k = parent_id ∧ n = add_child cid p) ∨
    (k = cid ∧ n = set_parent (Some parent_id) child) ∨
    (k ≠ parent_id ∧ k ≠ cid ∧ nodes t !! k = Some n)).
  { intros k n. rewrite !lookup_insert_Some. naive_solver. }
  assert (Hcid_notin : ∀ k n, nodes t !! k = Some n → cid ∉ children n).
  { intros k n Hk Hin. destruct (Hch _ _ _ Hk Hin) as (m & Hm & _). congruence. }
  split; simpl.
  - exists r.
    destruct (decide (r = parent_id)) as [->|Hrp].
    + exists (add_child cid p). split; [done|]. split; [apply Hlk; by left|].
      simpl. congruence.
    + exists nr. split; [done|]. split; [|done].
      apply Hlk. right; right. repeat split; [done| congruence |done].
  - intros k n [[-> ->]|[[-> ->]|(? & ? & Hk)]]%Hlk; simpl; eauto.
  - intros k n [[-> ->]|[[-> ->]|(? & ? & Hk)]]%Hlk; simpl; eauto.
    done.
  - intros k n c [[-> ->]|[[-> ->]|(? & ? & Hk)]]%Hlk Hin.
    + apply elem_of_add_child in Hin as [Hin| ->].
      * destruct (Hch _ _ _ Hp Hin) as (m & Hm & Hmp).
        exists m. split; [|done]. apply Hlk. right; right.
        repeat split; [|congruence|done].
        intros ->. rewrite Hp in Hm. simplify_eq.
        specialize (Hdepth _ _ _ Hp Hmp). lia.
      * eexists. split; [apply Hlk; right; left; done|done].
    + simpl in Hin. rewrite Hfc in Hin. by apply elem_of_nil in Hin.
    + destruct (Hch _ _ _ Hk Hin) as (m & Hm & Hmp).
      destruct (decide (c = parent_id)) as [->|Hcp].
      * exists (add_child cid p). split; [apply Hlk; by left|]. simpl. congruence.
      * exists m. split; [|done]. apply Hlk. right; right.
        repeat split; [done|congruence|done].
  - intros c m q [[-> ->]|[[-> ->]|(? & ? & Hk)]]%Hlk Hm; simpl in Hm.
    + destruct (Hpa _ _ _ Hp Hm) as (n & Hn & Hin).
      exists n. split; [|done]. apply Hlk. right; right.
      repeat split; [|congruence|done].
      intros ->. specialize (Hdepth _ _ _ Hp Hm). lia.
    + simplify_eq. exists (add_child cid p). split; [apply Hlk; by left|].
      apply elem_of_add_child. by right.
    + destruct (Hpa _ _ _ Hk Hm) as (n & Hn & Hin).
      destruct (decide (q = parent_id)) as [->|Hq].
      * exists (add_child cid p). split; [apply Hlk; by left|].
        apply elem_of_add_child. left. congruence.
      * exists n. split; [|done]. apply Hlk. right; right.
        repeat split; [done|congruence|done].
  - intros k n [[-> ->]|[[-> ->]|(? & ? & Hk)]]%Hlk; simpl; eauto.
    + apply NoDup_app. split; [eauto|]. split; [|apply NoDup_singleton].
      intros x Hx ->%list_elem_of_singleton. by eapply Hcid_notin.
    + rewrite Hfc. constructor.
  - exists (λ k, if decide (k = cid) then S (depth parent_id) else depth k).
    intros c m q [[-> ->]|[[-> ->]|(? & ? & Hk)]]%Hlk Hm; simpl in Hm.
    + destruct (Hpa _ _ _ Hp Hm) as (n & Hn & _).
      rewrite decide_False by congruence. rewrite decide_False by done.
      eauto.
    + simplify_eq. rewrite decide_False by done. rewrite decide_True by done. lia.
    + destruct (Hpa _ _ _ Hk Hm) as (n & Hn & _).
      rewrite decide_False by congruence. rewrite decide_False by done.
      eauto.
Qed.

Lemma add_parent_to_root_taken t new_root :
  is_Some (nodes t !! identifier new_root) →
  add_parent_to_root new_root t = (inl ValueError, t).
Proof.
  intros Hc. unfold add_parent_to_root, _add_node, ensure_uniqueness.
  unfold mbind at 1, M_bind at 1, bind at 1.
  unfold mbind at 1, M_bind at 1, bind at 1.
  by rewrite (proj2 (contains_true t _) Hc).
Qed.

Lemma add_parent_to_root_ok t new_root r nr :
  root_id t = Some r → nodes t !! r = Some nr → parent nr = None →
  nodes t !! identifier new_root = None →
  add_parent_to_root new_root t
  = (inr tt,
     {| nodes := <[r := set_parent (Some (identifier new_root)) nr]>
                   (<[identifier new_root := add_child r new_root]> (nodes t));
        root_id := Some (identifier new_root) |}).
Proof.
  intros Hr Hnr Hp Hc.
  assert (Hne : r ≠ identifier new_root) by congruence.
  unfold add_parent_to_root, _add_node, ensure_uniqueness.
  unfold mbind at 1, M_bind at 1, bind at 1.
  unfold mbind at 1, M_bind at 1, bind at 1.
  rewrite (proj2 (contains_false t _) Hc).
  unfold store_node at 1, modify, get.
  unfold mbind at 1, M_bind at 1, bind at 1. simpl. rewrite Hr.
  unfold mbind at 1, M_bind at 1, bind at 1.
  erewrite update_node_Some; [| simpl; apply lookup_insert_eq | reflexivity].
  unfold mbind at 1, M_bind at 1, bind at 1.
  erewrite update_node_Some;
    [| simpl; rewrite !lookup_insert_ne by done; apply Hnr
     | unfold add_parent; by rewrite Hp].
  unfold set_nodes, set_root_id; simpl. by rewrite insert_insert_eq.
Qed.

Lemma add_parent_to_root_wf t new_root :
  wf t → fresh new_root → wf (add_parent_to_root new_root t).2.
Proof.
  intros Hwf [Hfp Hfc].
  destruct (nodes t !! identifier new_root) as [c0|] eqn:Hc;
    [by rewrite add_parent_to_root_taken by eauto |].
  pose proof Hwf as [(r & nr & Hr & Hnr & Hpr) Hid Hone Hch Hpa Hnd (depth & Hdepth)].
  rewrite (add_parent_to_root_ok _ _ _ _ Hr Hnr Hpr Hc). simpl.
  assert (Hne : r ≠ identifier new_root) by congruence.
  set (nid := identifier new_root) in *.
  assert (Hlk : ∀ k n,
    <[r := set_parent (Some nid) nr]> (<[nid := add_child r new_root]> (nodes t)) !! k = Some n ↔
    (k = r ∧ n = set_parent (Some nid) nr) ∨
    (k = nid ∧ n = add_child r new_root) ∨
    (k ≠ r ∧ k ≠ nid ∧ nodes t !! k = Some n)).
  { intros k n. rewrite !lookup_insert_Some. naive_solver. }
  split; simpl.
  - exists nid, (add_child r new_root). split; [done|]. split; [|done].
    apply Hlk. right; left. done.
  - intros k n [[-> ->]|[[-> ->]|(? & ? & Hk)]]%Hlk; simpl; eauto.
  - intros k n [[-> ->]|[[-> ->]|(? & ? & Hk)]]%Hlk; simpl; [done|done|].
    intros Hn. specialize (Hone _ _ Hk Hn). congruence.
  - intros k n c [[-> ->]|[[-> ->]|(? & ? & Hk)]]%Hlk Hin; simpl in Hin.
    + destruct (Hch _ _ _ Hnr Hin) as (m & Hm & Hmp).
      exists m. split; [|done]. apply Hlk. right; right.
      repeat split; [|congruence|done].
      intros ->. congruence.
    + rewrite Hfc in Hin. apply list_elem_of_singleton in Hin as ->.
      eexists. split; [apply Hlk; by left|done].
    + destruct (Hch _ _ _ Hk Hin) as (m & Hm & Hmp).
      exists m. split; [|done]. apply Hlk. right; right.
      repeat split; [|congruence|done].
      intros ->. congruence.
  - intros c m q [[-> ->]|[[-> ->]|(? & ? & Hk)]]%Hlk Hm; simpl in Hm.
    + simplify_eq. eexists. split; [apply Hlk; right; left; done|].
      apply elem_of_add_child. by right.
    + congruence.
    + destruct (Hpa _ _ _ Hk Hm) as (n & Hn & Hin).
      destruct (decide (q = r)) as [->|Hq].
      * eexists. split; [apply Hlk; by left|]. simpl. congruence.
      * exists n. split; [|done]. apply Hlk. right; right.
        repeat split; [done|congruence|done].
  - intros k n [[-> ->]|[[-> ->]|(? & ? & Hk)]]%Hlk; simpl; eauto.
    rewrite Hfc. apply NoDup_singleton.
  - exists (λ k, if decide (k = nid) then 0 else S (depth k)).
    intros c m q [[-> ->]|[[-> ->]|(? & ? & Hk)]]%Hlk Hm; simpl in Hm.
    + simplify_eq. rewrite decide_True by done. rewrite decide_False by done. lia.
    + congruence.
    + destruct (Hpa _ _ _ Hk Hm) as (n & Hn & _).
      rewrite decide_False by congruence. rewrite decide_False by done.
      specialize (Hdepth _ _ _ Hk Hm). lia.
Qed.

(** ** The list primitives of Python the tree code leans on *)

Lemma list_remove_elem x l : x ∈ l → is_Some (list_remove x l).
Proof.
  induction l as [|y l IH]; intros Hin; [by apply elem_of_nil in Hin|].
  simpl. destruct (decide (y = x)); [eauto|].
  apply elem_of_cons in Hin as [->|Hin]; [done|].
  destruct (IH Hin) as [r ->]. eauto.
Qed.

Lemma list_remove_None x l : list_remove x l = None ↔ x ∉ l.
Proof.
  split.
  - intros H Hin. apply list_remove_elem in Hin as [r Hr]. congruence.
  - induction l as [|y l IH]; intros Hnin; [done|].
    simpl. apply not_elem_of_cons in Hnin as [Hne Hnin].
    rewrite decide_False by done. by rewrite IH.
Qed.

Lemma list_remove_Some x l l' :
  list_remove x l = Some l' → NoDup l →
  x ∈ l ∧ NoDup l' ∧ ∀ y, y ∈ l' ↔ y ∈ l ∧ y ≠ x.
Proof.
  revert l'. induction l as [|z l IH]; intros l' Hr Hnd; [done|].
  simpl in Hr. apply NoDup_cons in Hnd as [Hz Hnd].
  destruct (decide (z = x)) as [->|Hne].
  - simplify_eq. split; [left|]. split; [done|].
    intros y. rewrite elem_of_cons. split; [|naive_solver].
    intros Hy. split; [by right|]. intros ->. done.
  - destruct (list_remove x l) as [r|] eqn:Hrl; [|done]. simplify_eq.
    destruct (IH _ eq_refl Hnd) as (Hx & Hndr & Hiff).
    split; [by right|]. split.
    + apply NoDup_cons. split; [|done]. rewrite Hiff. tauto.
    + intros y. rewrite !elem_of_cons, Hiff. naive_solver.
Qed.

Lemma list_index_elem x l :
  x ∈ l → ∃ i, list_index x l = Some i ∧ l !! i = Some x.
Proof.
  induction l as [|y l IH]; intros Hin; [by apply elem_of_nil in Hin|].
  simpl. destruct (decide (y = x)) as [->|Hne]; [by exists 0|].
  apply elem_of_cons in Hin as [->|Hin]; [done|].
  destruct (IH Hin) as (i & -> & Hi). by exists (S i).
Qed.

Lemma list_index_None x l : x ∉ l → list_index x l = None.
Proof.
  induction l as [|y l IH]; intros Hnin; [done|].
  simpl. apply not_elem_of_cons in Hnin as [Hne Hnin].
  rewrite decide_False by done. by rewrite IH.
Qed.

Lemma elem_of_insert_NoDup (l : list string) i old new :
  NoDup l → l !! i = Some old →
  ∀ y, y ∈ <[i := new]> l ↔ y = new ∨ (y ∈ l ∧ y ≠ old).
Proof.
  intros Hnd Hi y. rewrite !list_elem_of_lookup. split.
  - intros [j Hj].
    destruct (decide (i = j)) as [->|Hij].
    + rewrite list_lookup_insert_eq in Hj by (by eapply lookup_lt_Some).
      left. congruence.
    + rewrite list_lookup_insert_ne in Hj by done.
      right. split; [eauto|]. intros ->.
      apply Hij. eapply NoDup_lookup; eauto.
  - intros [->|[[j Hj] Hne]].
    + exists i. apply list_lookup_insert_eq. by eapply lookup_lt_Some.
    + exists j. rewrite list_lookup_insert_ne; [done|]. intros ->. congruence.
Qed.

Lemma NoDup_insert_fresh (l : list string) i old new :
  NoDup l → l !! i = Some old → new ∉ l → NoDup (<[i := new]> l).
Proof.
  intros Hnd Hi Hnew. apply NoDup_alt. intros j1 j2 x H1 H2.
  destruct (decide (i = j1)) as [<-|Hn1], (decide (i = j2)) as [<-|Hn2]; [done|..].
  - rewrite list_lookup_insert_eq in H1 by (by eapply lookup_lt_Some).
    rewrite list_lookup_insert_ne in H2 by done. simplify_eq.
    exfalso. apply Hnew. apply list_elem_of_lookup. eauto.
  - rewrite list_lookup_insert_eq in H2 by (by eapply lookup_lt_Some).
    rewrite list_lookup_insert_ne in H1 by done. simplify_eq.
    exfalso. apply Hnew. apply list_elem_of_lookup. eauto.
  - rewrite list_lookup_insert_ne in H1, H2 by done.
    eapply NoDup_lookup; eauto.
Qed.

(** ** [_replace_node] *)

Lemma lookup_reparent i l (m : gmap string Node) k :
  reparent i l m !! k
  = if decide (k ∈ l) then set_parent (Some i) <$> m !! k else m !! k.
Proof.
  unfold reparent. revert m. induction l as [|x l IH]; intros m; simpl.
  - done.
  - rewrite IH. destruct (decide (k = x)) as [->|Hne].
    + rewrite lookup_alter_eq. rewrite (decide_True (P := x ∈ x :: l)) by left.
      case_decide; [|done]. by destruct (m !! x).
    + rewrite lookup_alter_ne by done.
      repeat case_decide; try done.
      * exfalso. apply H0. by right.
      * apply elem_of_cons in H0 as [?|?]; done.
Qed.

Lemma for_each_reparent t i l :
  (∀ x, x ∈ l → is_Some (nodes t !! x)) →
  for_each l (λ x, update_node x (λ n, add_parent (Some i) (remove_parent n))) t
  = (inr tt, set_nodes (reparent i l) t).
Proof.
  revert t. induction l as [|x l IH]; intros t Hex; simpl.
  - destruct t; reflexivity.
  - destruct (Hex x) as [n Hn]; [left|].
    erewrite bind_inr; [| by eapply update_node_Some].
    rewrite IH.
    + f_equal. destruct t as [N r]. unfold set_nodes, reparent; simpl. f_equal.
      f_equal. simpl in Hn. apply map_eq. intros k.
      destruct (decide (k = x)) as [->|Hne].
      * rewrite lookup_insert_eq, lookup_alter_eq, Hn. done.
      * by rewrite lookup_insert_ne, lookup_alter_ne.
    + intros y Hy. simpl. destruct (decide (x = y)) as [->|Hne].
      * rewrite lookup_insert_eq. eauto.
      * rewrite lookup_insert_ne by done. apply Hex. by right.
Qed.

Lemma _replace_node_root t new_id old_id nn :
  nodes t !! new_id = Some nn → parent nn = None → new_id ∉ children nn →
  (∀ x, x ∈ children nn → is_Some (nodes t !! x)) →
  _replace_node new_id old_id t
  = (inr tt, set_nodes (reparent (identifier nn) (children nn)) t).
Proof.
  intros Hnn Hp Hself Hex. unfold _replace_node.
  erewrite bind_inr; [| by apply get_node_Some].
  erewrite bind_inr; [| by apply for_each_reparent].
  erewrite bind_inr; [| apply get_node_Some; simpl;
                        rewrite lookup_reparent, decide_False by done; apply Hnn].
  by rewrite Hp.
Qed.

Lemma _replace_node_inner t new_id old_id nn p np np' :
  nodes t !! new_id = Some nn → parent nn = Some p → new_id ∉ children nn →
  (∀ x, x ∈ children nn → is_Some (nodes t !! x)) →
  nodes t !! p = Some np → p ∉ children nn →
  replace_child old_id (identifier nn) np = inr np' →
  _replace_node new_id old_id t
  = (inr tt, set_nodes (λ m, <[p := np']> (reparent (identifier nn) (children nn) m)) t).
Proof.
  intros Hnn Hp Hself Hex Hnp Hpc Hrep. unfold _replace_node.
  erewrite bind_inr; [| by apply get_node_Some].
  erewrite bind_inr; [| by apply for_each_reparent].
  erewrite bind_inr; [| apply get_node_Some; simpl;
                        rewrite lookup_reparent, decide_False by done; apply Hnn].
  rewrite Hp.
  erewrite update_node_Some;
    [| simpl; rewrite lookup_reparent, decide_False by done; apply Hnp | apply Hrep].
  done.
Qed.

(** ** [combine_nodes] *)

Lemma combined_identifier_nonempty id1 id2 new_identifier :
  combined_identifier id1 id2 new_identifier ≠ "".
Proof.
  unfold combined_identifier. case_decide; [|done].
  destruct id1; simpl; discriminate.
Qed.

Lemma determine_parentage_found t id1 id2 n1 n2 :
  nodes t !! id1 = Some n1 → nodes t !! id2 = Some n2 →
  determine_parentage id1 id2 t
  = (if is_child_of id1 n2 then inr (id1, id2)
     else if is_child_of id2 n1 then inr (id2, id1)
     else inl ValueError, t).
Proof.
  intros H1 H2. unfold determine_parentage.
  erewrite bind_inr; [| by apply get_node_Some].
  erewrite bind_inr; [| by apply get_node_Some].
  destruct (is_child_of id1 n2); [done|].
  destruct (is_child_of id2 n1); done.
Qed.

Lemma determine_parentage_missing t id1 id2 :
  nodes t !! id1 = None ∨ nodes t !! id2 = None →
  determine_parentage id1 id2 t = (inl KeyError, t).
Proof.
  intros H. unfold determine_parentage.
  destruct (nodes t !! id1) as [n1|] eqn:H1.
  - destruct H as [?|H2]; [done|].
    erewrite bind_inr; [| by apply get_node_Some].
    erewrite bind_inl; [done | by apply get_node_None].
  - erewrite bind_inl; [done | by apply get_node_None].
Qed.

Lemma is_child_of_true n x : is_child_of x n = true ↔ parent n = Some x.
Proof.
  unfold is_child_of. destruct (parent n); [|done].
  rewrite bool_decide_eq_true. naive_solver.
Qed.

Lemma replace_child_elem old new_id Q :
  old = new_id ∨ old ∈ children Q → is_Some (match replace_child old new_id Q with
                                            | inr Q' => Some Q' | inl _ => None end).
Proof.
  intros H. unfold replace_child, child_index. case_decide; [eauto|].
  destruct H as [?|Hin]; [done|].
  destruct (list_index_elem _ _ Hin) as (i & -> & _). eauto.
Qed.

Lemma combine_nodes_ok t id1 id2 newi p c P C rest :
  determine_parentage id1 id2 t = (inr (p, c), t) →
  nodes t !! p = Some P → nodes t !! c = Some C → p ≠ c →
  list_remove c (children P) = Some rest →
  combined_identifier id1 id2 newi ∉ combined_children id1 p c P C →
  (∀ x, x ∈ combined_children id1 p c P C →
        is_Some (nodes t !! x) ∧ x ≠ p ∧ x ≠ c) →
  (∀ q, parent P = Some q →
        q ≠ p ∧ q ≠ c ∧ q ≠ combined_identifier id1 id2 newi
        ∧ (q ∉ combined_children id1 p c P C)
        ∧ (∃ Q, nodes t !! q = Some Q
                ∧ (p = combined_identifier id1 id2 newi ∨ p ∈ children Q))) →
  combine_nodes id1 id2 newi t
  = (inr tt, combined_tree id1 p c (combined_identifier id1 id2 newi) P C t).
Proof.
  intros Hdp HP HC Hpc Hrest Hnew Htot Hq.
  set (new_id := combined_identifier id1 id2 newi) in *.
  pose proof (combined_identifier_nonempty id1 id2 newi) as Hne. fold new_id in Hne.
  unfold combine_nodes. fold new_id.
  erewrite bind_inr; [| exact Hdp]. cbv beta iota.
  erewrite bind_inr; [| by apply get_node_Some].
  erewrite bind_inr;
    [| eapply update_node_Some; [exact HP | unfold remove_child; by rewrite Hrest]].
  erewrite bind_inr; [| apply get_node_Some; simpl; apply lookup_insert_eq].
  erewrite bind_inr;
    [| apply get_node_Some; simpl; rewrite lookup_insert_ne by done; exact HC].
  set (total := children (if decide (p ≠ id1)
                          then (C, set_children rest P) else (set_children rest P, C)).1
                ++ children (if decide (p ≠ id1)
                             then (C, set_children rest P) else (set_children rest P, C)).2).
  assert (Htotal : total = combined_children id1 p c P C).
  { unfold total, combined_children. rewrite Hrest. simpl. by case_decide. }
  clearbody total. subst total.
  set (t1 := set_nodes (insert p (set_children rest P)) t).
  set (t2 := if is_root P then set_root_id (Some new_id) t1 else t1).
  assert (Hroot : (if is_root (set_children rest P)
                   then modify (set_root_id (Some new_id)) else mret tt) t1 = (inr tt, t2)).
  { unfold t2, is_root; simpl. by destruct (parent P). }
  erewrite bind_inr; [| exact Hroot].
  assert (Hn2 : nodes t2 = <[p := set_children rest P]> (nodes t)).
  { unfold t2. by destruct (is_root P). }
  assert (Hr2 : root_id t2 = if is_root P then Some new_id else root_id t).
  { unfold t2. by destruct (is_root P). }
  erewrite bind_inr; [| apply pop_node_Some; rewrite Hn2; apply lookup_insert_eq].
  erewrite bind_inr;
    [| apply pop_node_Some; simpl; rewrite Hn2, lookup_delete_ne, lookup_insert_ne by done;
       exact HC].
  assert (Hnn : add_parent (parent P)
                  (add_children (combined_children id1 p c P C) (Node_init "" "" new_id))
                = inr (combined_node id1 p c new_id P C)).
  { unfold Node_init. rewrite decide_False by done. rewrite decide_True by done.
    reflexivity. }
  erewrite bind_inr; [| unfold lift; by rewrite Hnn].
  set (nn := combined_node id1 p c new_id P C).
  set (t3 := set_nodes (delete c) (set_nodes (delete p) t2)).
  erewrite bind_inr; [| reflexivity].
  set (t4 := set_nodes (insert (identifier nn) nn) t3).
  assert (Hn4 : nodes t4 = <[new_id := nn]> (delete c (delete p (nodes t)))).
  { unfold t4, t3; simpl. rewrite Hn2. by rewrite delete_insert_eq. }
  assert (Hr4 : root_id t4 = if is_root P then Some new_id else root_id t).
  { unfold t4, t3; simpl. exact Hr2. }
  assert (Hlk4 : nodes t4 !! new_id = Some nn).
  { rewrite Hn4. apply lookup_insert_eq. }
  assert (Hex4 : ∀ x, x ∈ children nn → is_Some (nodes t4 !! x)).
  { intros x Hx. destruct (Htot _ Hx) as (Hs & Hxp & Hxc).
    rewrite Hn4. destruct (decide (new_id = x)) as [->|Hnx]; [done|].
    by rewrite lookup_insert_ne, !lookup_delete_ne. }
  unfold combined_tree, combined_nodes. fold nn.
  destruct (parent P) as [q|] eqn:HpP.
  - destruct (Hq q eq_refl) as (Hqp & Hqc & Hqn & Hqt & Q & HQ & Hin).
    assert (HQ4 : nodes t4 !! q = Some Q).
    { rewrite Hn4. by rewrite lookup_insert_ne, !lookup_delete_ne. }
    assert (HQ5 : reparent new_id (children nn)
                    (<[new_id := nn]> (delete c (delete p (nodes t)))) !! q = Some Q).
    { rewrite lookup_reparent, decide_False by done. by rewrite <- Hn4. }
    rewrite HQ5.
    destruct (replace_child_elem p new_id Q Hin) as [Q' HQ'].
    destruct (replace_child p new_id Q) as [|Q''] eqn:Hrep; [done|]. simplify_eq.
    erewrite _replace_node_inner; [| exact Hlk4 | exact HpP | exact Hnew | exact Hex4
                                   | exact HQ4 | exact Hqt | exact Hrep].
    f_equal. destruct t4 as [N4 r4]. simpl in *. unfold set_nodes; simpl.
    by rewrite Hn4, Hr4.
  - erewrite _replace_node_root; [| exact Hlk4 | exact HpP | exact Hnew | exact Hex4].
    f_equal. destruct t4 as [N4 r4]. simpl in *. unfold set_nodes; simpl.
    by rewrite Hn4, Hr4.
Qed.

Lemma combined_nodes_lookup_new id1 p c new_id P C (m : gmap string Node) :
  new_id ∉ combined_children id1 p c P C →
  parent P ≠ Some new_id →
  combined_nodes id1 p c new_id P C m !! new_id = Some (combined_node id1 p c new_id P C).
Proof.
  intros Hnew Hq. unfold combined_nodes.
  assert (H2 : reparent new_id (children (combined_node id1 p c new_id P C))
                 (<[new_id := combined_node id1 p c new_id P C]> (delete c (delete p m)))
               !! new_id = Some (combined_node id1 p c new_id P C)).
  { rewrite lookup_reparent, decide_False by done. apply lookup_insert_eq. }
  destruct (parent P) as [q|]; [|done].
  destruct (_ !! q) as [Q|]; [|done].
  destruct (replace_child p new_id Q); [done|].
  rewrite lookup_insert_ne; [done|]. congruence.
Qed.

Lemma combined_nodes_lookup_other id1 p c new_id P C (m : gmap string Node) k :
  k ≠ new_id →
  (∀ x, x ∈ combined_children id1 p c P C → x ≠ p ∧ x ≠ c) →
  (∀ q, parent P = Some q →
        q ≠ p ∧ q ≠ c ∧ (q ∉ combined_children id1 p c P C) ∧ q ≠ new_id ∧
        (∃ Q, m !! q = Some Q ∧ (p = new_id ∨ p ∈ children Q))) →
  combined_nodes id1 p c new_id P C m !! k
  = if decide (k = p ∨ k = c) then None
    else combined_other id1 p c new_id P C k <$> m !! k.
Proof.
  intros Hk Htot Hq. unfold combined_nodes.
  set (nn := combined_node id1 p c new_id P C).
  set (total := combined_children id1 p c P C) in *.
  change (children nn) with total.
  assert (H2 : ∀ j, j ≠ new_id →
    reparent new_id total (<[new_id := nn]> (delete c (delete p m))) !! j
    = if decide (j = p ∨ j = c) then None
      else (if decide (j ∈ total) then set_parent (Some new_id) else id) <$> m !! j).
  { intros j Hj. rewrite lookup_reparent.
    rewrite lookup_insert_ne by done.
    destruct (decide (j = c)) as [->|Hjc].
    { rewrite lookup_delete_eq.
      rewrite (decide_True (P := c = p ∨ c = c)) by (by right). by case_decide. }
    rewrite lookup_delete_ne by done.
    destruct (decide (j = p)) as [->|Hjp].
    { rewrite lookup_delete_eq.
      rewrite (decide_True (P := p = p ∨ p = c)) by (by left). by case_decide. }
    rewrite lookup_delete_ne by done.
    rewrite (decide_False (P := j = p ∨ j = c)) by naive_solver.
    case_decide; [done|]. by destruct (m !! j). }
  unfold combined_other. fold total.
  destruct (parent P) as [q|] eqn:HpP.
  - destruct (Hq q eq_refl) as (Hqp & Hqc & Hqt & Hqn & Q & HQ & Hin).
    rewrite (H2 q Hqn). rewrite decide_False by naive_solver.
    rewrite decide_False by done. rewrite HQ. simpl.
    destruct (replace_child_elem p new_id Q Hin) as [Q' HQ'].
    destruct (replace_child p new_id Q) as [|Q''] eqn:Hrep; [done|]. simplify_eq.
    destruct (decide (k = q)) as [->|Hkq].
    + rewrite lookup_insert_eq. rewrite decide_False by naive_solver.
      rewrite HQ. simpl. rewrite decide_False by done. rewrite decide_True by done.
      by rewrite Hrep.
    + rewrite lookup_insert_ne by done. rewrite (H2 k Hk).
      case_decide; [done|]. destruct (m !! k) as [n|]; [|done]. simpl.
      case_decide; [done|]. rewrite decide_False by congruence. done.
  - rewrite (H2 k Hk). case_decide; [done|].
    destruct (m !! k) as [n|]; [|done]. simpl. by case_decide.
Qed.

Section combine_facts.
Context (t : TreeStructure) (id1 p c new_id : string) (P C : Node).
Context (Hwf : wf t).
Context (HP : nodes t !! p = Some P) (HC : nodes t !! c = Some C).
Context (HCp : parent C = Some p).
Context (Hnew : nodes t !! new_id = None ∨ new_id = p ∨ new_id = c).

Local Abbreviation total := (combined_children id1 p c P C).

Lemma combine_child_listed : c ∈ children P.
Proof.
  destruct (wf_parent _ Hwf _ _ _ HC HCp) as (P' & HP' & Hin). congruence.
Qed.

Lemma combine_distinct : p ≠ c.
Proof.
  destruct (wf_depth _ Hwf) as [depth Hd]. intros ->.
  specialize (Hd _ _ _ HC HCp). lia.
Qed.

Lemma combine_rest :
  ∃ rest, list_remove c (children P) = Some rest ∧ NoDup rest
          ∧ ∀ y, y ∈ rest ↔ y ∈ children P ∧ y ≠ c.
Proof.
  destruct (list_remove_elem _ _ combine_child_listed) as [rest Hrest].
  exists rest. split; [done|].
  by destruct (list_remove_Some _ _ _ Hrest (wf_nodup _ Hwf _ _ HP)) as (_ & ? & ?).
Qed.

Lemma combine_total_elem x :
  x ∈ total ↔
  x ≠ c ∧ ∃ X, nodes t !! x = Some X ∧ (parent X = Some p ∨ parent X = Some c).
Proof.
  destruct combine_rest as (rest & Hrest & _ & Hiff).
  destruct (wf_depth _ Hwf) as [depth Hd].
  assert (Hmem : x ∈ total ↔ x ∈ rest ∨ x ∈ children C).
  { unfold combined_children. rewrite Hrest. simpl.
    case_decide; rewrite elem_of_app; tauto. }
  rewrite Hmem, Hiff. split.
  - intros [[Hx Hne]|Hx].
    + split; [done|].
      destruct (wf_children _ Hwf _ _ _ HP Hx) as (X & HX & HXp). eauto.
    + destruct (wf_children _ Hwf _ _ _ HC Hx) as (X & HX & HXp).
      split; [|eauto]. intros ->. specialize (Hd _ _ _ HX HXp). lia.
  - intros (Hne & X & HX & [HXp|HXp]).
    + left. split; [|done].
      destruct (wf_parent _ Hwf _ _ _ HX HXp) as (P' & HP' & Hin). congruence.
    + right.
      destruct (wf_parent _ Hwf _ _ _ HX HXp) as (C' & HC' & Hin). congruence.
Qed.

Lemma combine_total_NoDup : NoDup total.
Proof.
  destruct combine_rest as (rest & Hrest & Hnd & Hiff).
  assert (Hdisj : ∀ x, x ∈ rest → x ∈ children C → False).
  { intros x [Hx _]%Hiff Hx'.
    destruct (wf_children _ Hwf _ _ _ HP Hx) as (X & HX & HXp).
    destruct (wf_children _ Hwf _ _ _ HC Hx') as (X' & HX' & HXp').
    apply combine_distinct. congruence. }
  pose proof (wf_nodup _ Hwf _ _ HC) as HndC.
  unfold combined_children. rewrite Hrest. simpl.
  case_decide; apply NoDup_app; (split; [done|]); (split; [|done]);
    intros x Hx Hx'; eauto.
Qed.

Lemma combine_key_new k : is_Some (nodes t !! k) → k ≠ p → k ≠ c → k ≠ new_id.
Proof.
  intros [n Hn] Hkp Hkc ->. destruct Hnew as [?|[?|?]]; congruence.
Qed.

Lemma combine_total_other x : x ∈ total → x ≠ p ∧ x ≠ c ∧ x ≠ new_id.
Proof.
  intros (Hne & X & HX & HXp)%combine_total_elem.
  destruct (wf_depth _ Hwf) as [depth Hd].
  assert (x ≠ p).
  { intros ->. destruct HXp as [HXp|HXp].
    - specialize (Hd _ _ _ HX HXp). lia.
    - pose proof (Hd _ _ _ HX HXp). pose proof (Hd _ _ _ HC HCp). lia. }
  split; [done|]. split; [done|]. apply combine_key_new; eauto.
Qed.

Lemma combine_grandparent q :
  parent P = Some q →
  q ≠ p ∧ q ≠ c ∧ (q ∉ total) ∧ q ≠ new_id
  ∧ (∃ Q, nodes t !! q = Some Q ∧ p ∈ children Q).
Proof.
  intros HPq.
  destruct (wf_depth _ Hwf) as [depth Hd].
  destruct (wf_parent _ Hwf _ _ _ HP HPq) as (Q & HQ & Hin).
  pose proof (Hd _ _ _ HP HPq) as Hd1. pose proof (Hd _ _ _ HC HCp) as Hd2.
  assert (q ≠ p) by (intros ->; lia).
  assert (q ≠ c) by (intros ->; lia).
  split; [done|]. split; [done|]. split.
  - intros (Hne & X & HX & HXp)%combine_total_elem.
    rewrite HQ in HX. simplify_eq.
    destruct HXp as [HXp|HXp]; pose proof (Hd _ _ _ HQ HXp); lia.
  - split; [apply combine_key_new; eauto|]. eauto.
Qed.
End combine_facts.

Section combined_tree_wf.
Context (t : TreeStructure) (id1 p c new_id : string) (P C : Node).
Context (Hwf : wf t).
Context (HP : nodes t !! p = Some P) (HC : nodes t !! c = Some C).
Context (HCp : parent C = Some p).
Context (Hnew : nodes t !! new_id = None ∨ new_id = p ∨ new_id = c).

Local Abbreviation total := (combined_children id1 p c P C).
Local Abbreviation nn := (combined_node id1 p c new_id P C).
Local Abbreviation other := (combined_other id1 p c new_id P C).
Local Abbreviation final := (combined_nodes id1 p c new_id P C (nodes t)).

Lemma combined_final_new : final !! new_id = Some nn.
Proof.
  apply combined_nodes_lookup_new.
  - intros Hin.
    by apply (combine_total_other t id1 p c new_id P C Hwf HP HC HCp Hnew) in Hin
      as (_ & _ & ?).
  - intros Hq.
    by destruct (combine_grandparent t id1 p c new_id P C Hwf HP HC HCp Hnew _ Hq)
      as (_ & _ & _ & ? & _).
Qed.

Lemma combined_final_other k :
  k ≠ new_id →
  final !! k = if decide (k = p ∨ k = c) then None else other k <$> nodes t !! k.
Proof.
  intros Hk. apply combined_nodes_lookup_other; [done| |].
  - intros x Hx.
    by apply (combine_total_other t id1 p c new_id P C Hwf HP HC HCp Hnew) in Hx
      as (? & ? & _).
  - intros q Hq.
    destruct (combine_grandparent t id1 p c new_id P C Hwf HP HC HCp Hnew _ Hq)
      as (? & ? & ? & ? & Q & ? & ?). eauto 10.
Qed.

(** Every entry of the result is the merged node or a survivor. *)
Lemma combined_final_inv k n :
  final !! k = Some n →
  (k = new_id ∧ n = nn)
  ∨ (k ≠ new_id ∧ k ≠ p ∧ k ≠ c ∧ ∃ n0, nodes t !! k = Some n0 ∧ n = other k n0).
Proof.
  intros Hk. destruct (decide (k = new_id)) as [->|Hne].
  - left. rewrite combined_final_new in Hk. by simplify_eq.
  - right. rewrite combined_final_other in Hk by done.
    case_decide as Hpc; [done|].
    destruct (nodes t !! k) as [n0|] eqn:Hn0; [|done]. simpl in Hk. simplify_eq.
    repeat split; [done|naive_solver|naive_solver|eauto].
Qed.

Lemma combined_final_survivor k n0 :
  nodes t !! k = Some n0 → k ≠ p → k ≠ c → final !! k = Some (other k n0).
Proof.
  intros Hk Hkp Hkc.
  rewrite combined_final_other
    by (eapply (combine_key_new t p c new_id); eauto).
  rewrite decide_False by naive_solver. by rewrite Hk.
Qed.

Lemma other_identifier k n0 : identifier (other k n0) = identifier n0.
Proof.
  unfold combined_other. repeat case_decide; try done.
  unfold replace_child. case_decide; [done|].
  by destruct (child_index p n0).
Qed.

Lemma other_parent k n0 :
  parent (other k n0) = if decide (k ∈ total) then Some new_id else parent n0.
Proof.
  unfold combined_other. repeat case_decide; try done.
  unfold replace_child. case_decide; [done|].
  by destruct (child_index p n0).
Qed.

Lemma other_children_same k n0 :
  parent P ≠ Some k → children (other k n0) = children n0.
Proof. intros Hq. unfold combined_other. by repeat case_decide. Qed.

Lemma other_children_grandparent q Q :
  parent P = Some q → nodes t !! q = Some Q →
  NoDup (children (other q Q))
  ∧ ∀ x, x ∈ children (other q Q) ↔ x = new_id ∨ (x ∈ children Q ∧ x ≠ p).
Proof.
  intros Hq HQ.
  destruct (combine_grandparent t id1 p c new_id P C Hwf HP HC HCp Hnew _ Hq)
    as (Hqp & Hqc & Hqt & Hqn & Q' & HQ' & Hin).
  rewrite HQ in HQ'. simplify_eq.
  pose proof (wf_nodup _ Hwf _ _ HQ) as Hnd.
  unfold combined_other. rewrite decide_False by done. rewrite decide_True by done.
  unfold replace_child. case_decide as Hpn.
  - subst new_id. split; [done|]. intros x.
    destruct (decide (x = p)) as [->|]; naive_solver.
  - unfold child_index. destruct (list_index_elem _ _ Hin) as (i & -> & Hi). simpl.
    split.
    + eapply NoDup_insert_fresh; [done..|].
      intros Hin'. destruct (wf_children _ Hwf _ _ _ HQ Hin') as (X & HX & HXp).
      destruct Hnew as [?|[?| ->]]; [congruence|done|]. congruence.
    + by apply elem_of_insert_NoDup.
Qed.

Lemma combined_tree_wf : wf (combined_tree id1 p c new_id P C t).
Proof.
  pose proof (combine_distinct t p c new_id P C Hwf HP HC HCp Hnew) as Hpc.
  pose proof (combine_total_elem t id1 p c new_id P C Hwf HP HC HCp Hnew) as Htot.
  pose proof (combine_total_other t id1 p c new_id P C Hwf HP HC HCp Hnew) as Htot'.
  pose proof (combine_grandparent t id1 p c new_id P C Hwf HP HC HCp Hnew) as Hgp.
  pose proof (combine_key_new t p c new_id Hnew) as Hkey.
  pose proof Hwf as [(r & nr & Hr & Hnr & Hpr) Hid Hone Hch Hpa Hnd (depth & Hdepth)].
  split; simpl.
  - (* the root *)
    unfold is_root. destruct (parent P) as [q|] eqn:HPq.
    + assert (r ≠ p) by (intros ->; congruence).
      assert (r ≠ c) by (intros ->; congruence).
      exists r, (other r nr). split; [done|].
      split; [by apply combined_final_survivor|].
      rewrite other_parent. rewrite decide_False; [done|].
      intros (_ & X & HX & HXp)%Htot. rewrite Hnr in HX. simplify_eq.
      destruct HXp; congruence.
    + exists new_id, nn. split; [done|]. split; [apply combined_final_new|done].
  - (* keys are identifiers *)
    intros k n [[-> ->]|(Hkn & Hkp & Hkc & n0 & Hn0 & ->)]%combined_final_inv; [done|].
    rewrite other_identifier. eauto.
  - (* one parentless node *)
    intros k n [[-> ->]|(Hkn & Hkp & Hkc & n0 & Hn0 & ->)]%combined_final_inv.
    + simpl. intros HPn. unfold is_root. by rewrite HPn.
    + rewrite other_parent. case_decide; [done|]. intros Hn0p.
      pose proof (Hone _ _ Hn0 Hn0p) as Hrk.
      unfold is_root. destruct (parent P) eqn:HPq; [done|].
      pose proof (Hone _ _ HP HPq). congruence.
  - (* children exist and point back *)
    intros k n x [[-> ->]|(Hkn & Hkp & Hkc & n0 & Hn0 & ->)]%combined_final_inv Hin.
    + simpl in Hin. destruct (Htot' _ Hin) as (Hxp & Hxc & Hxn).
      apply Htot in Hin as Hin'. destruct Hin' as (_ & X & HX & _).
      exists (other x X). split; [by apply combined_final_survivor|].
      rewrite other_parent. by rewrite decide_True.
    + destruct (decide (x = new_id)) as [->|Hxn].
      * exists nn. split; [apply combined_final_new|]. simpl.
        destruct (decide (parent P = Some k)) as [|HPk]; [done|].
        rewrite other_children_same in Hin by done.
        destruct (Hch _ _ _ Hn0 Hin) as (X & HX & HXp).
        destruct Hnew as [?|[-> | ->]]; [congruence| |]; congruence.
      * assert (Hin0 : x ∈ children n0 ∧ x ≠ p).
        { destruct (decide (parent P = Some k)) as [HPk|HPk].
          - apply (other_children_grandparent _ _ HPk Hn0) in Hin. naive_solver.
          - rewrite other_children_same in Hin by done. split; [done|].
            intros ->. destruct (Hch _ _ _ Hn0 Hin) as (X & HX & HXp). congruence. }
        destruct Hin0 as [Hin0 Hxp].
        destruct (Hch _ _ _ Hn0 Hin0) as (X & HX & HXp).
        assert (x ≠ c) by (intros ->; congruence).
        exists (other x X). split; [by apply combined_final_survivor|].
        rewrite other_parent. rewrite decide_False; [done|].
        intros (_ & X' & HX' & HXp')%Htot. rewrite HX in HX'. simplify_eq.
        destruct HXp'; congruence.
  - (* parents exist and list the child *)
    intros x m k [[-> ->]|(Hxn & Hxp & Hxc & X & HX & ->)]%combined_final_inv Hpar.
    + simpl in Hpar. destruct (Hgp _ Hpar) as (Hkp & Hkc & Hkt & Hkn & Q & HQ & HpQ).
      exists (other k Q). split; [by apply combined_final_survivor|].
      apply (other_children_grandparent _ _ Hpar HQ). by left.
    + rewrite other_parent in Hpar. case_decide as Hxt.
      * assert (k = new_id) as -> by congruence.
        exists nn. split; [apply combined_final_new|done].
      * destruct (Hpa _ _ _ HX Hpar) as (K & HK & Hin).
        assert (k ≠ p).
        { intros ->. apply Hxt, Htot. eauto. }
        assert (k ≠ c).
        { intros ->. apply Hxt, Htot. eauto. }
        exists (other k K). split; [by apply combined_final_survivor|].
        destruct (decide (parent P = Some k)) as [HPk|HPk].
        -- apply (other_children_grandparent _ _ HPk HK). by right.
        -- by rewrite other_children_same.
  - (* no duplicate children *)
    intros k n [[-> ->]|(Hkn & Hkp & Hkc & n0 & Hn0 & ->)]%combined_final_inv.
    + simpl. by apply (combine_total_NoDup t id1 p c new_id P C Hwf HP HC HCp Hnew).
    + destruct (decide (parent P = Some k)) as [HPk|HPk].
      * by apply (other_children_grandparent _ _ HPk Hn0).
      * rewrite other_children_same by done. eauto.
  - (* no cycle *)
    exists (λ k, if decide (k = new_id) then depth p else depth k).
    intros x m k [[-> ->]|(Hxn & Hxp & Hxc & X & HX & ->)]%combined_final_inv Hpar.
    + simpl in Hpar. destruct (Hgp _ Hpar) as (Hkp & Hkc & Hkt & Hkn & Q & HQ & HpQ).
      rewrite decide_False by done. rewrite decide_True by done. eauto.
    + rewrite other_parent in Hpar. rewrite (decide_False (P := x = new_id)) by done.
      case_decide as Hxt.
      * assert (k = new_id) as -> by congruence. rewrite decide_True by done.
        apply Htot in Hxt as (_ & X' & HX' & HXp').
        assert (X' = X) as -> by congruence.
        destruct HXp' as [HXp'|HXp']; [eauto|].
        pose proof (Hdepth _ _ _ HX HXp'). pose proof (Hdepth _ _ _ HC HCp). lia.
      * destruct (Hpa _ _ _ HX Hpar) as (K & HK & Hin).
        assert (k ≠ p).
        { intros ->. apply Hxt, Htot. eauto. }
        assert (k ≠ c).
        { intros ->. apply Hxt, Htot. eauto. }
        rewrite decide_False by (apply Hkey; eauto). eauto.
Qed.
End combined_tree_wf.

Lemma combine_nodes_adjacent t id1 id2 newi p c P C :
  wf t →
  determine_parentage id1 id2 t = (inr (p, c), t) →
  nodes t !! p = Some P → nodes t !! c = Some C → parent C = Some p →
  nodes t !! combined_identifier id1 id2 newi = None
    ∨ combined_identifier id1 id2 newi = p ∨ combined_identifier id1 id2 newi = c →
  combine_nodes id1 id2 newi t
  = (inr tt, combined_tree id1 p c (combined_identifier id1 id2 newi) P C t).
Proof.
  intros Hwf Hdp HP HC HCp Hnew.
  set (new_id := combined_identifier id1 id2 newi) in *.
  destruct (combine_rest t p c P C Hwf HP HC HCp) as (rest & Hrest & _).
  pose proof (combine_total_other t id1 p c new_id P C Hwf HP HC HCp Hnew) as Htot'.
  pose proof (combine_total_elem t id1 p c new_id P C Hwf HP HC HCp Hnew) as Htot.
  eapply combine_nodes_ok; eauto.
  - eapply combine_distinct; eauto.
  - intros Hin. by apply Htot' in Hin as (_ & _ & ?).
  - intros x Hx. destruct (Htot' _ Hx) as (? & ? & _).
    apply Htot in Hx as (_ & X & HX & _). eauto.
  - intros q Hq.
    destruct (combine_grandparent t id1 p c new_id P C Hwf HP HC HCp Hnew _ Hq)
      as (? & ? & ? & ? & Q & ? & ?). eauto 10.
Qed.

Lemma combine_nodes_not_adjacent t id1 id2 newi n1 n2 :
  nodes t !! id1 = Some n1 → nodes t !! id2 = Some n2 →
  is_child_of id1 n2 = false → is_child_of id2 n1 = false →
  combine_nodes id1 id2 newi t = (inl ValueError, t).
Proof.
  intros H1 H2 Hc1 Hc2. unfold combine_nodes.
  erewrite bind_inl; [done|].
  rewrite (determine_parentage_found _ _ _ _ _ H1 H2). by rewrite Hc1, Hc2.
Qed.

Lemma combine_nodes_missing t id1 id2 newi :
  nodes t !! id1 = None ∨ nodes t !! id2 = None →
  combine_nodes id1 id2 newi t = (inl KeyError, t).
Proof.
  intros H. unfold combine_nodes.
  erewrite bind_inl; [done|]. by apply determine_parentage_missing.
Qed.

Lemma combine_nodes_wf t id1 id2 newi :
  wf t →
  nodes t !! combined_identifier id1 id2 newi = None
    ∨ combined_identifier id1 id2 newi = id1
    ∨ combined_identifier id1 id2 newi = id2 →
  wf (combine_nodes id1 id2 newi t).2.
Proof.
  intros Hwf Hnew.
  destruct (nodes t !! id1) as [n1|] eqn:H1;
    [| by rewrite combine_nodes_missing by eauto].
  destruct (nodes t !! id2) as [n2|] eqn:H2;
    [| by rewrite combine_nodes_missing by eauto].
  pose proof (determine_parentage_found _ _ _ _ _ H1 H2) as Hdp.
  destruct (is_child_of id1 n2) eqn:Hc1.
  - apply is_child_of_true in Hc1.
    erewrite combine_nodes_adjacent; eauto.
    apply combined_tree_wf; eauto.
  - destruct (is_child_of id2 n1) eqn:Hc2.
    + apply is_child_of_true in Hc2.
      erewrite combine_nodes_adjacent; eauto; [|naive_solver].
      apply combined_tree_wf; eauto. naive_solver.
    + by erewrite combine_nodes_not_adjacent.
Qed.

(** ** [split_node] *)

Lemma split_node_ok uuid_p uuid_c t old N node1_id nb1 node2_id nb2 pid cid pnb pn cn :
  nodes t !! old = Some N →
  (if is_root N || bool_decide (parent N ∈ (Some <$> nb1))
   then mret (node1_id, node2_id, nb1, nb2)
   else if bool_decide (parent N ∈ (Some <$> nb2))
   then mret (node2_id, node1_id, nb2, nb1)
   else raise AssertionError) t = (inr (pid, cid, pnb, cn), t) →
  match parent N with
  | None => pn = pnb
  | Some q => list_remove q pnb = Some pn
  end →
  pid ≠ "" → cid ≠ "" → pid ≠ cid →
  (∀ x, x ∈ cn → is_Some (nodes t !! x) ∧ x ≠ old ∧ x ≠ pid ∧ x ≠ cid) →
  (∀ x, x ∈ pn → is_Some (nodes t !! x) ∧ x ≠ old ∧ x ≠ pid ∧ x ≠ cid) →
  (∀ q, parent N = Some q →
        q ≠ old ∧ q ≠ pid ∧ q ≠ cid ∧ (q ∉ pn) ∧ (q ∉ cn)
        ∧ (∃ Q, nodes t !! q = Some Q ∧ old ∈ children Q)) →
  split_node uuid_p uuid_c old node1_id nb1 node2_id nb2 t
  = (inr tt, split_tree old pid cid (parent N) pn cn t).
Proof.
  intros HN Hchoice Hpn Hpid Hcid Hpc Hcn Hpn' Hq.
  unfold split_node.
  erewrite bind_inr; [| by apply get_node_Some].
  erewrite bind_inr; [| exact Hchoice]. cbv beta iota.
  set (PN := split_parent_node pid cid (parent N) pn).
  set (CN := split_child_node pid cid cn).
  set (t1 := match parent N with
             | None => set_root_id (Some pid) t | Some _ => t end).
  assert (Hstep : (match parent N with
     | Some p =>
         parent_node ← lift (add_parent (Some p) (Node_init uuid_p "" pid));
         match list_remove p pnb with
         | Some l => mret (parent_node, l)
         | None => raise ValueError
         end
     | None => modify (set_root_id (Some pid));;
               mret (Node_init uuid_p "" pid, pnb)
     end) t = (inr (set_parent (parent N) (Node_init uuid_p "" pid), pn), t1)).
  { unfold t1. destruct (parent N) as [q|].
    - rewrite Hpn. reflexivity.
    - subst pnb. reflexivity. }
  erewrite bind_inr; [| exact Hstep]. cbv beta iota.
  assert (HPN : add_child cid (add_children pn (set_parent (parent N) (Node_init uuid_p "" pid)))
                = PN).
  { unfold Node_init. rewrite decide_False by done. by rewrite decide_True by done. }
  rewrite HPN.
  assert (HCN : add_parent (Some pid) (Node_init uuid_c "" cid)
                = inr (set_parent (Some pid) (Node_init uuid_c "" cid))) by done.
  erewrite bind_inr; [| unfold lift; by rewrite HCN].
  assert (HCN' : add_children cn (set_parent (Some pid) (Node_init uuid_c "" cid)) = CN).
  { unfold Node_init. rewrite decide_False by done. by rewrite decide_True by done. }
  rewrite HCN'.
  assert (Hn1 : nodes t1 = nodes t) by (unfold t1; by destruct (parent N)).
  assert (Hr1 : root_id t1 = match parent N with None => Some pid | Some _ => root_id t end)
    by (unfold t1; by destruct (parent N)).
  erewrite bind_inr; [| apply pop_node_Some; rewrite Hn1; exact HN].
  erewrite bind_inr; [| reflexivity].
  erewrite bind_inr; [| reflexivity].
  set (m0 := <[cid := CN]> (<[pid := PN]> (delete old (nodes t)))).
  set (t2 := {| nodes := m0; root_id := root_id t1 |}).
  change (set_nodes (insert cid CN) (set_nodes (insert pid PN) (set_nodes (delete old) t1)))
    with {| nodes := <[cid := CN]> (<[pid := PN]> (delete old (nodes t1)));
            root_id := root_id t1 |}.
  rewrite Hn1. fold m0. fold t2.
  assert (Hm0 : ∀ x, is_Some (nodes t !! x) → x ≠ old → is_Some (m0 !! x)).
  { intros x Hx Hxo. unfold m0.
    destruct (decide (cid = x)) as [->|]; [rewrite lookup_insert_eq; eauto|].
    rewrite lookup_insert_ne by done.
    destruct (decide (pid = x)) as [->|]; [rewrite lookup_insert_eq; eauto|].
    by rewrite lookup_insert_ne, lookup_delete_ne. }
  assert (Hm0c : m0 !! cid = Some CN) by apply lookup_insert_eq.
  assert (Hm0p : m0 !! pid = Some PN).
  { unfold m0. rewrite lookup_insert_ne by done. apply lookup_insert_eq. }
  (* first call: the children of the child node *)
  assert (Hcid_cn : cid ∉ cn) by (intros Hin; apply Hcn in Hin; naive_solver).
  assert (Hpid_cn : pid ∉ cn) by (intros Hin; apply Hcn in Hin; naive_solver).
  erewrite bind_inr;
    [| eapply (_replace_node_inner t2 cid cid CN pid PN PN);
       [exact Hm0c | done | exact Hcid_cn
       | intros x Hx; apply Hm0; by apply Hcn in Hx as (? & ? & _)
       | exact Hm0p | exact Hpid_cn
       | unfold replace_child; by rewrite decide_True ] ].
  set (m1 := reparent cid cn m0).
  assert (Hm1p : m1 !! pid = Some PN).
  { unfold m1. by rewrite lookup_reparent, decide_False. }
  assert (Hid1 : <[pid := PN]> (reparent (identifier CN) (children CN) m0) = m1).
  { apply insert_id. exact Hm1p. }
  unfold set_nodes at 1. simpl nodes. simpl root_id. rewrite Hid1.
  set (t3 := {| nodes := m1; root_id := root_id t1 |}).
  (* second call: the children of the parent node *)
  assert (Hm1 : ∀ x, x ∈ pn ++ [cid] → is_Some (m1 !! x)).
  { intros x Hx. unfold m1. rewrite lookup_reparent.
    assert (is_Some (m0 !! x)) as [X HX].
    { apply elem_of_app in Hx as [Hx| ->%list_elem_of_singleton].
      - apply Hpn' in Hx as (? & ? & _). by apply Hm0.
      - by rewrite Hm0c. }
    rewrite HX. destruct (decide (x ∈ cn)); simpl; by eexists. }
  assert (Hpid_pn : pid ∉ pn ++ [cid]).
  { intros [Hin| ->%list_elem_of_singleton]%elem_of_app; [|done].
    apply Hpn' in Hin. naive_solver. }
  unfold split_tree, split_nodes. fold PN CN m0 m1.
  destruct (parent N) as [q|] eqn:HNq.
  - destruct (Hq q eq_refl) as (Hqo & Hqp & Hqc & Hqpn & Hqcn & Q & HQ & Hin).
    assert (HQ1 : m1 !! q = Some Q).
    { unfold m1. rewrite lookup_reparent, decide_False by done.
      unfold m0. by rewrite !lookup_insert_ne, lookup_delete_ne. }
    assert (Hq_pn : q ∉ pn ++ [cid]).
    { intros [?| ->%list_elem_of_singleton]%elem_of_app; done. }
    assert (HQ2 : reparent pid (pn ++ [cid]) m1 !! q = Some Q).
    { by rewrite lookup_reparent, decide_False. }
    rewrite HQ2.
    pose proof (replace_child_elem old pid Q (or_intror Hin)) as HQ'.
    destruct (replace_child old pid Q) as [|Q'] eqn:Hrep; [by destruct HQ'|].
    clear HQ'.
    erewrite (_replace_node_inner t3 pid old PN q Q Q');
      [| exact Hm1p | done | exact Hpid_pn | exact Hm1 | exact HQ1 | exact Hq_pn
       | exact Hrep].
    reflexivity.
  - erewrite (_replace_node_root t3 pid old PN);
      [| exact Hm1p | done | exact Hpid_pn | exact Hm1].
    reflexivity.
Qed.

Lemma set_parent_set_parent a b n : set_parent a (set_parent b n) = set_parent a n.
Proof. done. Qed.

Section split_lookup.
Context (old pid cid : string) (par : option string) (pn cn : list string).
Context (m : gmap string Node).
Context (Hpc : pid ≠ cid).
Context (Hpid : (pid ∉ pn) ∧ (pid ∉ cn)) (Hcid : (cid ∉ pn) ∧ (cid ∉ cn)).
Context (Hq : ∀ q, par = Some q →
      q ≠ old ∧ q ≠ pid ∧ q ≠ cid ∧ (q ∉ pn) ∧ (q ∉ cn)
      ∧ (∃ Q, m !! q = Some Q ∧ old ∈ children Q)).

Local Abbreviation PN := (split_parent_node pid cid par pn).
Local Abbreviation CN := (split_child_node pid cid cn).
Local Abbreviation m2 :=
  (reparent pid (pn ++ [cid])
     (reparent cid cn (<[cid := CN]> (<[pid := PN]> (delete old m))))).

Lemma split_m2_lookup k :
  m2 !! k
  = if decide (k = cid) then Some CN
    else if decide (k = pid) then Some PN
    else if decide (k = old) then None
    else (if decide (k ∈ pn) then set_parent (Some pid)
          else if decide (k ∈ cn) then set_parent (Some cid) else id) <$> m !! k.
Proof.
  destruct Hpid as [Hp1 Hp2], Hcid as [Hc1 Hc2].
  rewrite !lookup_reparent.
  destruct (decide (k = cid)) as [->|Hkc].
  { rewrite lookup_insert_eq. rewrite decide_True by set_solver.
    by rewrite (decide_False (P := cid ∈ cn)). }
  rewrite lookup_insert_ne by done.
  destruct (decide (k = pid)) as [->|Hkp].
  { rewrite lookup_insert_eq. rewrite (decide_False (P := pid ∈ pn ++ [cid])) by set_solver.
    by rewrite (decide_False (P := pid ∈ cn)). }
  rewrite lookup_insert_ne by done.
  destruct (decide (k = old)) as [->|Hko].
  { rewrite lookup_delete_eq.
    destruct (decide (old ∈ pn ++ [cid])), (decide (old ∈ cn)); done. }
  rewrite lookup_delete_ne by done.
  destruct (decide (k ∈ pn)) as [Hin|Hnin].
  - rewrite decide_True by set_solver.
    destruct (m !! k), (decide (k ∈ cn)); done.
  - rewrite decide_False by set_solver.
    destruct (m !! k), (decide (k ∈ cn)); done.
Qed.

Lemma split_nodes_lookup_child :
  split_nodes old pid cid par pn cn m !! cid = Some CN.
Proof.
  unfold split_nodes.
  assert (H2 : m2 !! cid = Some CN) by (by rewrite split_m2_lookup, decide_True).
  set (M2 := m2) in *.
  destruct par as [q|]; [|done].
  destruct (Hq q eq_refl) as (_ & _ & Hqc & _).
  destruct (M2 !! q) as [Q|]; [|done].
  destruct (replace_child old pid Q); [done|]. by rewrite lookup_insert_ne.
Qed.

Lemma split_nodes_lookup_parent :
  split_nodes old pid cid par pn cn m !! pid = Some PN.
Proof.
  unfold split_nodes.
  assert (H2 : m2 !! pid = Some PN).
  { rewrite split_m2_lookup, decide_False by done. by rewrite decide_True. }
  set (M2 := m2) in *.
  destruct par as [q|]; [|done].
  destruct (Hq q eq_refl) as (_ & Hqp & _).
  destruct (M2 !! q) as [Q|]; [|done].
  destruct (replace_child old pid Q); [done|]. by rewrite lookup_insert_ne.
Qed.

Lemma split_nodes_lookup_other k :
  k ≠ pid → k ≠ cid →
  split_nodes old pid cid par pn cn m !! k
  = if decide (k = old) then None
    else split_other old pid cid par pn cn k <$> m !! k.
Proof.
  intros Hkp Hkc. unfold split_nodes, split_other.
  assert (H2 : ∀ j, j ≠ pid → j ≠ cid →
    m2 !! j = if decide (j = old) then None
              else (if decide (j ∈ pn) then set_parent (Some pid)
                    else if decide (j ∈ cn) then set_parent (Some cid) else id)
                     <$> m !! j).
  { intros j Hjp Hjc. rewrite split_m2_lookup.
    rewrite decide_False by done. by rewrite decide_False by done. }
  set (M2 := m2) in *.
  destruct par as [q|] eqn:Hpar.
  - destruct (Hq q eq_refl) as (Hqo & Hqp & Hqc & Hqpn & Hqcn & Q & HQ & Hin).
    rewrite (H2 q Hqp Hqc). rewrite (decide_False (P := q = old)) by done.
    rewrite (decide_False (P := q ∈ pn)) by done.
    rewrite (decide_False (P := q ∈ cn)) by done. rewrite HQ. simpl.
    pose proof (replace_child_elem old pid Q (or_intror Hin)) as HQ'.
    destruct (replace_child old pid Q) as [|Q'] eqn:Hrep; [by destruct HQ'|].
    destruct (decide (k = q)) as [->|Hkq].
    + rewrite lookup_insert_eq. rewrite decide_False by done.
      rewrite HQ. simpl. rewrite (decide_False (P := q ∈ pn)) by done.
      rewrite (decide_False (P := q ∈ cn)) by done.
      rewrite decide_True by done. by rewrite Hrep.
    + rewrite lookup_insert_ne by done. rewrite (H2 k Hkp Hkc).
      case_decide; [done|]. destruct (m !! k) as [n|]; [|done]. simpl.
      destruct (decide (k ∈ pn)); [done|]. destruct (decide (k ∈ cn)); [done|].
      rewrite decide_False by congruence. done.
  - rewrite (H2 k Hkp Hkc). case_decide; [done|].
    destruct (m !! k) as [n|]; [|done]. simpl.
    destruct (decide (k ∈ pn)); [done|]. by destruct (decide (k ∈ cn)).
Qed.
End split_lookup.

Section split_tree_wf.
Context (t : TreeStructure) (old pid cid : string) (N : Node) (pn cn : list string).
Context (Hwf : wf t) (HN : nodes t !! old = Some N).
Context (Hpc : pid ≠ cid).
Context (Hnewp : nodes t !! pid = None ∨ pid = old).
Context (Hnewc : nodes t !! cid = None ∨ cid = old).
Context (Hperm : pn ++ cn ≡ₚ children N).

Local Abbreviation PN := (split_parent_node pid cid (parent N) pn).
Local Abbreviation CN := (split_child_node pid cid cn).
Local Abbreviation other := (split_other old pid cid (parent N) pn cn).
Local Abbreviation final := (split_nodes old pid cid (parent N) pn cn (nodes t)).

Lemma split_key_new k : is_Some (nodes t !! k) → k ≠ old → k ≠ pid ∧ k ≠ cid.
Proof.
  intros [n Hn] Hko. split; intros ->.
  - destruct Hnewp; congruence.
  - destruct Hnewc; congruence.
Qed.

Lemma split_children x : x ∈ pn ∨ x ∈ cn ↔ x ∈ children N.
Proof. rewrite <- Hperm, elem_of_app. done. Qed.

Lemma split_child_facts x :
  x ∈ children N →
  ∃ X, nodes t !! x = Some X ∧ parent X = Some old ∧ x ≠ old ∧ x ≠ pid ∧ x ≠ cid.
Proof.
  intros Hx. destruct (wf_children _ Hwf _ _ _ HN Hx) as (X & HX & HXp).
  destruct (wf_depth _ Hwf) as [depth Hd].
  assert (x ≠ old) by (intros ->; specialize (Hd _ _ _ HX HXp); lia).
  exists X. repeat split; try done; by eapply split_key_new.
Qed.

Lemma split_NoDup : NoDup pn ∧ NoDup cn ∧ ∀ x, x ∈ pn → x ∈ cn → False.
Proof.
  pose proof (wf_nodup _ Hwf _ _ HN) as Hnd. rewrite <- Hperm in Hnd.
  apply NoDup_app in Hnd as (? & Hdisj & ?). naive_solver.
Qed.

Lemma split_grandparent q :
  parent N = Some q →
  q ≠ old ∧ q ≠ pid ∧ q ≠ cid ∧ (q ∉ pn) ∧ (q ∉ cn)
  ∧ (∃ Q, nodes t !! q = Some Q ∧ old ∈ children Q).
Proof.
  intros HNq. destruct (wf_depth _ Hwf) as [depth Hd].
  destruct (wf_parent _ Hwf _ _ _ HN HNq) as (Q & HQ & Hin).
  pose proof (Hd _ _ _ HN HNq) as Hd1.
  assert (q ≠ old) by (intros ->; lia).
  destruct (split_key_new q) as [? ?]; [eauto|done|].
  assert (Hnc : q ∉ children N).
  { intros (X & HX & HXp & _)%split_child_facts.
    rewrite HQ in HX. simplify_eq. specialize (Hd _ _ _ HQ HXp). lia. }
  repeat split; try done; [| |eauto].
  - intros Hq. apply Hnc, split_children. by left.
  - intros Hq. apply Hnc, split_children. by right.
Qed.

Lemma split_new_not_child : ((pid ∉ pn) ∧ (pid ∉ cn)) ∧ ((cid ∉ pn) ∧ (cid ∉ cn)).
Proof.
  repeat split; intros Hin;
    (assert (Hc : pid ∈ children N ∨ cid ∈ children N)
       by (rewrite <- !split_children; tauto));
    destruct Hc as [Hc|Hc]; apply split_child_facts in Hc; naive_solver.
Qed.

Lemma split_final_parent : final !! pid = Some PN.
Proof.
  destruct split_new_not_child as [? ?].
  apply split_nodes_lookup_parent; auto using split_grandparent.
Qed.

Lemma split_final_child : final !! cid = Some CN.
Proof.
  destruct split_new_not_child as [? ?].
  apply split_nodes_lookup_child; auto using split_grandparent.
Qed.

Lemma split_final_other k :
  k ≠ pid → k ≠ cid →
  final !! k = if decide (k = old) then None else other k <$> nodes t !! k.
Proof.
  destruct split_new_not_child as [? ?].
  apply split_nodes_lookup_other; auto using split_grandparent.
Qed.

Lemma split_final_inv k n :
  final !! k = Some n →
  (k = pid ∧ n = PN) ∨ (k = cid ∧ n = CN)
  ∨ (k ≠ pid ∧ k ≠ cid ∧ k ≠ old ∧ ∃ n0, nodes t !! k = Some n0 ∧ n = other k n0).
Proof.
  intros Hk. destruct (decide (k = pid)) as [->|Hkp].
  { left. rewrite split_final_parent in Hk. by simplify_eq. }
  destruct (decide (k = cid)) as [->|Hkc].
  { right; left. rewrite split_final_child in Hk. by simplify_eq. }
  right; right. rewrite split_final_other in Hk by done.
  case_decide; [done|].
  destruct (nodes t !! k) as [n0|] eqn:Hn0; [|done]. simpl in Hk. simplify_eq.
  eauto 10.
Qed.

Lemma split_final_survivor k n0 :
  nodes t !! k = Some n0 → k ≠ old → final !! k = Some (other k n0).
Proof.
  intros Hk Hko. destruct (split_key_new k) as [? ?]; [eauto|done|].
  rewrite split_final_other by done.
  rewrite decide_False by done. by rewrite Hk.
Qed.

Lemma split_other_identifier k n0 : identifier (other k n0) = identifier n0.
Proof.
  unfold split_other. repeat case_decide; try done.
  unfold replace_child. case_decide; [done|]. by destruct (child_index old n0).
Qed.

Lemma split_other_parent k n0 :
  parent (other k n0)
  = if decide (k ∈ pn) then Some pid
    else if decide (k ∈ cn) then Some cid else parent n0.
Proof.
  unfold split_other. repeat case_decide; try done.
  unfold replace_child. case_decide; [done|]. by destruct (child_index old n0).
Qed.

Lemma split_other_children_same k n0 :
  parent N ≠ Some k → children (other k n0) = children n0.
Proof. intros Hq. unfold split_other. by repeat case_decide. Qed.

Lemma split_other_children_grandparent q Q :
  parent N = Some q → nodes t !! q = Some Q →
  NoDup (children (other q Q))
  ∧ ∀ x, x ∈ children (other q Q) ↔ x = pid ∨ (x ∈ children Q ∧ x ≠ old).
Proof.
  intros Hq HQ.
  destruct (split_grandparent _ Hq) as (Hqo & Hqp & Hqc & Hqpn & Hqcn & Q' & HQ' & Hin).
  assert (Q' = Q) as -> by congruence.
  pose proof (wf_nodup _ Hwf _ _ HQ) as Hnd.
  unfold split_other. rewrite decide_False by done. rewrite decide_False by done.
  rewrite decide_True by done.
  unfold replace_child. case_decide as Hop.
  - split; [done|]. intros x.
    destruct (decide (x = pid)) as [->|]; [|naive_solver].
    split; [by left|]. intros _. by rewrite <- Hop.
  - unfold child_index. destruct (list_index_elem _ _ Hin) as (i & -> & Hi). simpl.
    split.
    + eapply NoDup_insert_fresh; [done..|].
      intros Hin'. destruct (wf_children _ Hwf _ _ _ HQ Hin') as (X & HX & HXp).
      destruct Hnewp; congruence.
    + by apply elem_of_insert_NoDup.
Qed.

Lemma split_tree_wf : wf (split_tree old pid cid (parent N) pn cn t).
Proof.
  pose proof split_children as Hchn.
  pose proof split_child_facts as Hcf.
  destruct split_NoDup as (Hndp & Hndc & Hdisj).
  pose proof split_grandparent as Hgp.
  destruct split_new_not_child as [[Hp1 Hp2] [Hc1 Hc2]].
  pose proof Hwf as [(r & nr & Hr & Hnr & Hpr) Hid Hone Hch Hpa Hnd (depth & Hdepth)].
  assert (Hnotchild : ∀ x X k, nodes t !! x = Some X → parent X = Some k → k ≠ old →
                               (x ∉ pn) ∧ (x ∉ cn)).
  { intros x X k HX HXk Hko.
    assert (x ∉ children N); [|rewrite <- Hchn in *; tauto].
    intros (X' & HX' & HXp' & _)%Hcf. congruence. }
  split; simpl.
  - (* the root *)
    destruct (decide (parent N = None)) as [HNq|HNq].
    + exists pid, PN. split; [by rewrite HNq|].
      split; [apply split_final_parent|done].
    + assert (r ≠ old) by (intros ->; congruence).
      exists r, (other r nr). split; [by destruct (parent N)|].
      split; [by apply split_final_survivor|].
      rewrite split_other_parent.
      assert (r ∉ children N) by (intros (X & HX & HXp & _)%Hcf; congruence).
      rewrite !decide_False; [done| |]; rewrite <- Hchn in *; tauto.
  - (* keys are identifiers *)
    intros k n [[-> ->]|[[-> ->]|(Hkp & Hkc & Hko & n0 & Hn0 & ->)]]%split_final_inv;
      [done|done|].
    rewrite split_other_identifier. eauto.
  - (* one parentless node *)
    intros k n [[-> ->]|[[-> ->]|(Hkp & Hkc & Hko & n0 & Hn0 & ->)]]%split_final_inv.
    + simpl. by intros ->.
    + done.
    + rewrite split_other_parent. repeat case_decide; try done. intros Hn0p.
      pose proof (Hone _ _ Hn0 Hn0p) as Hrk.
      destruct (decide (parent N = None)) as [HNq|HNq].
      * pose proof (Hone _ _ HN HNq). congruence.
      * by destruct (parent N).
  - (* children exist and point back *)
    intros k n x [[-> ->]|[[-> ->]|(Hkp & Hkc & Hko & n0 & Hn0 & ->)]]%split_final_inv Hin.
    + simpl in Hin. apply elem_of_app in Hin as [Hin| ->%list_elem_of_singleton].
      * destruct (Hcf x) as (X & HX & HXp & Hxo & Hxp & Hxc); [apply Hchn; by left|].
        exists (other x X). split; [by apply split_final_survivor|].
        rewrite split_other_parent. by rewrite decide_True.
      * exists CN. split; [apply split_final_child|done].
    + simpl in Hin.
      destruct (Hcf x) as (X & HX & HXp & Hxo & Hxp & Hxc); [apply Hchn; by right|].
      exists (other x X). split; [by apply split_final_survivor|].
      rewrite split_other_parent. rewrite decide_False by naive_solver.
      by rewrite decide_True.
    + destruct (decide (x = pid)) as [->|Hxp].
      * exists PN. split; [apply split_final_parent|]. simpl.
        destruct (decide (parent N = Some k)) as [|HNk]; [done|].
        rewrite split_other_children_same in Hin by done.
        destruct (Hch _ _ _ Hn0 Hin) as (X & HX & HXp).
        destruct Hnewp as [?| ->]; congruence.
      * assert (Hin0 : x ∈ children n0 ∧ x ≠ old).
        { destruct (decide (parent N = Some k)) as [HNk|HNk].
          - apply (split_other_children_grandparent _ _ HNk Hn0) in Hin. naive_solver.
          - rewrite split_other_children_same in Hin by done. split; [done|].
            intros ->. destruct (Hch _ _ _ Hn0 Hin) as (X & HX & HXp). congruence. }
        destruct Hin0 as [Hin0 Hxo].
        destruct (Hch _ _ _ Hn0 Hin0) as (X & HX & HXp).
        exists (other x X). split; [by apply split_final_survivor|].
        rewrite split_other_parent.
        destruct (Hnotchild _ _ _ HX HXp Hko).
        by rewrite !decide_False.
  - (* parents exist and list the child *)
    intros x m k [[-> ->]|[[-> ->]|(Hxp & Hxc & Hxo & X & HX & ->)]]%split_final_inv Hpar.
    + simpl in Hpar. destruct (Hgp _ Hpar) as (Hko & Hkp & Hkc & _ & _ & Q & HQ & HoQ).
      exists (other k Q). split; [by apply split_final_survivor|].
      apply (split_other_children_grandparent _ _ Hpar HQ). by left.
    + simpl in Hpar. assert (k = pid) as -> by congruence.
      exists PN. split; [apply split_final_parent|]. simpl.
      apply elem_of_app. right. by apply list_elem_of_singleton.
    + rewrite split_other_parent in Hpar.
      destruct (decide (x ∈ pn)) as [Hxpn|Hxpn].
      { assert (k = pid) as -> by congruence.
        exists PN. split; [apply split_final_parent|]. simpl.
        apply elem_of_app. by left. }
      destruct (decide (x ∈ cn)) as [Hxcn|Hxcn].
      { assert (k = cid) as -> by congruence.
        exists CN. split; [apply split_final_child|done]. }
      destruct (Hpa _ _ _ HX Hpar) as (K & HK & Hin).
      assert (k ≠ old).
      { intros ->. assert (K = N) as -> by congruence.
        apply Hchn in Hin. tauto. }
      exists (other k K). split; [by apply split_final_survivor|].
      destruct (decide (parent N = Some k)) as [HNk|HNk].
      * apply (split_other_children_grandparent _ _ HNk HK). by right.
      * by rewrite split_other_children_same.
  - (* no duplicate children *)
    intros k n [[-> ->]|[[-> ->]|(Hkp & Hkc & Hko & n0 & Hn0 & ->)]]%split_final_inv.
    + simpl. apply NoDup_app. split; [done|]. split; [|apply NoDup_singleton].
      intros x Hx ->%list_elem_of_singleton. done.
    + done.
    + destruct (decide (parent N = Some k)) as [HNk|HNk].
      * by apply (split_other_children_grandparent _ _ HNk Hn0).
      * rewrite split_other_children_same by done. eauto.
  - (* no cycle *)
    exists (λ k, if decide (k = pid) then 2 * depth old
                 else if decide (k = cid) then 2 * depth old + 1
                 else 2 * depth k).
    intros x m k [[-> ->]|[[-> ->]|(Hxp & Hxc & Hxo & X & HX & ->)]]%split_final_inv Hpar.
    + simpl in Hpar. destruct (Hgp _ Hpar) as (Hko & Hkp & Hkc & _ & _ & Q & HQ & HoQ).
      rewrite (decide_False (P := k = pid)) by done.
      rewrite (decide_False (P := k = cid)) by done.
      rewrite (decide_True (P := pid = pid)) by done.
      pose proof (Hdepth _ _ _ HN Hpar). lia.
    + simpl in Hpar. assert (k = pid) as -> by congruence.
      rewrite (decide_True (P := pid = pid)) by done.
      rewrite (decide_False (P := cid = pid)) by done.
      rewrite (decide_True (P := cid = cid)) by done. lia.
    + rewrite split_other_parent in Hpar.
      rewrite (decide_False (P := x = pid)) by done.
      rewrite (decide_False (P := x = cid)) by done.
      destruct (decide (x ∈ pn)) as [Hxpn|Hxpn].
      { assert (k = pid) as -> by congruence.
        rewrite (decide_True (P := pid = pid)) by done.
        destruct (Hcf x) as (X' & HX' & HXp' & _); [apply Hchn; by left|].
        pose proof (Hdepth _ _ _ HX' HXp'). lia. }
      destruct (decide (x ∈ cn)) as [Hxcn|Hxcn].
      { assert (k = cid) as -> by congruence.
        rewrite (decide_False (P := cid = pid)) by done.
        rewrite (decide_True (P := cid = cid)) by done.
        destruct (Hcf x) as (X' & HX' & HXp' & _); [apply Hchn; by right|].
        pose proof (Hdepth _ _ _ HX' HXp'). lia. }
      destruct (Hpa _ _ _ HX Hpar) as (K & HK & Hin).
      assert (k ≠ old).
      { intros ->. assert (K = N) as -> by congruence.
        apply Hchn in Hin. tauto. }
      destruct (split_key_new k) as [? ?]; [eauto|done|].
      rewrite (decide_False (P := k = pid)) by done.
      rewrite (decide_False (P := k = cid)) by done.
      pose proof (Hdepth _ _ _ HX Hpar). lia.
Qed.
End split_tree_wf.

Lemma list_remove_Permutation x l l' : list_remove x l = Some l' → l ≡ₚ x :: l'.
Proof.
  revert l'. induction l as [|y l IH]; intros l' Hr; [done|].
  simpl in Hr. destruct (decide (y = x)) as [->|Hne]; [by simplify_eq|].
  destruct (list_remove x l) as [r|]; [|done]. simplify_eq.
  rewrite (IH _ eq_refl). apply Permutation_swap.
Qed.

Lemma split_node_missing uuid_p uuid_c t old n1 nb1 n2 nb2 :
  nodes t !! old = None →
  split_node uuid_p uuid_c old n1 nb1 n2 nb2 t = (inl KeyError, t).
Proof.
  intros H. unfold split_node. erewrite bind_inl; [done|]. by apply get_node_None.
Qed.

Lemma elem_of_Some_fmap (q : string) (l : list string) : Some q ∈ (Some <$> l) ↔ q ∈ l.
Proof.
  rewrite list_elem_of_fmap. split; [|eauto]. intros (y & Hy & Hin). by simplify_eq.
Qed.

(** On a well-formed tree [split_node] succeeds and yields [split_tree], as
    soon as the two lists share out the neighbours of the old node and the
    two identifiers are new (or reuse the old one). *)
Lemma split_node_shared uuid_p uuid_c t old N n1 nb1 n2 nb2 :
  wf t → nodes t !! old = Some N →
  n1 ≠ "" → n2 ≠ "" → n1 ≠ n2 →
  nodes t !! n1 = None ∨ n1 = old →
  nodes t !! n2 = None ∨ n2 = old →
  nb1 ++ nb2 ≡ₚ neighbouring_nodes N →
  ∃ pid cid pn cn,
    split_node uuid_p uuid_c old n1 nb1 n2 nb2 t
    = (inr tt, split_tree old pid cid (parent N) pn cn t)
    ∧ pid ≠ cid
    ∧ (nodes t !! pid = None ∨ pid = old)
    ∧ (nodes t !! cid = None ∨ cid = old)
    ∧ pn ++ cn ≡ₚ children N.
Proof.
  intros Hwf HN Hn1 Hn2 Hn12 Hnew1 Hnew2 Hperm.
  assert (∃ pid cid pnb pn cn,
    (if is_root N || bool_decide (parent N ∈ (Some <$> nb1))
     then mret (n1, n2, nb1, nb2)
     else if bool_decide (parent N ∈ (Some <$> nb2))
     then mret (n2, n1, nb2, nb1)
     else raise AssertionError) t = (inr (pid, cid, pnb, cn), t)
    ∧ match parent N with None => pn = pnb | Some q => list_remove q pnb = Some pn end
    ∧ pid ≠ "" ∧ cid ≠ "" ∧ pid ≠ cid
    ∧ (nodes t !! pid = None ∨ pid = old)
    ∧ (nodes t !! cid = None ∨ cid = old)
    ∧ pn ++ cn ≡ₚ children N) as (pid & cid & pnb & pn & cn & Hchoice & Hpn & Hrest).
  { unfold neighbouring_nodes, is_root in *.
    destruct (parent N) as [q|] eqn:HNq; simpl.
    - destruct (decide (q ∈ nb1)) as [Hq1|Hq1].
      + rewrite bool_decide_eq_true_2 by (by apply elem_of_Some_fmap).
        destruct (list_remove_elem _ _ Hq1) as [pn Hpn].
        exists n1, n2, nb1, pn, nb2. repeat split; try done.
        apply list_remove_Permutation in Hpn. rewrite Hpn in Hperm.
        by apply (inj (cons q)) in Hperm.
      + rewrite bool_decide_eq_false_2 by (by rewrite elem_of_Some_fmap).
        assert (Hq2 : q ∈ nb2).
        { assert (Hq12 : q ∈ nb1 ++ nb2) by (rewrite Hperm; left).
          by apply elem_of_app in Hq12 as [?|?]. }
        rewrite bool_decide_eq_true_2 by (by apply elem_of_Some_fmap).
        destruct (list_remove_elem _ _ Hq2) as [pn Hpn].
        exists n2, n1, nb2, pn, nb1. repeat split; try done; try congruence.
        apply list_remove_Permutation in Hpn. rewrite Hpn in Hperm.
        rewrite <- Permutation_middle in Hperm.
        apply (inj (cons q)) in Hperm. by rewrite (comm (++)).
    - exists n1, n2, nb1, nb1, nb2. done. }
  destruct Hrest as (Hpid & Hcid & Hpc & Hnewp & Hnewc & Hperm').
  exists pid, cid, pn, cn. split; [|done].
  assert (Hfacts : ∀ x, x ∈ children N →
            is_Some (nodes t !! x) ∧ x ≠ old ∧ x ≠ pid ∧ x ≠ cid).
  { intros x Hx.
    destruct (split_child_facts t old pid cid N Hwf HN Hnewp Hnewc x Hx)
      as (X & HX & _ & ? & ? & ?). eauto. }
  pose proof (split_children N pn cn Hperm') as Hchn.
  eapply split_node_ok; eauto.
  - intros x Hx. apply Hfacts, Hchn. by right.
  - intros x Hx. apply Hfacts, Hchn. by left.
  - exact (split_grandparent t old pid cid N pn cn Hwf HN Hnewp Hnewc Hperm').
Qed.

Lemma split_node_wf uuid_p uuid_c t old n1 nb1 n2 nb2 :
  wf t →
  n1 ≠ "" → n2 ≠ "" → n1 ≠ n2 →
  nodes t !! n1 = None ∨ n1 = old →
  nodes t !! n2 = None ∨ n2 = old →
  (∀ N, nodes t !! old = Some N → nb1 ++ nb2 ≡ₚ neighbouring_nodes N) →
  wf (split_node uuid_p uuid_c old n1 nb1 n2 nb2 t).2.
Proof.
  intros Hwf Hn1 Hn2 Hn12 Hnew1 Hnew2 Hperm.
  destruct (nodes t !! old) as [N|] eqn:HN; [| by rewrite split_node_missing].
  destruct (split_node_shared uuid_p uuid_c t old N n1 nb1 n2 nb2)
    as (pid & cid & pn & cn & -> & Hpc & Hnewp & Hnewc & Hperm'); auto.
  simpl. by apply split_tree_wf.
Qed.

(** ** The root invariant *)

Lemma proper_call_wf t c : wf t → proper_call t c → wf (after c t).
Proof.
  intros Hwf Hc. unfold after. destruct c; simpl in *.
  - destruct (wf_root _ Hwf) as (r & _ & Hr & _).
    by rewrite (add_root_rooted _ _ _ Hr).
  - by apply add_child_to_parent_wf.
  - apply add_parent_to_root_wf; tauto.
  - by apply combine_nodes_wf.
  - destruct Hc as (? & ? & ? & ? & ? & ?). by apply split_node_wf.
Qed.

Lemma proper_call_empty c :
  proper_call empty_tree c → after c empty_tree = empty_tree ∨ wf (after c empty_tree).
Proof.
  intros Hc. unfold after. destruct c; simpl in *.
  - right. by apply add_root_wf.
  - left. by rewrite add_child_to_parent_no_parent.
  - destruct Hc as [_ [r Hr]]. done.
  - left. by rewrite combine_nodes_missing by (by left).
  - left. by rewrite split_node_missing.
Qed.

Lemma properly_reachable_wf t : properly_reachable t → t = empty_tree ∨ wf t.
Proof.
  induction 1 as [|t c Hreach [->|Hwf] Hc]; [by left| |].
  - by apply proper_call_empty.
  - right. by apply proper_call_wf.
Qed.

Lemma reachable_run_calls cs t : reachable t → reachable (run_calls cs t).
Proof.
  revert t. induction cs as [|c cs IH]; intros t Ht; [done|].
  apply IH. by constructor.
Qed.

(** Calls outside the intended use break the invariant without any
    exception: a root or a new root that already has a parent, and a split
    whose neighbour lists hand the parent to both halves. *)
Example root_with_parent :
  let stale := set_parent (Some "x") (Node_init "" "" "root") in
  succeeded (add_root stale empty_tree) = true
  ∧ parentless (after (CallAddRoot stale) empty_tree) = [].
Proof. by vm_compute. Qed.

Example new_root_with_parent :
  let stale := set_parent (Some "x") (Node_init "" "" "top") in
  let t := run_calls chain_calls empty_tree in
  succeeded (add_parent_to_root stale t) = true
  ∧ parentless (after (CallAddParentToRoot stale) t) = [].
Proof. by vm_compute. Qed.

Example split_with_parent_twice :
  let t := run_calls chain_calls empty_tree in
  succeeded (split_node "" "" "a" "a" ["root"] "x" ["root"; "b"] t) = true
  ∧ parentless (after (CallSplitNode "" "" "a" "a" ["root"] "x" ["root"; "b"]) t) = [].
Proof. by vm_compute. Qed.

(** So does a split that gives both halves one identifier, or an empty
    identifier to one of them: in the first case the second half overwrites
    the first and is left as its own parent (the call ends in [ValueError]
    after the damage is done); in the second the half is stored under the
    empty key with the identifier [uuid1()] gave it, and [root_id] is the
    empty string. *)
Example split_identifiers_needed :
  let same := CallSplitNode "u1" "u2" "root" "x" ["c1"] "x" ["c2"] in
  let empty := CallSplitNode "u1" "u2" "root" "" ["c1"] "down" ["c2"] in
  parentless (after same chain_tree) = []
  ∧ succeeded (run_call empty chain_tree) = true
  ∧ root_id (after empty chain_tree) = Some ""
  ∧ identifier <$> nodes (after empty chain_tree) !! "" = Some "u1".
Proof. by vm_compute. Qed.

(** C7, as stated, fails: every tree reachable from the empty tree through
    the mutators would have exactly one parentless node named by [root_id].
    Build the chain root - a - b - c from fresh nodes and call
    [combine_nodes("b", "c", "root")]: every call returns normally, the merged
    node overwrites the root, and no node without a parent is left. *)
Lemma tree_one_root_clobbered :
  reachable clobbered_tree
  ∧ all_succeed (chain_calls ++ [CallCombineNodes "b" "c" "root"]) empty_tree = true
  ∧ parentless clobbered_tree = []
  ∧ ¬ one_root clobbered_tree.
Proof.
  split; [apply reachable_run_calls; constructor|].
  split; [by vm_compute|]. split; [by vm_compute|].
  intros (r & nr & Hr & Hnr & _ & Hp & _).
  vm_compute in Hr. injection Hr as <-.
  vm_compute in Hnr. injection Hnr as <-. discriminate Hp.
Qed.

(** C7, amended: every non-empty tree reached from the empty tree by proper
    calls of [add_root], [add_child_to_parent], [add_parent_to_root],
    [combine_nodes] and [split_node] has exactly one node without a parent,
    its identifier is [root_id], and every further proper call keeps it so.
    A call is proper when the node handed to [add_root], [add_child_to_parent]
    or [add_parent_to_root] has no parent and no children; when
    [add_parent_to_root] is called on a tree that has a root; when the
    identifier of the node made by [combine_nodes] is new to the tree or that
    of one of the two nodes combined; and when the two identifiers given to
    [split_node] are not empty, differ from each other, each is new to the
    tree or that of the node split, and the two neighbour lists together hold
    exactly the neighbours of the node split. *)
Theorem tree_has_one_root t :
  properly_reachable t → t ≠ empty_tree →
  one_root t ∧ ∀ c, proper_call t c → one_root (after c t).
Proof.
  intros Hreach Hne.
  destruct (properly_reachable_wf t Hreach) as [?|Hwf]; [done|].
  split; [by apply wf_one_root_of|].
  intros c Hc. by apply wf_one_root_of, proper_call_wf.
Qed.

Lemma tree_has_one_root_witness :
  let calls :=
    chain_calls
    ++ [ CallSplitNode "" "" "a" "up" ["root"] "down" ["b"];
         CallCombineNodes "up" "down" "a";
         CallAddParentToRoot (Node_init "" "" "top") ] in
  let t := run_calls calls empty_tree in
  all_succeed calls empty_tree = true
  ∧ one_root t
  ∧ one_root (after (CallSplitNode "" "" "b" "b" ["a"] "d" ["c"]) t).
Proof.
  intros calls t. split; [by vm_compute|].
  assert (properly_reachable t) as Hreach.
  { unfold t, calls, chain_calls, run_calls. simpl foldl.
    repeat match goal with
           | |- properly_reachable (after ?c ?t0) => apply properly_reachable_call
           end.
    - apply properly_reachable_empty.
    - split; reflexivity.
    - split; reflexivity.
    - split; reflexivity.
    - split; reflexivity.
    - split_and!; [done|done|done|by left|by left|].
      intros N HN. vm_compute in HN. injection HN as <-. reflexivity.
    - by left.
    - split; [split; reflexivity|]. vm_compute. by eexists. }
  assert (t ≠ empty_tree) as Hne.
  { intros H. apply (f_equal root_id) in H. vm_compute in H. discriminate H. }
  destruct (tree_has_one_root t Hreach Hne) as [Hone Hnext].
  split; [exact Hone|]. apply Hnext.
  split_and!; [done|done|done|by right|by left|].
  intros N HN. vm_compute in HN. injection HN as <-. reflexivity.
Defined.

(** ** The tree as the tests of test_ttn.py see it *)

Example test_add_root :
  root_id (after (CallAddRoot (Node_init "" "" "orig_root")) empty_tree) = Some "orig_root"
  ∧ size (nodes (after (CallAddRoot (Node_init "" "" "orig_root")) empty_tree)) = 1.
Proof. by vm_compute. Qed.

Example test_add_child_to_parent :
  let t := run_calls basics_calls empty_tree in
  size (nodes t) = 3
  ∧ links t "child1" = Some (Some "orig_root", ["child2"])
  ∧ links t "child2" = Some (Some "child1", [])
  ∧ links t "orig_root" = Some (None, ["child1"]).
Proof. by vm_compute. Qed.

Example test_add_parent_to_root :
  let t := run_calls (basics_calls ++ [CallAddParentToRoot (Node_init "" "" "new_root")])
             empty_tree in
  root_id t = Some "new_root" ∧ size (nodes t) = 4
  ∧ links t "new_root" = Some (None, ["orig_root"])
  ∧ links t "orig_root" = Some (Some "new_root", ["child1"]).
Proof. by vm_compute. Qed.

Example test_tensor_contraction_leaf_only_child :
  let t := after (CallCombineNodes "id8" "id9" "") nine_nodes in
  links t "id8contrid9" = Some (Some "id1", [])
  ∧ links t "id1" = Some (None, ["id2"; "id8contrid9"]).
Proof. by vm_compute. Qed.

Example test_tensor_contraction_leaf_not_only_child :
  let t := after (CallCombineNodes "id5" "id7" "") nine_nodes in
  links t "id5contrid7" = Some (Some "id2", ["id6"])
  ∧ links t "id6" = Some (Some "id5contrid7", []).
Proof. by vm_compute. Qed.

Example test_tensor_contraction_middle_node :
  let t := after (CallCombineNodes "id2" "id5" "") nine_nodes in
  links t "id2contrid5" = Some (Some "id1", ["id3"; "id6"; "id7"]).
Proof. by vm_compute. Qed.

Example test_tensor_contraction_root :
  let t := after (CallCombineNodes "id1" "id2" "") nine_nodes in
  links t "id1contrid2" = Some (None, ["id8"; "id3"; "id5"])
  ∧ root_id t = Some "id1contrid2".
Proof. by vm_compute. Qed.

(** ** Construction *)

(** C8: a [TimeEvolution] with a time step or a final time that is not
    positive is refused with [ValueError] by the constructor, so no object
    exists on which a time step could run; a [TrotterSplitting] whose
    splitting list holds an item that is neither an [int] nor a tuple is
    refused with [TypeError] by the constructor. *)
Theorem construction_fails_fast {State Operator TensorProduct : Type}
    (initial_state : State) (time_step_size final_time : Qc)
    (operators : Operator + list Operator)
    (tps : list TensorProduct) (items : list pyval) (item : pyval)
    (swaps_before swaps_after : option (list SWAPlist)) :
  (time_step_size ≤ 0)%Qc ∨ (final_time ≤ 0)%Qc →
  item ∈ items → isinstance_int item = false → isinstance_tuple item = false →
  TimeEvolution_init initial_state time_step_size final_time operators = inl ValueError
  ∧ TrotterSplitting_init tps (Some items) swaps_before swaps_after = inl TypeError.
Proof.
  intros Htime Hin Hint Htup. split.
  - unfold TimeEvolution_init.
    destruct (decide (time_step_size ≤ 0)%Qc) as [Hs|Hs].
    + by rewrite bool_decide_eq_true_2.
    + rewrite bool_decide_eq_false_2 by done.
      destruct Htime as [?|Hf]; [done|]. by rewrite bool_decide_eq_true_2.
  - unfold TrotterSplitting_init.
    assert (Hnorm : ∀ acc, normalise_splitting items acc = inl TypeError).
    { clear swaps_before swaps_after. induction items as [|x xs IH]; intros acc.
      - by apply elem_of_nil in Hin.
      - simpl. apply elem_of_cons in Hin as [<-|Hin].
        + by rewrite Hint, Htup.
        + destruct (isinstance_int x); [by apply IH|].
          destruct (isinstance_tuple x); [by apply IH|done]. }
    by rewrite Hnorm.
Qed.

Lemma construction_fails_fast_witness :
  TimeEvolution_init (State := unit) (Operator := unit) tt 0%Qc 1%Qc (inr [])
    = inl ValueError
  ∧ TrotterSplitting_init (TensorProduct := unit) [tt]
      (Some [PyInt 0; PyStr "1"]) None None = inl TypeError.
Proof.
  apply (construction_fails_fast (State := unit) (Operator := unit)
           (TensorProduct := unit) tt 0%Qc 1%Qc (inr []) [tt]
           [PyInt 0; PyStr "1"] (PyStr "1") None None).
  - left. by vm_compute.
  - apply elem_of_cons. right. apply elem_of_cons. by left.
  - reflexivity.
  - reflexivity.
Defined.

(** C10: [SWAPlist()] raises [TypeError], because the constructor iterates
    its argument before it tests it for [None]; and so does [TrotterStep]
    whenever [swaps_before] or [swaps_after] is left at its default [None]. *)
Theorem SWAPlist_default_raises {TensorProduct : Type} (operator : TensorProduct)
    (factor : Qc) (swaps_before : SWAPlist) (swaps_after : option SWAPlist) :
  SWAPlist_init None = inl TypeError
  ∧ TrotterStep_init operator factor None swaps_after = inl TypeError
  ∧ TrotterStep_init operator factor (Some swaps_before) None = inl TypeError.
Proof. done. Qed.

(** ** The unfinished transfer tensor *)

(** C9: [transfer_tensor] returns [None] for every node: it computes the
    conjugated copy and the new identifier and tag, and ends there. *)
Theorem transfer_tensor_returns_None {T} `{TensorKernel T} (node : TensorNode T)
    (new_tag new_identifier : option string) :
  transfer_tensor node new_tag new_identifier = None.
Proof. reflexivity. Qed.

(** ** The direction of time *)






(** ** The update state machine *)

Lemma assert_center_ok (e : TDVP) node_id :
  orthogonality_center_id (tdvp_state e) = Some node_id →
  assert_center node_id e = (inr tt, e).
Proof. intros Hc. unfold assert_center. by rewrite decide_True. Qed.

Lemma assert_center_fails (e : TDVP) node_id :
  orthogonality_center_id (tdvp_state e) ≠ Some node_id →
  assert_center node_id e = (inl AssertionError, e).
Proof. intros Hc. unfold assert_center. by rewrite decide_False. Qed.





(** C4: a site update, a link update or a move along a path that is asked
    for while the orthogonality center is not at the node the operation starts
    from fails with the state error ([AssertionError]) and leaves the engine,
    its orthogonality center included, as it was. *)
Theorem wrong_center_is_refused `{TDVPKernel} (e : TDVP)
    (node_id next_node_id : string) (factor : Qc) (rest : list string) :
  orthogonality_center_id (tdvp_state e) ≠ Some node_id →
  _update_site node_id factor e = (inl AssertionError, e)
  ∧ _update_link node_id next_node_id factor e = (inl AssertionError, e)
  ∧ _move_orth_and_update_cache_for_path (node_id :: rest) e = (inl AssertionError, e).
Proof.
  intros Hc. pose proof (assert_center_fails e node_id Hc) as Ha.
  split; [|split].
  - unfold _update_site. by erewrite bind_inl.
  - unfold _update_link. by erewrite bind_inl.
  - unfold _move_orth_and_update_cache_for_path. by erewrite bind_inl.
Qed.

Lemma wrong_center_is_refused_witness :
  _update_site (H := rest_kernel) "root" 1%Qc chain_engine
    = (inl AssertionError, chain_engine)
  ∧ _update_link (H := rest_kernel) "root" "c2" 1%Qc chain_engine
    = (inl AssertionError, chain_engine)
  ∧ _move_orth_and_update_cache_for_path (H := rest_kernel) ["root"; "c2"] chain_engine
    = (inl AssertionError, chain_engine).
Proof.
  apply (wrong_center_is_refused (H := rest_kernel) chain_engine "root" "c2" 1%Qc ["c2"]).
  simpl. discriminate.
Defined.

(** C6: moving the orthogonality center along the empty path, or along the
    path that consists of the current center only, returns the engine as it
    was: tensors, orthogonality center and cache are the same. *)
Theorem move_to_center_is_noop `{TDVPKernel} (e : TDVP) (center : string) :
  orthogonality_center_id (tdvp_state e) = Some center →
  _move_orth_and_update_cache_for_path [] e = (inr tt, e)
  ∧ _move_orth_and_update_cache_for_path [center] e = (inr tt, e).
Proof.
  intros Hc. split; [done|].
  unfold _move_orth_and_update_cache_for_path.
  erewrite bind_inr; [| by apply assert_center_ok]. done.
Qed.

Lemma move_to_center_is_noop_witness :
  _move_orth_and_update_cache_for_path (H := rest_kernel) [] chain_engine
    = (inr tt, chain_engine)
  ∧ _move_orth_and_update_cache_for_path (H := rest_kernel) ["c1"] chain_engine
    = (inr tt, chain_engine).
Proof.
  apply (move_to_center_is_noop (H := rest_kernel) chain_engine "c1"). reflexivity.
Defined.

(** ** Pairs without a connection *)

(** C5: for two nodes of the tree of which neither is the parent of the
    other, [determine_parentage] (and with it [combine_nodes]) fails with
    [ValueError], [contract_nodes] fails with [NoConnectionException], and so
    do the split and the link update of the engine; the tree and the engine
    are left as they were, and no result is produced. *)
Theorem no_connection_is_raised {T} `{TensorKernel T} `{TDVPKernel}
    (e : TDVP) (node_id1 node_id2 new_identifier : string) (n1 n2 : Node)
    (node1 node2 : TensorNode T) (new_tag new_id : option string) (factor : Qc) :
  nodes (ttns_tree (tdvp_state e)) !! node_id1 = Some n1 →
  nodes (ttns_tree (tdvp_state e)) !! node_id2 = Some n2 →
  is_child_of node_id1 n2 = false → is_child_of node_id2 n1 = false →
  is_parent_of node_id1 n2 = false → is_parent_of node_id2 n1 = false →
  tn_is_parent_of (tn_identifier node2) node1 = false →
  tn_is_parent_of (tn_identifier node1) node2 = false →
  orthogonality_center_id (tdvp_state e) = Some node_id1 →
  let t := ttns_tree (tdvp_state e) in
  determine_parentage node_id1 node_id2 t = (inl ValueError, t)
  ∧ combine_nodes node_id1 node_id2 new_identifier t = (inl ValueError, t)
  ∧ contract_nodes node1 node2 new_tag new_id = inl NoConnectionException
  ∧ _split_updated_site node_id1 node_id2 e = (inl NoConnectionException, e)
  ∧ _update_link node_id1 node_id2 factor e = (inl NoConnectionException, e).
Proof.
  intros H1 H2 Hc1 Hc2 Hp1 Hp2 Ht1 Ht2 Hcenter t.
  assert (Hsplit : _split_updated_site node_id1 node_id2 e
                   = (inl NoConnectionException, e)).
  { unfold _split_updated_site.
    erewrite bind_inr; [| reflexivity]. by rewrite H1, Hp2, Hc2. }
  split; [|split; [|split; [|split]]].
  - unfold t. rewrite (determine_parentage_found _ _ _ _ _ H1 H2). by rewrite Hc1, Hc2.
  - by eapply combine_nodes_not_adjacent.
  - unfold contract_nodes. by rewrite Ht1, Ht2.
  - exact Hsplit.
  - unfold _update_link.
    erewrite bind_inr; [| by apply assert_center_ok].
    by erewrite bind_inl.
Qed.

Lemma no_connection_is_raised_witness :
  determine_parentage "c1" "c2" chain_tree = (inl ValueError, chain_tree)
  ∧ combine_nodes "c1" "c2" "" chain_tree = (inl ValueError, chain_tree)
  ∧ contract_nodes (H := shape_kernel)
      {| tn_identifier := "c1"; tn_tag := "c1"; tn_tensor := [5; 3];
         parent_leg := Some ("root", 0%Z); children_legs := [] |}
      {| tn_identifier := "c2"; tn_tag := "c2"; tn_tensor := [6; 4];
         parent_leg := Some ("root", 0%Z); children_legs := [] |}
      None None = inl NoConnectionException
  ∧ _split_updated_site (H := rest_kernel) "c1" "c2" chain_engine
    = (inl NoConnectionException, chain_engine)
  ∧ _update_link (H := rest_kernel) "c1" "c2" 1%Qc chain_engine
    = (inl NoConnectionException, chain_engine).
Proof.
  apply (no_connection_is_raised (H := shape_kernel) (H0 := rest_kernel)
           chain_engine "c1" "c2" ""
           {| identifier := "c1"; tag := "c1"; parent := Some "root"; children := [] |}
           {| identifier := "c2"; tag := "c2"; parent := Some "root"; children := [] |});
    by vm_compute.
Defined.

(** ** The update path *)

(** Induction over a tree and the list of its subtrees. *)
Lemma rtree_induction (P : rtree → Prop) :
  (∀ i cs, Forall P cs → P (RNode i cs)) → ∀ rt, P rt.
Proof.
  intros Hnode. fix IH 1. intros [i cs]. apply Hnode.
  induction cs as [|c cs IHcs]; constructor; [apply IH | exact IHcs].
Qed.

Lemma first_max_bound hs k : first_max hs = Some k → k < length hs.
Proof.
  revert k. induction hs as [|h hs IH]; intros k Hk; [done|].
  simpl in *. destruct (first_max hs) as [j|]; [|simplify_eq; lia].
  specialize (IH _ eq_refl). case_decide; simplify_eq; lia.
Qed.

Lemma first_max_None hs : first_max hs = None → hs = [].
Proof.
  destruct hs as [|h hs]; [done|]. simpl.
  destruct (first_max hs); [by case_decide|done].
Qed.

Lemma first_max_child {A} (f : A → nat) (cs : list A) k :
  first_max (f <$> cs) = Some k → ∃ c, cs !! k = Some c.
Proof.
  intros Hk%first_max_bound. rewrite length_fmap in Hk.
  by apply lookup_lt_is_Some_2.
Qed.

Lemma concat_fmap_Permutation {A} (f g : A → list string) (cs : list A) :
  Forall (λ c, f c ≡ₚ g c) cs → concat (f <$> cs) ≡ₚ concat (g <$> cs).
Proof.
  induction 1 as [|c cs Hc _ IH]; [done|]. simpl. by rewrite Hc, IH.
Qed.

Lemma concat_fmap_delete {A} (f : A → list string) (cs : list A) k c :
  cs !! k = Some c → concat (f <$> cs) ≡ₚ f c ++ concat (f <$> delete k cs).
Proof. intros Hk. by rewrite (delete_Permutation cs k c Hk) at 1. Qed.

Lemma post_order_Permutation rt : post_order rt ≡ₚ ids rt.
Proof.
  induction rt as [i cs IH] using rtree_induction. simpl.
  rewrite (concat_fmap_Permutation post_order ids cs IH).
  by rewrite Permutation_app_comm.
Qed.

Lemma up_sweep_Permutation rt : up_sweep rt ≡ₚ ids rt.
Proof.
  induction rt as [i cs IH] using rtree_induction. simpl.
  destruct (first_max (height <$> cs)) as [k|] eqn:Hk.
  - destruct (first_max_child _ _ _ Hk) as [c Hc].
    rewrite list_lookup_fmap, Hc. simpl.
    rewrite <- list_fmap_delete.
    rewrite (concat_fmap_delete ids cs k c Hc).
    rewrite (concat_fmap_Permutation post_order ids (delete k cs))
      by (apply Forall_forall; intros; apply post_order_Permutation).
    rewrite (Forall_lookup_1 _ _ _ _ IH Hc).
    by rewrite (assoc (++)), <- Permutation_cons_append.
  - apply first_max_None, fmap_nil_inv in Hk. by subst.
Qed.

Lemma down_sweep_Permutation rt : down_sweep rt ≡ₚ ids rt.
Proof.
  induction rt as [i cs IH] using rtree_induction. simpl.
  destruct (first_max (height <$> cs)) as [k|] eqn:Hk.
  - destruct (first_max_child _ _ _ Hk) as [c Hc].
    rewrite list_lookup_fmap, Hc. simpl.
    rewrite <- list_fmap_delete.
    rewrite (concat_fmap_delete ids cs k c Hc).
    rewrite (concat_fmap_Permutation post_order ids (delete k cs))
      by (apply Forall_forall; intros; apply post_order_Permutation).
    rewrite (Forall_lookup_1 _ _ _ _ IH Hc).
    rewrite <- Permutation_middle. by rewrite (Permutation_app_comm (concat _)).
  - apply first_max_None, fmap_nil_inv in Hk. by subst.
Qed.

Lemma find_update_path_Permutation rt : find_update_path rt ≡ₚ ids rt.
Proof.
  destruct rt as [r cs]. simpl.
  destruct (first_max (height <$> cs)) as [k|] eqn:Hk.
  - destruct (first_max_child _ _ _ Hk) as [c Hc].
    rewrite list_lookup_fmap, Hc. simpl.
    rewrite (concat_fmap_delete ids cs k c Hc).
    destruct (first_max (height <$> delete k cs)) as [j|] eqn:Hj.
    + destruct (first_max_child _ _ _ Hj) as [d Hd].
      rewrite list_lookup_fmap, Hd. simpl.
      rewrite <- list_fmap_delete.
      rewrite (concat_fmap_delete ids (delete k cs) j d Hd).
      rewrite (concat_fmap_Permutation post_order ids (delete j (delete k cs)))
        by (apply Forall_forall; intros; apply post_order_Permutation).
      rewrite down_sweep_Permutation, up_sweep_Permutation.
      rewrite <- !Permutation_middle.
      by rewrite (Permutation_app_comm (concat _)).
    + apply first_max_None, fmap_nil_inv in Hj. rewrite Hj. simpl.
      rewrite app_nil_r, up_sweep_Permutation. by rewrite <- Permutation_cons_append.
  - apply first_max_None, fmap_nil_inv in Hk. by subst.
Qed.

(** The sweep starts where [distance_to_node] and [max] of the sources put
    the farthest leaf. *)
Example planner_start :
  distance_to_node chain_tree "root" = inr [("root", 0); ("c1", 1); ("c2", 1)]
  ∧ dict_argmax [("root", 0); ("c1", 1); ("c2", 1)] = Some ("c1", 1)
  ∧ head (find_update_path chain) = Some "c1"
  ∧ topology eight_sites = Some big_tree
  ∧ distance_to_node eight_sites "site0"
    = inr [("site0", 0); ("site1", 1); ("site2", 2); ("site3", 2); ("site4", 3);
           ("site5", 3); ("site6", 1); ("site7", 2)]
  ∧ dict_argmax [("site0", 0); ("site1", 1); ("site2", 2); ("site3", 2); ("site4", 3);
                 ("site5", 3); ("site6", 1); ("site7", 2)] = Some ("site4", 3)
  ∧ head (find_update_path big_tree) = Some "site4".
Proof. repeat split; by vm_compute. Qed.

(** The planners reproduce what the tests expect on the tree of eight
    sites. *)
Example big_tree_paths :
  find_update_path big_tree
    = ["site4"; "site5"; "site3"; "site2"; "site1"; "site0"; "site6"; "site7"]
  ∧ find_orthogonalization_path big_tree (find_update_path big_tree)
    = [["site3"; "site5"]; ["site3"]; ["site1"; "site2"]; ["site1"]; ["site0"];
       ["site6"]; ["site7"]]
  ∧ (find_caching_path big_tree (find_update_path big_tree)).1
    = ["site7"; "site6"; "site0"; "site2"; "site1"; "site5"; "site3"; "site4"]
  ∧ list_to_map (M := gmap string string)
      (find_caching_path big_tree (find_update_path big_tree)).2
    = list_to_map [("site7", "site6"); ("site6", "site0"); ("site0", "site1");
                   ("site2", "site1"); ("site1", "site3"); ("site5", "site3");
                   ("site3", "site4")].
Proof. repeat split; by vm_compute. Qed.

(** *** Who comes before whom *)

Lemma before_app_l l1 l2 a b : before l1 a b → before (l1 ++ l2) a b.
Proof.
  intros (i & j & Hi & Hj & Hij). exists i, j.
  split_and!; [by apply lookup_app_l_Some|by apply lookup_app_l_Some|done].
Qed.

Lemma before_app_r l1 l2 a b : before l2 a b → before (l1 ++ l2) a b.
Proof.
  intros (i & j & Hi & Hj & Hij). exists (length l1 + i)%nat, (length l1 + j)%nat.
  rewrite !lookup_app_r by lia.
  replace (length l1 + i - length l1)%nat with i by lia.
  replace (length l1 + j - length l1)%nat with j by lia.
  split_and!; [done|done|lia].
Qed.

Lemma before_app_lr l1 l2 a b : a ∈ l1 → b ∈ l2 → before (l1 ++ l2) a b.
Proof.
  intros [i Hi]%list_elem_of_lookup [j Hj]%list_elem_of_lookup.
  exists i, (length l1 + j)%nat. split_and!.
  - by apply lookup_app_l_Some.
  - rewrite lookup_app_r by lia. by replace (length l1 + j - length l1)%nat with j by lia.
  - apply lookup_lt_Some in Hi. lia.
Qed.

Lemma before_concat (ls : list (list string)) l a b :
  l ∈ ls → before l a b → before (concat ls) a b.
Proof.
  intros Hl Hab. induction ls as [|l' ls IH]; [by apply elem_of_nil in Hl|].
  simpl. apply elem_of_cons in Hl as [->|Hl].
  - by apply before_app_l.
  - by apply before_app_r, IH.
Qed.

Lemma elem_of_concat_fmap {A} (f : A → list string) (cs : list A) x :
  x ∈ concat (f <$> cs) ↔ ∃ c, c ∈ cs ∧ x ∈ f c.
Proof.
  induction cs as [|c cs IH]; simpl.
  - split; [by intros ?%elem_of_nil|by intros (? & ?%elem_of_nil & _)].
  - rewrite elem_of_app, IH. split.
    + intros [Hx|(c' & Hc' & Hx)]; [exists c; split; [by left|done]|].
      exists c'. split; [by right|done].
    + intros (c' & [->|Hc']%elem_of_cons & Hx); [by left|]. right. by exists c'.
Qed.

Lemma elem_of_concat_pairs {A} (f : A → list (string * string)) (cs : list A) x :
  x ∈ concat (f <$> cs) ↔ ∃ c, c ∈ cs ∧ x ∈ f c.
Proof.
  induction cs as [|c cs IH]; simpl.
  - split; [by intros ?%elem_of_nil|by intros (? & ?%elem_of_nil & _)].
  - rewrite elem_of_app, IH. split.
    + intros [Hx|(c' & Hc' & Hx)]; [exists c; split; [by left|done]|].
      exists c'. split; [by right|done].
    + intros (c' & [->|Hc']%elem_of_cons & Hx); [by left|]. right. by exists c'.
Qed.

Lemma rid_ids rt : rid rt ∈ ids rt.
Proof. destruct rt as [i cs]. simpl. by left. Qed.

Lemma family_cases i cs p c :
  (p, c) ∈ family (RNode i cs)
  ↔ (p = i ∧ ∃ c', c' ∈ cs ∧ c = rid c') ∨ ∃ c', c' ∈ cs ∧ (p, c) ∈ family c'.
Proof.
  simpl. rewrite elem_of_app, list_elem_of_fmap. split.
  - intros [(c' & [= -> ->] & Hc')|Hin].
    + left. split; [done|]. by exists c'.
    + right. apply elem_of_concat_pairs in Hin as (c' & Hc' & Hpc). by exists c'.
  - intros [(-> & c' & Hc' & ->)|(c' & Hc' & Hpc)].
    + left. by exists c'.
    + right. apply elem_of_concat_pairs. by exists c'.
Qed.

Lemma family_ids rt p c : (p, c) ∈ family rt → p ∈ ids rt ∧ c ∈ ids rt.
Proof.
  induction rt as [i cs IH] using rtree_induction.
  rewrite family_cases. simpl. intros [(-> & c' & Hc' & ->)|(c' & Hc' & Hpc)].
  - split; [by left|]. right. apply elem_of_concat_fmap. exists c'.
    split; [done|apply rid_ids].
  - destruct (proj1 (Forall_forall _ _) IH c' Hc' Hpc) as [Hp Hc].
    split; right; apply elem_of_concat_fmap; by exists c'.
Qed.

(** A branch taken children first puts every node after its children. *)
Lemma post_order_before rt p c : (p, c) ∈ family rt → before (post_order rt) c p.
Proof.
  induction rt as [i cs IH] using rtree_induction.
  rewrite family_cases. simpl. intros [(-> & c' & Hc' & ->)|(c' & Hc' & Hpc)].
  - apply before_app_lr; [|by left]. apply elem_of_concat_fmap. exists c'.
    split; [done|]. rewrite post_order_Permutation. apply rid_ids.
  - apply before_app_l. apply (before_concat _ (post_order c')).
    + apply list_elem_of_fmap. by exists c'.
    + by apply (proj1 (Forall_forall _ _) IH c' Hc').
Qed.

Lemma elem_of_delete_or {A} (cs : list A) k c x :
  cs !! k = Some c → x ∈ cs → x = c ∨ x ∈ delete k cs.
Proof.
  intros Hk Hx. rewrite (delete_Permutation cs k c Hk) in Hx.
  by apply elem_of_cons in Hx.
Qed.


Lemma up_sweep_before rt p c : (p, c) ∈ family rt → before (up_sweep rt) c p.
Proof.
  induction rt as [i cs IH] using rtree_induction.
  rewrite family_cases. simpl.
  destruct (first_max (height <$> cs)) as [k|] eqn:Hk.
  - destruct (first_max_child _ _ _ Hk) as [ck Hck].
    rewrite list_lookup_fmap, Hck. simpl. rewrite <- list_fmap_delete.
    rewrite (assoc (++)).
    intros [(-> & c' & Hc' & ->)|(c' & Hc' & Hpc)].
    + apply before_app_lr; [|by left]. rewrite elem_of_app.
      destruct (elem_of_delete_or cs k ck c' Hck Hc') as [->|Hin].
      * left. rewrite up_sweep_Permutation. apply rid_ids.
      * right. apply elem_of_concat_fmap. exists c'. split; [done|].
        rewrite post_order_Permutation. apply rid_ids.
    + apply before_app_l.
      destruct (elem_of_delete_or cs k ck c' Hck Hc') as [->|Hin].
      * apply before_app_l. by apply (Forall_lookup_1 _ _ _ _ IH Hck).
      * apply before_app_r. apply (before_concat _ (post_order c')).
        -- apply list_elem_of_fmap. by exists c'.
        -- by apply post_order_before.
  - apply first_max_None, fmap_nil_inv in Hk. subst cs.
    intros [(_ & c' & Hc' & _)|(c' & Hc' & _)]; by apply elem_of_nil in Hc'.
Qed.

Lemma steps_cons a b l : steps (a :: b :: l) = (a, b) :: steps (b :: l).
Proof. done. Qed.

Lemma steps_elem l p c : (p, c) ∈ steps l → p ∈ l ∧ c ∈ l.
Proof.
  unfold steps. intros Hpc. split.
  - by eapply elem_of_zip_l.
  - apply elem_of_zip_r in Hpc. destruct l as [|a l]; [done|]. by right.
Qed.

Lemma down_chain_head rt : ∃ l, down_chain rt = rid rt :: l.
Proof.
  destruct rt as [i cs]. simpl.
  destruct (first_max (height <$> cs)); by eexists.
Qed.

Lemma down_chain_ids rt x : x ∈ down_chain rt → x ∈ ids rt.
Proof.
  induction rt as [i cs IH] using rtree_induction. simpl.
  destruct (first_max (height <$> cs)) as [k|] eqn:Hk.
  - destruct (first_max_child _ _ _ Hk) as [ck Hck].
    rewrite list_lookup_fmap, Hck. simpl.
    intros [->|Hx]%elem_of_cons; [by left|]. right.
    apply elem_of_concat_fmap. exists ck. split; [by eapply list_elem_of_lookup_2|].
    by apply (Forall_lookup_1 _ _ _ _ IH Hck).
  - intros ->%list_elem_of_singleton. by left.
Qed.

Lemma down_sweep_rid rt : rid rt ∈ down_sweep rt.
Proof. rewrite down_sweep_Permutation. apply rid_ids. Qed.

(** The order of a sweep that takes the branches [side] children first,
    then the node [i], then goes down the branch [d] along [chain]. *)
Lemma descend_order (i : string) (pre : list string) (side : list rtree) (d : rtree)
    (D chain : list string) :
  (∀ c', c' ∈ side → rid c' ∈ pre ∧ ∀ p c, (p, c) ∈ family c' → before pre c p) →
  i ∉ ids d →
  (∀ c', c' ∈ side → (i ∉ ids c') ∧ ∀ x, x ∈ ids c' → x ∉ ids d) →
  rid d ∈ D →
  (∃ l, chain = rid d :: l) → (∀ x, x ∈ chain → x ∈ ids d) →
  (∀ p c, (p, c) ∈ family d →
     ((p, c) ∈ steps chain → before D p c) ∧ ((p, c) ∉ steps chain → before D c p)) →
  ∀ p c,
    (p = i ∧ ∃ c', c' ∈ d :: side ∧ c = rid c')
    ∨ (∃ c', c' ∈ d :: side ∧ (p, c) ∈ family c') →
    ((p, c) ∈ steps (i :: chain) → before (pre ++ [i] ++ D) p c)
    ∧ ((p, c) ∉ steps (i :: chain) → before (pre ++ [i] ++ D) c p).
Proof.
  intros Hside Hid Hdisj HD [l ->] Hchain Hd p c Hpc.
  rewrite steps_cons.
  assert (∀ x y, (x, y) ∈ steps (rid d :: l) → x ∈ ids d) as Hsteps.
  { intros x y Hxy. apply Hchain. by apply steps_elem in Hxy as [? _]. }
  destruct Hpc as [(-> & c' & [->|Hc']%elem_of_cons & ->)|(c' & [->|Hc']%elem_of_cons & Hpc)].
  - split.
    + intros _. apply before_app_r. apply before_app_lr; [by left|done].
    + intros Hnot. exfalso. apply Hnot. by left.
  - destruct (Hside c' Hc') as [Hrid _]. destruct (Hdisj c' Hc') as [_ Hdis]. split.
    + intros [[= E]|Hin]%elem_of_cons; exfalso.
      * apply (Hdis (rid c') (rid_ids c')). rewrite E. apply rid_ids.
      * by apply Hid, (Hsteps _ _ Hin).
    + intros _. apply before_app_lr; [done|]. by left.
  - destruct (family_ids _ _ _ Hpc) as [Hp _].
    assert (p ≠ i) as Hpi by (by intros ->).
    destruct (Hd p c Hpc) as [Hin Hout]. split.
    + intros [[= ? ?]|Hst]%elem_of_cons; [done|].
      apply before_app_r, before_app_r. by apply Hin.
    + intros Hnot. apply before_app_r, before_app_r. apply Hout.
      intros Hst. apply Hnot. by right.
  - destruct (family_ids _ _ _ Hpc) as [Hp _].
    destruct (Hside c' Hc') as [_ Hfam]. destruct (Hdisj c' Hc') as [Hi Hdis]. split.
    + intros [[= ? ?]|Hst]%elem_of_cons; exfalso.
      * by subst.
      * by apply (Hdis p Hp), (Hsteps _ _ Hst).
    + intros _. apply before_app_l. by apply Hfam.
Qed.

Lemma NoDup_concat_ids (cs : list rtree) :
  NoDup (concat (ids <$> cs)) → ∀ c, c ∈ cs → NoDup (ids c).
Proof.
  induction cs as [|c' cs IH]; intros Hnd c Hc; [by apply elem_of_nil in Hc|].
  simpl in Hnd. apply NoDup_app in Hnd as (Hc' & _ & Hcs).
  apply elem_of_cons in Hc as [->|Hc]; [done|by apply IH].
Qed.

(** What distinct identifiers mean for a node, one of its branches and the
    other branches. *)
Lemma ids_branch (i : string) (cs : list rtree) k ck :
  cs !! k = Some ck → NoDup (i :: concat (ids <$> cs)) →
  (i ∉ ids ck) ∧ NoDup (ids ck)
  ∧ NoDup (i :: concat (ids <$> delete k cs))
  ∧ ∀ c', c' ∈ delete k cs →
      (i ∉ ids c') ∧ NoDup (ids c') ∧ ∀ x, x ∈ ids c' → x ∉ ids ck.
Proof.
  intros Hk Hnd. rewrite (concat_fmap_delete ids cs k ck Hk) in Hnd.
  apply NoDup_cons in Hnd as [Hi Hnd]. apply not_elem_of_app in Hi as [Hick Hirest].
  apply NoDup_app in Hnd as (Hck & Hdis & Hrest).
  split_and!; [done|done|by apply NoDup_cons|].
  intros c' Hc'. split_and!.
  - intros Hin. apply Hirest. apply elem_of_concat_fmap. by exists c'.
  - by apply (NoDup_concat_ids _ Hrest).
  - intros x Hx Hxck. apply (Hdis x Hxck). apply elem_of_concat_fmap. by exists c'.
Qed.

(** Going down, a node comes before the child the sweep continues into and
    after its other children. *)
Lemma down_sweep_before rt :
  NoDup (ids rt) → ∀ p c, (p, c) ∈ family rt →
  ((p, c) ∈ steps (down_chain rt) → before (down_sweep rt) p c)
  ∧ ((p, c) ∉ steps (down_chain rt) → before (down_sweep rt) c p).
Proof.
  induction rt as [i cs IH] using rtree_induction. intros Hnd p c.
  rewrite family_cases. simpl.
  destruct (first_max (height <$> cs)) as [k|] eqn:Hk.
  - destruct (first_max_child _ _ _ Hk) as [ck Hck].
    rewrite !list_lookup_fmap, Hck. simpl. rewrite <- list_fmap_delete.
    destruct (ids_branch i cs k ck Hck Hnd) as (Hick & Hndck & _ & Hothers).
    intros Hpc.
    apply (descend_order i (concat (post_order <$> delete k cs)) (delete k cs) ck
             (down_sweep ck) (down_chain ck)).
    + intros c' Hc'. split.
      * apply elem_of_concat_fmap. exists c'. split; [done|].
        rewrite post_order_Permutation. apply rid_ids.
      * intros p' c0 Hfam. apply (before_concat _ (post_order c')).
        -- apply list_elem_of_fmap. by exists c'.
        -- by apply post_order_before.
    + done.
    + intros c' Hc'. destruct (Hothers c' Hc') as (? & _ & ?). done.
    + apply down_sweep_rid.
    + apply down_chain_head.
    + apply down_chain_ids.
    + by apply (Forall_lookup_1 _ _ _ _ IH Hck).
    + destruct Hpc as [(-> & c' & Hc' & ->)|(c' & Hc' & Hpc)].
      * left. split; [done|]. exists c'. split; [|done].
        apply elem_of_cons. by eapply elem_of_delete_or.
      * right. exists c'. split; [|done].
        apply elem_of_cons. by eapply elem_of_delete_or.
  - apply first_max_None, fmap_nil_inv in Hk. subst cs.
    intros [(_ & c' & Hc' & _)|(c' & Hc' & _)]; by apply elem_of_nil in Hc'.
Qed.

(** The update path puts every node after its children, except along the
    final descent, where a node comes before the child the descent continues
    into. *)
Lemma find_update_path_before rt :
  NoDup (ids rt) → ∀ p c, (p, c) ∈ family rt →
  ((p, c) ∈ steps (descent rt) → before (find_update_path rt) p c)
  ∧ ((p, c) ∉ steps (descent rt) → before (find_update_path rt) c p).
Proof.
  destruct rt as [r cs]. intros Hnd p c. rewrite family_cases. simpl.
  destruct (first_max (height <$> cs)) as [k|] eqn:Hk.
  - destruct (first_max_child _ _ _ Hk) as [ck Hck].
    rewrite !list_lookup_fmap, Hck. simpl.
    destruct (ids_branch r cs k ck Hck Hnd) as (Hrck & Hndck & Hnd' & Hothers).
    destruct (first_max (height <$> delete k cs)) as [j|] eqn:Hj.
    + destruct (first_max_child _ _ _ Hj) as [dj Hdj].
      rewrite !list_lookup_fmap, Hdj. simpl. rewrite <- list_fmap_delete.
      destruct (ids_branch r (delete k cs) j dj Hdj Hnd') as (Hrdj & Hnddj & _ & Hrest).
      assert (dj ∈ delete k cs) as Hdjin by (by eapply list_elem_of_lookup_2).
      intros Hpc. rewrite (assoc (++) (up_sweep ck)).
      apply (descend_order r (up_sweep ck ++ concat (post_order <$> delete j (delete k cs)))
               (ck :: delete j (delete k cs)) dj (down_sweep dj) (down_chain dj)).
      * intros c' [->|Hc']%elem_of_cons; split.
        -- apply elem_of_app. left. rewrite up_sweep_Permutation. apply rid_ids.
        -- intros p' c0 Hfam. apply before_app_l. by apply up_sweep_before.
        -- apply elem_of_app. right. apply elem_of_concat_fmap. exists c'.
           split; [done|]. rewrite post_order_Permutation. apply rid_ids.
        -- intros p' c0 Hfam. apply before_app_r. apply (before_concat _ (post_order c')).
           ++ apply list_elem_of_fmap. by exists c'.
           ++ by apply post_order_before.
      * done.
      * intros c' [->|Hc']%elem_of_cons.
        -- split; [done|]. intros x Hx Hxd.
           destruct (Hothers dj Hdjin) as (_ & _ & Hdis). by apply (Hdis x Hxd).
        -- destruct (Hrest c' Hc') as (? & _ & ?). done.
      * apply down_sweep_rid.
      * apply down_chain_head.
      * apply down_chain_ids.
      * by apply down_sweep_before.
      * assert (∀ c', c' ∈ cs → c' ∈ dj :: ck :: delete j (delete k cs)) as Hmem.
        { intros c' Hc'. destruct (elem_of_delete_or cs k ck c' Hck Hc') as [->|Hin].
          - right. by left.
          - destruct (elem_of_delete_or _ j dj c' Hdj Hin) as [->|Hin'].
            + by left.
            + right. by right. }
        destruct Hpc as [(-> & c' & Hc' & ->)|(c' & Hc' & Hpc)].
        -- left. split; [done|]. exists c'. split; [by apply Hmem|done].
        -- right. exists c'. split; [by apply Hmem|done].
    + apply first_max_None, fmap_nil_inv in Hj.
      assert (cs = [ck]) as ->.
      { destruct cs as [|c0 cs]; [done|]. destruct k as [|k]; simpl in *.
        - by simplify_eq.
        - done. }
      intros Hpc. split.
      * intros Hst. by apply elem_of_nil in Hst.
      * intros _.
        assert ((p, c) ∈ family (RNode r [ck])) as Hfam by (by apply family_cases).
        exact (up_sweep_before (RNode r [ck]) p c Hfam).
  - apply first_max_None, fmap_nil_inv in Hk. subst cs.
    intros [(_ & c' & Hc' & _)|(c' & Hc' & _)]; by apply elem_of_nil in Hc'.
Qed.

(** The steps of the final descent are links of the tree, and the update
    path ends where the descent ends. *)
Lemma down_chain_family rt p c : (p, c) ∈ steps (down_chain rt) → (p, c) ∈ family rt.
Proof.
  induction rt as [i cs IH] using rtree_induction. simpl.
  destruct (first_max (height <$> cs)) as [k|] eqn:Hk.
  - destruct (first_max_child _ _ _ Hk) as [ck Hck].
    rewrite list_lookup_fmap, Hck. simpl.
    destruct (down_chain_head ck) as [l Hl]. rewrite Hl, steps_cons, <- Hl.
    assert (ck ∈ cs) as Hin by (by eapply list_elem_of_lookup_2).
    intros [[= -> ->]|Hst]%elem_of_cons.
    + apply elem_of_app. left. apply list_elem_of_fmap. by exists ck.
    + apply elem_of_app. right. apply elem_of_concat_pairs. exists ck.
      split; [done|]. by apply (Forall_lookup_1 _ _ _ _ IH Hck).
  - intros Hst. by apply elem_of_nil in Hst.
Qed.

Lemma descent_family rt p c : (p, c) ∈ steps (descent rt) → (p, c) ∈ family rt.
Proof.
  destruct rt as [r cs]. simpl.
  destruct (first_max (height <$> cs)) as [k|] eqn:Hk;
    [|intros Hst; by apply elem_of_nil in Hst].
  destruct (first_max (height <$> delete k cs)) as [j|] eqn:Hj;
    [|intros Hst; by apply elem_of_nil in Hst].
  destruct (first_max_child _ _ _ Hj) as [dj Hdj].
  rewrite list_lookup_fmap, Hdj. simpl.
  destruct (down_chain_head dj) as [l Hl]. rewrite Hl, steps_cons, <- Hl.
  assert (dj ∈ cs) as Hin.
  { apply (list_elem_of_delete_inv _ k). by eapply list_elem_of_lookup_2. }
  intros [[= -> ->]|Hst]%elem_of_cons.
  - apply elem_of_app. left. apply list_elem_of_fmap. by exists dj.
  - apply elem_of_app. right. apply elem_of_concat_pairs. exists dj.
    split; [done|]. by apply down_chain_family.
Qed.

Lemma last_app_cons {A} (l1 : list A) x l2 : last (l1 ++ x :: l2) = last (x :: l2).
Proof.
  rewrite last_app. destruct (last (x :: l2)) eqn:E; [done|]. by apply last_None in E.
Qed.

Lemma down_sweep_last rt : last (down_sweep rt) = last (down_chain rt).
Proof.
  induction rt as [i cs IH] using rtree_induction. simpl.
  destruct (first_max (height <$> cs)) as [k|] eqn:Hk; [|done].
  destruct (first_max_child _ _ _ Hk) as [ck Hck].
  rewrite !list_lookup_fmap, Hck. simpl.
  rewrite last_app_cons. pose proof (Forall_lookup_1 _ _ _ _ IH Hck) as Hlast.
  simpl in Hlast.
  destruct (down_chain_head ck) as [l Hl]. rewrite Hl. rewrite Hl in Hlast.
  assert (∃ x l', down_sweep ck = x :: l') as (x & l' & Hx).
  { pose proof (down_sweep_rid ck) as Hin. destruct (down_sweep ck); [|by eexists _, _].
    by apply elem_of_nil in Hin. }
  rewrite Hx. rewrite Hx in Hlast. exact Hlast.
Qed.

Lemma find_update_path_last rt : last (find_update_path rt) = last (descent rt).
Proof.
  destruct rt as [r cs]. simpl.
  destruct (first_max (height <$> cs)) as [k|] eqn:Hk; [|done].
  destruct (first_max (height <$> delete k cs)) as [j|] eqn:Hj.
  - destruct (first_max_child _ _ _ Hj) as [dj Hdj].
    rewrite !list_lookup_fmap, Hdj. simpl.
    rewrite (assoc (++)), last_app_cons.
    pose proof (down_sweep_last dj) as Hlast.
    destruct (down_chain_head dj) as [l Hl]. rewrite Hl. rewrite Hl in Hlast.
    assert (∃ x l', down_sweep dj = x :: l') as (x & l' & Hx).
    { pose proof (down_sweep_rid dj) as Hin. destruct (down_sweep dj); [|by eexists _, _].
      by apply elem_of_nil in Hin. }
    rewrite Hx. rewrite Hx in Hlast. exact Hlast.
  - by rewrite last_snoc.
Qed.

(** C2, as stated, fails: the update path would visit every node with
    children only after all of them.  On the chain the path is
    [c1, root, c2]: the root, which has children, is visited second and its
    child c2 third (and on the tree of eight sites, site6 before site7). *)
Lemma update_path_root_before_child :
  find_update_path chain = ["c1"; "root"; "c2"]
  ∧ ("root", "c2") ∈ family chain
  ∧ list_index "root" (find_update_path chain) = Some 1
  ∧ list_index "c2" (find_update_path chain) = Some 2
  ∧ children_first chain (find_update_path chain) = false
  ∧ children_first big_tree (find_update_path big_tree) = false.
Proof.
  split; [done|]. split; [|by vm_compute].
  apply elem_of_cons. right. apply elem_of_cons. by left.
Qed.

(** C2, amended: for the chain with the children c1 and c2 of the root the
    planners yield the update path [c1, root, c2], the orthogonalization path
    [[root], [c2]], the caching path [c2, root, c1] and the next-node map
    {c2: root, root: c1}; for the tree of eight sites the update path is
    [site4, site5, site3, site2, site1, site0, site6, site7].  For every tree
    (with distinct identifiers) the update path visits every node exactly
    once (it is a rearrangement of the identifiers of the tree), and every
    node is visited after all its children, except along the final descent:
    a chain of links from a node to one of its children that starts at the
    root (it is the root alone when the root has fewer than two children) and
    ends at the last node of the path; a node on this chain is visited before
    its child on the chain and after its other children.  The descent of the
    chain is [root, c2], that of the eight sites [site0, site6, site7]. *)
Theorem update_path_plan :
  topology chain_tree = Some chain
  ∧ find_update_path chain = ["c1"; "root"; "c2"]
  ∧ find_orthogonalization_path chain (find_update_path chain) = [["root"]; ["c2"]]
  ∧ (find_caching_path chain (find_update_path chain)).1 = ["c2"; "root"; "c1"]
  ∧ list_to_map (M := gmap string string)
      (find_caching_path chain (find_update_path chain)).2
    = {[ "c2" := "root"; "root" := "c1" ]}
  ∧ topology eight_sites = Some big_tree
  ∧ find_update_path big_tree
    = ["site4"; "site5"; "site3"; "site2"; "site1"; "site0"; "site6"; "site7"]
  ∧ descent chain = ["root"; "c2"]
  ∧ descent big_tree = ["site0"; "site6"; "site7"]
  ∧ (∀ rt, find_update_path rt ≡ₚ ids rt)
  ∧ (∀ rt, NoDup (ids rt) → NoDup (find_update_path rt))
  ∧ (∀ rt, last (find_update_path rt) = last (descent rt))
  ∧ (∀ rt, head (descent rt) = Some (rid rt))
  ∧ (∀ r cs, (length cs < 2)%nat → descent (RNode r cs) = [r])
  ∧ (∀ rt p c, (p, c) ∈ steps (descent rt) → (p, c) ∈ family rt)
  ∧ (∀ rt p c, NoDup (ids rt) → (p, c) ∈ family rt →
       ((p, c) ∈ steps (descent rt) → before (find_update_path rt) p c)
       ∧ ((p, c) ∉ steps (descent rt) → before (find_update_path rt) c p)).
Proof.
  split; [by vm_compute|]. split; [by vm_compute|]. split; [by vm_compute|].
  split; [by vm_compute|]. split; [by vm_compute|]. split; [by vm_compute|].
  split; [by vm_compute|]. split; [by vm_compute|]. split; [by vm_compute|].
  split; [apply find_update_path_Permutation|].
  split; [intros rt Hnd; by rewrite find_update_path_Permutation|].
  split; [apply find_update_path_last|].
  split.
  { intros [r cs]. simpl. destruct (first_max (height <$> cs)); [|done].
    by destruct (first_max (height <$> delete _ cs)). }
  split.
  { intros r [|c [|c' cs]] Hlen; [done|done|simpl in Hlen; lia]. }
  split; [apply descent_family|].
  intros rt p c Hnd Hpc. by apply find_update_path_before.
Qed.

Lemma update_path_plan_witness :
  NoDup (find_update_path chain)
  ∧ before (find_update_path chain) "c1" "root"
  ∧ before (find_update_path chain) "root" "c2".
Proof.
  destruct update_path_plan
    as (_ & _ & _ & _ & _ & _ & _ & _ & _ & _ & Hnodup & _ & _ & _ & _ & Horder).
  assert (NoDup (ids chain)) as Hnd.
  { vm_compute. repeat constructor; set_solver. }
  split; [exact (Hnodup chain Hnd)|]. split.
  - refine (proj2 (Horder chain "root" "c1" Hnd _) _).
    + vm_compute. apply elem_of_cons. by left.
    + vm_compute. intros [H|H]%elem_of_cons; [discriminate H|by apply elem_of_nil in H].
  - refine (proj1 (Horder chain "root" "c2" Hnd _) _).
    + vm_compute. apply elem_of_cons. right. apply elem_of_cons. by left.
    + vm_compute. apply elem_of_cons. by left.
Defined.

(** * Further properties of the sources *)

(** ** node.py: children and neighbours *)

Lemma set_children_children n : set_children (children n) n = n.
Proof. by destruct n. Qed.

Lemma list_remove_app_fresh x (l : list string) :
  x ∉ l → list_remove x (l ++ [x]) = Some l.
Proof.
  induction l as [|y l IH]; intros Hx; simpl.
  - by rewrite decide_True.
  - apply not_elem_of_cons in Hx as [Hxy Hx].
    rewrite decide_False by done. by rewrite IH.
Qed.

Lemma list_index_insert (l : list string) old new i :
  list_index old l = Some i → new ∉ l → list_index new (<[i := new]> l) = Some i.
Proof.
  revert i. induction l as [|y l IH]; intros i Hi Hnew; simpl in *; [done|].
  apply not_elem_of_cons in Hnew as [Hny Hnew].
  destruct (decide (y = old)) as [->|Hy].
  - injection Hi as <-. simpl. by rewrite decide_True.
  - destruct (list_index old l) as [j|] eqn:Hj; [|done].
    injection Hi as <-. simpl. rewrite decide_False by done.
    by rewrite (IH j eq_refl Hnew).
Qed.

(** X1: [replace_child] puts the new identifier at the position of the
    first occurrence of the old one and keeps the number of children;
    replacing it back restores the node when the new identifier was not a
    child before. *)
Theorem replace_child_round_trip (old new : string) (n : Node) :
  old ∈ children n → new ∉ children n →
  ∃ n', replace_child old new n = inr n'
        ∧ child_index new n' = child_index old n
        ∧ length (children n') = length (children n)
        ∧ parent n' = parent n ∧ identifier n' = identifier n
        ∧ replace_child new old n' = inr n.
Proof.
  intros Hold Hnew.
  assert (old ≠ new) as Hne by (intros ->; done).
  destruct (list_index_elem _ _ Hold) as (i & Hi & Hli).
  pose proof (list_index_insert _ _ _ _ Hi Hnew) as Hnewi.
  exists (set_children (<[i := new]> (children n)) n).
  unfold replace_child, child_index. rewrite decide_False by done.
  rewrite Hi. simpl. rewrite Hnewi.
  split_and!; try done.
  - by rewrite length_insert.
  - rewrite decide_False by done. f_equal.
    destruct n as [idn tg p cs]; simpl in *. unfold set_children; simpl.
    f_equal. rewrite list_insert_insert_eq. by apply list_insert_id.
Qed.

Lemma replace_child_round_trip_witness :
  ∃ n', replace_child "a" "x" (mkNode "n" "n" None ["a"; "b"]) = inr n'
        ∧ child_index "x" n' = child_index "a" (mkNode "n" "n" None ["a"; "b"])
        ∧ length (children n') = 2
        ∧ parent n' = None ∧ identifier n' = "n"
        ∧ replace_child "x" "a" n' = inr (mkNode "n" "n" None ["a"; "b"]).
Proof.
  apply (replace_child_round_trip "a" "x" (mkNode "n" "n" None ["a"; "b"])).
  - simpl. set_solver.
  - simpl. set_solver.
Defined.

(** X2: removing a child that is not listed raises [ValueError]; adding a
    child that was not listed and removing it again gives the node back. *)
Theorem remove_child_add_child (c : string) (n : Node) :
  c ∉ children n →
  remove_child c n = inl ValueError
  ∧ remove_child c (add_child c n) = inr n.
Proof.
  intros Hc. unfold remove_child. split.
  - apply list_remove_None in Hc. by rewrite Hc.
  - simpl. rewrite list_remove_app_fresh by done.
    by destruct n.
Qed.

Lemma remove_child_add_child_witness :
  remove_child "c" (mkNode "n" "n" None ["a"]) = inl ValueError
  ∧ remove_child "c" (add_child "c" (mkNode "n" "n" None ["a"]))
    = inr (mkNode "n" "n" None ["a"]).
Proof.
  apply (remove_child_add_child "c" (mkNode "n" "n" None ["a"])).
  simpl. set_solver.
Defined.

(** X3: the neighbours of a node are its parent and its children, the parent
    first, and [nneighbours] counts them. *)
Theorem neighbouring_nodes_spec (n : Node) :
  length (neighbouring_nodes n) = nneighbours n
  ∧ (∀ x, x ∈ neighbouring_nodes n ↔ is_child_of x n = true ∨ is_parent_of x n = true)
  ∧ (∀ p, parent n = Some p → neighbouring_nodes n = p :: children n)
  ∧ (is_root n = true → neighbouring_nodes n = children n).
Proof.
  unfold neighbouring_nodes, nneighbours, nchildren, nparents, is_root,
    is_child_of, is_parent_of.
  destruct (parent n) as [p|]; split_and!; simpl; try done; try lia.
  - intros x. rewrite elem_of_cons, !bool_decide_eq_true. naive_solver.
  - naive_solver.
  - intros x. rewrite bool_decide_eq_true. naive_solver.
Qed.

(** ** tree_structure.py: adding nodes *)

(** X4: [add_child_to_parent] validates before it writes: with an unknown
    parent, or with a child identifier that is in use, it raises
    [ValueError] and the tree is as before. *)
Theorem add_child_to_parent_rejected (t : TreeStructure) (child : Node) (parent_id : string) :
  nodes t !! parent_id = None ∨ is_Some (nodes t !! identifier child) →
  add_child_to_parent child parent_id t = (inl ValueError, t).
Proof.
  intros H. destruct (nodes t !! parent_id) as [p|] eqn:Hp.
  - destruct H as [?|H]; [done|].
    apply add_child_to_parent_taken; [by rewrite Hp|done].
  - by apply add_child_to_parent_no_parent.
Qed.

Lemma add_child_to_parent_rejected_witness :
  add_child_to_parent (Node_init "" "" "c") "nobody" chain_tree = (inl ValueError, chain_tree).
Proof.
  apply (add_child_to_parent_rejected chain_tree (Node_init "" "" "c") "nobody").
  left. reflexivity.
Defined.

(** X5: a child that already has a parent is refused by [add_parent] only
    after [_add_node] has stored it: the call raises [ValueError], the node
    stays in the dict with its old parent, and the intended parent does not
    list it. *)
Theorem add_child_to_parent_orphan (t : TreeStructure) (child : Node)
    (parent_id : string) (p : Node) (q : string) :
  nodes t !! parent_id = Some p →
  nodes t !! identifier child = None →
  parent child = Some q →
  add_child_to_parent child parent_id t
  = (inl ValueError, set_nodes (insert (identifier child) child) t).
Proof.
  intros Hp Hc Hq. unfold add_child_to_parent.
  erewrite bind_inr; cycle 1.
  { unfold ensure_existence. rewrite (proj2 (contains_true _ _)); [done|by rewrite Hp]. }
  erewrite bind_inr; cycle 1.
  { unfold _add_node. erewrite bind_inr; cycle 1.
    { unfold ensure_uniqueness. by rewrite (proj2 (contains_false _ _)). }
    reflexivity. }
  erewrite bind_inl; [done|].
  unfold update_node. erewrite bind_inr; cycle 1.
  { apply get_node_Some. simpl. apply lookup_insert_eq. }
  erewrite bind_inl; [done|]. unfold lift, add_parent. by rewrite Hq.
Qed.

Lemma add_child_to_parent_orphan_witness :
  add_child_to_parent (set_parent (Some "elsewhere") (Node_init "" "" "c")) "root" chain_tree
  = (inl ValueError,
     set_nodes (insert "c" (set_parent (Some "elsewhere") (Node_init "" "" "c"))) chain_tree).
Proof.
  apply (add_child_to_parent_orphan chain_tree
           (set_parent (Some "elsewhere") (Node_init "" "" "c")) "root"
           (mkNode "root" "root" None ["c1"; "c2"]) "elsewhere");
    reflexivity.
Defined.

Lemma wf_parent_not_child t p c P C :
  wf t → nodes t !! p = Some P → nodes t !! c = Some C →
  parent C = Some p → parent P ≠ Some c ∧ (p ∉ children C) ∧ p ≠ c.
Proof.
  intros Hwf HP HC HCp. destruct (wf_depth _ Hwf) as [depth Hd].
  pose proof (Hd _ _ _ HC HCp) as Hlt.
  assert (parent P ≠ Some c) as H1.
  { intros HPc. pose proof (Hd _ _ _ HP HPc). lia. }
  split_and!; [done| |].
  - intros Hin. destruct (wf_children _ Hwf _ _ _ HC Hin) as (m & Hm & Hmp).
    by simplify_eq.
  - intros ->. lia.
Qed.

(** X6: after a node without a parent is added below a node of a
    well-formed tree, it is the last child of that node, the tree has one
    node more, and [determine_parentage] orders the pair as (parent, child)
    whichever way round the identifiers are given. *)
Theorem add_child_to_parent_parentage (t : TreeStructure) (child : Node)
    (parent_id : string) (p : Node) :
  wf t →
  nodes t !! parent_id = Some p →
  nodes t !! identifier child = None →
  parent child = None →
  ∃ t', add_child_to_parent child parent_id t = (inr tt, t')
    ∧ determine_parentage (identifier child) parent_id t'
      = (inr (parent_id, identifier child), t')
    ∧ determine_parentage parent_id (identifier child) t'
      = (inr (parent_id, identifier child), t')
    ∧ children <$> nodes t' !! parent_id = Some (children p ++ [identifier child])
    ∧ parent <$> nodes t' !! identifier child = Some (Some parent_id)
    ∧ size (nodes t') = S (size (nodes t)).
Proof.
  intros Hwf Hp Hc Hpc.
  assert (identifier child ≠ parent_id) as Hne by (intros E; rewrite E in Hc; congruence).
  eexists. split; [by eapply add_child_to_parent_ok|].
  set (t' := set_nodes _ t).
  assert (nodes t' !! parent_id = Some (add_child (identifier child) p)) as Hp'.
  { simpl. apply lookup_insert_eq. }
  assert (nodes t' !! identifier child = Some (set_parent (Some parent_id) child)) as Hc'.
  { simpl. rewrite lookup_insert_ne by done. apply lookup_insert_eq. }
  assert (is_child_of (identifier child) (add_child (identifier child) p) = false) as Hnot.
  { apply not_true_is_false. rewrite is_child_of_true. simpl. intros Hpp.
    destruct (wf_parent _ Hwf _ _ _ Hp Hpp) as (g & Hg & _). congruence. }
  split_and!.
  - rewrite (determine_parentage_found _ _ _ _ _ Hc' Hp'), Hnot.
    unfold is_child_of; simpl. by rewrite bool_decide_eq_true_2.
  - rewrite (determine_parentage_found _ _ _ _ _ Hp' Hc').
    unfold is_child_of at 1; simpl. by rewrite bool_decide_eq_true_2.
  - by rewrite Hp'.
  - by rewrite Hc'.
  - simpl. rewrite map_size_insert_Some.
    + by rewrite map_size_insert_None.
    + rewrite lookup_insert_ne by done. by rewrite Hp.
Qed.

Lemma add_child_to_parent_parentage_witness :
  ∃ t', add_child_to_parent (Node_init "" "" "c") "root"
          (add_root (Node_init "" "" "root") empty_tree).2 = (inr tt, t')
    ∧ determine_parentage "c" "root" t' = (inr ("root", "c"), t')
    ∧ determine_parentage "root" "c" t' = (inr ("root", "c"), t')
    ∧ children <$> nodes t' !! "root" = Some ["c"]
    ∧ parent <$> nodes t' !! "c" = Some (Some "root")
    ∧ size (nodes t') = 2.
Proof.
  apply (add_child_to_parent_parentage (add_root (Node_init "" "" "root") empty_tree).2
           (Node_init "" "" "c") "root" (Node_init "" "" "root")).
  - apply add_root_wf. by split.
  - reflexivity.
  - reflexivity.
  - reflexivity.
Defined.

(** ** tree_structure.py: the shape of the trees the mutators build *)

(** X7: in every tree built from the empty tree by proper calls of the
    five mutators the two directions of each link agree: a node is stored
    under its identifier, lists no child twice, lists exactly the nodes that
    name it as their parent, is listed by the node it names as parent, is
    neither its own parent nor its own child, and is parentless exactly when
    it is the root.  A call is proper when the node handed to [add_root],
    [add_child_to_parent] or [add_parent_to_root] has no parent and no
    children; [add_parent_to_root] is called on a tree that has a root; the
    identifier of the node made by [combine_nodes] is new to the tree or that
    of one of the two nodes combined; and the two identifiers given to
    [split_node] are not empty, differ from each other, each is new to the
    tree or that of the node split, and the two neighbour lists together hold
    exactly the neighbours of the node split. *)
Theorem properly_reachable_links_agree (t : TreeStructure) (k : string) (n : Node) :
  properly_reachable t → nodes t !! k = Some n →
  identifier n = k
  ∧ NoDup (children n)
  ∧ (∀ c, c ∈ children n ↔ ∃ m, nodes t !! c = Some m ∧ parent m = Some k)
  ∧ (∀ p, parent n = Some p → ∃ m, nodes t !! p = Some m ∧ k ∈ children m)
  ∧ parent n ≠ Some k ∧ (k ∉ children n)
  ∧ (parent n = None ↔ root_id t = Some k).
Proof.
  intros Hreach Hk. destruct (properly_reachable_wf _ Hreach) as [->|Hwf]; [done|].
  split_and!.
  - by eapply wf_ident.
  - by eapply wf_nodup.
  - intros c. split.
    + intros Hc. by eapply wf_children.
    + intros (m & Hm & Hmp). destruct (wf_parent _ Hwf _ _ _ Hm Hmp) as (n' & Hn' & Hin).
      by simplify_eq.
  - intros p Hp. by eapply wf_parent.
  - intros Hp. destruct (wf_depth _ Hwf) as [depth Hd].
    pose proof (Hd _ _ _ Hk Hp). lia.
  - intros Hin. destruct (wf_children _ Hwf _ _ _ Hk Hin) as (m & Hm & Hmp).
    simplify_eq. destruct (wf_depth _ Hwf) as [depth Hd].
    pose proof (Hd _ _ _ Hk Hmp). lia.
  - split; [by eapply wf_one_root|].
    intros Hr. destruct (wf_root _ Hwf) as (r & nr & Hr' & Hnr & Hpar). by simplify_eq.
Qed.

Lemma properly_reachable_chain_tree : properly_reachable chain_tree.
Proof.
  unfold chain_tree, run_calls. simpl.
  repeat (apply properly_reachable_call; [|by (split || (simpl; try split))]).
  apply properly_reachable_empty.
Qed.

Lemma properly_reachable_links_agree_witness :
  let n := mkNode "root" "root" None ["c1"; "c2"] in
  identifier n = "root"
  ∧ NoDup (children n)
  ∧ (∀ c, c ∈ children n ↔ ∃ m, nodes chain_tree !! c = Some m ∧ parent m = Some "root")
  ∧ (∀ p, parent n = Some p → ∃ m, nodes chain_tree !! p = Some m ∧ "root" ∈ children m)
  ∧ parent n ≠ Some "root" ∧ ("root" ∉ children n)
  ∧ (parent n = None ↔ root_id chain_tree = Some "root").
Proof.
  intros n. apply (properly_reachable_links_agree chain_tree "root" n).
  - apply properly_reachable_chain_tree.
  - reflexivity.
Defined.

(** X8: in every tree built from the empty tree by proper calls of the
    five mutators each node is linked to the root: following the parent
    field from it leads to [root_id] after finitely many steps, and never
    back to the node itself.  A call is proper when the node handed to
    [add_root], [add_child_to_parent] or [add_parent_to_root] has no parent
    and no children; [add_parent_to_root] is called on a tree that has a
    root; the identifier of the node made by [combine_nodes] is new to the
    tree or that of one of the two nodes combined; and the two identifiers
    given to [split_node] are not empty, differ from each other, each is new
    to the tree or that of the node split, and the two neighbour lists
    together hold exactly the neighbours of the node split. *)
Theorem properly_reachable_connected (t : TreeStructure) (k : string) :
  properly_reachable t → is_Some (nodes t !! k) →
  (∃ i, nth_parent t i k = root_id t)
  ∧ ∀ i, (0 < i)%nat → nth_parent t i k ≠ Some k.
Proof.
  intros Hreach [n Hk]. destruct (properly_reachable_wf _ Hreach) as [->|Hwf]; [done|].
  destruct (wf_depth _ Hwf) as [depth Hd]. split.
  - remember (depth k) as d eqn:Hdk. revert k n Hk Hdk.
    induction d as [d IH] using lt_wf_ind. intros k n Hk ->.
    destruct (parent n) as [p|] eqn:Hp.
    + destruct (wf_parent _ Hwf _ _ _ Hk Hp) as (m & Hm & _).
      destruct (IH (depth p) (Hd _ _ _ Hk Hp) p m Hm eq_refl) as [i Hi].
      exists (S i). simpl. by rewrite Hk, Hp.
    + exists 0%nat. simpl. symmetry. by eapply wf_one_root.
  - assert (∀ i j a, nth_parent t i j = Some a → (0 < i)%nat → is_Some (nodes t !! j) →
                     (depth a < depth j)%nat) as Hdown.
    { induction i as [|i IH]; intros j a Hi Hpos [nj Hj]; [lia|].
      simpl in Hi. rewrite Hj in Hi. destruct (parent nj) as [p|] eqn:Hp; [|done].
      pose proof (Hd _ _ _ Hj Hp) as Hlt.
      destruct i as [|i]; [simpl in Hi; by simplify_eq|].
      destruct (wf_parent _ Hwf _ _ _ Hj Hp) as (m & Hm & _).
      assert (depth a < depth p)%nat by (apply (IH p a Hi); [lia|by rewrite Hm]). lia. }
    intros i Hpos Hi. specialize (Hdown i k k Hi Hpos). 
    assert (depth k < depth k)%nat by (apply Hdown; by rewrite Hk). lia.
Qed.

Lemma properly_reachable_connected_witness :
  (∃ i, nth_parent chain_tree i "c2" = root_id chain_tree)
  ∧ ∀ i, (0 < i)%nat → nth_parent chain_tree i "c2" ≠ Some "c2".
Proof.
  apply (properly_reachable_connected chain_tree "c2").
  - apply properly_reachable_chain_tree.
  - by eexists.
Defined.

(** X9: [add_parent_to_root] puts a new node above the root of a well-formed
    tree: the new node becomes the root and lists the old root as its only
    child, the old root names it as parent and keeps its children, the tree
    has one node more and is well formed again.  When the identifier is in
    use the call raises [ValueError] and changes nothing. *)
Theorem add_parent_to_root_effect (t : TreeStructure) (new_root : Node) (r : string) :
  wf t → root_id t = Some r → fresh new_root →
  (is_Some (nodes t !! identifier new_root) →
     add_parent_to_root new_root t = (inl ValueError, t))
  ∧ (nodes t !! identifier new_root = None →
     ∃ t' nr, add_parent_to_root new_root t = (inr tt, t')
       ∧ nodes t !! r = Some nr
       ∧ root_id t' = Some (identifier new_root)
       ∧ nodes t' !! identifier new_root = Some (set_children [r] new_root)
       ∧ nodes t' !! r = Some (set_parent (Some (identifier new_root)) nr)
       ∧ determine_parentage r (identifier new_root) t'
         = (inr (identifier new_root, r), t')
       ∧ size (nodes t') = S (size (nodes t))
       ∧ wf t').
Proof.
  intros Hwf Hr [Hfp Hfc]. split; [by apply add_parent_to_root_taken|].
  intros Hnew. destruct (wf_root _ Hwf) as (r' & nr & Hr' & Hnr & Hpar).
  assert (r' = r) as -> by congruence.
  assert (identifier new_root ≠ r) as Hne by (intros E; rewrite E in Hnew; congruence).
  pose proof (add_parent_to_root_ok _ _ _ _ Hr Hnr Hpar Hnew) as Hrun.
  eexists _, nr. split; [exact Hrun|]. split_and!; try done.
  - simpl. rewrite lookup_insert_ne by done. rewrite lookup_insert_eq.
    unfold add_child. by rewrite Hfc.
  - simpl. by rewrite lookup_insert_eq.
  - erewrite determine_parentage_found; cycle 1.
    { simpl. apply lookup_insert_eq. }
    { simpl. rewrite lookup_insert_ne by done. apply lookup_insert_eq. }
    unfold is_child_of at 1. simpl. rewrite Hfp.
    unfold is_child_of. simpl. by rewrite bool_decide_eq_true_2.
  - simpl. rewrite map_size_insert_Some.
    + by rewrite map_size_insert_None.
    + rewrite lookup_insert_ne by done. by rewrite Hnr.
  - replace (_ : TreeStructure) with (add_parent_to_root new_root t).2 by (by rewrite Hrun).
    apply add_parent_to_root_wf; [done|by split].
Qed.

Lemma add_parent_to_root_effect_witness :
  ∃ t' nr, add_parent_to_root (Node_init "" "" "top") chain_tree = (inr tt, t')
    ∧ nodes chain_tree !! "root" = Some nr
    ∧ root_id t' = Some "top"
    ∧ nodes t' !! "top" = Some (set_children ["root"] (Node_init "" "" "top"))
    ∧ nodes t' !! "root" = Some (set_parent (Some "top") nr)
    ∧ determine_parentage "root" "top" t' = (inr ("top", "root"), t')
    ∧ size (nodes t') = 4%nat
    ∧ wf t'.
Proof.
  refine (proj2 (add_parent_to_root_effect chain_tree (Node_init "" "" "top") "root" _ _ _) _).
  - destruct (properly_reachable_wf _ properly_reachable_chain_tree) as [E|H]; [done|exact H].
  - reflexivity.
  - by split.
  - reflexivity.
Defined.

(** ** tree_structure.py: [combine_nodes] *)

Lemma without_absent x l : x ∉ l → without x l = l.
Proof. intros Hx. unfold without. apply list_remove_None in Hx. by rewrite Hx. Qed.

Lemma combine_nodes_located t id1 id2 newi n1 n2 :
  wf t → nodes t !! id1 = Some n1 → nodes t !! id2 = Some n2 →
  parent n2 = Some id1 ∨ parent n1 = Some id2 →
  nodes t !! combined_identifier id1 id2 newi = None
    ∨ combined_identifier id1 id2 newi = id1 ∨ combined_identifier id1 id2 newi = id2 →
  ∃ p c P C,
    ((p = id1 ∧ c = id2 ∧ P = n1 ∧ C = n2 ∧ parent n2 = Some id1)
     ∨ (p = id2 ∧ c = id1 ∧ P = n2 ∧ C = n1 ∧ parent n1 = Some id2
        ∧ parent n2 ≠ Some id1 ∧ id1 ≠ id2))
    ∧ nodes t !! p = Some P ∧ nodes t !! c = Some C ∧ parent C = Some p
    ∧ (nodes t !! combined_identifier id1 id2 newi = None
       ∨ combined_identifier id1 id2 newi = p ∨ combined_identifier id1 id2 newi = c)
    ∧ combine_nodes id1 id2 newi t
      = (inr tt, combined_tree id1 p c (combined_identifier id1 id2 newi) P C t).
Proof.
  intros Hwf H1 H2 Hadj Hnew.
  destruct (decide (parent n2 = Some id1)) as [Hp|Hp].
  - exists id1, id2, n1, n2. split_and!; try done; [by left|].
    apply combine_nodes_adjacent; try done.
    rewrite (determine_parentage_found _ _ _ _ _ H1 H2).
    by rewrite (proj2 (is_child_of_true _ _) Hp).
  - destruct Hadj as [?|Hadj]; [done|].
    destruct (wf_parent_not_child _ _ _ _ _ Hwf H2 H1 Hadj) as (_ & _ & Hne).
    exists id2, id1, n2, n1. split_and!; try done; [right; by split_and!|tauto|].
    apply combine_nodes_adjacent; try done; [|tauto].
    rewrite (determine_parentage_found _ _ _ _ _ H1 H2).
    destruct (is_child_of id1 n2) eqn:E; [by apply is_child_of_true in E|].
    by rewrite (proj2 (is_child_of_true _ _) Hadj).
Qed.

Lemma combined_children_in_order t id1 id2 p c P C n1 n2 :
  wf t → nodes t !! p = Some P → nodes t !! c = Some C → parent C = Some p →
  (p = id1 ∧ c = id2 ∧ P = n1 ∧ C = n2)
  ∨ (p = id2 ∧ c = id1 ∧ P = n2 ∧ C = n1 ∧ id1 ≠ id2) →
  combined_children id1 p c P C
  = without id2 (children n1) ++ without id1 (children n2).
Proof.
  intros Hwf HP HC HCp Hcase.
  destruct (combine_rest _ _ _ _ _ Hwf HP HC HCp) as (rest & Hrest & _).
  destruct (wf_parent_not_child _ _ _ _ _ Hwf HP HC HCp) as (_ & Hnot & _).
  unfold combined_children. rewrite Hrest. simpl.
  destruct Hcase as [(-> & -> & -> & ->)|(-> & -> & -> & -> & Hne)].
  - rewrite decide_False by (intros ?; done).
    rewrite (without_absent _ _ Hnot). unfold without. by rewrite Hrest.
  - rewrite decide_True by done.
    rewrite (without_absent _ _ Hnot). unfold without. by rewrite Hrest.
Qed.

Lemma combined_nodes_dom t id1 p c new_id P C :
  wf t → nodes t !! p = Some P → nodes t !! c = Some C → parent C = Some p →
  nodes t !! new_id = None ∨ new_id = p ∨ new_id = c →
  dom (combined_nodes id1 p c new_id P C (nodes t))
  = {[new_id]} ∪ (dom (nodes t) ∖ ({[p]} ∪ {[c]})).
Proof.
  intros Hwf HP HC HCp Hnew. apply set_eq. intros k.
  rewrite elem_of_dom, elem_of_union, elem_of_singleton, elem_of_difference,
    elem_of_union, !elem_of_singleton, elem_of_dom.
  destruct (decide (k = new_id)) as [->|Hk].
  - rewrite (combined_final_new _ id1 _ _ _ _ _ Hwf HP HC HCp Hnew). naive_solver.
  - rewrite (combined_final_other _ id1 _ _ _ _ _ Hwf HP HC HCp Hnew _ Hk).
    destruct (decide (k = p ∨ k = c)) as [Hpc|Hpc].
    + split; [by intros [? ?]|]. intros [?|[_ ?]]; done.
    + rewrite fmap_is_Some. naive_solver.
Qed.

Lemma combined_nodes_size t id1 p c new_id P C :
  wf t → nodes t !! p = Some P → nodes t !! c = Some C → parent C = Some p →
  nodes t !! new_id = None ∨ new_id = p ∨ new_id = c →
  size (combined_nodes id1 p c new_id P C (nodes t)) = (size (nodes t) - 1)%nat.
Proof.
  intros Hwf HP HC HCp Hnew.
  destruct (wf_parent_not_child _ _ _ _ _ Hwf HP HC HCp) as (_ & _ & Hne).
  rewrite <- size_dom, (combined_nodes_dom _ _ _ _ _ _ _ Hwf HP HC HCp Hnew).
  rewrite size_union.
  - rewrite size_singleton, size_difference.
    + rewrite size_union by set_solver. rewrite !size_singleton, size_dom.
      assert (2 ≤ size (nodes t))%nat; [|lia].
      rewrite <- size_dom.
      transitivity (size ({[p]} ∪ {[c]} : gset string)).
      * rewrite size_union by set_solver. by rewrite !size_singleton.
      * apply subseteq_size. intros x. rewrite elem_of_union, !elem_of_singleton, elem_of_dom.
        intros [->| ->]; by eexists.
    + intros x. rewrite elem_of_union, !elem_of_singleton, elem_of_dom.
      intros [->| ->]; by eexists.
  - intros x. rewrite elem_of_singleton, elem_of_difference, elem_of_union,
      !elem_of_singleton, elem_of_dom.
    intros -> [[n Hn] Hnot]. destruct Hnew as [Hn'|[->| ->]]; [congruence|tauto|tauto].
Qed.

(** X10: merging two adjacent nodes of a well-formed tree under an identifier
    that is new, or that of one of the two, succeeds.  The merged node takes
    the parent of the upper node and, as the docstring says, the children of
    the first-named node followed by those of the second (each without the
    other node); the two old nodes are gone, the root identifier follows the
    merge, the tree has one node less and is well formed again. *)
Theorem combine_nodes_merges (t : TreeStructure) (id1 id2 newi : string) (n1 n2 : Node) :
  wf t → nodes t !! id1 = Some n1 → nodes t !! id2 = Some n2 →
  parent n2 = Some id1 ∨ parent n1 = Some id2 →
  nodes t !! combined_identifier id1 id2 newi = None
    ∨ combined_identifier id1 id2 newi = id1 ∨ combined_identifier id1 id2 newi = id2 →
  ∃ t', combine_nodes id1 id2 newi t = (inr tt, t')
    ∧ nodes t' !! combined_identifier id1 id2 newi
      = Some {| identifier := combined_identifier id1 id2 newi;
                tag := combined_identifier id1 id2 newi;
                parent := if decide (parent n2 = Some id1) then parent n1 else parent n2;
                children := without id2 (children n1) ++ without id1 (children n2) |}
    ∧ (id1 ≠ combined_identifier id1 id2 newi → nodes t' !! id1 = None)
    ∧ (id2 ≠ combined_identifier id1 id2 newi → nodes t' !! id2 = None)
    ∧ root_id t'
      = (if decide (root_id t = Some id1 ∨ root_id t = Some id2)
         then Some (combined_identifier id1 id2 newi) else root_id t)
    ∧ size (nodes t') = (size (nodes t) - 1)%nat
    ∧ wf t'.
Proof.
  intros Hwf H1 H2 Hadj Hnew.
  destruct (combine_nodes_located _ _ _ _ _ _ Hwf H1 H2 Hadj Hnew)
    as (p & c & P & C & Hcase & HP & HC & HCp & Hnew' & Hrun).
  eexists. split; [exact Hrun|].
  set (new_id := combined_identifier id1 id2 newi) in *.
  assert (combined_children id1 p c P C
          = without id2 (children n1) ++ without id1 (children n2)) as Hch.
  { eapply combined_children_in_order; try done.
    destruct Hcase as [(? & ? & ? & ? & ?)|(? & ? & ? & ? & ? & ? & ?)];
      [left|right]; by split_and!. }
  split_and!.
  - simpl. rewrite (combined_final_new _ id1 _ _ _ _ _ Hwf HP HC HCp Hnew').
    unfold combined_node. rewrite Hch. do 2 f_equal.
    destruct Hcase as [(? & ? & ? & ? & ?)|(? & ? & ? & ? & ? & ? & ?)]; subst.
    + by rewrite decide_True.
    + by rewrite decide_False.
  - intros Hne. simpl.
    rewrite (combined_final_other _ id1 _ _ _ _ _ Hwf HP HC HCp Hnew' _ Hne).
    rewrite decide_True; [done|].
    destruct Hcase as [(? & ? & ? & ? & ?)|(? & ? & ? & ? & ? & ? & ?)]; subst; tauto.
  - intros Hne. simpl.
    rewrite (combined_final_other _ id1 _ _ _ _ _ Hwf HP HC HCp Hnew' _ Hne).
    rewrite decide_True; [done|].
    destruct Hcase as [(? & ? & ? & ? & ?)|(? & ? & ? & ? & ? & ? & ?)]; subst; tauto.
  - simpl. unfold is_root.
    assert (root_id t ≠ Some c) as Hrc.
    { intros Hr. destruct (wf_root _ Hwf) as (r & nr & Hr' & Hnr & Hpar). simplify_eq. }
    destruct (parent P) as [g|] eqn:HPp.
    + assert (root_id t ≠ Some p) as Hrp.
      { intros Hr. destruct (wf_root _ Hwf) as (r & nr & Hr' & Hnr & Hpar). simplify_eq. }
      rewrite decide_False; [done|].
      destruct Hcase as [(? & ? & ? & ? & ?)|(? & ? & ? & ? & ? & ? & ?)]; subst; tauto.
    + pose proof (wf_one_root _ Hwf _ _ HP HPp) as Hr.
      rewrite decide_True; [done|].
      destruct Hcase as [(? & ? & ? & ? & ?)|(? & ? & ? & ? & ? & ? & ?)]; subst; tauto.
  - by apply combined_nodes_size.
  - by apply combined_tree_wf.
Qed.

Lemma combine_nodes_merges_witness :
  ∃ t', combine_nodes "root" "c1" "" chain_tree = (inr tt, t')
    ∧ nodes t' !! "rootcontrc1"
      = Some {| identifier := "rootcontrc1"; tag := "rootcontrc1";
                parent := None; children := ["c2"] |}
    ∧ ("root" ≠ "rootcontrc1" → nodes t' !! "root" = None)
    ∧ ("c1" ≠ "rootcontrc1" → nodes t' !! "c1" = None)
    ∧ root_id t' = Some "rootcontrc1"
    ∧ size (nodes t') = 2%nat
    ∧ wf t'.
Proof.
  refine (combine_nodes_merges chain_tree "root" "c1" ""
            (mkNode "root" "root" None ["c1"; "c2"])
            (mkNode "c1" "c1" (Some "root") []) _ _ _ _ _).
  - destruct (properly_reachable_wf _ properly_reachable_chain_tree) as [E|H]; [done|exact H].
  - reflexivity.
  - reflexivity.
  - by left.
  - by left.
Defined.

Lemma fmap_renamed_id a b new (l : list string) :
  (∀ x, x ∈ l → x = a ∨ x = b → x = new) → renamed a b new <$> l = l.
Proof.
  intros H. induction l as [|x l IH]; [done|]. csimpl. f_equal.
  - unfold renamed. destruct (decide (x = a ∨ x = b)) as [Hx|]; [|done].
    symmetry. apply H; [by left|done].
  - apply IH. intros y Hy. apply H. by right.
Qed.

Lemma insert_renamed p c new (l : list string) i :
  list_index p l = Some i → c ∉ l → NoDup l →
  <[i := new]> l = renamed p c new <$> l.
Proof.
  revert i. induction l as [|x l IH]; intros i Hi Hc Hnd; simpl in *; [done|].
  apply not_elem_of_cons in Hc as [Hcx Hc]. apply NoDup_cons in Hnd as [Hx Hnd].
  destruct (decide (x = p)) as [->|Hxp].
  - injection Hi as <-. csimpl. unfold renamed at 1. rewrite decide_True by (by left).
    f_equal. symmetry. apply fmap_renamed_id. intros y Hy [->| ->]; done.
  - destruct (list_index p l) as [j|] eqn:Hj; [|done].
    injection Hi as <-. csimpl. unfold renamed at 1.
    rewrite decide_False by naive_solver. f_equal. by apply IH.
Qed.

Lemma combined_other_renamed t id1 p c new_id P C k n :
  wf t → nodes t !! p = Some P → nodes t !! c = Some C → parent C = Some p →
  nodes t !! new_id = None ∨ new_id = p ∨ new_id = c →
  nodes t !! k = Some n → k ≠ p → k ≠ c →
  combined_other id1 p c new_id P C k n = rename_node p c new_id n.
Proof.
  intros Hwf HP HC HCp Hnew' Hk Hkp Hkc.
  assert (c ∉ children n) as Hc.
  { intros Hin. destruct (wf_children _ Hwf _ _ _ Hk Hin) as (m & Hm & Hmp). simplify_eq. }
  assert (p ∈ children n ↔ parent P = Some k) as Hp.
  { split.
    - intros Hin. destruct (wf_children _ Hwf _ _ _ Hk Hin) as (m & Hm & Hmp). by simplify_eq.
    - intros HPk. destruct (wf_parent _ Hwf _ _ _ HP HPk) as (m & Hm & Hin). by simplify_eq. }
  assert (k ∈ combined_children id1 p c P C
          ↔ parent n = Some p ∨ parent n = Some c) as Htot.
  { rewrite (combine_total_elem _ id1 _ _ new_id _ _ Hwf HP HC HCp Hnew'). split.
    - intros (_ & X & HX & Hpar). by simplify_eq.
    - intros Hpar. split; [done|]. by exists n. }
  assert (parent P = Some k → k ∉ combined_children id1 p c P C) as Hgrand.
  { intros HPk. by destruct (combine_grandparent _ id1 _ _ new_id _ _ Hwf HP HC HCp Hnew' _ HPk)
      as (_ & _ & Hn & _). }
  assert (k ∉ combined_children id1 p c P C → renamed p c new_id <$> parent n = parent n)
    as Hpar_same.
  { intros Hin. destruct (parent n) as [x|]; [|done]. simpl. unfold renamed.
    rewrite decide_False; [done|]. intros [-> | ->]; apply Hin, Htot; tauto. }
  unfold combined_other.
  destruct (decide (k ∈ combined_children id1 p c P C)) as [Hin|Hin].
  - unfold rename_node, set_parent. f_equal.
    + apply Htot in Hin as [-> | ->]; simpl; unfold renamed; rewrite decide_True; tauto.
    + symmetry. apply fmap_renamed_id. intros x Hx [->| ->]; [|done].
      apply Hp in Hx. by apply Hgrand in Hx.
  - destruct (decide (parent P = Some k)) as [HPk|HPk].
    + assert (p ∈ children n) as Hpin by (by apply Hp).
      unfold replace_child, child_index.
      destruct (decide (p = new_id)) as [E|E].
      * unfold rename_node. rewrite (Hpar_same Hin).
        rewrite fmap_renamed_id; [by destruct n|].
        intros x Hx [->| ->]; done.
      * destruct (list_index_elem _ _ Hpin) as (i & Hi & _). rewrite Hi.
        unfold rename_node, set_children. rewrite (Hpar_same Hin). simpl. f_equal.
        apply insert_renamed; [done|done|]. by eapply wf_nodup.
    + unfold rename_node. rewrite (Hpar_same Hin).
      rewrite fmap_renamed_id; [by destruct n|].
      intros x Hx [->| ->]; [|done]. by apply Hp in Hx.
Qed.

(** X11: when two adjacent nodes are merged, every other node stays in the
    tree and is unchanged except that its references to the two merged nodes,
    as parent or as child, now name the merged node, at the same position. *)
Theorem combine_nodes_renames (t : TreeStructure) (id1 id2 newi : string)
    (n1 n2 : Node) (k : string) (n : Node) :
  wf t → nodes t !! id1 = Some n1 → nodes t !! id2 = Some n2 →
  parent n2 = Some id1 ∨ parent n1 = Some id2 →
  nodes t !! combined_identifier id1 id2 newi = None
    ∨ combined_identifier id1 id2 newi = id1 ∨ combined_identifier id1 id2 newi = id2 →
  nodes t !! k = Some n → k ≠ id1 → k ≠ id2 →
  nodes (combine_nodes id1 id2 newi t).2 !! k
  = Some (rename_node id1 id2 (combined_identifier id1 id2 newi) n).
Proof.
  intros Hwf H1 H2 Hadj Hnew Hk Hk1 Hk2.
  destruct (combine_nodes_located _ _ _ _ _ _ Hwf H1 H2 Hadj Hnew)
    as (p & c & P & C & Hcase & HP & HC & HCp & Hnew' & Hrun).
  rewrite Hrun. simpl. set (new_id := combined_identifier id1 id2 newi) in *.
  assert (k ≠ p ∧ k ≠ c) as [Hkp Hkc].
  { destruct Hcase as [(? & ? & ? & ? & ?)|(? & ? & ? & ? & ? & ? & ?)]; by subst. }
  assert (∀ x, renamed id1 id2 new_id x = renamed p c new_id x) as Hren.
  { intros x. unfold renamed.
    destruct Hcase as [(-> & -> & _)|(-> & -> & _)]; [done|].
    destruct (decide (x = id1 ∨ x = id2)), (decide (x = id2 ∨ x = id1)); tauto. }
  assert (rename_node id1 id2 new_id n = rename_node p c new_id n) as ->.
  { unfold rename_node. f_equal.
    - destruct (parent n) as [x|]; [|done]. simpl. by rewrite Hren.
    - apply list_fmap_ext. intros _ x _. apply Hren. }
  rewrite (combined_final_survivor _ id1 _ _ _ _ _ Hwf HP HC HCp Hnew' _ _ Hk Hkp Hkc).
  f_equal. by eapply combined_other_renamed.
Qed.

Lemma combine_nodes_renames_witness :
  nodes (combine_nodes "root" "c1" "" chain_tree).2 !! "c2"
  = Some (rename_node "root" "c1" "rootcontrc1" (mkNode "c2" "c2" (Some "root") [])).
Proof.
  refine (combine_nodes_renames chain_tree "root" "c1" ""
            (mkNode "root" "root" None ["c1"; "c2"])
            (mkNode "c1" "c1" (Some "root") []) "c2" _ _ _ _ _ _ _ _ _).
  - destruct (properly_reachable_wf _ properly_reachable_chain_tree) as [E|H]; [done|exact H].
  - reflexivity.
  - reflexivity.
  - by left.
  - by left.
  - reflexivity.
  - done.
  - done.
Defined.

(** ** tree_structure.py: [split_node] *)

Lemma split_node_located uuid_p uuid_c t old N n1 nb1 n2 nb2 :
  wf t → nodes t !! old = Some N →
  n1 ≠ "" → n2 ≠ "" → n1 ≠ n2 →
  nodes t !! n1 = None ∨ n1 = old →
  nodes t !! n2 = None ∨ n2 = old →
  nb1 ++ nb2 ≡ₚ neighbouring_nodes N →
  let pid := if first_is_upper N nb1 then n1 else n2 in
  let cid := if first_is_upper N nb1 then n2 else n1 in
  let pn := without_parent N (if first_is_upper N nb1 then nb1 else nb2) in
  let cn := if first_is_upper N nb1 then nb2 else nb1 in
  split_node uuid_p uuid_c old n1 nb1 n2 nb2 t
  = (inr tt, split_tree old pid cid (parent N) pn cn t)
  ∧ pid ≠ cid
  ∧ (nodes t !! pid = None ∨ pid = old)
  ∧ (nodes t !! cid = None ∨ cid = old)
  ∧ pn ++ cn ≡ₚ children N.
Proof.
  intros Hwf HN Hn1 Hn2 Hn12 Hnew1 Hnew2 Hperm pid cid pn cn.
  assert ((if is_root N || bool_decide (parent N ∈ (Some <$> nb1))
           then mret (n1, n2, nb1, nb2)
           else if bool_decide (parent N ∈ (Some <$> nb2))
           then mret (n2, n1, nb2, nb1)
           else raise AssertionError) t
          = (inr (pid, cid, if first_is_upper N nb1 then nb1 else nb2, cn), t)
    ∧ match parent N with
      | None => pn = (if first_is_upper N nb1 then nb1 else nb2)
      | Some q => list_remove q (if first_is_upper N nb1 then nb1 else nb2) = Some pn
      end
    ∧ pid ≠ "" ∧ cid ≠ "" ∧ pid ≠ cid
    ∧ (nodes t !! pid = None ∨ pid = old)
    ∧ (nodes t !! cid = None ∨ cid = old)
    ∧ pn ++ cn ≡ₚ children N) as (Hchoice & Hpn & Hpid & Hcid & Hpc & Hnewp & Hnewc & Hperm').
  { subst pid cid pn cn. unfold without_parent, first_is_upper, neighbouring_nodes, is_root in *.
    destruct (parent N) as [q|] eqn:HNq; simpl.
    - destruct (decide (q ∈ nb1)) as [Hq1|Hq1].
      + rewrite bool_decide_eq_true_2 by (by apply elem_of_Some_fmap).
        destruct (list_remove_elem _ _ Hq1) as [pn Hpn].
        unfold without. rewrite Hpn. simpl. repeat split; try done.
        apply list_remove_Permutation in Hpn. rewrite Hpn in Hperm.
        by apply (inj (cons q)) in Hperm.
      + rewrite bool_decide_eq_false_2 by (by rewrite elem_of_Some_fmap).
        assert (Hq2 : q ∈ nb2).
        { assert (Hq12 : q ∈ nb1 ++ nb2) by (rewrite Hperm; left).
          by apply elem_of_app in Hq12 as [?|?]. }
        rewrite bool_decide_eq_true_2 by (by apply elem_of_Some_fmap).
        destruct (list_remove_elem _ _ Hq2) as [pn Hpn].
        unfold without. rewrite Hpn. simpl. repeat split; try done; try congruence.
        apply list_remove_Permutation in Hpn. rewrite Hpn in Hperm.
        rewrite <- Permutation_middle in Hperm.
        apply (inj (cons q)) in Hperm. by rewrite (comm (++)).
    - done. }
  split; [|done].
  assert (Hfacts : ∀ x, x ∈ children N →
            is_Some (nodes t !! x) ∧ x ≠ old ∧ x ≠ pid ∧ x ≠ cid).
  { intros x Hx.
    destruct (split_child_facts t old pid cid N Hwf HN Hnewp Hnewc x Hx)
      as (X & HX & _ & ? & ? & ?). eauto. }
  pose proof (split_children N pn cn Hperm') as Hchn.
  eapply split_node_ok; eauto.
  - intros x Hx. apply Hfacts, Hchn. by right.
  - intros x Hx. apply Hfacts, Hchn. by left.
  - exact (split_grandparent t old pid cid N pn cn Hwf HN Hnewp Hnewc Hperm').
Qed.

Lemma split_nodes_dom t old pid cid N pn cn :
  wf t → nodes t !! old = Some N → pid ≠ cid →
  nodes t !! pid = None ∨ pid = old →
  nodes t !! cid = None ∨ cid = old →
  pn ++ cn ≡ₚ children N →
  dom (split_nodes old pid cid (parent N) pn cn (nodes t))
  = {[pid]} ∪ {[cid]} ∪ (dom (nodes t) ∖ {[old]}).
Proof.
  intros Hwf HN Hpc Hnewp Hnewc Hperm. apply set_eq. intros k.
  rewrite elem_of_dom, !elem_of_union, !elem_of_singleton, elem_of_difference,
    elem_of_singleton, elem_of_dom.
  destruct (decide (k = pid)) as [->|Hkp].
  { rewrite (split_final_parent _ _ _ _ _ _ _ Hwf HN Hpc Hnewp Hnewc Hperm). naive_solver. }
  destruct (decide (k = cid)) as [->|Hkc].
  { rewrite (split_final_child _ _ _ _ _ _ _ Hwf HN Hpc Hnewp Hnewc Hperm). naive_solver. }
  rewrite (split_final_other _ _ _ _ _ _ _ Hwf HN Hpc Hnewp Hnewc Hperm _ Hkp Hkc).
  destruct (decide (k = old)) as [->|Hko].
  - split; [by intros [? ?]|]. naive_solver.
  - rewrite fmap_is_Some. naive_solver.
Qed.

Lemma split_nodes_size t old pid cid N pn cn :
  wf t → nodes t !! old = Some N → pid ≠ cid →
  nodes t !! pid = None ∨ pid = old →
  nodes t !! cid = None ∨ cid = old →
  pn ++ cn ≡ₚ children N →
  size (split_nodes old pid cid (parent N) pn cn (nodes t)) = S (size (nodes t)).
Proof.
  intros Hwf HN Hpc Hnewp Hnewc Hperm.
  rewrite <- size_dom, (split_nodes_dom _ _ _ _ _ _ _ Hwf HN Hpc Hnewp Hnewc Hperm).
  assert (1 ≤ size (nodes t))%nat as Hpos.
  { rewrite <- size_dom. transitivity (size ({[old]} : gset string)).
    - by rewrite size_singleton.
    - apply subseteq_size. intros x. rewrite elem_of_singleton, elem_of_dom. intros ->. by eexists. }
  rewrite size_union.
  - rewrite size_union by set_solver. rewrite !size_singleton, size_difference.
    + rewrite size_singleton, size_dom. lia.
    + intros x. rewrite elem_of_singleton, elem_of_dom. intros ->. by eexists.
  - intros x. rewrite elem_of_union, !elem_of_singleton, elem_of_difference,
      elem_of_singleton, elem_of_dom.
    intros [->| ->] [[n Hn] Hnot].
    + destruct Hnewp as [?|?]; congruence.
    + destruct Hnewc as [?|?]; congruence.
Qed.

(** X12: splitting a node of a well-formed tree into two nodes with distinct,
    non-empty identifiers that are new (or reuse the old one), the neighbours
    of the old node being shared out between the two lists, succeeds.  The
    first new node becomes the upper one when the old node is the root or its
    parent is among the first list, the second otherwise.  The upper node
    takes the parent of the old node and lists its remaining neighbours
    followed by the lower node; the lower node has the upper one as parent
    and lists its own neighbours; the tree has one node more and is well
    formed again. *)
Theorem split_node_splits (uuid_p uuid_c : string) (t : TreeStructure) (old : string)
    (N : Node) (n1 : string) (nb1 : list string) (n2 : string) (nb2 : list string) :
  wf t → nodes t !! old = Some N →
  n1 ≠ "" → n2 ≠ "" → n1 ≠ n2 →
  nodes t !! n1 = None ∨ n1 = old →
  nodes t !! n2 = None ∨ n2 = old →
  nb1 ++ nb2 ≡ₚ neighbouring_nodes N →
  let pid := if first_is_upper N nb1 then n1 else n2 in
  let cid := if first_is_upper N nb1 then n2 else n1 in
  let pn := without_parent N (if first_is_upper N nb1 then nb1 else nb2) in
  let cn := if first_is_upper N nb1 then nb2 else nb1 in
  ∃ t', split_node uuid_p uuid_c old n1 nb1 n2 nb2 t = (inr tt, t')
    ∧ nodes t' !! pid
      = Some {| identifier := pid; tag := pid; parent := parent N; children := pn ++ [cid] |}
    ∧ nodes t' !! cid
      = Some {| identifier := cid; tag := cid; parent := Some pid; children := cn |}
    ∧ (old ≠ n1 → old ≠ n2 → nodes t' !! old = None)
    ∧ root_id t' = (if is_root N then Some pid else root_id t)
    ∧ size (nodes t') = S (size (nodes t))
    ∧ wf t'.
Proof.
  intros Hwf HN Hn1 Hn2 Hn12 Hnew1 Hnew2 Hperm pid cid pn cn.
  destruct (split_node_located uuid_p uuid_c _ _ _ _ _ _ _ Hwf HN Hn1 Hn2 Hn12 Hnew1 Hnew2 Hperm)
    as (Hrun & Hpc & Hnewp & Hnewc & Hperm').
  fold pid cid pn cn in Hrun, Hpc, Hnewp, Hnewc, Hperm'.
  eexists. split; [exact Hrun|]. split_and!.
  - simpl. by rewrite (split_final_parent _ _ _ _ _ _ _ Hwf HN Hpc Hnewp Hnewc Hperm').
  - simpl. by rewrite (split_final_child _ _ _ _ _ _ _ Hwf HN Hpc Hnewp Hnewc Hperm').
  - intros Ho1 Ho2. simpl.
    assert (old ≠ pid ∧ old ≠ cid) as [Hop Hoc].
    { subst pid cid. by destruct (first_is_upper N nb1). }
    rewrite (split_final_other _ _ _ _ _ _ _ Hwf HN Hpc Hnewp Hnewc Hperm' _ Hop Hoc).
    by rewrite decide_True.
  - simpl. unfold is_root. by destruct (parent N).
  - by apply split_nodes_size.
  - by apply split_tree_wf.
Qed.

Lemma split_node_splits_witness :
  ∃ t', split_node "" "" "root" "up" ["c1"] "down" ["c2"] chain_tree = (inr tt, t')
    ∧ nodes t' !! "up"
      = Some {| identifier := "up"; tag := "up"; parent := None; children := ["c1"; "down"] |}
    ∧ nodes t' !! "down"
      = Some {| identifier := "down"; tag := "down"; parent := Some "up"; children := ["c2"] |}
    ∧ ("root" ≠ "up" → "root" ≠ "down" → nodes t' !! "root" = None)
    ∧ root_id t' = Some "up"
    ∧ size (nodes t') = 4%nat
    ∧ wf t'.
Proof.
  refine (split_node_splits "" "" chain_tree "root" (mkNode "root" "root" None ["c1"; "c2"])
            "up" ["c1"] "down" ["c2"] _ _ _ _ _ _ _ _).
  - destruct (properly_reachable_wf _ properly_reachable_chain_tree) as [E|H]; [done|exact H].
  - reflexivity.
  - done.
  - done.
  - done.
  - by left.
  - by left.
  - reflexivity.
Defined.

Lemma insert_renamed_one p new (l : list string) i :
  list_index p l = Some i → NoDup l → <[i := new]> l = renamed p p new <$> l.
Proof.
  revert i. induction l as [|x l IH]; intros i Hi Hnd; simpl in *; [done|].
  apply NoDup_cons in Hnd as [Hx Hnd].
  destruct (decide (x = p)) as [->|Hxp].
  - injection Hi as <-. csimpl. unfold renamed at 1. rewrite decide_True by (by left).
    f_equal. symmetry. apply fmap_renamed_id. intros y Hy [->| ->]; done.
  - destruct (list_index p l) as [j|] eqn:Hj; [|done].
    injection Hi as <-. csimpl. unfold renamed at 1.
    rewrite decide_False by naive_solver. f_equal. by apply IH.
Qed.

Lemma split_other_renamed t old pid cid N pn cn k n :
  wf t → nodes t !! old = Some N → pid ≠ cid →
  nodes t !! pid = None ∨ pid = old →
  nodes t !! cid = None ∨ cid = old →
  pn ++ cn ≡ₚ children N →
  nodes t !! k = Some n → k ≠ old →
  split_other old pid cid (parent N) pn cn k n
  = {| identifier := identifier n; tag := tag n;
       parent := if decide (parent n = Some old)
                 then Some (if decide (k ∈ pn) then pid else cid)
                 else parent n;
       children := renamed old old pid <$> children n |}.
Proof.
  intros Hwf HN Hpc Hnewp Hnewc Hperm' Hk Hko.
  destruct (split_NoDup _ _ _ _ _ Hwf HN Hperm') as (_ & _ & Hdisj).
  pose proof (split_children N pn cn Hperm') as Hchn.
  assert (k ∈ children N ↔ parent n = Some old) as Hchild.
  { split.
    - intros Hin. destruct (wf_children _ Hwf _ _ _ HN Hin) as (m & Hm & Hmp). by simplify_eq.
    - intros Hpar. destruct (wf_parent _ Hwf _ _ _ Hk Hpar) as (m & Hm & Hin). by simplify_eq. }
  assert (old ∈ children n ↔ parent N = Some k) as Hold.
  { split.
    - intros Hin. destruct (wf_children _ Hwf _ _ _ Hk Hin) as (m & Hm & Hmp). by simplify_eq.
    - intros HNk. destruct (wf_parent _ Hwf _ _ _ HN HNk) as (m & Hm & Hin). by simplify_eq. }
  assert (old ∉ children n → renamed old old pid <$> children n = children n) as Hsame.
  { intros Hnot. apply fmap_renamed_id. intros x Hx [->| ->]; done. }
  destruct n as [idn tg par cs]. simpl in *.
  destruct (decide (par = Some old)) as [Hpar|Hpar].
  - assert (k ∈ children N) as Hin by (by apply Hchild).
    assert (parent N ≠ Some k) as HNk.
    { by destruct (wf_parent_not_child _ _ _ _ _ Hwf HN Hk Hpar) as (? & _ & _). }
    rewrite Hsame by (by rewrite Hold).
    apply Hchn in Hin. unfold split_other.
    destruct (decide (k ∈ pn)) as [Hkp|Hkp]; [done|].
    by rewrite decide_True by tauto.
  - assert ((k ∉ pn) ∧ (k ∉ cn)) as [Hkp Hkc].
    { split; intros ?; apply Hpar, Hchild, Hchn; tauto. }
    unfold split_other. rewrite !decide_False by done.
    destruct (decide (parent N = Some k)) as [HNk|HNk].
    + assert (old ∈ cs) as Hin by (by apply Hold).
      unfold replace_child, child_index. simpl.
      destruct (decide (old = pid)) as [E|E].
      * f_equal. symmetry. apply fmap_renamed_id. intros x Hx [->| ->]; done.
      * destruct (list_index_elem _ _ Hin) as (i & Hi & _). rewrite Hi.
        unfold set_children. simpl. f_equal.
        apply insert_renamed_one; [done|]. by apply (wf_nodup _ Hwf _ _ Hk).
    + by rewrite Hsame by (by rewrite Hold).
Qed.

(** X13: when a node is split, every other node stays in the tree; a former
    child of the old node gets as parent the new node in whose neighbour list
    it was named, the parent of the old node lists the upper new node at the
    position of the old one, and nothing else changes. *)
Theorem split_node_renames (uuid_p uuid_c : string) (t : TreeStructure) (old : string)
    (N : Node) (n1 : string) (nb1 : list string) (n2 : string) (nb2 : list string)
    (k : string) (n : Node) :
  wf t → nodes t !! old = Some N →
  n1 ≠ "" → n2 ≠ "" → n1 ≠ n2 →
  nodes t !! n1 = None ∨ n1 = old →
  nodes t !! n2 = None ∨ n2 = old →
  nb1 ++ nb2 ≡ₚ neighbouring_nodes N →
  nodes t !! k = Some n → k ≠ old →
  nodes (split_node uuid_p uuid_c old n1 nb1 n2 nb2 t).2 !! k
  = Some {| identifier := identifier n; tag := tag n;
            parent := if decide (parent n = Some old)
                      then Some (if decide (k ∈ nb1) then n1 else n2)
                      else parent n;
            children := renamed old old (if first_is_upper N nb1 then n1 else n2)
                          <$> children n |}.
Proof.
  intros Hwf HN Hn1 Hn2 Hn12 Hnew1 Hnew2 Hperm Hk Hko.
  destruct (split_node_located uuid_p uuid_c _ _ _ _ _ _ _ Hwf HN Hn1 Hn2 Hn12 Hnew1 Hnew2 Hperm)
    as (Hrun & Hpc & Hnewp & Hnewc & Hperm').
  rewrite Hrun. simpl.
  set (pid := if first_is_upper N nb1 then n1 else n2) in *.
  set (cid := if first_is_upper N nb1 then n2 else n1) in *.
  set (pn := without_parent N (if first_is_upper N nb1 then nb1 else nb2)) in *.
  set (cn := if first_is_upper N nb1 then nb2 else nb1) in *.
  rewrite (split_final_survivor _ _ _ _ _ _ _ Hwf HN Hpc Hnewp Hnewc Hperm' _ _ Hk Hko).
  rewrite (split_other_renamed _ _ _ _ _ _ _ _ _ Hwf HN Hpc Hnewp Hnewc Hperm' Hk Hko).
  do 2 f_equal.
  destruct (decide (parent n = Some old)) as [Hpar|Hpar]; [|done]. f_equal.
  destruct (split_NoDup _ _ _ _ _ Hwf HN Hperm') as (_ & _ & Hdisj).
  pose proof (split_children N pn cn Hperm') as Hchn.
  assert (k ∈ children N) as Hin.
  { destruct (wf_parent _ Hwf _ _ _ Hk Hpar) as (m & Hm & Hin). by simplify_eq. }
  assert (parent N ≠ Some k) as HNk.
  { by destruct (wf_parent_not_child _ _ _ _ _ Hwf HN Hk Hpar) as (? & _ & _). }
  assert (k ∈ pn ↔ k ∈ (if first_is_upper N nb1 then nb1 else nb2)) as Hpn.
  { subst pn. unfold without_parent. destruct (parent N) as [q|] eqn:HNq; [|done].
    unfold without. destruct (list_remove q _) as [r|] eqn:Hr; [|done]. simpl.
    apply list_remove_Permutation in Hr. rewrite Hr, elem_of_cons. naive_solver. }
  apply Hchn in Hin. subst pid cid cn. destruct (first_is_upper N nb1).
  - destruct (decide (k ∈ pn)) as [Hkp|Hkp].
    + by rewrite decide_True by (by apply Hpn).
    + by rewrite decide_False by (by rewrite <- Hpn).
  - destruct (decide (k ∈ pn)) as [Hkp|Hkp].
    + rewrite decide_False; [done|]. intros ?. by eapply Hdisj.
    + by rewrite decide_True by tauto.
Qed.

Lemma split_node_renames_witness :
  nodes (split_node "" "" "root" "up" ["c1"] "down" ["c2"] chain_tree).2 !! "c2"
  = Some {| identifier := "c2"; tag := "c2"; parent := Some "down"; children := [] |}.
Proof.
  refine (split_node_renames "" "" chain_tree "root" (mkNode "root" "root" None ["c1"; "c2"])
            "up" ["c1"] "down" ["c2"] "c2" (mkNode "c2" "c2" (Some "root") [])
            _ _ _ _ _ _ _ _ _ _).
  - destruct (properly_reachable_wf _ properly_reachable_chain_tree) as [E|H]; [done|exact H].
  - reflexivity.
  - done.
  - done.
  - done.
  - by left.
  - by left.
  - reflexivity.
  - reflexivity.
  - done.
Defined.

(** ** node_contraction.py and [conjugate_node]: the bookkeeping of legs *)

Lemma dict_get_dict_set {V} k k' (v : V) d :
  dict_get k (dict_set k' v d) = if decide (k' = k) then Some v else dict_get k d.
Proof.
  induction d as [|[a w] d IH]; simpl.
  - done.
  - destruct (decide (a = k')) as [->|Hak]; simpl.
    + by destruct (decide (k' = k)).
    + rewrite IH. destruct (decide (a = k)) as [->|]; [|done].
      by rewrite decide_False.
Qed.

Lemma dict_set_fresh {V} k (v : V) d : k ∉ d.*1 → dict_set k v d = d ++ [(k, v)].
Proof.
  induction d as [|[a w] d IH]; intros Hk; simpl; [done|].
  csimpl in Hk. apply not_elem_of_cons in Hk as [Hka Hk].
  rewrite decide_False by done. by rewrite IH.
Qed.

Lemma dict_update_fresh {V} (d e : list (string * V)) :
  NoDup e.*1 → (∀ k, k ∈ e.*1 → k ∉ d.*1) → dict_update d e = d ++ e.
Proof.
  unfold dict_update. revert d. induction e as [|[k v] e IH]; intros d Hnd Hfresh; simpl.
  - by rewrite app_nil_r.
  - csimpl in Hnd. apply NoDup_cons in Hnd as [Hk Hnd].
    rewrite dict_set_fresh by (apply Hfresh; csimpl; by left).
    rewrite IH; [by rewrite <- app_assoc|done|].
    intros a Ha. rewrite fmap_app, elem_of_app. csimpl. rewrite list_elem_of_singleton.
    intros [?| ->]; [|done]. apply (Hfresh a); [csimpl; by right|done].
Qed.

Lemma conj_children_legs (d : list (string * Z)) :
  NoDup d.*1 →
  foldl (λ acc kv, dict_set ("conj_" +:+ kv.1) kv.2 acc) [] d
  = prod_map (λ c, "conj_" +:+ c) id <$> d.
Proof.
  intros Hnd.
  assert (∀ acc : list (string * Z),
            (∀ k, k ∈ d.*1 → ("conj_" +:+ k) ∉ acc.*1) →
            foldl (λ acc kv, dict_set ("conj_" +:+ kv.1) kv.2 acc) acc d
            = acc ++ (prod_map (λ c, "conj_" +:+ c) id <$> d)) as Hgen.
  { induction d as [|[k v] d IH]; intros acc Hacc; simpl.
    - by rewrite app_nil_r.
    - csimpl in Hnd. apply NoDup_cons in Hnd as [Hk Hnd].
      rewrite dict_set_fresh by (apply Hacc; csimpl; by left).
      rewrite IH; [by rewrite <- app_assoc|done|].
      intros a Ha. rewrite fmap_app, elem_of_app. csimpl. rewrite list_elem_of_singleton.
      intros [?|E].
      + apply (Hacc a); [csimpl; by right|done].
      + simpl in E. simplify_eq. done. }
  rewrite Hgen; [done|]. intros k _. csimpl. apply not_elem_of_nil.
Qed.

(** X14: [conjugate_node] keeps the layout of the legs.  The copy carries
    the conjugated tensor and ["conj_"] in front of identifier and tag; with
    [conj_neighbours] the parent and every child are renamed in the same way
    and keep their legs, in the same order, so the copy is a root exactly
    when the node is; without it the neighbours are left as they are. *)
Theorem conjugate_node_layout {T} `{TensorKernel T} (node : TensorNode T)
    (deep_copy conj_neighbours : bool) :
  NoDup (children_legs node).*1 →
  let c := conjugate_node node deep_copy conj_neighbours in
  tn_identifier c = "conj_" +:+ tn_identifier node
  ∧ tn_tag c = "conj_" +:+ tn_tag node
  ∧ tn_tensor c = tensor_conj (tn_tensor node)
  ∧ tn_is_root c = tn_is_root node
  ∧ connected_legs c = connected_legs node
  ∧ parent_leg c
    = (if conj_neighbours then prod_map (λ p, "conj_" +:+ p) id <$> parent_leg node
       else parent_leg node)
  ∧ children_legs c
    = (if conj_neighbours then prod_map (λ p, "conj_" +:+ p) id <$> children_legs node
       else children_legs node).
Proof.
  intros Hnd c. subst c. unfold conjugate_node, tn_is_root, connected_legs. simpl.
  destruct conj_neighbours.
  - rewrite (conj_children_legs _ Hnd). split_and!; try done.
    + by destruct (parent_leg node).
    + f_equal.
      * by destruct (parent_leg node) as [[? ?]|].
      * rewrite <- list_fmap_compose. apply list_fmap_ext. by intros _ [? ?] _.
  - done.
Qed.

Lemma conjugate_node_layout_witness :
  let node := mkTensorNode "n" "t" [2%nat; 3%nat] (Some ("p", 0%Z)) [("c", 1%Z)] in
  let c := conjugate_node (H := shape_kernel) node true true in
  tn_identifier c = "conj_n"
  ∧ tn_tag c = "conj_t"
  ∧ tn_tensor c = [2%nat; 3%nat]
  ∧ tn_is_root c = false
  ∧ connected_legs c = [0%Z; 1%Z]
  ∧ parent_leg c = Some ("conj_p", 0%Z)
  ∧ children_legs c = [("conj_c", 1%Z)].
Proof.
  intros node.
  apply (conjugate_node_layout (H := shape_kernel) node true true).
  simpl. repeat constructor; set_solver.
Defined.

Lemma first_legs_Permutation (l : Z) (c : list (string * Z)) :
  filter (λ kv, (kv.2 < l)%Z) c
  ++ (prod_map id (λ x, x - 1)%Z <$> filter (λ kv, (l < kv.2)%Z) c)
  ≡ₚ prod_map id (leg_of_first l) <$> filter (λ kv, kv.2 ≠ l) c.
Proof.
  induction c as [|[k x] c IH]; [done|].
  rewrite !filter_cons. simpl.
  destruct (decide (x < l)%Z) as [Hlt|Hlt], (decide (l < x)%Z), (decide (x ≠ l));
    try lia; csimpl; unfold leg_of_first at 1.
  - rewrite decide_True by done. by rewrite IH.
  - rewrite <- Permutation_middle. rewrite decide_False by done. by rewrite IH.
  - done.
Qed.

Lemma second_legs_Permutation (n l : Z) (c : list (string * Z)) :
  (prod_map id (λ x, x + n)%Z <$> filter (λ kv, (kv.2 < l)%Z) c)
  ++ (prod_map id (λ x, x + n - 1)%Z <$> filter (λ kv, (l < kv.2)%Z) c)
  ≡ₚ prod_map id (leg_of_second (n + 1) l) <$> filter (λ kv, kv.2 ≠ l) c.
Proof.
  induction c as [|[k x] c IH]; [done|].
  rewrite !filter_cons. simpl.
  destruct (decide (x < l)%Z) as [Hlt|Hlt], (decide (l < x)%Z), (decide (x ≠ l));
    try lia; csimpl; unfold leg_of_second at 1.
  - rewrite decide_True by done. rewrite IH. by replace (n + 1 - 1)%Z with n by lia.
  - rewrite <- Permutation_middle. rewrite decide_False by done. rewrite IH.
    by replace (n + 1 - 1)%Z with n by lia.
  - done.
Qed.

Lemma prod_map_keys (f : Z → Z) (c : list (string * Z)) : (prod_map id f <$> c).*1 = c.*1.
Proof. rewrite <- list_fmap_compose. apply list_fmap_ext. by intros _ [? ?] _. Qed.

Lemma prod_map_legs (f : Z → Z) (c : list (string * Z)) : (prod_map id f <$> c).*2 = f <$> c.*2.
Proof.
  rewrite <- !list_fmap_compose. apply list_fmap_ext. by intros _ [? ?] _.
Qed.

Lemma filter_keys_subseteq (P : string * Z → Prop) `{∀ x, Decision (P x)}
    (c : list (string * Z)) k :
  k ∈ (filter P c).*1 → k ∈ c.*1.
Proof.
  rewrite !list_elem_of_fmap. intros (kv & -> & Hin%list_elem_of_filter).
  exists kv. tauto.
Qed.

Lemma filter_keys_NoDup (P : string * Z → Prop) `{∀ x, Decision (P x)}
    (c : list (string * Z)) :
  NoDup c.*1 → NoDup (filter P c).*1.
Proof.
  intros Hnd. eapply sublist_NoDup; [exact Hnd|].
  apply fmap_sublist, sublist_filter.
Qed.

Lemma filter_legs_ne (l : Z) (c : list (string * Z)) :
  (filter (λ kv, kv.2 ≠ l) c).*2 = filter (λ x, x ≠ l) c.*2.
Proof.
  induction c as [|[k x] c IH]; [done|].
  rewrite filter_cons. csimpl. rewrite filter_cons. simpl.
  destruct (decide (x ≠ l)); csimpl; by rewrite IH.
Qed.

Lemma NoDup_keys_functional (c : list (string * Z)) k x y :
  NoDup c.*1 → (k, x) ∈ c → (k, y) ∈ c → x = y.
Proof.
  induction c as [|[a z] c IH]; intros Hnd Hx Hy; [by apply elem_of_nil in Hx|].
  csimpl in Hnd. apply NoDup_cons in Hnd as [Ha Hnd].
  apply elem_of_cons in Hx as [Hx|Hx], Hy as [Hy|Hy].
  - congruence.
  - exfalso. apply Ha. apply list_elem_of_fmap. exists (k, y). split; [|done].
    simpl. congruence.
  - exfalso. apply Ha. apply list_elem_of_fmap. exists (k, x). split; [|done].
    simpl. congruence.
  - by apply IH.
Qed.

Lemma filter_keys_disjoint (P Q : string * Z → Prop)
    `{∀ x, Decision (P x)} `{∀ x, Decision (Q x)} (c : list (string * Z)) k :
  NoDup c.*1 → (∀ kv, P kv → Q kv → False) →
  k ∈ (filter P c).*1 → k ∉ (filter Q c).*1.
Proof.
  intros Hnd HPQ. rewrite !list_elem_of_fmap.
  intros ([a x] & -> & [HP Hx]%list_elem_of_filter) ([b y] & E & [HQ Hy]%list_elem_of_filter).
  simpl in E. subst b. pose proof (NoDup_keys_functional _ _ _ _ Hnd Hx Hy) as ->.
  by eapply HPQ.
Qed.

Lemma new_children_legs_Permutation {T} (node1 node2 : TensorNode T) (l12 l21 n : Z) :
  NoDup (children_legs node1).*1 → NoDup (children_legs node2).*1 →
  (∀ k, k ∈ (children_legs node1).*1 → k ∉ (children_legs node2).*1) →
  _find_new_children_legs node1 node2 l12 l21 n
  ≡ₚ (prod_map id (leg_of_first l12) <$> filter (λ kv, kv.2 ≠ l12) (children_legs node1))
     ++ (prod_map id (leg_of_second (n + 1) l21)
           <$> filter (λ kv, kv.2 ≠ l21) (children_legs node2)).
Proof.
  intros Hnd1 Hnd2 Hdisj. unfold _find_new_children_legs.
  set (c1 := children_legs node1) in *. set (c2 := children_legs node2) in *.
  rewrite (dict_update_fresh (filter _ c1)); cycle 1.
  { rewrite prod_map_keys. by apply filter_keys_NoDup. }
  { intros k. rewrite prod_map_keys. apply filter_keys_disjoint; [done|].
    intros [? ?]; simpl; lia. }
  rewrite (dict_update_fresh (_ <$> filter _ c2)); cycle 1.
  { rewrite prod_map_keys. by apply filter_keys_NoDup. }
  { intros k. rewrite !prod_map_keys. apply filter_keys_disjoint; [done|].
    intros [? ?]; simpl; lia. }
  rewrite dict_update_fresh; cycle 1.
  { rewrite fmap_app, !prod_map_keys. apply NoDup_app. split_and!.
    - by apply filter_keys_NoDup.
    - intros k. apply filter_keys_disjoint; [done|]. intros [? ?]; simpl; lia.
    - by apply filter_keys_NoDup. }
  { intros k. rewrite !fmap_app, !prod_map_keys, !elem_of_app.
    intros Hk2 Hk1. apply (Hdisj k).
    - destruct Hk1 as [Hk|Hk]; by apply filter_keys_subseteq in Hk.
    - destruct Hk2 as [Hk|Hk]; by apply filter_keys_subseteq in Hk. }
  by rewrite first_legs_Permutation, second_legs_Permutation.
Qed.

Lemma shifted_legs_valid (A B : list Z) (l12 l21 d1 d2 : Z) :
  NoDup A → NoDup B →
  Forall (λ l, 0 ≤ l < d1)%Z A → Forall (λ l, 0 ≤ l < d2)%Z B →
  l12 ∈ A → l21 ∈ B →
  NoDup ((leg_of_first l12 <$> filter (λ l, l ≠ l12) A)
         ++ (leg_of_second d1 l21 <$> filter (λ l, l ≠ l21) B))
  ∧ Forall (λ l, 0 ≤ l < d1 + d2 - 2)%Z
      ((leg_of_first l12 <$> filter (λ l, l ≠ l12) A)
       ++ (leg_of_second d1 l21 <$> filter (λ l, l ≠ l21) B)).
Proof.
  intros HndA HndB HA HB H12 H21.
  rewrite Forall_forall in HA, HB.
  pose proof (HA _ H12) as R12. pose proof (HB _ H21) as R21.
  assert (∀ a, a ∈ filter (λ l, l ≠ l12) A →
               (0 ≤ leg_of_first l12 a < d1 - 1)%Z) as Hf.
  { intros a [Ha Hin]%list_elem_of_filter. specialize (HA _ Hin).
    unfold leg_of_first. destruct (decide (a < l12)%Z); lia. }
  assert (∀ b, b ∈ filter (λ l, l ≠ l21) B →
               (d1 - 1 ≤ leg_of_second d1 l21 b < d1 + d2 - 2)%Z) as Hg.
  { intros b [Hb Hin]%list_elem_of_filter. specialize (HB _ Hin).
    unfold leg_of_second. destruct (decide (b < l21)%Z); lia. }
  split.
  - apply NoDup_app. split_and!.
    + apply NoDup_fmap_2_strong; [|by apply NoDup_filter].
      intros x y [Hx _]%list_elem_of_filter [Hy _]%list_elem_of_filter.
      unfold leg_of_first. destruct (decide (x < l12)%Z), (decide (y < l12)%Z); lia.
    + intros x (a & -> & Ha)%list_elem_of_fmap (b & E & Hb)%list_elem_of_fmap.
      specialize (Hf _ Ha). specialize (Hg _ Hb). lia.
    + apply NoDup_fmap_2_strong; [|by apply NoDup_filter].
      intros x y [Hx _]%list_elem_of_filter [Hy _]%list_elem_of_filter.
      unfold leg_of_second. destruct (decide (x < l21)%Z), (decide (y < l21)%Z); lia.
  - apply Forall_app. split; apply Forall_forall.
    + intros x (a & -> & Ha)%list_elem_of_fmap. specialize (Hf _ Ha). lia.
    + intros x (b & -> & Hb)%list_elem_of_fmap. specialize (Hg _ Hb). lia.
Qed.

Lemma dict_get_elem {V} k (v : V) (d : list (string * V)) :
  dict_get k d = Some v → (k, v) ∈ d.
Proof.
  induction d as [|[a w] d IH]; simpl; [done|].
  destruct (decide (a = k)) as [->|]; intros Hv.
  - injection Hv as ->. by left.
  - right. by apply IH.
Qed.

Lemma dict_get_None {V} k (d : list (string * V)) : k ∉ d.*1 → dict_get k d = None.
Proof.
  induction d as [|[a w] d IH]; simpl; [done|]. csimpl.
  intros [? ?]%not_elem_of_cons. rewrite decide_False by done. by apply IH.
Qed.

Lemma filter_ne_head (l : Z) (L : list Z) :
  l ∉ L → filter (λ x, x ≠ l) (l :: L) = L.
Proof.
  intros Hl. rewrite filter_cons. rewrite decide_False by (intros ?; done).
  induction L as [|y L IH]; [done|].
  apply not_elem_of_cons in Hl as [? ?].
  rewrite filter_cons, decide_True by done. by rewrite IH.
Qed.

Lemma filter_ne_absent (l : Z) (L : list Z) : l ∉ L → filter (λ x, x ≠ l) L = L.
Proof.
  induction L as [|y L IH]; [done|]. intros [? ?]%not_elem_of_cons.
  rewrite filter_cons, decide_True by done. by rewrite IH.
Qed.

Lemma total_parent_leg_first {T} (node : TensorNode T) (l : Z) :
  l ∉ option_list (snd <$> parent_leg node) →
  _find_total_parent_leg node 0 l = inr (prod_map id (leg_of_first l) <$> parent_leg node).
Proof.
  unfold _find_total_parent_leg, leg_of_first.
  destruct (parent_leg node) as [[g p]|]; simpl; [|done].
  intros Hl%not_elem_of_cons. destruct Hl as [Hl _].
  destruct (decide (p < l)%Z).
  - by rewrite Z.add_0_r.
  - rewrite decide_True by lia. by rewrite Z.add_0_r.
Qed.

Lemma total_parent_leg_second {T} (node : TensorNode T) (d1 l : Z) :
  l ∉ option_list (snd <$> parent_leg node) →
  _find_total_parent_leg node (d1 - 1) l
  = inr (prod_map id (leg_of_second d1 l) <$> parent_leg node).
Proof.
  unfold _find_total_parent_leg, leg_of_second.
  destruct (parent_leg node) as [[g p]|]; simpl; [|done].
  intros Hl%not_elem_of_cons. destruct Hl as [Hl _].
  destruct (decide (p < l)%Z); [done|]. by rewrite decide_True by lia.
Qed.

(** What [contract_nodes] does for two linked nodes up to the call of
    [np.tensordot], and what it builds from the result. *)
Lemma contract_nodes_linked {T} `{TensorKernel T} (node1 node2 : TensorNode T)
    (new_tag new_identifier : option string) (l12 l21 : Z) :
  NoDup (connected_legs node1) → NoDup (connected_legs node2) →
  (dict_get (tn_identifier node2) (children_legs node1) = Some l12
   ∧ parent_leg node2 = Some (tn_identifier node1, l21))
  ∨ (dict_get (tn_identifier node1) (children_legs node2) = Some l21
     ∧ parent_leg node1 = Some (tn_identifier node2, l12)
     ∧ tn_identifier node2 ∉ (children_legs node1).*1) →
  contract_nodes node1 node2 new_tag new_identifier
  = (new_tensor ← tensordot (tn_tensor node1) (tn_tensor node2) l12 l21;
     inr {| tn_identifier :=
              _construct_contracted_identifier (tn_identifier node1) (tn_identifier node2)
                new_identifier;
            tn_tag := _construct_contracted_tag (tn_tag node1) (tn_tag node2) new_tag;
            tn_tensor := new_tensor;
            parent_leg :=
              if tn_is_parent_of (tn_identifier node2) node1
              then prod_map id (leg_of_first l12) <$> parent_leg node1
              else prod_map id (leg_of_second (ndim (tn_tensor node1)) l21)
                     <$> parent_leg node2;
            children_legs :=
              _find_new_children_legs node1 node2 l12 l21 (ndim (tn_tensor node1) - 1) |}).
Proof.
  intros Hnd1 Hnd2 Hlink.
  assert (∀ a (b : Z) (c : list (string * Z)), (a, b) ∈ c → b ∈ c.*2) as Hsnd.
  { intros a b c Hab. apply list_elem_of_fmap. by exists (a, b). }
  unfold contract_nodes.
  destruct Hlink as [[Hget Hpl]|(Hget & Hpl & Hnot)].
  - assert (tn_is_parent_of (tn_identifier node2) node1 = true) as Hpar.
    { apply bool_decide_eq_true. apply dict_get_elem in Hget.
      apply list_elem_of_fmap. by exists (tn_identifier node2, l12). }
    rewrite Hpar.
    assert (l12 ∉ option_list (snd <$> parent_leg node1)) as Hp12.
    { unfold connected_legs in Hnd1. apply NoDup_app in Hnd1 as (_ & Hd & _).
      intros Hin. apply (Hd _ Hin). eapply Hsnd, dict_get_elem, Hget. }
    unfold find_connecting_legs. rewrite Hpl, decide_True by done. rewrite Hget. simpl.
    rewrite (total_parent_leg_first _ _ Hp12). done.
  - assert (tn_is_parent_of (tn_identifier node2) node1 = false) as Hpar.
    { by apply bool_decide_eq_false. }
    rewrite Hpar.
    assert (tn_is_parent_of (tn_identifier node1) node2 = true) as Hpar2.
    { apply bool_decide_eq_true. apply dict_get_elem in Hget.
      apply list_elem_of_fmap. by exists (tn_identifier node1, l21). }
    rewrite Hpar2.
    assert (l21 ∉ option_list (snd <$> parent_leg node2)) as Hp21.
    { unfold connected_legs in Hnd2. apply NoDup_app in Hnd2 as (_ & Hd & _).
      intros Hin. apply (Hd _ Hin). eapply Hsnd, dict_get_elem, Hget. }
    unfold find_connecting_legs. rewrite Hpl, decide_True by done. rewrite Hget. simpl.
    rewrite (total_parent_leg_second _ _ _ Hp21). done.
Qed.

(** X15: [contract_nodes] keeps the leg assignment consistent.  Take two
    nodes with consistent leg assignments and no child in common, of which
    one names the other as child, on leg [l12] of the first and leg [l21] of
    the second, and is named by it as parent.  When [np.tensordot] refuses
    the two legs (it raises [ValueError] when their sizes differ),
    [contract_nodes] raises the same exception.  When it returns a tensor,
    which has the legs of both arguments but the two contracted ones, the
    call succeeds; the new node carries that tensor, and every other link
    keeps its partner and moves to the leg [np.tensordot] gives it: a leg of
    the first node stays or moves down by one, a leg of the second node
    comes after the legs of the first.  The result is again a consistent leg
    assignment. *)
Theorem contract_nodes_legs {T} `{TensorKernel T} (node1 node2 : TensorNode T)
    (new_tag new_identifier : option string) (l12 l21 : Z) :
  legs_valid node1 → legs_valid node2 →
  (∀ k, k ∈ (children_legs node1).*1 → k ∉ (children_legs node2).*1) →
  (dict_get (tn_identifier node2) (children_legs node1) = Some l12
   ∧ parent_leg node2 = Some (tn_identifier node1, l21))
  ∨ (dict_get (tn_identifier node1) (children_legs node2) = Some l21
     ∧ parent_leg node1 = Some (tn_identifier node2, l12)
     ∧ tn_identifier node2 ∉ (children_legs node1).*1) →
  match tensordot (tn_tensor node1) (tn_tensor node2) l12 l21 with
  | inl e => contract_nodes node1 node2 new_tag new_identifier = inl e
  | inr contracted =>
      ndim contracted = (ndim (tn_tensor node1) + ndim (tn_tensor node2) - 2)%Z →
      ∃ n, contract_nodes node1 node2 new_tag new_identifier = inr n
        ∧ tn_tensor n = contracted
        ∧ parent_leg n
          = (if tn_is_parent_of (tn_identifier node2) node1
             then prod_map id (leg_of_first l12) <$> parent_leg node1
             else prod_map id (leg_of_second (ndim (tn_tensor node1)) l21)
                    <$> parent_leg node2)
        ∧ children_legs n
          ≡ₚ (prod_map id (leg_of_first l12)
                <$> filter (λ kv, kv.2 ≠ l12) (children_legs node1))
             ++ (prod_map id (leg_of_second (ndim (tn_tensor node1)) l21)
                   <$> filter (λ kv, kv.2 ≠ l21) (children_legs node2))
        ∧ legs_valid n
  end.
Proof.
  intros (Hk1 & Hnd1 & Hr1) (Hk2 & Hnd2 & Hr2) Hdisj Hlink.
  rewrite (contract_nodes_linked node1 node2 new_tag new_identifier l12 l21 Hnd1 Hnd2 Hlink).
  destruct (tensordot (tn_tensor node1) (tn_tensor node2) l12 l21) as [e|contracted];
    [done|].
  intros Hdim. simpl.
  set (d1 := ndim (tn_tensor node1)) in *.
  assert (∀ a (b : Z) (c : list (string * Z)), (a, b) ∈ c → b ∈ c.*2) as Hsnd.
  { intros a b c Hab. apply list_elem_of_fmap. by exists (a, b). }
  assert (l12 ∈ connected_legs node1) as Hin1.
  { unfold connected_legs. rewrite elem_of_app.
    destruct Hlink as [[Hget _]|(_ & Hpl & _)].
    - right. eapply Hsnd, dict_get_elem, Hget.
    - left. rewrite Hpl. simpl. by left. }
  assert (l21 ∈ connected_legs node2) as Hin2.
  { unfold connected_legs. rewrite elem_of_app.
    destruct Hlink as [[_ Hpl]|(Hget & _ & _)].
    - left. rewrite Hpl. simpl. by left.
    - right. eapply Hsnd, dict_get_elem, Hget. }
  pose proof (new_children_legs_Permutation node1 node2 l12 l21 (d1 - 1) Hk1 Hk2 Hdisj)
    as Hperm.
  replace (d1 - 1 + 1)%Z with d1 in Hperm by lia.
  assert (∀ (pl : option (string * Z)) (f : Z → Z),
            option_list (snd <$> (prod_map id f <$> pl)) = f <$> option_list (snd <$> pl))
    as Hopt by (by intros [[? ?]|] f).
  destruct (shifted_legs_valid _ _ l12 l21 d1 (ndim (tn_tensor node2))
              Hnd1 Hnd2 Hr1 Hr2 Hin1 Hin2) as [HND HR].
  eexists. split; [reflexivity|]. simpl. split_and!; try done.
  unfold legs_valid, connected_legs. simpl. rewrite Hdim, Hperm.
  assert (option_list
            (snd <$> (if tn_is_parent_of (tn_identifier node2) node1
                      then prod_map id (leg_of_first l12) <$> parent_leg node1
                      else prod_map id (leg_of_second d1 l21) <$> parent_leg node2))
          ++ ((leg_of_first l12 <$> filter (λ l, l ≠ l12) (children_legs node1).*2)
              ++ (leg_of_second d1 l21 <$> filter (λ l, l ≠ l21) (children_legs node2).*2))
          ≡ₚ (leg_of_first l12 <$> filter (λ l, l ≠ l12) (connected_legs node1))
             ++ (leg_of_second d1 l21 <$> filter (λ l, l ≠ l21) (connected_legs node2)))
    as Hlegs.
  { destruct Hlink as [[Hget Hpl]|(Hget & Hpl & Hnot)].
    - assert (tn_is_parent_of (tn_identifier node2) node1 = true) as ->.
      { apply bool_decide_eq_true. apply dict_get_elem in Hget.
        apply list_elem_of_fmap. by exists (tn_identifier node2, l12). }
      assert (l12 ∉ option_list (snd <$> parent_leg node1)) as Hp12.
      { unfold connected_legs in Hnd1. apply NoDup_app in Hnd1 as (_ & Hd & _).
        intros Hin. apply (Hd _ Hin). eapply Hsnd, dict_get_elem, Hget. }
      assert (l21 ∉ (children_legs node2).*2) as Hc21.
      { unfold connected_legs in Hnd2. rewrite Hpl in Hnd2. simpl in Hnd2.
        by apply NoDup_cons in Hnd2 as [? _]. }
      rewrite Hopt. unfold connected_legs. rewrite Hpl. simpl.
      rewrite (filter_ne_head _ _ Hc21), (filter_ne_absent _ _ Hc21).
      rewrite filter_app, fmap_app, (filter_ne_absent _ _ Hp12).
      by rewrite <- app_assoc.
    - assert (tn_is_parent_of (tn_identifier node2) node1 = false) as ->.
      { by apply bool_decide_eq_false. }
      assert (l21 ∉ option_list (snd <$> parent_leg node2)) as Hp21.
      { unfold connected_legs in Hnd2. apply NoDup_app in Hnd2 as (_ & Hd & _).
        intros Hin. apply (Hd _ Hin). eapply Hsnd, dict_get_elem, Hget. }
      assert (l12 ∉ (children_legs node1).*2) as Hc12.
      { unfold connected_legs in Hnd1. rewrite Hpl in Hnd1. simpl in Hnd1.
        by apply NoDup_cons in Hnd1 as [? _]. }
      rewrite Hopt. unfold connected_legs. rewrite Hpl. simpl.
      rewrite (filter_ne_head _ _ Hc12), (filter_ne_absent _ _ Hc12).
      rewrite filter_app, fmap_app, (filter_ne_absent _ _ Hp21).
      rewrite (assoc (++)), (comm (++) (leg_of_second _ _ <$> _)).
      by rewrite <- (assoc (++)). }
  split_and!.
  - rewrite fmap_app, !prod_map_keys. apply NoDup_app. split_and!.
    + by apply filter_keys_NoDup.
    + intros k Hk Hk'. apply filter_keys_subseteq in Hk, Hk'. by eapply Hdisj.
    + by apply filter_keys_NoDup.
  - rewrite fmap_app, !prod_map_legs, !filter_legs_ne. by rewrite Hlegs.
  - rewrite fmap_app, !prod_map_legs, !filter_legs_ne. by rewrite Hlegs.
Qed.

Lemma contract_nodes_legs_witness :
  let root := mkTensorNode "root" "root" [2; 3; 4]%nat None [("c1", 0%Z); ("c2", 2%Z)] in
  let c1 := mkTensorNode "c1" "c1" [5; 2; 6]%nat (Some ("root", 1%Z)) [("d", 0%Z)] in
  let wide := mkTensorNode "c1" "c1" [5; 7; 6]%nat (Some ("root", 1%Z)) [("d", 0%Z)] in
  (∃ n, contract_nodes (H := shape_kernel) root c1 None None = inr n
     ∧ tn_tensor n = [3; 4; 5; 6]%nat
     ∧ parent_leg n = None
     ∧ children_legs n ≡ₚ [("c2", 1%Z); ("d", 2%Z)]
     ∧ legs_valid (H := shape_kernel) n)
  ∧ contract_nodes (H := shape_kernel) root wide None None = inl ValueError.
Proof.
  intros root c1 wide.
  assert (legs_valid (H := shape_kernel) root) as Hroot.
  { unfold legs_valid, connected_legs. simpl. split_and!.
    - repeat constructor; set_solver.
    - repeat constructor; set_solver.
    - repeat constructor; lia. }
  assert (∀ s, legs_valid (H := shape_kernel)
                 (mkTensorNode "c1" "c1" [5; s; 6]%nat (Some ("root", 1%Z)) [("d", 0%Z)]))
    as Hchild.
  { intros s. unfold legs_valid, connected_legs. simpl. split_and!.
    - repeat constructor; set_solver.
    - repeat constructor; set_solver.
    - repeat constructor; lia. }
  split.
  - refine (contract_nodes_legs (H := shape_kernel) root c1 None None 0%Z 1%Z
              Hroot (Hchild 2%nat) _ _ eq_refl).
    + simpl. set_solver.
    + left. by split.
  - refine (contract_nodes_legs (H := shape_kernel) root wide None None 0%Z 1%Z
              Hroot (Hchild 7%nat) _ _).
    + simpl. set_solver.
    + left. by split.
Defined.

(** X16: [_find_total_parent_leg] has no branch for a parent leg that equals
    the contracted leg: when the upper of two linked nodes names the same leg
    for its own parent and for the child, [contract_nodes] ends in
    [UnboundLocalError], whichever of the two nodes is given first. *)
Theorem contract_nodes_parent_leg_clash {T} `{TensorKernel T} (upper lower : TensorNode T)
    (new_tag new_identifier : option string) (g : string) (l l' : Z) :
  dict_get (tn_identifier lower) (children_legs upper) = Some l →
  parent_leg lower = Some (tn_identifier upper, l') →
  parent_leg upper = Some (g, l) →
  tn_identifier upper ∉ (children_legs lower).*1 →
  contract_nodes upper lower new_tag new_identifier = inl UnboundLocalError
  ∧ contract_nodes lower upper new_tag new_identifier = inl UnboundLocalError.
Proof.
  intros Hget Hpl Hup Hnot.
  assert (tn_is_parent_of (tn_identifier lower) upper = true) as Hpar.
  { apply bool_decide_eq_true. apply dict_get_elem in Hget.
    apply list_elem_of_fmap. by exists (tn_identifier lower, l). }
  assert (tn_is_parent_of (tn_identifier upper) lower = false) as Hpar'.
  { by apply bool_decide_eq_false. }
  unfold contract_nodes, find_connecting_legs, _find_total_parent_leg.
  rewrite Hpar, Hpar', Hpl, Hup, decide_True by done. rewrite Hget. simpl.
  rewrite !decide_False by lia. done.
Qed.

Lemma contract_nodes_parent_leg_clash_witness :
  let upper := mkTensorNode "u" "u" [2; 3]%nat (Some ("g", 0%Z)) [("w", 0%Z)] in
  let lower := mkTensorNode "w" "w" [2]%nat (Some ("u", 0%Z)) [] in
  contract_nodes (H := shape_kernel) upper lower None None = inl UnboundLocalError
  ∧ contract_nodes (H := shape_kernel) lower upper None None = inl UnboundLocalError.
Proof.
  intros upper lower.
  refine (contract_nodes_parent_leg_clash (H := shape_kernel) upper lower None None
            "g" 0%Z 0%Z _ _ _ _).
  - reflexivity.
  - reflexivity.
  - reflexivity.
  - simpl. set_solver.
Defined.

(** ** time_evolution.py: the number of time steps *)

Lemma pow2_pos e : (0 < pow2 e)%Q.
Proof. unfold pow2. by apply Qpower_0_lt. Qed.

Lemma pow2_add a b : (pow2 (a + b) == pow2 a * pow2 b)%Q.
Proof. unfold pow2. by apply Qpower_plus. Qed.

Lemma pow2_Z n : (0 ≤ n)%Z → (pow2 n == inject_Z (2 ^ n))%Q.
Proof. intros Hn. unfold pow2. by rewrite (Zpower_Qpower 2 n Hn). Qed.

Lemma pow2_le a b : (a ≤ b)%Z → (pow2 a <= pow2 b)%Q.
Proof.
  intros Hab. replace b with (a + (b - a))%Z by lia. rewrite pow2_add.
  assert (0 ≤ b - a)%Z as Hba by lia. rewrite (pow2_Z _ Hba).
  assert (1 <= inject_Z (2 ^ (b - a)))%Q as H1.
  { rewrite <- (Zle_Qle 1). pose proof (Z.pow_pos_nonneg 2 (b - a)). lia. }
  pose proof (pow2_pos a). nra.
Qed.

(** [ilog2 q] is the exponent of the leading bit. *)
Lemma ilog2_spec q : (0 < q)%Q → (pow2 (ilog2 q) <= q)%Q ∧ (q < pow2 (ilog2 q + 1))%Q.
Proof.
  intros Hq. destruct q as [n d]. unfold ilog2. simpl Qnum. simpl Qden.
  assert (0 < n)%Z as Hn by (unfold Qlt in Hq; simpl in Hq; lia).
  set (a := Z.log2 n). set (b := Z.log2 (Z.pos d)).
  destruct (Z.log2_spec n Hn) as [Ha1 Ha2]. fold a in Ha1, Ha2.
  destruct (Z.log2_spec (Z.pos d) eq_refl) as [Hb1 Hb2]. fold b in Hb1, Hb2.
  assert (0 ≤ a)%Z as Ha0 by apply Z.log2_nonneg.
  assert (0 ≤ b)%Z as Hb0 by apply Z.log2_nonneg.
  assert (n # d == inject_Z n / inject_Z (Z.pos d))%Q as Hnd by apply Qmake_Qdiv.
  assert (0 < inject_Z (Z.pos d))%Q as Hd by (by rewrite <- (Zlt_Qlt 0)).
  assert (0 < inject_Z n)%Q as Hn' by (by rewrite <- (Zlt_Qlt 0)).
  assert (∀ x y : Q, 0 < y → x / y * y == x)%Q as Hdiv by (intros; field; lra).
  destruct (Qle_bool (pow2 (a - b)) (n # d)) eqn:Htest.
  - split; [by apply Qle_bool_iff|].
    (* n/d < 2^(a+1) / 2^b *)
    replace (a - b + 1)%Z with ((a + 1) + - b)%Z by lia.
    rewrite pow2_add. unfold pow2 at 2. rewrite Qpower_opp. fold (pow2 b).
    assert (0 ≤ a + 1)%Z as Ha1' by lia.
    rewrite (pow2_Z _ Ha1'), (pow2_Z _ Hb0). rewrite Hnd.
    assert (inject_Z n < inject_Z (2 ^ (a + 1)))%Q as H1 by (rewrite <- Zlt_Qlt; lia).
    assert (inject_Z (2 ^ b) <= inject_Z (Z.pos d))%Q as H2 by (by rewrite <- Zle_Qle).
    assert (0 < inject_Z (2 ^ b))%Q as H3.
    { rewrite <- (Zlt_Qlt 0). by apply Z.pow_pos_nonneg. }
    apply Qlt_shift_div_r; [done|].
    assert (inject_Z (2 ^ (a + 1)) * / inject_Z (2 ^ b) * inject_Z (2 ^ b)
            == inject_Z (2 ^ (a + 1)))%Q as E by (field; lra).
    assert (0 < inject_Z (2 ^ (a + 1)) * / inject_Z (2 ^ b))%Q as Hpos.
    { apply Qmult_lt_0_compat; [lra|]. by apply Qinv_lt_0_compat. }
    revert E Hpos. generalize (inject_Z (2 ^ (a + 1)) * / inject_Z (2 ^ b))%Q.
    intros X E Hpos.
    apply Qlt_le_trans with (X * inject_Z (2 ^ b))%Q; [lra|].
    apply Qmult_le_l; done.
  - assert (¬ (pow2 (a - b) <= n # d)%Q) as Hlt.
    { intros H%Qle_bool_iff. congruence. }
    apply Qnot_le_lt in Hlt. split.
    + replace (a - b - 1)%Z with (a + - (b + 1))%Z by lia.
      rewrite pow2_add. unfold pow2 at 2. rewrite Qpower_opp. fold (pow2 (b + 1)).
      assert (0 ≤ b + 1)%Z as Hb1' by lia.
      rewrite (pow2_Z _ Ha0), (pow2_Z _ Hb1'). rewrite Hnd.
      assert (inject_Z (2 ^ a) <= inject_Z n)%Q as H1 by (by rewrite <- Zle_Qle).
      assert (inject_Z (Z.pos d) < inject_Z (2 ^ (b + 1)))%Q as H2
        by (rewrite <- Zlt_Qlt; lia).
      apply Qle_shift_div_l; [done|].
      assert (0 < inject_Z (2 ^ (b + 1)))%Q as H3 by lra.
      assert (inject_Z (2 ^ a) * / inject_Z (2 ^ (b + 1)) * inject_Z (2 ^ (b + 1))
              == inject_Z (2 ^ a))%Q as E by (field; lra).
      assert (0 < inject_Z (2 ^ a))%Q as H4.
      { rewrite <- (Zlt_Qlt 0). by apply Z.pow_pos_nonneg. }
      assert (0 < inject_Z (2 ^ a) * / inject_Z (2 ^ (b + 1)))%Q as Hpos.
      { apply Qmult_lt_0_compat; [lra|]. by apply Qinv_lt_0_compat. }
      revert E Hpos. generalize (inject_Z (2 ^ a) * / inject_Z (2 ^ (b + 1)))%Q.
      intros X E Hpos.
      apply Qle_trans with (X * inject_Z (2 ^ (b + 1)))%Q; [|lra].
      apply Qmult_le_l; [done|lra].
    + by replace (a - b - 1 + 1)%Z with (a - b)%Z by lia.
Qed.

Lemma round_half_even_comp q q' : (q == q')%Q → round_half_even q = round_half_even q'.
Proof.
  intros E. unfold round_half_even. rewrite (Qfloor_comp _ _ E).
  assert ((q - inject_Z (Qfloor q') ?= 1 # 2) = (q' - inject_Z (Qfloor q') ?= 1 # 2))%Q as ->;
    [|done].
  apply Qcompare_comp; [by rewrite E|done].
Qed.

Lemma round_half_even_Z z : round_half_even (inject_Z z) = z.
Proof.
  unfold round_half_even. rewrite Qfloor_Z.
  assert ((inject_Z z - inject_Z z ?= 1 # 2) = Lt)%Q as ->; [|done].
  apply (proj1 (Qlt_alt _ _)). lra.
Qed.

(** Rounding moves a number by at most a half. *)
Lemma round_half_even_near q :
  (q - (1 # 2) <= inject_Z (round_half_even q))%Q
  ∧ (inject_Z (round_half_even q) <= q + (1 # 2))%Q.
Proof.
  unfold round_half_even.
  pose proof (Qfloor_le q) as Hlo. pose proof (Qlt_floor q) as Hhi.
  rewrite inject_Z_plus in Hhi. change (inject_Z 1) with 1%Q in Hhi.
  destruct (q - inject_Z (Qfloor q) ?= 1 # 2)%Q eqn:Hcmp.
  - apply (proj2 (Qeq_alt _ _)) in Hcmp. destruct (Z.even (Qfloor q));
      rewrite ?inject_Z_plus; change (inject_Z 1) with 1%Q; lra.
  - apply (proj2 (Qlt_alt _ _)) in Hcmp. lra.
  - apply (proj2 (Qgt_alt _ _)) in Hcmp. rewrite inject_Z_plus. change (inject_Z 1) with 1%Q. lra.
Qed.

Lemma round_half_even_mono_Z q z :
  (q <= inject_Z z)%Q → (round_half_even q ≤ z)%Z.
Proof.
  intros Hq. unfold round_half_even.
  pose proof (Qfloor_le q) as Hlo.
  destruct (Z_le_gt_dec (Qfloor q + 1) z) as [Hz|Hz].
  - destruct (q - inject_Z (Qfloor q) ?= 1 # 2)%Q; [destruct (Z.even _)| |]; lia.
  - assert (Qfloor q = z) as Hf.
    { assert (Qfloor q ≤ z)%Z; [|lia]. rewrite Zle_Qle. lra. }
    assert (q == inject_Z z)%Q as E by (rewrite <- Hf in *; lra).
    assert ((q - inject_Z (Qfloor q) ?= 1 # 2) = Lt)%Q as ->; [|lia].
    apply (proj1 (Qlt_alt _ _)). rewrite Hf. lra.
Qed.

Lemma round_half_even_nonneg q : (0 <= q)%Q → (0 ≤ round_half_even q)%Z.
Proof.
  intros Hq. unfold round_half_even.
  assert (0 ≤ Qfloor q)%Z as Hf.
  { change 0%Z with (Qfloor 0). by apply Qfloor_resp_le. }
  destruct (q - inject_Z (Qfloor q) ?= 1 # 2)%Q; [destruct (Z.even _)| |]; lia.
Qed.

Lemma round_positive_eq q :
  round_positive q
  = (inject_Z (round_half_even (q / pow2 (last_place q))) * pow2 (last_place q))%Q.
Proof. done. Qed.

(** The rounding error is at most half a unit in the last place. *)
Lemma round_positive_near q :
  (0 < q)%Q →
  (q - pow2 (last_place q) * (1 # 2) <= round_positive q)%Q
  ∧ (round_positive q <= q + pow2 (last_place q) * (1 # 2))%Q.
Proof.
  intros Hq. rewrite round_positive_eq. set (e := last_place q).
  pose proof (pow2_pos e) as He.
  destruct (round_half_even_near (q / pow2 e)) as [Hlo Hhi].
  set (m := inject_Z (round_half_even (q / pow2 e))) in *.
  assert (q / pow2 e * pow2 e == q)%Q as E by (field; lra).
  revert Hlo Hhi E. generalize (q / pow2 e)%Q. intros y Hlo Hhi E.
  split.
  - apply Qle_trans with ((y - (1 # 2)) * pow2 e)%Q; [lra|].
    apply Qmult_le_r; [done|lra].
  - apply Qle_trans with ((y + (1 # 2)) * pow2 e)%Q; [|lra].
    apply Qmult_le_r; [done|lra].
Qed.

(** In relative terms: at most [2 ** -53], and at most [2 ** -1075] where
    the doubles are subnormal. *)
Lemma last_place_bound q :
  (0 < q)%Q → (pow2 (last_place q) * (1 # 2) <= q * pow2 (-53) + pow2 (-1075))%Q.
Proof.
  intros Hq. unfold last_place.
  destruct (ilog2_spec q Hq) as [Hlo _].
  pose proof (pow2_pos (-53)). pose proof (pow2_pos (-1075)).
  destruct (Z.max_spec (ilog2 q - 52) (-1074)) as [[_ ->]|[_ ->]].
  - assert (pow2 (-1074) * (1 # 2) == pow2 (-1075))%Q as E.
    { replace (-1074)%Z with (-1075 + 1)%Z by lia. rewrite pow2_add.
      assert (pow2 1 == 2)%Q as -> by reflexivity. lra. }
    assert (0 <= q * pow2 (-53))%Q by (apply Qmult_le_0_compat; lra). lra.
  - replace (ilog2 q - 52)%Z with (ilog2 q + (-53 + 1))%Z by lia.
    rewrite !pow2_add. assert (pow2 1 == 2)%Q as -> by reflexivity.
    assert (pow2 (ilog2 q) * pow2 (-53) <= q * pow2 (-53))%Q
      by (apply Qmult_le_r; [done|done]).
    lra.
Qed.

Lemma round_positive_nonneg q : (0 < q)%Q → (0 <= round_positive q)%Q.
Proof.
  intros Hq. rewrite round_positive_eq.
  pose proof (pow2_pos (last_place q)).
  apply Qmult_le_0_compat; [|lra]. rewrite <- (Zle_Qle 0).
  apply round_half_even_nonneg. apply Qle_shift_div_l; [done|lra].
Qed.


(** A double whose last place is a unit or more is an integer. *)
Lemma round_positive_integral q :
  (0 ≤ last_place q)%Z → ∃ z, (round_positive q == inject_Z z)%Q.
Proof.
  intros He. rewrite round_positive_eq.
  exists (round_half_even (q / pow2 (last_place q)) * 2 ^ last_place q)%Z.
  rewrite inject_Z_mult. apply Qmult_comp; [reflexivity|by apply pow2_Z].
Qed.

(** A double whose last place is below the units is at most [2 ** 52]. *)
Lemma round_positive_small q :
  (0 < q)%Q → (last_place q < 0)%Z → (round_positive q <= inject_Z (2 ^ 52))%Q.
Proof.
  intros Hq He. rewrite round_positive_eq. set (e := last_place q) in *.
  pose proof (pow2_pos e) as Hpe.
  destruct (ilog2_spec q Hq) as [_ Hhi].
  assert (q <= pow2 (e + 53))%Q as Hq53.
  { apply Qle_trans with (pow2 (ilog2 q + 1)); [lra|]. apply pow2_le.
    unfold e, last_place. lia. }
  assert (round_half_even (q / pow2 e) ≤ 2 ^ 53)%Z as Hm.
  { apply round_half_even_mono_Z. apply Qle_shift_div_r; [done|].
    rewrite <- (pow2_Z 53) by lia. rewrite <- pow2_add.
    by replace (53 + e)%Z with (e + 53)%Z by lia. }
  apply Qle_trans with (inject_Z (2 ^ 53) * pow2 e)%Q.
  - apply Qmult_le_r; [done|]. by rewrite <- Zle_Qle.
  - rewrite <- (pow2_Z 53), <- (pow2_Z 52) by lia. rewrite <- pow2_add.
    apply pow2_le. lia.
Qed.

Lemma ilog2_Z k : (0 < k)%Z → ilog2 (inject_Z k) = Z.log2 k.
Proof.
  intros Hk. unfold ilog2. simpl. rewrite Z.sub_0_r.
  assert (Qle_bool (pow2 (Z.log2 k)) (inject_Z k) = true) as ->; [|done].
  apply Qle_bool_iff. rewrite pow2_Z by apply Z.log2_nonneg.
  rewrite <- Zle_Qle. by apply Z.log2_spec.
Qed.

(** The integers below [2 ** 53] are doubles. *)
Lemma round_positive_Z k :
  (0 < k < 2 ^ 53)%Z → (round_positive (inject_Z k) == inject_Z k)%Q.
Proof.
  intros [Hk Hk53]. rewrite round_positive_eq. unfold last_place.
  rewrite (ilog2_Z k Hk).
  assert (Z.log2 k < 53)%Z as Hlog by (apply Z.log2_lt_pow2; lia).
  pose proof (Z.log2_nonneg k) as Hlog0.
  rewrite Z.max_l by lia. set (e := (Z.log2 k - 52)%Z).
  assert (0 ≤ - e)%Z as Hne by (unfold e; lia).
  pose proof (pow2_pos e) as Hpe.
  assert (pow2 e * pow2 (- e) == 1)%Q as Hinv.
  { rewrite <- pow2_add. by replace (e + - e)%Z with 0%Z by lia. }
  assert (inject_Z k / pow2 e == inject_Z (k * 2 ^ (- e)))%Q as E.
  { rewrite inject_Z_mult, <- (pow2_Z _ Hne). field_simplify_eq; [|lra].
    rewrite <- Qmult_assoc, Hinv. lra. }
  rewrite (round_half_even_comp _ _ E), round_half_even_Z.
  rewrite inject_Z_mult, <- (pow2_Z _ Hne).
  rewrite <- Qmult_assoc, (Qmult_comm (pow2 (- e))), Hinv. lra.
Qed.

(** No overflow up to [2 ** 1023]. *)
Lemma to_float_finite q :
  (0 < q)%Q → (q <= pow2 1023)%Q → to_float q = Some (Q2Qc (round_positive q)).
Proof.
  intros Hq Hmax. unfold to_float.
  assert ((q ?= 0)%Q = Gt) as -> by (by apply (proj1 (Qgt_alt _ _))).
  assert (Qle_bool (pow2 1024) (round_positive q) = false) as ->; [|done].
  apply not_true_is_false. intros Hle%Qle_bool_iff.
  destruct (round_positive_near q Hq) as [_ Hhi].
  pose proof (last_place_bound q Hq) as Hlast.
  pose proof (pow2_pos 1021) as HP.
  assert (pow2 1023 == 4 * pow2 1021)%Q as E1.
  { replace 1023%Z with (2 + 1021)%Z by lia. rewrite pow2_add.
    assert (pow2 2 == 4)%Q as -> by reflexivity. lra. }
  assert (pow2 1024 == 8 * pow2 1021)%Q as E2.
  { replace 1024%Z with (3 + 1021)%Z by lia. rewrite pow2_add.
    assert (pow2 3 == 8)%Q as -> by reflexivity. lra. }
  assert (pow2 (-1075) <= pow2 1021)%Q as E3 by (apply pow2_le; lia).
  assert (q * pow2 (-53) <= q * (1 # 4))%Q as E4.
  { apply Qmult_le_l; [done|]. change (1 # 4)%Q with (pow2 (-2)). apply pow2_le. lia. }
  lra.
Qed.

Lemma Qc_lt_Q (a b : Qc) : (a < b)%Qc ↔ (this a < this b)%Q.
Proof. done. Qed.

Lemma Qc_le_Q (a b : Qc) : (a ≤ b)%Qc ↔ (this a <= this b)%Q.
Proof. done. Qed.

(** [math.modf] on a non-negative number: the integer part is the floor. *)
Lemma modf_floor (x : Qc) :
  (0 ≤ x)%Qc →
  (Q2Qc (inject_Z (modf x).2) ≤ x)%Qc ∧ (x < Q2Qc (inject_Z (modf x).2) + 1)%Qc
  ∧ (modf x).1 = (x - Q2Qc (inject_Z (modf x).2))%Qc.
Proof.
  intros Hx. unfold modf. simpl.
  set (i := (Qnum x ÷ Z.pos (Qden x))%Z).
  assert (0 ≤ Qnum x)%Z as Hnum.
  { unfold Qcle in Hx. simpl in Hx. unfold Qle in Hx. simpl in Hx. lia. }
  assert (i = Qnum x / Z.pos (Qden x))%Z as Hi by (apply Z.quot_div_nonneg; lia).
  split_and!; [| |done].
  - unfold Qcle, Q2Qc. simpl. rewrite Qred_correct. unfold Qle. simpl.
    rewrite Hi. rewrite Z.mul_1_r. rewrite Z.mul_comm. apply Z.mul_div_le. lia.
  - unfold Qclt, Qcplus, Q2Qc. simpl. rewrite !Qred_correct. unfold Qlt, Qplus. simpl.
    rewrite Hi. pose proof (Z.mul_succ_div_gt (Qnum x) (Z.pos (Qden x))). lia.
Qed.

Lemma int_of_float_Z (x : Qc) (k : Z) : (this x == inject_Z k)%Q → int_of_float x = k.
Proof.
  unfold int_of_float, Qeq. simpl. intros E. rewrite Z.mul_1_r in E. rewrite E.
  by rewrite Z.quot_mul.
Qed.

(** The literal [0.1]. *)
Lemma tenth_value : float_of (1 # 10) = Q2Qc (3602879701896397 # 36028797018963968).
Proof. apply Qc_is_canon. reflexivity. Qed.

(** X17: the number of time steps, the rounding of the division included.
    For a positive final time and step size whose quotient x is at most
    [2 ** 1023], [_compute_num_time_steps] returns an integer n that is not
    negative and lies within [x - err - 0.1 < n <= x + err + 1 - 0.1], where
    0.1 is the double nearest to one tenth and err, the rounding error of
    the division, is at most [x * 2 ** -53 + 2 ** -1075]: the quotient is
    rounded up, except that an excess of less than a tenth of a step is
    dropped.  A final time of exactly k steps, k below [2 ** 53], gives k. *)
Theorem num_time_steps_bounds (final_time time_step_size : Qc) :
  (0 < time_step_size)%Qc → (0 < final_time)%Qc →
  let x := this (final_time / time_step_size)%Qc in
  (x <= pow2 1023)%Q →
  ∃ n, _compute_num_time_steps final_time time_step_size = inr n
    ∧ (0 ≤ n)%Z
    ∧ (x - (x * pow2 (-53) + pow2 (-1075)) - this (float_of (1 # 10)) < inject_Z n)%Q
    ∧ (inject_Z n <= x + (x * pow2 (-53) + pow2 (-1075)) + 1 - this (float_of (1 # 10)))%Q
    ∧ ∀ k : Z, (0 < k < 2 ^ 53)%Z →
        final_time = (Q2Qc (inject_Z k) * time_step_size)%Qc → n = k.
Proof.
  intros Hdt HT x Hmax.
  assert (0 < x)%Q as Hx.
  { subst x. unfold Qcdiv, Qcmult, Qcinv, Q2Qc. simpl this. rewrite !Qred_correct.
    apply Qmult_lt_0_compat; [done|]. by apply Qinv_lt_0_compat. }
  assert (time_step_size ≠ Q2Qc 0) as Hdt0.
  { intros E. rewrite E in Hdt. by apply Qclt_not_eq in Hdt. }
  assert (0 < this (float_of (1 # 10)) ∧ this (float_of (1 # 10)) < 1)%Q as Htenth
    by (rewrite tenth_value; split; reflexivity).
  unfold _compute_num_time_steps. rewrite decide_False by done.
  generalize dependent (float_of (1 # 10)). intros t [Htenth Htenth1].
  fold x. rewrite (to_float_finite x Hx Hmax).
  set (q := Q2Qc (round_positive x)).
  assert (this q == round_positive x)%Q as Hq by apply Qred_correct.
  destruct (round_positive_near x Hx) as [Hlo Hhi].
  pose proof (last_place_bound x Hx) as Hlast.
  pose proof (round_positive_nonneg x Hx) as Hq0.
  assert (0 ≤ q)%Qc as Hq0' by (apply Qc_le_Q; change (0 <= this q)%Q; lra).
  destruct (modf_floor q Hq0') as (Hfl & Hfh & Hdec).
  assert ((modf q).2 = int_of_float q) as Hint by done.
  rewrite (surjective_pairing (modf q)).
  generalize dependent ((modf q).2). generalize dependent ((modf q).1).
  intros decimal integer Hfl Hfh Hdec Hint.
  revert Hfl Hfh. rewrite Qc_le_Q, Qc_lt_Q. unfold Qcplus, Q2Qc. simpl this.
  rewrite !Qred_correct. intros Hfl Hfh.
  assert (this decimal == this q - inject_Z integer)%Q as Hdec'.
  { rewrite Hdec. unfold Qcminus, Qcplus, Qcopp, Q2Qc. simpl this.
    rewrite !Qred_correct. reflexivity. }
  assert (0 ≤ integer)%Z as Hi0.
  { assert (-1 < integer)%Z; [|lia]. rewrite Zlt_Qlt. change (inject_Z (-1)) with (-1)%Q.
    change (inject_Z 1) with 1%Q in Hfh. lra. }
  assert (∀ k : Z, (0 < k < 2 ^ 53)%Z →
            final_time = (Q2Qc (inject_Z k) * time_step_size)%Qc →
            integer = k ∧ (this decimal == 0)%Q) as Hexact.
  { intros k Hk Hft.
    assert (final_time / time_step_size = Q2Qc (inject_Z k))%Qc as E.
    { rewrite Hft. by apply Qcdiv_mult_l. }
    assert (x = inject_Z k) as Ex.
    { subst x. rewrite E. simpl. apply Qred_identity. simpl. apply Z.gcd_1_r. }
    assert (this q == inject_Z k)%Q as Eq.
    { rewrite Hq, Ex. by apply round_positive_Z. }
    assert (integer = k) as Ei.
    { rewrite Hint. by apply int_of_float_Z. }
    split; [done|]. rewrite Hdec', Eq, Ei. lra. }
  case_bool_decide as Hsmall.
  - exists integer. rewrite Qc_lt_Q in Hsmall. split_and!; [done|done| | |].
    + lra.
    + change (inject_Z 1) with 1%Q in Hfh. lra.
    + intros k Hk Hft. by destruct (Hexact k Hk Hft).
  - assert (this t <= this decimal)%Q as Hbig.
    { apply Qnot_lt_le. intros Hlt. apply Hsmall. by apply Qc_lt_Q. }
    assert (last_place x < 0)%Z as Hplace.
    { destruct (Z_lt_le_dec (last_place x) 0) as [?|Hge]; [done|].
      destruct (round_positive_integral x Hge) as [z Hz].
      assert (integer = z) as <-.
      { rewrite Hint. apply int_of_float_Z. by rewrite Hq. }
      lra. }
    pose proof (round_positive_small x Hx Hplace) as Hq52.
    assert (integer ≤ 2 ^ 52)%Z as Hi52 by (rewrite Zle_Qle; lra).
    assert (0 < integer + 1 < 2 ^ 53)%Z as Hrange by lia.
    assert (inject_Z (integer + 1) <= pow2 1023)%Q as Hfin.
    { apply Qle_trans with (inject_Z (2 ^ 53)); [rewrite <- Zle_Qle; lia|].
      rewrite <- (pow2_Z 53) by lia. apply pow2_le. lia. }
    rewrite to_float_finite; [|rewrite <- (Zlt_Qlt 0); lia|done].
    exists (integer + 1)%Z. split_and!.
    + f_equal. apply int_of_float_Z. simpl. rewrite Qred_correct.
      by apply round_positive_Z.
    + lia.
    + rewrite inject_Z_plus. change (inject_Z 1) with 1%Q in *. lra.
    + rewrite inject_Z_plus. change (inject_Z 1) with 1%Q in *. lra.
    + intros k Hk Hft. destruct (Hexact k Hk Hft) as [_ E0]. lra.
Qed.


Lemma num_time_steps_bounds_witness :
  let final_time := float_of (81 # 100) in
  let time_step_size := float_of (1 # 10) in
  let x := this (final_time / time_step_size)%Qc in
  ∃ n, _compute_num_time_steps final_time time_step_size = inr n
    ∧ (0 ≤ n)%Z
    ∧ (x - (x * pow2 (-53) + pow2 (-1075)) - this (float_of (1 # 10)) < inject_Z n)%Q
    ∧ (inject_Z n <= x + (x * pow2 (-53) + pow2 (-1075)) + 1 - this (float_of (1 # 10)))%Q
    ∧ ∀ k : Z, (0 < k < 2 ^ 53)%Z →
        final_time = (Q2Qc (inject_Z k) * time_step_size)%Qc → n = k.
Proof.
  intros final_time time_step_size x.
  apply (num_time_steps_bounds final_time time_step_size).
  - by vm_compute.
  - by vm_compute.
  - vm_compute. intros H. discriminate H.
Defined.

(** What the rounding does at the boundaries: [0.81 / 0.1] is a little less
    than 8.1 and gives 8 steps, [1.0 / 0.1] is exactly 10, a final time of
    [2 ** 53 + 1] steps of size 1 gives [2 ** 53] steps, and a quotient
    beyond the largest double raises [OverflowError]. *)
Example num_time_steps_rounding :
  _compute_num_time_steps (float_of (81 # 100)) (float_of (1 # 10)) = inr 8%Z
  ∧ _compute_num_time_steps (float_of 1) (float_of (1 # 10)) = inr 10%Z
  ∧ _compute_num_time_steps (Q2Qc (inject_Z (2 ^ 53 + 1))) (Q2Qc 1) = inr (2 ^ 53)%Z
  ∧ _compute_num_time_steps (float_of (inject_Z (10 ^ 308)))
      (float_of (1 # 10 ^ 308)) = inl OverflowError.
Proof. repeat split; by vm_compute. Qed.

(** ** trotter.py: construction *)

(** X18: a [SWAPlist] is built from a list exactly when each of its entries
    names two nodes; the entries are kept as given, in order, and any other
    entry raises [ValueError]. *)
Theorem SWAPlist_init_pairs (swap_list : list (list string)) :
  SWAPlist_init (Some swap_list)
  = if bool_decide (Forall (λ swap_pair, length swap_pair = 2) swap_list)
    then inr swap_list else inl ValueError.
Proof.
  unfold SWAPlist_init.
  assert (check_swap_pairs swap_list
          = if bool_decide (Forall (λ swap_pair, length swap_pair = 2) swap_list)
            then inr tt else inl ValueError) as ->.
  { induction swap_list as [|p l IH].
    - by rewrite bool_decide_eq_true_2 by constructor.
    - change (check_swap_pairs (p :: l))
        with (if negb (bool_decide (length p = 2)) then inl ValueError
              else check_swap_pairs l).
      rewrite IH.
      destruct (decide (length p = 2)) as [Hp|Hp],
               (decide (Forall (λ swap_pair, length swap_pair = 2) l)) as [Hl|Hl].
      + rewrite (bool_decide_eq_true_2 _ Hp), (bool_decide_eq_true_2 _ Hl). simpl.
        by rewrite bool_decide_eq_true_2 by (by constructor).
      + rewrite (bool_decide_eq_true_2 _ Hp), (bool_decide_eq_false_2 _ Hl). simpl.
        rewrite bool_decide_eq_false_2; [done|]. by intros [? ?]%Forall_cons.
      + rewrite (bool_decide_eq_false_2 _ Hp). simpl.
        rewrite bool_decide_eq_false_2; [done|]. by intros [? ?]%Forall_cons.
      + rewrite (bool_decide_eq_false_2 _ Hp). simpl.
        rewrite bool_decide_eq_false_2; [done|]. by intros [? ?]%Forall_cons. }
  by case_bool_decide.
Qed.

(** How [TrotterSplitting.__init__] stores one item of a splitting. *)
Lemma normalise_splitting_spec (items acc : list pyval) :
  normalise_splitting items acc
  = if forallb (λ item, isinstance_int item || isinstance_tuple item) items
    then inr (acc ++ ((λ item, if isinstance_int item then PyTuple [item; PyInt 1] else item)
                        <$> items))
    else inl TypeError.
Proof.
  revert acc. induction items as [|item items IH]; intros acc; simpl.
  - by rewrite app_nil_r.
  - destruct (isinstance_int item) eqn:Hint; simpl.
    + rewrite IH. destruct (forallb _ items); [|done]. by rewrite <- app_assoc.
    + destruct (isinstance_tuple item); simpl; [|done].
      rewrite IH. destruct (forallb _ items); [|done]. by rewrite <- app_assoc.
Qed.

(** X19: [TrotterSplitting.__init__] with a splitting list succeeds exactly
    when every item is an [int] or a tuple (of any length); it keeps the
    order, stores an [int] [i] as the pair [(i, 1)] and a tuple as it is,
    and lists of swaps that are not given become lists of empty SWAP lists
    with one entry per item.  Any other item raises [TypeError]. *)
Theorem TrotterSplitting_init_splitting {TensorProduct : Type}
    (tensor_products : list TensorProduct) (items : list pyval)
    (swaps_before swaps_after : option (list SWAPlist)) :
  TrotterSplitting_init tensor_products (Some items) swaps_before swaps_after
  = if forallb (λ item, isinstance_int item || isinstance_tuple item) items
    then inr {| tensor_products := tensor_products;
                splitting := (λ item, if isinstance_int item
                                      then PyTuple [item; PyInt 1] else item) <$> items;
                tsp_swaps_before := default (replicate (length items) []) swaps_before;
                tsp_swaps_after := default (replicate (length items) []) swaps_after |}
    else inl TypeError.
Proof.
  unfold TrotterSplitting_init. rewrite normalise_splitting_spec.
  destruct (forallb _ items); [|done]. simpl. rewrite length_fmap.
  by destruct swaps_before, swaps_after.
Qed.

(** ** common_operators.py: the SWAP gate *)

Lemma C_one : C_of_Z 1 = (1%Qc, 0%Qc).
Proof. reflexivity. Qed.

Lemma C_zero : C_of_Z 0 = (0%Qc, 0%Qc).
Proof. reflexivity. Qed.

Lemma Cmul_1_l x : Cmul (C_of_Z 1) x = x.
Proof. rewrite C_one. destruct x as [a b]. unfold Cmul. simpl. f_equal; ring. Qed.

Lemma Cmul_0_l x : Cmul (C_of_Z 0) x = C_of_Z 0.
Proof. rewrite C_zero. destruct x as [a b]. unfold Cmul. simpl. f_equal; ring. Qed.

Lemma Cadd_0_l x : Cadd (C_of_Z 0) x = x.
Proof. rewrite C_zero. destruct x as [a b]. unfold Cadd. simpl. f_equal; ring. Qed.

Lemma Cadd_0_r x : Cadd x (C_of_Z 0) = x.
Proof. rewrite C_zero. destruct x as [a b]. unfold Cadd. simpl. f_equal; ring. Qed.

Lemma Cmul_comm x y : Cmul x y = Cmul y x.
Proof. destruct x, y. unfold Cmul. simpl. f_equal; ring. Qed.

(** A row with a single one picks an entry of the vector. *)
Lemma dot_indicator (j0 m : nat) (x : list complex) :
  dot ((λ j, if decide (j = j0) then C_of_Z 1 else C_of_Z 0) <$> seq m (length x)) x
  = if decide (m ≤ j0 < m + length x)%nat then default (C_of_Z 0) (x !! (j0 - m)%nat)
    else C_of_Z 0.
Proof.
  revert m. induction x as [|a x IH]; intros m.
  - simpl. by rewrite decide_False by lia.
  - cbn [length seq]. rewrite fmap_cons. unfold dot in *. cbn [zip_with foldr].
    rewrite IH. destruct (decide (m = j0)) as [->|Hm].
    + rewrite Cmul_1_l, decide_False by lia. rewrite decide_True by lia.
      rewrite Nat.sub_diag. simpl. by rewrite Cadd_0_r.
    + rewrite Cmul_0_l, Cadd_0_l.
      destruct (decide (S m ≤ j0 < S m + length x)%nat).
      * rewrite decide_True by lia.
        replace (j0 - m)%nat with (S (j0 - S m)) by lia. done.
      * by rewrite decide_False by lia.
Qed.

Lemma kron_length (u v : list complex) : length (kron u v) = (length u * length v)%nat.
Proof.
  unfold kron. induction u as [|a u IH]; [done|].
  csimpl. by rewrite length_app, length_fmap, IH.
Qed.

Lemma kron_lookup (u v : list complex) (a b : nat) (ua vb : complex) :
  u !! a = Some ua → v !! b = Some vb →
  kron u v !! (a * length v + b)%nat = Some (Cmul ua vb).
Proof.
  unfold kron. revert a. induction u as [|c u IH]; intros a Ha Hb; [done|].
  csimpl. destruct a as [|a]; simpl in *.
  - simplify_eq. rewrite lookup_app_l by (rewrite length_fmap; by eapply lookup_lt_Some).
    by rewrite list_lookup_fmap, Hb.
  - rewrite lookup_app_r by (rewrite length_fmap; lia).
    rewrite length_fmap. replace (length v + a * length v + b - length v)%nat
      with (a * length v + b)%nat by lia.
    by apply IH.
Qed.

Lemma swap_index (d i j : nat) :
  (0 < d)%nat → (i < d * d)%nat →
  (i / d = j mod d ∧ j / d = i mod d)%nat ↔ j = ((i mod d) * d + i / d)%nat.
Proof.
  intros Hd Hi.
  assert (i / d < d)%nat as Hq by (apply Nat.Div0.div_lt_upper_bound; lia).
  split.
  - intros [H1 H2]. rewrite (Nat.div_mod_eq j d) at 1. rewrite H2, <- H1. lia.
  - intros ->. split.
    + apply (Nat.mod_unique _ _ (i mod d)); [done|lia].
    + symmetry. apply (Nat.div_unique _ _ _ (i / d)); [done|lia].
Qed.

(** X20: for a dimension of at least one, [swap_gate] returns a square matrix
    on [dimension**2] entries, and applied to the Kronecker product of two
    vectors of that dimension it gives the Kronecker product in the other
    order: the gate swaps the states of the two systems. *)
Theorem swap_gate_swaps (dimension : Z) (u v : list complex) :
  (1 ≤ dimension)%Z →
  length u = Z.to_nat dimension → length v = Z.to_nat dimension →
  ∃ swap, swap_gate dimension = inr swap
    ∧ length swap = Z.to_nat (dimension ^ 2)
    ∧ Forall (λ row, length row = Z.to_nat (dimension ^ 2)) swap
    ∧ matvec swap (kron u v) = kron v u.
Proof.
  intros Hd Hu Hv. unfold swap_gate. rewrite decide_False by lia.
  eexists. split; [reflexivity|].
  set (d := Z.to_nat dimension) in *.
  assert (Z.to_nat (dimension ^ 2) = (d * d)%nat) as ->.
  { subst d. rewrite Z.pow_2_r. rewrite Z2Nat.inj_mul by lia. done. }
  assert (0 < d)%nat as Hpos by (subst d; lia).
  split_and!.
  - by rewrite length_fmap, length_seq.
  - apply Forall_fmap, Forall_forall. intros i _. unfold compose.
    by rewrite length_fmap, length_seq.
  - unfold matvec. rewrite <- list_fmap_compose.
    apply list_eq_same_length with (d * d)%nat.
    + rewrite kron_length. lia.
    + by rewrite length_fmap, length_seq.
    + intros k x y Hk. rewrite list_lookup_fmap, lookup_seq_lt by done. simpl.
      intros [= <-] Hy.
      erewrite (list_fmap_ext _ (λ j, if decide (j = ((k mod d) * d + k / d)%nat)
                                     then C_of_Z 1 else C_of_Z 0)); cycle 1.
      { intros _ j _. simpl. destruct (decide (j = _)) as [Hj|Hj].
        - apply (swap_index d k j Hpos Hk) in Hj as [-> ->].
          by rewrite !bool_decide_eq_true_2.
        - destruct (bool_decide (k / d = j mod d)%nat) eqn:E1; [|done].
          destruct (bool_decide (j / d = k mod d)%nat) eqn:E2; [|done].
          apply bool_decide_eq_true in E1, E2. exfalso. apply Hj.
          by apply (swap_index d k j Hpos Hk). }
      assert (d * d = length (kron u v))%nat as Hlen by (rewrite kron_length; lia).
      rewrite Hlen, dot_indicator, <- Hlen.
      assert (k mod d < d)%nat as Hr by (apply Nat.mod_upper_bound; lia).
      assert (k / d < d)%nat as Hq by (apply Nat.Div0.div_lt_upper_bound; lia).
      rewrite decide_True by nia. rewrite Nat.sub_0_r.
      destruct (lookup_lt_is_Some_2 u (k mod d)) as [ua Hua]; [lia|].
      destruct (lookup_lt_is_Some_2 v (k / d)) as [vb Hvb]; [lia|].
      pose proof (kron_lookup u v _ _ _ _ Hua Hvb) as H1. rewrite Hv in H1.
      pose proof (kron_lookup v u _ _ _ _ Hvb Hua) as H2. rewrite Hu in H2.
      rewrite H1. simpl.
      replace ((k / d) * d + k mod d)%nat with k in H2
        by (rewrite (Nat.div_mod_eq k d) at 1; lia).
      rewrite H2 in Hy. injection Hy as <-. apply Cmul_comm.
Qed.

Lemma swap_gate_swaps_witness :
  ∃ swap, swap_gate 2 = inr swap
    ∧ length swap = Z.to_nat (2 ^ 2)
    ∧ Forall (λ row, length row = Z.to_nat (2 ^ 2)) swap
    ∧ matvec swap (kron [C_of_Z 1; C_of_Z 2] [C_of_Z 3; C_of_Z 5])
      = kron [C_of_Z 3; C_of_Z 5] [C_of_Z 1; C_of_Z 2].
Proof.
  apply (swap_gate_swaps 2 [C_of_Z 1; C_of_Z 2] [C_of_Z 3; C_of_Z 5]).
  - lia.
  - reflexivity.
  - reflexivity.
Defined.

(** ** common_operators.py: random Hermitian matrices *)

Lemma transpose_tabulate (f : nat → nat → complex) (n : nat) :
  transpose ((λ i, f i <$> seq 0 n) <$> seq 0 n) = (λ j, (λ i, f i j) <$> seq 0 n) <$> seq 0 n.
Proof.
  unfold transpose. destruct n as [|n]; [done|].
  assert (length (default [] (head ((λ i, f i <$> seq 0 (S n)) <$> seq 0 (S n)))) = S n) as ->.
  { simpl. by rewrite length_fmap, length_seq. }
  apply list_fmap_ext. intros k j Hj%lookup_seq. destruct Hj as [-> Hk].
  change (0 + k)%nat with k.
  rewrite <- list_fmap_compose. apply list_fmap_ext. intros _ i _.
  unfold compose. by rewrite list_lookup_fmap, lookup_seq_lt.
Qed.

Lemma hermitian_tabulate (f : nat → nat → complex) (n : nat) :
  mat_scale (Q2Qc (1 # 2), 0%Qc)
    (mat_add ((λ i, f i <$> seq 0 n) <$> seq 0 n)
       (mat_conj (transpose ((λ i, f i <$> seq 0 n) <$> seq 0 n))))
  = (λ i, (λ j, Cmul (Q2Qc (1 # 2), 0%Qc) (Cadd (f i j) (Cconj (f j i)))) <$> seq 0 n)
      <$> seq 0 n.
Proof.
  rewrite transpose_tabulate. unfold mat_scale, mat_add, mat_conj.
  rewrite <- !list_fmap_compose, zip_with_fmap_l, zip_with_fmap_r, zip_with_diag.
  rewrite <- list_fmap_compose. apply list_fmap_ext. intros _ i _. unfold compose.
  rewrite <- list_fmap_compose, zip_with_fmap_l, zip_with_fmap_r, zip_with_diag.
  by rewrite <- list_fmap_compose.
Qed.

(** X21: for a size of at least one, [random_hermitian_matrix] returns a
    square matrix of that size which equals its own conjugate transpose,
    whatever entries [crandn] drew. *)
Theorem random_hermitian_matrix_hermitian (drawn : nat → nat → complex) (size : Z) :
  (1 ≤ size)%Z →
  ∃ h, random_hermitian_matrix drawn size = inr h
    ∧ length h = Z.to_nat size
    ∧ Forall (λ row, length row = Z.to_nat size) h
    ∧ mat_conj (transpose h) = h.
Proof.
  intros Hs. unfold random_hermitian_matrix. rewrite decide_False by lia.
  eexists. split; [reflexivity|]. set (n := Z.to_nat size).
  rewrite hermitian_tabulate. split_and!.
  - by rewrite length_fmap, length_seq.
  - apply Forall_fmap, Forall_forall. intros i _. unfold compose.
    by rewrite length_fmap, length_seq.
  - rewrite (transpose_tabulate
               (λ i j, Cmul (Q2Qc (1 # 2), 0%Qc) (Cadd (drawn i j) (Cconj (drawn j i))))).
    unfold mat_conj. rewrite <- list_fmap_compose. apply list_fmap_ext. intros _ j _.
    unfold compose. rewrite <- list_fmap_compose. apply list_fmap_ext. intros _ i _.
    unfold compose. destruct (drawn i j) as [a b], (drawn j i) as [c e].
    unfold Cconj, Cmul, Cadd. simpl. f_equal; ring.
Qed.

Lemma random_hermitian_matrix_hermitian_witness :
  ∃ h, random_hermitian_matrix (λ i j, (Q2Qc (inject_Z (Z.of_nat i)), Q2Qc (inject_Z (Z.of_nat j)))) 2
       = inr h
    ∧ length h = Z.to_nat 2
    ∧ Forall (λ row, length row = Z.to_nat 2) h
    ∧ mat_conj (transpose h) = h.
Proof.
  apply (random_hermitian_matrix_hermitian
           (λ i j, (Q2Qc (inject_Z (Z.of_nat i)), Q2Qc (inject_Z (Z.of_nat j)))) 2).
  lia.
Defined.

(** ** tree_structure.py: [replace_node] *)

Lemma for_each_set_parent t new_id l :
  (∀ x, x ∈ l → is_Some (nodes t !! x)) →
  for_each l (λ child_id,
    if decide (child_id ≠ new_id)
    then update_node child_id (λ n, inr (set_parent (Some new_id) n))
    else mret tt) t
  = (inr tt, set_nodes (reparent new_id (filter (λ c, c ≠ new_id) l)) t).
Proof.
  revert t. induction l as [|x l IH]; intros t Hex; simpl.
  - destruct t; reflexivity.
  - rewrite filter_cons. destruct (decide (x ≠ new_id)) as [Hx|Hx].
    + destruct (Hex x) as [n Hn]; [left|].
      erewrite bind_inr; [| by eapply update_node_Some].
      rewrite IH.
      * f_equal. destruct t as [N r]. unfold set_nodes, reparent; simpl. f_equal.
        f_equal. simpl in Hn. apply map_eq. intros k.
        destruct (decide (k = x)) as [->|Hne].
        -- rewrite lookup_insert_eq, lookup_alter_eq, Hn. done.
        -- by rewrite lookup_insert_ne, lookup_alter_ne.
      * intros y Hy. simpl. destruct (decide (x = y)) as [->|Hne].
        -- rewrite lookup_insert_eq. eauto.
        -- rewrite lookup_insert_ne by done. apply Hex. by right.
    + erewrite bind_inr; [|reflexivity]. apply IH. intros y Hy. apply Hex. by right.
Qed.

(** X22: on a well-formed tree [replace_node] succeeds for every node [old] of
    the tree (and raises [KeyError], changing nothing, for an unknown one).
    It removes [old]; in every other node except [new] the references to
    [old], as parent or as child, name [new] instead; the node [new] itself
    is left as it was; and [root_id] becomes [new] when [old] was the
    root. *)
Theorem replace_node_effect (t : TreeStructure) (new_node_id old_node_id : string) :
  wf t →
  (nodes t !! old_node_id = None →
     replace_node new_node_id old_node_id t = (inl KeyError, t))
  ∧ (∀ old_node, nodes t !! old_node_id = Some old_node →
     ∃ t', replace_node new_node_id old_node_id t = (inr tt, t')
       ∧ nodes t' !! old_node_id = None
       ∧ root_id t' = (if is_root old_node then Some new_node_id else root_id t)
       ∧ ∀ k, k ≠ old_node_id →
           nodes t' !! k
           = (if decide (k = new_node_id) then id
              else rename_node old_node_id old_node_id new_node_id) <$> nodes t !! k).
Proof.
  intros Hwf. split.
  { intros Hold. unfold replace_node. erewrite bind_inl; [done|]. by apply get_node_None. }
  intros O HO.
  assert (old_node_id ∉ children O) as Hself.
  { intros Hin. destruct (wf_children _ Hwf _ _ _ HO Hin) as (m & Hm & Hmp).
    simplify_eq. destruct (wf_depth _ Hwf) as [depth Hd].
    pose proof (Hd _ _ _ HO Hmp). lia. }
  set (l := filter (λ c, c ≠ new_node_id) (children O)).
  assert (∀ k, k ∈ l ↔ k ∈ children O ∧ k ≠ new_node_id) as Hl.
  { intros k. unfold l. rewrite list_elem_of_filter. tauto. }
  set (t1 := set_nodes (reparent new_node_id l) t).
  assert (nodes t1 !! old_node_id = Some O) as HO1.
  { simpl. rewrite lookup_reparent, decide_False; [done|]. rewrite Hl. tauto. }
  assert (∀ n k, nodes t !! k = Some n → k ≠ old_node_id →
            (k ∈ children O ↔ parent n = Some old_node_id)
            ∧ (old_node_id ∈ children n ↔ parent O = Some k)) as Hrel.
  { intros n k Hk Hko. split; split.
    - intros Hin. destruct (wf_children _ Hwf _ _ _ HO Hin) as (m & Hm & Hmp). by simplify_eq.
    - intros Hp. destruct (wf_parent _ Hwf _ _ _ Hk Hp) as (m & Hm & Hin). by simplify_eq.
    - intros Hin. destruct (wf_children _ Hwf _ _ _ Hk Hin) as (m & Hm & Hmp). by simplify_eq.
    - intros Hp. destruct (wf_parent _ Hwf _ _ _ HO Hp) as (m & Hm & Hin). by simplify_eq. }
  assert (∀ n k, nodes t !! k = Some n → k ≠ old_node_id → k ≠ new_node_id →
            parent O ≠ Some k →
            (if decide (k ∈ l) then set_parent (Some new_node_id) n else n)
            = rename_node old_node_id old_node_id new_node_id n) as Hother.
  { intros n k Hk Hko Hkn HOk. destruct (Hrel n k Hk Hko) as [Hc Hp].
    unfold rename_node. rewrite fmap_renamed_id; cycle 1.
    { intros x Hx [->| ->]; exfalso; apply HOk; by apply Hp. }
    destruct (decide (k ∈ l)) as [Hin|Hin].
    - apply Hl in Hin as [Hin _]. apply Hc in Hin. unfold set_parent. f_equal.
      rewrite Hin. simpl. unfold renamed. by rewrite decide_True by (by left).
    - assert (parent n ≠ Some old_node_id) as Hpn.
      { intros E. apply Hin, Hl. split; [by apply Hc|done]. }
      destruct n as [idn tg par cs]. simpl in *. f_equal.
      destruct par as [x|]; [|done]. simpl. unfold renamed.
      rewrite decide_False; [done|]. intros [->| ->]; done. }
  unfold replace_node.
  erewrite bind_inr; [|by apply get_node_Some].
  erewrite bind_inr; cycle 1.
  { apply for_each_set_parent. intros x Hx. destruct (wf_children _ Hwf _ _ _ HO Hx) as (m & Hm & _).
    by rewrite Hm. }
  fold l t1.
  erewrite bind_inr; [|by apply get_node_Some].
  destruct (parent O) as [p|] eqn:HOp.
  - destruct (wf_parent _ Hwf _ _ _ HO HOp) as (P & HP & HinP).
    assert (p ≠ old_node_id) as Hpo by (intros ->; by simplify_eq).
    assert (p ∉ l) as Hpl.
    { rewrite Hl. intros [Hin _]. 
      destruct (wf_parent_not_child _ _ _ _ _ Hwf HP HO HOp) as (_ & Hn & _). done. }
    destruct (decide (p ≠ new_node_id)) as [Hpn|Hpn].
    + assert (nodes t1 !! p = Some P) as HP1.
      { simpl. by rewrite lookup_reparent, decide_False. }
      destruct (list_index_elem _ _ HinP) as (i & Hi & _).
      set (P' := if decide (old_node_id = new_node_id) then P
                 else set_children (<[i := new_node_id]> (children P)) P).
      assert (replace_child old_node_id new_node_id P = inr P') as HP'.
      { unfold replace_child, child_index, P'. destruct (decide (old_node_id = new_node_id)); [done|].
        by rewrite Hi. }
      erewrite bind_inr; [|by eapply update_node_Some].
      erewrite bind_inr; cycle 1.
      { apply pop_node_Some. simpl. rewrite lookup_insert_ne by done. exact HO1. }
      eexists. split; [reflexivity|]. simpl. split_and!.
      * apply lookup_delete_eq.
      * unfold is_root. by rewrite HOp.
      * intros k Hk. rewrite lookup_delete_ne by done.
        destruct (decide (k = p)) as [->|Hkp].
        -- rewrite lookup_insert_eq, HP. simpl. rewrite decide_False by done. f_equal.
           unfold P', rename_node.
           assert (renamed old_node_id old_node_id new_node_id <$> parent P = parent P) as ->.
           { destruct (parent P) as [x|] eqn:HPp; [|done]. simpl. unfold renamed.
             rewrite decide_False; [done|]. intros [->| ->];
               by destruct (wf_parent_not_child _ _ _ _ _ Hwf HP HO HOp) as (? & _ & _). }
           destruct (decide (old_node_id = new_node_id)) as [E|E].
           ++ rewrite fmap_renamed_id; [by destruct P|]. intros x _ [->| ->]; done.
           ++ unfold set_children. simpl. f_equal.
              apply insert_renamed_one; [done|]. by eapply wf_nodup.
        -- rewrite lookup_insert_ne by done. rewrite lookup_reparent.
           destruct (nodes t !! k) as [n|] eqn:Hkn; simpl; [|by destruct (decide (k ∈ l))].
           destruct (decide (k = new_node_id)) as [->|Hknew].
           ++ rewrite decide_False; [done|]. rewrite Hl. tauto.
           ++ f_equal. rewrite <- (Hother n k Hkn Hk Hknew) by congruence.
              by destruct (decide (k ∈ l)).
    + apply dec_stable in Hpn. subst p.
      erewrite bind_inr; [|reflexivity].
      erewrite bind_inr; cycle 1.
      { apply pop_node_Some. exact HO1. }
      eexists. split; [reflexivity|]. simpl. split_and!.
      * apply lookup_delete_eq.
      * unfold is_root. by rewrite HOp.
      * intros k Hk. rewrite lookup_delete_ne by done. rewrite lookup_reparent.
        destruct (nodes t !! k) as [n|] eqn:Hkn; simpl; [|by destruct (decide (k ∈ l))].
        destruct (decide (k = new_node_id)) as [->|Hknew].
        -- rewrite decide_False; [done|]. rewrite Hl. tauto.
        -- f_equal. rewrite <- (Hother n k Hkn Hk Hknew) by congruence.
           by destruct (decide (k ∈ l)).
  - erewrite bind_inr; [|reflexivity].
    erewrite bind_inr; cycle 1.
    { apply pop_node_Some. exact HO1. }
    eexists. split; [reflexivity|]. simpl. split_and!.
    + apply lookup_delete_eq.
    + unfold is_root. by rewrite HOp.
    + intros k Hk. rewrite lookup_delete_ne by done. rewrite lookup_reparent.
      destruct (nodes t !! k) as [n|] eqn:Hkn; simpl; [|by destruct (decide (k ∈ l))].
      destruct (decide (k = new_node_id)) as [->|Hknew].
      * rewrite decide_False; [done|]. rewrite Hl. tauto.
      * f_equal. rewrite <- (Hother n k Hkn Hk Hknew) by congruence.
        by destruct (decide (k ∈ l)).
Qed.

Lemma wf_chain_tree : wf chain_tree.
Proof.
  destruct (properly_reachable_wf _ properly_reachable_chain_tree) as [E|H]; [done|exact H].
Qed.

Lemma replace_node_effect_witness :
  ∃ t', replace_node "x" "c1" chain_tree = (inr tt, t')
    ∧ nodes t' !! "c1" = None
    ∧ root_id t' = root_id chain_tree
    ∧ ∀ k, k ≠ "c1" →
        nodes t' !! k
        = (if decide (k = "x") then id else rename_node "c1" "c1" "x") <$> nodes chain_tree !! k.
Proof.
  exact (proj2 (replace_node_effect chain_tree "x" "c1" wf_chain_tree)
           (mkNode "c1" "c1" (Some "root") []) eq_refl).
Defined.

(** ** tree_structure.py: neighbours and leaves *)

Lemma NoDup_bind_disjoint {A B} (f : A → list B) (l : list A) :
  NoDup l → (∀ x, x ∈ l → NoDup (f x)) →
  (∀ x y b, x ∈ l → y ∈ l → x ≠ y → b ∈ f x → b ∈ f y → False) →
  NoDup (l ≫= f).
Proof.
  induction l as [|a l IH]; intros Hnd Hf Hdis; csimpl; [constructor|].
  apply NoDup_cons in Hnd as [Ha Hnd]. apply NoDup_app. split_and!.
  - apply Hf. by left.
  - intros b Hb (y & Hby & Hy)%list_elem_of_bind.
    apply (Hdis a y b); [by left|by right| |done|done]. intros ->. done.
  - apply IH; [done| |].
    + intros x Hx. apply Hf. by right.
    + intros x y b Hx Hy. apply Hdis; by right.
Qed.

Lemma length_filter_ne (r : string) (l : list string) :
  NoDup l → r ∈ l → length (filter (λ x, x ≠ r) l) = (length l - 1)%nat.
Proof.
  induction l as [|a l IH]; intros Hnd Hr; [by apply elem_of_nil in Hr|].
  apply NoDup_cons in Hnd as [Ha Hnd]. rewrite filter_cons.
  destruct (decide (a ≠ r)) as [Har|Har].
  - apply elem_of_cons in Hr as [->|Hr]; [done|]. simpl. rewrite IH by done.
    destruct l; [by apply elem_of_nil in Hr|simpl; lia].
  - apply dec_stable in Har. subst a. simpl. rewrite Nat.sub_0_r. f_equal.
    clear IH Hr Hnd. induction l as [|b l IH]; [done|].
    apply not_elem_of_cons in Ha as [? ?]. rewrite filter_cons, decide_True by done.
    by rewrite IH.
Qed.

Lemma nearest_neighbours_elem order t p c :
  (p, c) ∈ nearest_neighbours order t
  ↔ p ∈ order ∧ ∃ n, nodes t !! p = Some n ∧ c ∈ children n.
Proof.
  unfold nearest_neighbours. rewrite list_elem_of_bind. split.
  - intros (x & Hin & Hx). destruct (nodes t !! x) as [n|] eqn:Hn; [|by apply elem_of_nil in Hin].
    apply list_elem_of_fmap in Hin as (c' & [= -> ->] & Hc'). eauto.
  - intros (Hp & n & Hn & Hc). exists p. split; [|done]. rewrite Hn.
    apply list_elem_of_fmap. eauto.
Qed.

(** X23: in a well-formed tree [nearest_neighbours] lists every link once, as
    the pair (parent, child): a pair is listed exactly when the second node
    names the first as its parent, no pair is listed twice, and there is one
    link less than there are nodes. *)
Theorem nearest_neighbours_links (order : list string) (t : TreeStructure) :
  wf t → order ≡ₚ (map_to_list (nodes t)).*1 →
  (∀ p c, (p, c) ∈ nearest_neighbours order t
          ↔ ∃ child, nodes t !! c = Some child ∧ parent child = Some p)
  ∧ NoDup (nearest_neighbours order t)
  ∧ length (nearest_neighbours order t) = (len t - 1)%nat.
Proof.
  intros Hwf Horder.
  assert (NoDup order) as Hnd.
  { rewrite Horder. apply NoDup_fst_map_to_list. }
  assert (∀ k, k ∈ order ↔ is_Some (nodes t !! k)) as Hkeys.
  { intros k. rewrite Horder, list_elem_of_fmap. split.
    - intros ([k' n] & -> & Hin%elem_of_map_to_list). by eexists.
    - intros [n Hn]. exists (k, n). split; [done|]. by apply elem_of_map_to_list. }
  assert (∀ p c, (p, c) ∈ nearest_neighbours order t
                 ↔ ∃ child, nodes t !! c = Some child ∧ parent child = Some p) as Hlinks.
  { intros p c. rewrite nearest_neighbours_elem. split.
    - intros (_ & n & Hn & Hc). by eapply wf_children.
    - intros (child & Hc & Hp). destruct (wf_parent _ Hwf _ _ _ Hc Hp) as (n & Hn & Hin).
      split; [apply Hkeys; by eexists|eauto]. }
  assert (NoDup (nearest_neighbours order t)) as Hnn.
  { apply NoDup_bind_disjoint; [done| |].
    - intros x _. destruct (nodes t !! x) as [n|] eqn:Hn; [|constructor].
      apply NoDup_fmap_2; [by intros ? ? [= ->]|]. by eapply wf_nodup.
    - intros x y b _ _ Hxy Hx Hy.
      destruct (nodes t !! x); [|by apply elem_of_nil in Hx].
      destruct (nodes t !! y); [|by apply elem_of_nil in Hy].
      apply list_elem_of_fmap in Hx as (? & -> & _).
      apply list_elem_of_fmap in Hy as (? & [= ? ?] & _). done. }
  split_and!; [done|done|].
  destruct (wf_root _ Hwf) as (r & nr & Hr & Hnr & Hpar).
  assert ((nearest_neighbours order t).*2 ≡ₚ filter (λ x, x ≠ r) order) as Hperm.
  { apply NoDup_Permutation.
    - apply NoDup_fmap_2_strong; [|done].
      intros [p c] [p' c'] Hx Hy. simpl. intros <-.
      apply Hlinks in Hx as (ch & Hch & Hp). apply Hlinks in Hy as (ch' & Hch' & Hp').
      by simplify_eq.
    - by apply NoDup_filter.
    - intros c. rewrite list_elem_of_fmap, list_elem_of_filter, Hkeys. split.
      + intros ([p c'] & -> & (ch & Hch & Hp)%Hlinks). simpl. split; [|by eexists].
        intros ->. by simplify_eq.
      + intros [Hcr [ch Hch]]. destruct (parent ch) as [p|] eqn:Hp.
        * exists (p, c). split; [done|]. apply Hlinks. eauto.
        * pose proof (wf_one_root _ Hwf _ _ Hch Hp). by simplify_eq. }
  rewrite <- (length_fmap snd), Hperm, length_filter_ne; [|done|apply Hkeys; by eexists].
  unfold len. by rewrite Horder, length_fmap, length_map_to_list.
Qed.

Lemma nearest_neighbours_links_witness :
  let order := (map_to_list (nodes chain_tree)).*1 in
  (∀ p c, (p, c) ∈ nearest_neighbours order chain_tree
          ↔ ∃ child, nodes chain_tree !! c = Some child ∧ parent child = Some p)
  ∧ NoDup (nearest_neighbours order chain_tree)
  ∧ length (nearest_neighbours order chain_tree) = (len chain_tree - 1)%nat.
Proof.
  intros order.
  apply (nearest_neighbours_links order chain_tree wf_chain_tree). reflexivity.
Defined.

Lemma NoDup_omap_inj {A B} (f : A → option B) (l : list A) :
  (∀ x y z, f x = Some z → f y = Some z → x = y) → NoDup l → NoDup (omap f l).
Proof.
  intros Hinj. induction 1 as [|a l Ha Hnd IH]; csimpl; [constructor|].
  destruct (f a) as [b|] eqn:Hb; [|done]. apply NoDup_cons. split; [|done].
  rewrite list_elem_of_omap. intros (y & Hy & Hfy).
  by rewrite (Hinj a y b Hb Hfy) in Ha.
Qed.

Lemma get_leaves_elem order t x :
  x ∈ get_leaves order t ↔ x ∈ order ∧ ∃ n, nodes t !! x = Some n ∧ children n = [].
Proof.
  unfold get_leaves. rewrite list_elem_of_omap. split.
  - intros (y & Hy & Hx). destruct (nodes t !! y) as [n|] eqn:Hn; [|done].
    destruct (is_leaf n) eqn:Hleaf; [|done]. injection Hx as <-.
    split; [done|]. exists n. split; [done|].
    unfold is_leaf, has_x_children in Hleaf. apply bool_decide_eq_true in Hleaf.
    by apply nil_length_inv.
  - intros (Hx & n & Hn & Hc). exists x. split; [done|]. rewrite Hn.
    unfold is_leaf, has_x_children. by rewrite Hc.
Qed.

Lemma deepest_key (depth : string → nat) (l : list string) :
  l ≠ [] → ∃ x, x ∈ l ∧ ∀ y, y ∈ l → (depth y ≤ depth x)%nat.
Proof.
  induction l as [|a l IH]; [done|]. intros _.
  destruct l as [|b l].
  - exists a. split; [by left|]. intros y ->%list_elem_of_singleton. done.
  - destruct IH as (x & Hx & Hmax); [done|].
    destruct (decide (depth a ≤ depth x)%nat).
    + exists x. split; [by right|]. intros y [->|Hy]%elem_of_cons; [done|by apply Hmax].
    + exists a. split; [by left|]. intros y [->|Hy]%elem_of_cons; [done|].
      specialize (Hmax y Hy). lia.
Qed.

Lemma root_has_child t r nr k n :
  wf t → root_id t = Some r → nodes t !! r = Some nr →
  nodes t !! k = Some n → k ≠ r → children nr ≠ [].
Proof.
  intros Hwf Hr Hnr. destruct (wf_depth _ Hwf) as [depth Hd].
  remember (depth k) as d eqn:Hdk. revert k n Hdk.
  induction d as [d IH] using lt_wf_ind. intros k n -> Hk Hkr.
  destruct (parent n) as [p|] eqn:Hp.
  - destruct (wf_parent _ Hwf _ _ _ Hk Hp) as (m & Hm & Hin).
    destruct (decide (p = r)) as [->|Hpr].
    + simplify_eq. intros E. rewrite E in Hin. by apply elem_of_nil in Hin.
    + by apply (IH (depth p) (Hd _ _ _ Hk Hp) p m).
  - pose proof (wf_one_root _ Hwf _ _ Hk Hp). congruence.
Qed.

(** X24: in a well-formed tree [get_leaves] returns exactly the nodes without
    children, each once; there is at least one, and the root is among them
    only when it is the only node. *)
Theorem get_leaves_spec (order : list string) (t : TreeStructure) (r : string) :
  wf t → order ≡ₚ (map_to_list (nodes t)).*1 → root_id t = Some r →
  (∀ x, x ∈ get_leaves order t ↔ ∃ n, nodes t !! x = Some n ∧ children n = [])
  ∧ NoDup (get_leaves order t)
  ∧ get_leaves order t ≠ []
  ∧ (r ∈ get_leaves order t ↔ len t = 1%nat).
Proof.
  intros Hwf Horder Hr.
  assert (NoDup order) as Hnd.
  { rewrite Horder. apply NoDup_fst_map_to_list. }
  assert (∀ k, k ∈ order ↔ is_Some (nodes t !! k)) as Hkeys.
  { intros k. rewrite Horder, list_elem_of_fmap. split.
    - intros ([k' n] & -> & Hin%elem_of_map_to_list). by eexists.
    - intros [n Hn]. exists (k, n). split; [done|]. by apply elem_of_map_to_list. }
  assert (∀ x, x ∈ get_leaves order t ↔ ∃ n, nodes t !! x = Some n ∧ children n = [])
    as Hleaves.
  { intros x. rewrite get_leaves_elem, Hkeys. split; [tauto|].
    intros (n & Hn & Hc). split; [by eexists|eauto]. }
  destruct (wf_root _ Hwf) as (r' & nr & Hr' & Hnr & Hpar).
  assert (r' = r) as -> by congruence.
  split_and!; [done| | |].
  - unfold get_leaves. apply NoDup_omap_inj; [|done].
    intros x y z Hx Hy.
    destruct (nodes t !! x) as [n|]; [|done]. destruct (is_leaf n); [|done].
    destruct (nodes t !! y) as [m|]; [|done]. destruct (is_leaf m); [|done].
    congruence.
  - destruct (wf_depth _ Hwf) as [depth Hd].
    destruct (deepest_key depth order) as (x & Hx & Hmax).
    { intros E. assert (r ∈ order) as Hin by (apply Hkeys; by eexists).
      rewrite E in Hin. by apply elem_of_nil in Hin. }
    apply Hkeys in Hx as [n Hn].
    assert (x ∈ get_leaves order t) as Hin.
    { apply Hleaves. exists n. split; [done|].
      destruct (children n) as [|c cs] eqn:Hc; [done|]. exfalso.
      destruct (wf_children _ Hwf x n c Hn) as (m & Hm & Hmp); [rewrite Hc; by left|].
      pose proof (Hd _ _ _ Hm Hmp) as Hlt.
      assert (c ∈ order) as Hco by (apply Hkeys; by eexists).
      specialize (Hmax c Hco). lia. }
    intros E. rewrite E in Hin. by apply elem_of_nil in Hin.
  - unfold len. rewrite Hleaves.
    assert (size (nodes t) = S (size (delete r (nodes t)))) as Hsize.
    { rewrite map_size_delete_Some by (by eexists).
      assert (size (nodes t) ≠ 0)%nat; [|lia].
      apply map_size_non_empty_iff. intros E. rewrite E in Hnr. done. }
    rewrite Hsize. split.
    + intros (n & Hn & Hc). assert (n = nr) as -> by congruence.
      f_equal. apply map_size_empty_iff.
      apply map_eq. intros k. rewrite lookup_empty.
      destruct (decide (k = r)) as [->|Hk]; [apply lookup_delete_eq|].
      rewrite lookup_delete_ne by done.
      destruct (nodes t !! k) as [m|] eqn:Hm; [|done]. exfalso.
      by apply (root_has_child t r nr k m Hwf Hr Hnr Hm Hk).
    + intros [= Hone]. apply map_size_empty_iff in Hone. exists nr. split; [done|].
      destruct (children nr) as [|c cs] eqn:Hc; [done|]. exfalso.
      destruct (wf_children _ Hwf r nr c Hnr) as (m & Hm & Hmp); [rewrite Hc; by left|].
      assert (c ≠ r) as Hcr by (intros ->; by simplify_eq).
      assert (delete r (nodes t) !! c = Some m) as Hdel by (by rewrite lookup_delete_ne).
      rewrite Hone in Hdel. done.
Qed.

Lemma get_leaves_spec_witness :
  let order := (map_to_list (nodes chain_tree)).*1 in
  (∀ x, x ∈ get_leaves order chain_tree
        ↔ ∃ n, nodes chain_tree !! x = Some n ∧ children n = [])
  ∧ NoDup (get_leaves order chain_tree)
  ∧ get_leaves order chain_tree ≠ []
  ∧ ("root" ∈ get_leaves order chain_tree ↔ len chain_tree = 1%nat).
Proof.
  intros order.
  apply (get_leaves_spec order chain_tree "root" wf_chain_tree); reflexivity.
Defined.

(** ** tree_structure.py: splitting a node and merging the two halves again *)

Lemma without_parent_absent N l :
  (∀ q, parent N = Some q → q ∉ l) → without_parent N l = l.
Proof.
  intros H. unfold without_parent. destruct (parent N) as [q|]; [|done].
  apply without_absent. by apply H.
Qed.

(** X25: splitting a node of a well-formed tree and combining the two new
    nodes again under the old identifier gives the tree back: the root
    identifier and all other nodes are as before, and the node itself has its
    old parent and its old children, in the order of the two neighbour lists
    (its tag is its identifier).  When the two lists are the neighbours in
    their old order and the tag was the identifier, the tree is exactly the
    one before the split. *)
Theorem split_then_combine (uuid_p uuid_c : string) (t : TreeStructure) (old : string)
    (N : Node) (n1 : string) (nb1 : list string) (n2 : string) (nb2 : list string) :
  wf t → nodes t !! old = Some N → old ≠ "" →
  n1 ≠ "" → n2 ≠ "" → n1 ≠ n2 →
  nodes t !! n1 = None ∨ n1 = old →
  nodes t !! n2 = None ∨ n2 = old →
  nb1 ++ nb2 ≡ₚ neighbouring_nodes N →
  ∃ t1 t2,
    split_node uuid_p uuid_c old n1 nb1 n2 nb2 t = (inr tt, t1)
    ∧ combine_nodes n1 n2 old t1 = (inr tt, t2)
    ∧ root_id t2 = root_id t
    ∧ nodes t2
      = <[old := {| identifier := old; tag := old; parent := parent N;
                    children := without_parent N nb1 ++ without_parent N nb2 |}]> (nodes t)
    ∧ (nb1 ++ nb2 = neighbouring_nodes N → tag N = old → t2 = t).
Proof.
  intros Hwf HN Hold Hn1 Hn2 Hn12 Hnew1 Hnew2 Hperm.
  destruct (split_node_located uuid_p uuid_c _ _ _ _ _ _ _ Hwf HN Hn1 Hn2 Hn12 Hnew1 Hnew2 Hperm)
    as (Hrun & Hpc & Hnewp & Hnewc & Hperm').
  set (pid := if first_is_upper N nb1 then n1 else n2) in *.
  set (cid := if first_is_upper N nb1 then n2 else n1) in *.
  set (pn := without_parent N (if first_is_upper N nb1 then nb1 else nb2)) in *.
  set (cn := if first_is_upper N nb1 then nb2 else nb1) in *.
  set (t1 := split_tree old pid cid (parent N) pn cn t) in *.
  assert (wf t1) as Hwf1 by (by apply split_tree_wf).
  pose proof (split_final_parent _ _ _ _ _ _ _ Hwf HN Hpc Hnewp Hnewc Hperm') as HP1.
  pose proof (split_final_child _ _ _ _ _ _ _ Hwf HN Hpc Hnewp Hnewc Hperm') as HC1.
  set (P := split_parent_node pid cid (parent N) pn) in *.
  set (C := split_child_node pid cid cn) in *.
  assert (combined_identifier n1 n2 old = old) as Hcid.
  { unfold combined_identifier. by rewrite decide_False. }
  assert (∀ k, k ≠ pid → k ≠ cid →
            nodes t1 !! k = if decide (k = old) then None
                            else split_other old pid cid (parent N) pn cn k <$> nodes t !! k)
    as Hother1.
  { intros k. apply (split_final_other _ _ _ _ _ _ _ Hwf HN Hpc Hnewp Hnewc Hperm'). }
  assert (nodes t1 !! old = None ∨ old = pid ∨ old = cid) as Hnew'.
  { destruct (decide (old = pid)); [tauto|]. destruct (decide (old = cid)); [tauto|].
    left. rewrite Hother1 by done. by rewrite decide_True. }
  assert (nodes t1 !! n1 = Some (if first_is_upper N nb1 then P else C)
          ∧ nodes t1 !! n2 = Some (if first_is_upper N nb1 then C else P)) as [H1 H2].
  { subst pid cid. by destruct (first_is_upper N nb1). }
  assert (combine_nodes n1 n2 old t1 = (inr tt, combined_tree n1 pid cid old P C t1)) as Hrun2.
  { rewrite <- Hcid at 2. apply combine_nodes_adjacent; try done; [|by rewrite Hcid].
    rewrite (determine_parentage_found _ _ _ _ _ H1 H2).
    subst pid cid. destruct (first_is_upper N nb1); simpl.
    - unfold is_child_of. simpl. by rewrite bool_decide_eq_true_2.
    - unfold is_child_of. simpl. rewrite bool_decide_eq_true_2 by done.
      destruct (parent N) as [q|] eqn:HNq; simpl; [|done].
      rewrite bool_decide_eq_false_2; [done|].
      intros ->. destruct Hnew1 as [Hx|Hx].
      + destruct (wf_parent _ Hwf _ _ _ HN HNq) as (m & Hm & _). congruence.
      + subst n1. destruct (wf_parent_not_child _ _ _ _ _ Hwf HN HN HNq) as (_ & _ & ?). done. }
  destruct (split_NoDup _ _ _ _ _ Hwf HN Hperm') as (Hndp & Hndc & Hdisj).
  destruct (split_new_not_child _ _ _ _ _ _ _ Hwf HN Hnewp Hnewc Hperm')
    as [[Hpp Hpcn] [Hcp Hcc]].
  assert (NoDup (nb1 ++ nb2)) as Hnd12.
  { rewrite Hperm. unfold neighbouring_nodes. destruct (parent N) as [q|] eqn:HNq.
    - apply NoDup_cons. split; [|exact (wf_nodup _ Hwf _ _ HN)].
      destruct (wf_parent _ Hwf _ _ _ HN HNq) as (Q & HQ & _).
      by destruct (wf_parent_not_child _ _ _ _ _ Hwf HQ HN HNq) as (_ & ? & _).
    - exact (wf_nodup _ Hwf _ _ HN). }
  apply NoDup_app in Hnd12 as (Hnd1 & Hnd12 & Hnd2).
  assert (first_is_upper N nb1 = true → ∀ q, parent N = Some q → q ∉ nb2) as Hup.
  { unfold first_is_upper, is_root. intros Hf q HNq. rewrite HNq in Hf. simpl in Hf.
    apply bool_decide_eq_true, elem_of_Some_fmap in Hf. by apply Hnd12. }
  assert (first_is_upper N nb1 = false → ∀ q, parent N = Some q → q ∉ nb1) as Hlow.
  { unfold first_is_upper, is_root. intros Hf q HNq. rewrite HNq in Hf. simpl in Hf.
    apply bool_decide_eq_false in Hf. by rewrite elem_of_Some_fmap in Hf. }
  assert (combined_children n1 pid cid P C
          = without_parent N nb1 ++ without_parent N nb2) as Hch.
  { unfold combined_children. simpl.
    rewrite (list_remove_app_fresh _ _ Hcp). simpl.
    subst pid cid pn cn. destruct (first_is_upper N nb1) eqn:Hf.
    - rewrite decide_False by (intros ?; done).
      by rewrite (without_parent_absent N nb2) by (by apply Hup).
    - rewrite decide_True by done.
      by rewrite (without_parent_absent N nb1) by (by apply Hlow). }
  set (nn := {| identifier := old; tag := old; parent := parent N;
                children := without_parent N nb1 ++ without_parent N nb2 |}).
  assert (combined_node n1 pid cid old P C = nn) as Hnn.
  { unfold combined_node. by rewrite Hch. }
  assert (nodes (combined_tree n1 pid cid old P C t1) = <[old := nn]> (nodes t)) as Hnodes.
  { change (nodes (combined_tree n1 pid cid old P C t1))
      with (combined_nodes n1 pid cid old P C (nodes t1)).
    apply map_eq. intros k.
    destruct (decide (k = old)) as [->|Hko].
    { rewrite lookup_insert_eq.
      by rewrite (combined_final_new _ n1 _ _ _ _ _ Hwf1 HP1 HC1 eq_refl Hnew'), Hnn. }
    rewrite lookup_insert_ne by done.
    rewrite (combined_final_other _ n1 _ _ _ _ _ Hwf1 HP1 HC1 eq_refl Hnew' _ Hko).
    destruct (decide (k = pid ∨ k = cid)) as [Hk|Hk].
    { destruct Hk as [->| ->].
      - destruct Hnewp as [?|?]; [done|]. by subst.
      - destruct Hnewc as [?|?]; [done|]. by subst. }
    rewrite Hother1 by tauto. rewrite decide_False by done.
    destruct (nodes t !! k) as [n|] eqn:Hkn; [|done]. simpl. f_equal.
    assert (nodes t1 !! k = Some (split_other old pid cid (parent N) pn cn k n)) as Hk1.
    { rewrite Hother1 by tauto. by rewrite decide_False, Hkn by done. }
    rewrite (combined_other_renamed _ _ _ _ _ _ _ _ _ Hwf1 HP1 HC1 eq_refl Hnew' Hk1)
      by tauto.
    rewrite (split_other_renamed _ _ _ _ _ _ _ _ _ Hwf HN Hpc Hnewp Hnewc Hperm' Hkn Hko).
    assert (∀ x, is_Some (nodes t !! x) → x ≠ old → x ≠ pid ∧ x ≠ cid) as Hfresh.
    { intros x Hx Hxo. by apply (split_key_new t old pid cid Hnewp Hnewc). }
    unfold rename_node. destruct n as [idn tg par cs]. simpl in *. f_equal.
    - destruct (decide (par = Some old)) as [->|Hpar]; simpl.
      + unfold renamed. destruct (decide (k ∈ pn)); rewrite decide_True; tauto.
      + destruct par as [x|]; [|done]. simpl. unfold renamed.
        rewrite decide_False; [done|].
        destruct (wf_parent _ Hwf _ _ _ Hkn eq_refl) as (m & Hm & _).
        destruct (Hfresh x) as [? ?]; [by eexists|congruence|]. tauto.
    - rewrite <- list_fmap_compose. rewrite <- (list_fmap_id cs) at 2.
      apply list_fmap_ext. intros _ x Hx%list_elem_of_lookup_2. unfold compose.
      unfold renamed at 2. destruct (decide (x = old ∨ x = old)) as [Hxo|Hxo].
      + unfold renamed. rewrite decide_True by (by left).
        by destruct Hxo as [->| ->].
      + destruct (wf_children _ Hwf _ _ _ Hkn Hx) as (m & Hm & _).
        destruct (Hfresh x) as [? ?]; [by eexists|tauto|].
        unfold renamed. rewrite decide_False; [done|]. tauto. }
  exists t1, (combined_tree n1 pid cid old P C t1).
  split; [exact Hrun|]. split; [exact Hrun2|].
  assert (root_id (combined_tree n1 pid cid old P C t1) = root_id t) as Hroot.
  { simpl. unfold is_root. simpl. destruct (parent N) as [q|] eqn:HNq; [done|].
    symmetry. by eapply wf_one_root. }
  split_and!; [done|done|].
  intros Heq Htag.
  assert (∀ a b : TreeStructure, nodes a = nodes b → root_id a = root_id b → a = b) as Hext.
  { intros [? ?] [? ?]. simpl. by intros -> ->. }
  apply Hext; [|done]. rewrite Hnodes. apply insert_id. rewrite HN. f_equal.
  unfold nn. destruct N as [idn tg par cs]. simpl in *.
  assert (idn = old) as -> by (by apply (wf_ident _ Hwf _ _ HN)). subst tg. f_equal.
  unfold neighbouring_nodes in Heq. simpl in Heq. unfold without_parent. simpl.
  destruct par as [q|]; [|done].
  destruct nb1 as [|a nb1].
  - simpl in Heq. subst nb2. unfold without. simpl. by rewrite decide_True.
  - simpl in Heq. injection Heq as -> Heq. unfold without at 1. simpl.
    rewrite decide_True by done. simpl. rewrite without_absent; [done|].
    apply Hnd12. by left.
Qed.

Lemma split_then_combine_witness :
  ∃ t1 t2,
    split_node "" "" "root" "up" ["c1"] "down" ["c2"] chain_tree = (inr tt, t1)
    ∧ combine_nodes "up" "down" "root" t1 = (inr tt, t2)
    ∧ root_id t2 = root_id chain_tree
    ∧ nodes t2
      = <["root" := {| identifier := "root"; tag := "root"; parent := None;
                       children := ["c1"; "c2"] |}]> (nodes chain_tree)
    ∧ (["c1"] ++ ["c2"] = ["c1"; "c2"] → "root" = "root" → t2 = chain_tree).
Proof.
  refine (split_then_combine "" "" chain_tree "root" (mkNode "root" "root" None ["c1"; "c2"])
            "up" ["c1"] "down" ["c2"] wf_chain_tree _ _ _ _ _ _ _ _).
  - reflexivity.
  - done.
  - done.
  - done.
  - done.
  - by left.
  - by left.
  - reflexivity.
Defined.

(** ** time_evolution.py: the loop of [run] *)

Section run_facts.
Context {State Operator : Type}.
Variable one_time_step : State → exn + State.
Variable operator_expectation_value : State → Operator → exn + complex.
Variable next : State → State.
Variable value : State → Operator → complex.
Hypothesis step_total : ∀ s, one_time_step s = inr (next s).
Hypothesis value_total : ∀ s op, operator_expectation_value s op = inr (value s op).

Lemma expectation_values_total s ops :
  expectation_values operator_expectation_value s ops = inr (value s <$> ops).
Proof.
  induction ops as [|op ops IH]; [done|].
  simpl. rewrite value_total. simpl. by rewrite IH.
Qed.

Lemma record_column_length index current time r :
  length (record_column index current time r) = length r.
Proof. unfold record_column. by rewrite length_imap. Qed.

Lemma record_column_rows index current time r columns :
  Forall (λ line, length line = columns) r →
  Forall (λ line, length line = columns) (record_column index current time r).
Proof.
  intros Hr. unfold record_column. apply Forall_lookup. intros row line.
  rewrite list_lookup_imap. destruct (r !! row) as [old|] eqn:Hold; [|done]. simpl.
  intros [= <-]. pose proof (Forall_lookup_1 _ _ _ _ Hr Hold) as Hlen. simpl in Hlen.
  destruct (decide (row = _)); [by rewrite length_insert|].
  destruct (current !! row); [by rewrite length_insert|done].
Qed.

Lemma record_column_entry index current time r columns row column :
  Forall (λ line, length line = columns) r → (index < columns)%nat →
  (row < length r)%nat → length current = (length r - 1)%nat →
  entry (record_column index current time r) row column
  = if decide (column = index)
    then (if decide (row = length r - 1)%nat then Some time else current !! row)
    else entry r row column.
Proof.
  intros Hr Hi Hrow Hcur. unfold entry, record_column. rewrite list_lookup_imap.
  destruct (lookup_lt_is_Some_2 r row Hrow) as [line Hline]. rewrite Hline. simpl.
  pose proof (Forall_lookup_1 _ _ _ _ Hr Hline) as Hlen. simpl in Hlen.
  destruct (decide (row = length r - 1)%nat) as [Hlast|Hlast].
  - destruct (decide (column = index)) as [->|Hc].
    + by rewrite list_lookup_insert_eq by lia.
    + by rewrite list_lookup_insert_ne.
  - destruct (lookup_lt_is_Some_2 current row) as [x Hx]; [lia|]. rewrite Hx.
    destruct (decide (column = index)) as [->|Hc].
    + by rewrite list_lookup_insert_eq by lia.
    + by rewrite list_lookup_insert_ne.
Qed.

Lemma run_round_invariant (evaluation_time : positive) te0 k te :
  (k ≤ Z.to_nat (_num_time_steps te0))%nat →
  run_invariant next value evaluation_time te0 k te →
  ∃ te', run_round one_time_step operator_expectation_value evaluation_time k te = (inr tt, te')
    ∧ run_invariant next value evaluation_time te0 (S k) te'.
Proof.
  intros Hk (Hs & Hi & Hdt & Hft & Hn & Hops & r & Hr & Hlen & Hrows & Hcols).
  set (e := Pos.to_nat evaluation_time) in *.
  assert (0 < e)%nat as He by (subst e; lia).
  set (s' := Nat.iter k next (te_state te0)).
  set (te1 := set_te_state s' te).
  assert ((if decide (k ≠ 0%nat) then run_step one_time_step else mret tt) te = (inr tt, te1)) as Hstep.
  { destruct (decide (k ≠ 0%nat)) as [Hk0|Hk0].
    - unfold run_step. erewrite bind_inr; [|reflexivity].
      erewrite bind_inr; [|unfold lift; by rewrite step_total].
      unfold put, te1, s'. do 2 f_equal. rewrite Hs.
      destruct k as [|k]; [done|]. simpl. by rewrite Nat.sub_0_r.
    - apply dec_stable in Hk0. subst k. unfold te1, s'. simpl in *.
      rewrite <- Hs. by destruct te. }
  unfold run_round. erewrite bind_inr; [|exact Hstep].
  erewrite bind_inr; [|reflexivity]. simpl. rewrite Hr.
  rewrite (bool_decide_eq_true_2 (0 < length r)%nat) by lia. rewrite andb_true_r.
  fold e. case_bool_decide as Hmod.
  - erewrite bind_inr; cycle 1.
    { unfold evaluate_operators. erewrite bind_inr; [|reflexivity].
      unfold lift. simpl. by rewrite expectation_values_total. }
    erewrite bind_inr; [|reflexivity]. eexists. split; [reflexivity|].
    unfold run_invariant. simpl. rewrite Nat.sub_0_r. split_and!; try done.
    eexists. split; [reflexivity|]. rewrite record_column_length.
    split; [done|]. split; [by apply record_column_rows|].
    assert (k / e < S (Z.to_nat (_num_time_steps te0) / e))%nat as Hcol.
    { apply Nat.lt_succ_r. by apply Nat.Div0.div_le_mono. }
    assert (length (value s' <$> te_operators te) = (length r - 1)%nat) as Hcur.
    { rewrite length_fmap, Hops, Hlen. lia. }
    intros i Hik Himod. unfold measured.
    destruct (decide (i = k)) as [->|Hne].
    + split.
      * intros row op Hop. pose proof (lookup_lt_Some _ _ _ Hop) as Hrow.
        erewrite record_column_entry; [|done|done|lia|done].
        rewrite decide_True by done. rewrite decide_False by lia.
        by rewrite list_lookup_fmap, Hops, Hop.
      * erewrite record_column_entry; [|done|done|lia|done].
        rewrite decide_True by done. rewrite decide_True by lia. by rewrite Hdt.
    + assert (i / e ≠ k / e)%nat as Hc.
      { intros E. apply Hne.
        pose proof (Nat.div_mod_eq i e) as Ei. pose proof (Nat.div_mod_eq k e) as Ek.
        fold e in Himod. rewrite Himod, E in Ei. rewrite Hmod in Ek. congruence. }
      destruct (Hcols i) as [Hm1 Hm2]; [lia|done|].
      split.
      * intros row op Hop. pose proof (lookup_lt_Some _ _ _ Hop) as Hrow.
        erewrite record_column_entry; [|done|done|lia|done].
        rewrite decide_False by done. by apply Hm1.
      * erewrite record_column_entry; [|done|done|lia|done].
        rewrite decide_False by done. done.
  - eexists. split; [reflexivity|].
    unfold run_invariant. simpl. rewrite Nat.sub_0_r. split_and!; try done.
    exists r. split_and!; try done.
    intros i Hik Himod. apply Hcols; [|done].
    destruct (decide (i = k)) as [->|]; [done|lia].
Qed.

Lemma run_rounds_invariant (evaluation_time : positive) te0 len :
  ∀ a te, (a + len ≤ S (Z.to_nat (_num_time_steps te0)))%nat →
  run_invariant next value evaluation_time te0 a te →
  ∃ te', for_each (seq a len)
           (run_round one_time_step operator_expectation_value evaluation_time) te
         = (inr tt, te')
    ∧ run_invariant next value evaluation_time te0 (a + len) te'.
Proof.
  induction len as [|len IH]; intros a te Hle Hinv.
  - exists te. rewrite Nat.add_0_r. done.
  - destruct (run_round_invariant evaluation_time te0 a te) as (te1 & Hrun & Hinv1);
      [lia|done|].
    destruct (IH (S a) te1) as (te2 & Hrun2 & Hinv2); [lia|done|].
    exists te2. split.
    + simpl. erewrite bind_inr; [|exact Hrun]. exact Hrun2.
    + by replace (a + S len)%nat with (S a + len)%nat by lia.
Qed.

End run_facts.

(** X26: [run] measures at the steps 0, e, 2e, ... for [evaluation_time] e.
    When the time step and the expectation values raise nothing and the
    number of time steps is not negative, [run] raises nothing, leaves the
    state advanced by [num_time_steps] steps, and its array of results has one
    row for each operator and a last row for the times; its column c holds the
    expectation values of the operators in the state reached after c*e steps,
    and the time c*e*time_step_size, for every c with c*e <= num_time_steps. *)
Theorem run_measures {State Operator : Type}
    (one_time_step : State → exn + State)
    (operator_expectation_value : State → Operator → exn + complex)
    (next : State → State) (value : State → Operator → complex)
    (evaluation_time : positive) (te : TimeEvolution State Operator) :
  (∀ s, one_time_step s = inr (next s)) →
  (∀ s op, operator_expectation_value s op = inr (value s op)) →
  (0 ≤ _num_time_steps te)%Z →
  ∃ te' r,
    run one_time_step operator_expectation_value evaluation_time te = (inr tt, te')
    ∧ te_state te' = Nat.iter (Z.to_nat (_num_time_steps te)) next (te_state te)
    ∧ _results te' = Some r
    ∧ length r = S (length (te_operators te))
    ∧ ∀ c : nat, (c * Pos.to_nat evaluation_time ≤ Z.to_nat (_num_time_steps te))%nat →
        (∀ row op, te_operators te !! row = Some op →
           entry r row c
           = Some (value (Nat.iter (c * Pos.to_nat evaluation_time) next (te_state te)) op))
        ∧ entry r (length (te_operators te)) c
          = Some (C_of_Q (Q2Qc (inject_Z (Z.of_nat (c * Pos.to_nat evaluation_time)))
                          * _time_step_size te)%Qc).
Proof.
  intros Hstep Hvalue Hn.
  set (e := Pos.to_nat evaluation_time).
  assert (0 < e)%nat as He by (subst e; lia).
  set (columns := (_num_time_steps te `div` Z.pos evaluation_time + 1)%Z).
  assert (0 ≤ _num_time_steps te `div` Z.pos evaluation_time)%Z as Hdiv
    by (apply Z.div_pos; lia).
  assert (Z.to_nat columns = S (Z.to_nat (_num_time_steps te) / e)) as Hcolumns.
  { unfold columns. rewrite Z2Nat.inj_add by lia.
    rewrite Z2Nat.inj_div by lia. rewrite Z2Nat.inj_pos. fold e.
    change (Z.to_nat 1) with 1%nat. lia. }
  set (te1 := set_results
                (Some (replicate (length (te_operators te) + 1)
                         (replicate (Z.to_nat columns) (C_of_Z 0)))) te).
  assert (_init_results evaluation_time te = (inr tt, te1)) as Hinit.
  { unfold _init_results. erewrite bind_inr; [|reflexivity]. simpl.
    fold columns. rewrite decide_False by lia. done. }
  assert (run_invariant next value evaluation_time te 0 te1) as Hinv.
  { unfold run_invariant. split_and!; try done.
    eexists. split; [reflexivity|]. rewrite length_replicate.
    split; [lia|]. split; [|intros; lia].
    apply Forall_replicate. fold e. by rewrite length_replicate. }
  destruct (run_rounds_invariant one_time_step operator_expectation_value next value
              Hstep Hvalue evaluation_time te (S (Z.to_nat (_num_time_steps te))) 0%nat te1)
    as (te2 & Hrun & Hs & _ & _ & _ & _ & _ & r & Hr & Hlen & _ & Hcols); [lia|done|].
  exists te2, r. split.
  { unfold run. erewrite bind_inr; [|exact Hinit].
    erewrite bind_inr; [|reflexivity].
    replace (Z.to_nat (_num_time_steps te1 + 1)) with (S (Z.to_nat (_num_time_steps te)))
      by (simpl; lia).
    exact Hrun. }
  split. { rewrite Hs. simpl. by rewrite Nat.sub_0_r. }
  split; [done|]. split; [done|].
  intros c Hc. fold e in Hc |- *.
  destruct (Hcols (c * e)%nat) as [H1 H2]; [simpl; lia|fold e; by apply Nat.Div0.mod_mul|].
  fold e in H1, H2. rewrite Nat.div_mul in H1, H2 by lia. done.
Qed.

Lemma run_measures_witness :
  let te : TimeEvolution nat Z :=
    mkTimeEvolution 0%nat 0%nat (Q2Qc (1 # 2)) (Q2Qc 2) 4%Z [1%Z; 2%Z] None in
  let value := λ (s : nat) (op : Z), C_of_Z (Z.of_nat s * op) in
  ∃ te' r,
    run (λ s, inr (S s)) (λ s op, inr (value s op)) 2%positive te = (inr tt, te')
    ∧ te_state te' = 4%nat
    ∧ _results te' = Some r
    ∧ entry r 1 1 = Some (C_of_Z 4)
    ∧ entry r 2 2 = Some (C_of_Z 2).
Proof.
  intros te value.
  destruct (run_measures (λ s, inr (S s)) (λ s op, inr (value s op)) S value
              2%positive te) as (te' & r & Hrun & Hs & Hr & _ & Hc);
    [done|done|simpl; lia|].
  exists te', r. split; [exact Hrun|]. split; [exact Hs|]. split; [exact Hr|].
  split.
  - destruct (Hc 1%nat) as [H1 _]; [simpl; lia|]. exact (H1 1%nat 2%Z eq_refl).
  - destruct (Hc 2%nat) as [_ H2]; [simpl; lia|].
    refine (eq_trans H2 _). f_equal. unfold C_of_Q, C_of_Z. f_equal.
    by apply Qc_is_canon.
Defined.

(** * Subtrees and distances *)

Lemma nth_parent_add t i j k :
  nth_parent t (i + j) k = nth_parent t i k ≫= nth_parent t j.
Proof.
  revert k. induction i as [|i IH]; intros k; simpl; [done|].
  destruct (nodes t !! k) as [n|]; [|done].
  destruct (parent n); [apply IH|done].
Qed.

Lemma nth_parent_known t i k x n :
  wf t → nodes t !! k = Some n → nth_parent t i k = Some x → is_Some (nodes t !! x).
Proof.
  intros Hwf. revert k n. induction i as [|i IH]; intros k n Hk Hi; simpl in Hi.
  - by simplify_eq.
  - rewrite Hk in Hi. destruct (parent n) as [p|] eqn:Hp; [|done].
    destruct (wf_parent _ Hwf _ _ _ Hk Hp) as (m & Hm & _). by eapply IH.
Qed.

Lemma nth_parent_depth t (depth : string → nat) i k x :
  (∀ c m p, nodes t !! c = Some m → parent m = Some p → (depth p < depth c)%nat) →
  nth_parent t i k = Some x → (depth x + i ≤ depth k)%nat.
Proof.
  intros Hd. revert k. induction i as [|i IH]; intros k Hi; simpl in Hi.
  - simplify_eq. lia.
  - destruct (nodes t !! k) as [n|] eqn:Hk; [|done].
    destruct (parent n) as [p|] eqn:Hp; [|done].
    specialize (IH _ Hi). specialize (Hd _ _ _ Hk Hp). lia.
Qed.

(** The nodes [i + 1] levels below [x] are those [i] levels below a child
    of [x]. *)
Lemma nth_parent_child t x X i k :
  wf t → nodes t !! x = Some X →
  nth_parent t (S i) k = Some x ↔ ∃ c, c ∈ children X ∧ nth_parent t i k = Some c.
Proof.
  intros Hwf HX. replace (S i) with (i + 1)%nat by lia. rewrite nth_parent_add. split.
  - intros Hi. destruct (nth_parent t i k) as [c|] eqn:Hc; [|done]. simpl in Hi.
    destruct (nodes t !! c) as [m|] eqn:Hm; [|done].
    destruct (parent m) as [p|] eqn:Hp; [|done]. simplify_eq.
    destruct (wf_parent _ Hwf _ _ _ Hm Hp) as (X' & HX' & Hin).
    exists c. split; [congruence|done].
  - intros (c & Hin & ->). simpl.
    destruct (wf_children _ Hwf _ _ _ HX Hin) as (m & -> & ->). done.
Qed.

(** A chain of parents never repeats a node, so it is shorter than the
    tree is large. *)
Lemma nth_parent_lt_size t i k x n :
  wf t → nodes t !! k = Some n → nth_parent t i k = Some x → (i < size (nodes t))%nat.
Proof.
  intros Hwf Hk Hi. destruct (wf_depth _ Hwf) as [depth Hd].
  assert (∃ seen : gset string, seen ⊆ dom (nodes t) ∧ size seen = S i
            ∧ ∀ y, y ∈ seen → (depth y ≤ depth k)%nat) as (seen & Hsub & Hsize & _).
  { revert k n Hk Hi. induction i as [|i IH]; intros k n Hk Hi; simpl in Hi.
    - exists {[k]}. split_and!.
      + apply singleton_subseteq_l, elem_of_dom. by eexists.
      + by rewrite size_singleton.
      + intros y ->%elem_of_singleton. done.
    - rewrite Hk in Hi. destruct (parent n) as [p|] eqn:Hp; [|done].
      destruct (wf_parent _ Hwf _ _ _ Hk Hp) as (m & Hm & _).
      destruct (IH _ _ Hm Hi) as (seen & Hsub & Hsize & Hdepth).
      specialize (Hd _ _ _ Hk Hp).
      assert (k ∉ seen) as Hfresh by (intros ?%Hdepth; lia).
      exists ({[k]} ∪ seen). split_and!.
      + apply union_subseteq. split; [|done].
        apply singleton_subseteq_l, elem_of_dom. by eexists.
      + rewrite size_union by set_solver. rewrite size_singleton. lia.
      + intros y [->%elem_of_singleton|?%Hdepth]%elem_of_union; lia. }
  apply subseteq_size in Hsub. rewrite size_dom in Hsub. lia.
Qed.

Lemma wf_reaches_root t r k n :
  wf t → root_id t = Some r → nodes t !! k = Some n → ∃ i, nth_parent t i k = Some r.
Proof.
  intros Hwf Hr. destruct (wf_depth _ Hwf) as [depth Hd].
  remember (depth k) as d eqn:Hdk. revert k n Hdk.
  induction d as [d IH] using lt_wf_ind. intros k n -> Hk.
  destruct (parent n) as [p|] eqn:Hp.
  - destruct (wf_parent _ Hwf _ _ _ Hk Hp) as (m & Hm & _).
    destruct (IH (depth p) (Hd _ _ _ Hk Hp) p m eq_refl Hm) as [i Hi].
    exists (S i). simpl. by rewrite Hk, Hp.
  - pose proof (wf_one_root _ Hwf _ _ Hk Hp). exists 0%nat. simpl. congruence.
Qed.

(** Two children of a node have no node below both of them, and the node
    itself is below none of them. *)
Lemma siblings_disjoint t x X c1 c2 i j k :
  wf t → nodes t !! x = Some X → c1 ∈ children X → c2 ∈ children X →
  nth_parent t i k = Some c1 → nth_parent t j k = Some c2 → c1 = c2.
Proof.
  intros Hwf HX H1 H2 Hi Hj. destruct (wf_depth _ Hwf) as [depth Hd].
  destruct (wf_children _ Hwf _ _ _ HX H1) as (m1 & Hm1 & Hp1).
  destruct (wf_children _ Hwf _ _ _ HX H2) as (m2 & Hm2 & Hp2).
  assert (∀ a b ma mb i j, nodes t !! a = Some ma → parent ma = Some x →
            nodes t !! b = Some mb → parent mb = Some x →
            nth_parent t i k = Some a → nth_parent t j k = Some b → (i < j)%nat → False) as Hlt.
  { intros a b ma mb i' j' Ha Hpa Hb Hpb Hi' Hj' Hij.
    replace j' with (i' + S (j' - i' - 1))%nat in Hj' by lia.
    rewrite nth_parent_add, Hi' in Hj'. simpl in Hj'. rewrite Ha, Hpa in Hj'.
    apply (nth_parent_depth t depth) in Hj'; [|done].
    specialize (Hd _ _ _ Hb Hpb). lia. }
  destruct (lt_eq_lt_dec i j) as [[Hij|Hij]|Hij].
  - exfalso. by eapply (Hlt c1 c2).
  - congruence.
  - exfalso. by eapply (Hlt c2 c1).
Qed.

Lemma child_not_above t x X c i :
  wf t → nodes t !! x = Some X → c ∈ children X → nth_parent t i x = Some c → False.
Proof.
  intros Hwf HX Hin Hi. destruct (wf_depth _ Hwf) as [depth Hd].
  destruct (wf_children _ Hwf _ _ _ HX Hin) as (m & Hm & Hp).
  apply (nth_parent_depth t depth) in Hi; [|done].
  specialize (Hd _ _ _ Hm Hp). lia.
Qed.

(** A loop that updates a dict with one dict for each element, when the
    dicts share no key. *)
Lemma foldl_dict_update {V} (step : exn + list (string * V) → string → exn + list (string * V))
    (dc : string → list (string * V)) (cs : list string) :
  ∀ d0, (∀ acc c, c ∈ cs → step (inr acc) c = inr (dict_update acc (dc c))) →
  NoDup (d0.*1 ++ (cs ≫= λ c, (dc c).*1)) →
  foldl step (inr d0) cs = inr (d0 ++ (cs ≫= dc)).
Proof.
  induction cs as [|c cs IH]; intros d0 Hstep Hnd; csimpl.
  - by rewrite app_nil_r.
  - csimpl in Hnd. rewrite Hstep by (by left).
    apply NoDup_app in Hnd as (Hd0 & Hfresh & Hrest).
    apply NoDup_app in Hrest as (Hc & Hcfresh & Hcs).
    rewrite dict_update_fresh; [|done|].
    + rewrite IH.
      * by rewrite <- app_assoc.
      * intros acc c' Hc'. apply Hstep. by right.
      * rewrite fmap_app. apply NoDup_app. split_and!.
        -- apply NoDup_app. split_and!; [done| |done].
           intros a Ha Hac. apply (Hfresh a Ha). apply elem_of_app. by left.
        -- intros a [Ha|Ha]%elem_of_app Hacs.
           ++ apply (Hfresh a Ha). apply elem_of_app. by right.
           ++ by apply (Hcfresh a Ha).
        -- done.
    + intros a Ha Had0. apply (Hfresh a Had0). apply elem_of_app. by left.
Qed.

Lemma foldl_sizes {V} (step : exn + nat → string → exn + nat)
    (dc : string → list (string * V)) (cs : list string) :
  ∀ s0, (∀ acc c, c ∈ cs → step (inr acc) c = inr (acc + length (dc c))%nat) →
  foldl step (inr s0) cs = inr (s0 + length (cs ≫= dc))%nat.
Proof.
  induction cs as [|c cs IH]; intros s0 Hstep; csimpl.
  - by rewrite Nat.add_0_r.
  - rewrite Hstep by (by left). rewrite IH.
    + rewrite length_app. f_equal. lia.
    + intros acc c' Hc'. apply Hstep. by right.
Qed.

Lemma bind_fst {V} (dc : string → list (string * V)) (l : list string) :
  (l ≫= dc).*1 = l ≫= λ c, (dc c).*1.
Proof. induction l as [|a l IH]; csimpl; [done|]. by rewrite fmap_app, IH. Qed.

(** The keys of the dicts collected below the children of a node. *)
Lemma below_children_NoDup {V} t x X (v : V) (dc : string → list (string * V)) :
  wf t → nodes t !! x = Some X →
  (∀ c, c ∈ children X → NoDup (dc c).*1) →
  (∀ c k, c ∈ children X → k ∈ (dc c).*1 → ∃ i, nth_parent t i k = Some c) →
  NoDup ([(x, v)].*1 ++ (children X ≫= λ c, (dc c).*1)).
Proof.
  intros Hwf HX Hnd Hbelow. csimpl. apply NoDup_cons. split.
  - intros (c & Hk & Hc)%list_elem_of_bind.
    destruct (Hbelow _ _ Hc Hk) as [i Hi]. by eapply child_not_above.
  - apply NoDup_bind_disjoint.
    + by eapply wf_nodup.
    + done.
    + intros c1 c2 k H1 H2 Hne Hk1 Hk2.
      destruct (Hbelow _ _ H1 Hk1) as [i Hi]. destruct (Hbelow _ _ H2 Hk2) as [j Hj].
      apply Hne. by eapply siblings_disjoint.
Qed.

Lemma subtree_ok t :
  wf t → ∀ fuel x X, nodes t !! x = Some X →
  (∀ k i, is_Some (nodes t !! k) → nth_parent t i k = Some x → (i < fuel)%nat) →
  ∃ d, find_subtree_of_node fuel t x = inr ((x, X) :: d)
    ∧ find_subtree_size_of_node fuel t x 0 = inr (S (length d))
    ∧ NoDup ((x, X) :: d).*1
    ∧ ∀ k m, (k, m) ∈ (x, X) :: d
             ↔ nodes t !! k = Some m ∧ ∃ i, nth_parent t i k = Some x.
Proof.
  intros Hwf. induction fuel as [|fuel IH]; intros x X HX Hbound.
  { specialize (Hbound x 0%nat (mk_is_Some _ _ HX) eq_refl). lia. }
  set (dc := λ c, match find_subtree_of_node fuel t c with inr d => d | inl _ => [] end).
  assert (∀ c, c ∈ children X →
            find_subtree_of_node fuel t c = inr (dc c)
            ∧ find_subtree_size_of_node fuel t c 0 = inr (length (dc c))
            ∧ NoDup (dc c).*1
            ∧ ∀ k m, (k, m) ∈ dc c ↔ nodes t !! k = Some m ∧ ∃ i, nth_parent t i k = Some c)
    as Hchild.
  { intros c Hc. destruct (wf_children _ Hwf _ _ _ HX Hc) as (m & Hm & Hp).
    destruct (IH c m Hm) as (d & Hd & Hrest).
    - intros k i Hk Hi. apply Nat.succ_lt_mono. apply (Hbound k (S i) Hk).
      apply (nth_parent_child t x X i k Hwf HX). by exists c.
    - unfold dc. by rewrite Hd. }
  exists (children X ≫= dc).
  assert (NoDup ([(x, X)].*1 ++ (children X ≫= λ c, (dc c).*1))) as Hnd.
  { apply (below_children_NoDup t x X X dc Hwf HX).
    - intros c Hc. by apply Hchild.
    - intros c k Hc ([k' m] & -> & Hkm)%list_elem_of_fmap.
      apply Hchild in Hkm as [_ Hi]; done. }
  split_and!.
  - simpl. rewrite HX. unfold is_leaf, has_x_children. case_bool_decide as Hleaf.
    + apply length_zero_iff_nil in Hleaf. by rewrite Hleaf.
    + rewrite (foldl_dict_update _ dc); [done| |done].
      intros acc c Hc. destruct (Hchild c Hc) as (-> & _). done.
  - simpl. rewrite HX. unfold is_leaf, has_x_children. case_bool_decide as Hleaf.
    + apply length_zero_iff_nil in Hleaf. by rewrite Hleaf.
    + rewrite (foldl_sizes _ dc); [done|].
      intros acc c Hc. destruct (Hchild c Hc) as (_ & -> & _). done.
  - change ((x, X) :: (children X ≫= dc)) with ([(x, X)] ++ (children X ≫= dc)).
    by rewrite fmap_app, bind_fst.
  - intros k m. rewrite elem_of_cons, list_elem_of_bind. split.
    + intros [Heq|(c & Hkm & Hc)].
      * simplify_eq. split; [done|]. by exists 0%nat.
      * destruct (Hchild c Hc) as (_ & _ & _ & Hspec).
        apply Hspec in Hkm as (Hk & i & Hi). split; [done|]. exists (S i).
        apply (nth_parent_child t x X i k Hwf HX). by exists c.
    + intros (Hk & [|i] & Hi).
      * simpl in Hi. simplify_eq. by left.
      * apply (nth_parent_child t x X i k Hwf HX) in Hi as (c & Hc & Hi).
        right. exists c. split; [|done].
        destruct (Hchild c Hc) as (_ & _ & _ & Hspec). apply Hspec. eauto.
Qed.

Lemma foldl_raised {A} (step : exn + A → string → exn + A) (cs : list string) e :
  (∀ c, step (inl e) c = inl e) → foldl step (inl e) cs = inl e.
Proof. intros Hstep. induction cs as [|c cs IH]; simpl; [done|]. by rewrite Hstep. Qed.

(** The argument [size] is added to the count, except at a leaf. *)
Lemma find_subtree_size_shift fuel t x X size r :
  nodes t !! x = Some X →
  find_subtree_size_of_node fuel t x 0 = inr r →
  find_subtree_size_of_node fuel t x size
  = inr (if is_leaf X then 1%nat else (size + r)%nat).
Proof.
  intros HX. destruct fuel as [|fuel]; simpl; [done|]. rewrite HX.
  destruct (is_leaf X); [done|].
  change (0 + 1)%nat with 1%nat. generalize 1%nat. revert r.
  induction (children X) as [|c cs IH] using rev_ind; intros r a; simpl.
  - intros [= <-]. f_equal; lia.
  - rewrite !foldl_app. simpl.
    destruct (foldl _ (inr a) cs) as [e|v] eqn:Hv; [done|].
    rewrite (IH v a Hv). simpl.
    destruct (find_subtree_size_of_node fuel t c 0) as [e|w]; [done|].
    simpl. intros [= <-]. f_equal; lia.
Qed.

(** X27: [find_subtree_of_node] collects the nodes below a node.  On a
    well-formed tree (and a recursion limit that is not smaller than the
    tree) an unknown identifier raises ValueError; for a node of the tree
    the result starts with that node, names no node twice, and holds exactly
    the nodes of the tree from which following the parent some number of
    times (possibly zero) leads to the node, each with its node object. *)
Theorem find_subtree_of_node_spec (t : TreeStructure) (fuel : nat) (node_id : string) :
  wf t → (size (nodes t) ≤ fuel)%nat →
  (nodes t !! node_id = None → find_subtree_of_node fuel t node_id = inl ValueError)
  ∧ (∀ n, nodes t !! node_id = Some n →
       ∃ d, find_subtree_of_node fuel t node_id = inr ((node_id, n) :: d)
         ∧ NoDup ((node_id, n) :: d).*1
         ∧ ∀ k m, (k, m) ∈ (node_id, n) :: d
                  ↔ nodes t !! k = Some m ∧ ∃ i, nth_parent t i k = Some node_id).
Proof.
  intros Hwf Hfuel. split.
  - intros Hnone. destruct fuel as [|fuel]; simpl; [|by rewrite Hnone].
    destruct (wf_root _ Hwf) as (r & nr & _ & Hr & _).
    assert (size (nodes t) ≠ 0)%nat; [|lia].
    intros E%map_size_empty_inv. by rewrite E, lookup_empty in Hr.
  - intros n Hn.
    destruct (subtree_ok t Hwf fuel node_id n Hn) as (d & Hd & _ & Hnd & Hspec); [|by exists d].
    intros k i [m Hk] Hi. pose proof (nth_parent_lt_size _ _ _ _ _ Hwf Hk Hi). lia.
Qed.

Lemma find_subtree_of_node_spec_witness :
  ∃ n d, nodes chain_tree !! "root" = Some n
    ∧ find_subtree_of_node 3 chain_tree "root" = inr (("root", n) :: d)
    ∧ NoDup (("root", n) :: d).*1
    ∧ ∀ k m, (k, m) ∈ ("root", n) :: d
             ↔ nodes chain_tree !! k = Some m ∧ ∃ i, nth_parent chain_tree i k = Some "root".
Proof.
  eexists.
  destruct (find_subtree_of_node_spec chain_tree 3 "root" wf_chain_tree) as [_ H];
    [vm_compute; lia|].
  destruct (H _ eq_refl) as (d & Hd). exists d. split; [reflexivity|exact Hd].
Defined.

(** The subtree below the root is the whole tree. *)
Lemma subtree_of_root_length t r (d : list (string * Node)) :
  wf t → root_id t = Some r → NoDup d.*1 →
  (∀ k m, (k, m) ∈ d ↔ nodes t !! k = Some m ∧ ∃ i, nth_parent t i k = Some r) →
  length d = size (nodes t).
Proof.
  intros Hwf Hr Hnd Hspec.
  rewrite <- (length_map_to_list (nodes t)), <- (length_fmap fst d),
    <- (length_fmap fst (map_to_list (nodes t))).
  apply Permutation_length, NoDup_Permutation; [done|apply NoDup_fst_map_to_list|].
  intros k. rewrite !list_elem_of_fmap. split.
  - intros ([k' m] & -> & Hkm). apply Hspec in Hkm as [Hk _].
    exists (k', m). split; [done|]. by apply elem_of_map_to_list.
  - intros ([k' m] & -> & Hkm%elem_of_map_to_list).
    exists (k', m). split; [done|]. apply Hspec. split; [done|].
    by eapply wf_reaches_root.
Qed.

(** X28: [find_subtree_size_of_node] counts the entries of
    [find_subtree_of_node].  On a well-formed tree (and a recursion limit that
    is not smaller than the tree) an unknown identifier raises ValueError; for
    a leaf the result is 1 whatever [size] is given; for another node it is
    [size] plus the number of nodes that [find_subtree_of_node] returns; and
    with the default [size] of 0 the result at the root is the number of nodes
    of the tree. *)
Theorem find_subtree_size_of_node_counts (t : TreeStructure) (fuel : nat)
    (node_id : string) (size0 : nat) :
  wf t → (size (nodes t) ≤ fuel)%nat →
  (nodes t !! node_id = None
   → find_subtree_size_of_node fuel t node_id size0 = inl ValueError)
  ∧ (∀ n, nodes t !! node_id = Some n →
       ∃ d, find_subtree_of_node fuel t node_id = inr d
         ∧ find_subtree_size_of_node fuel t node_id size0
           = inr (if is_leaf n then 1%nat else (size0 + length d)%nat)
         ∧ (is_leaf n = true → length d = 1%nat)
         ∧ (root_id t = Some node_id → length d = len t)).
Proof.
  intros Hwf Hfuel. split.
  - intros Hnone. destruct fuel as [|fuel]; simpl; [|by rewrite Hnone].
    destruct (wf_root _ Hwf) as (r & nr & _ & Hr & _).
    assert (size (nodes t) ≠ 0)%nat; [|lia].
    intros E%map_size_empty_inv. by rewrite E, lookup_empty in Hr.
  - intros n Hn.
    destruct (subtree_ok t Hwf fuel node_id n Hn) as (d & Hd & Hsize & Hnd & Hspec).
    { intros k i [m Hk] Hi. pose proof (nth_parent_lt_size _ _ _ _ _ Hwf Hk Hi). lia. }
    exists ((node_id, n) :: d). split_and!.
    + done.
    + by apply find_subtree_size_shift.
    + intros Hleaf. destruct fuel as [|fuel]; simpl in Hd; [done|].
      rewrite Hn, Hleaf in Hd. by simplify_eq.
    + intros Hr. by apply (subtree_of_root_length t node_id).
Qed.

Lemma find_subtree_size_of_node_counts_witness :
  find_subtree_size_of_node 3 chain_tree "root" 0 = inr 3%nat
  ∧ find_subtree_size_of_node 3 chain_tree "c1" 5 = inr 1%nat.
Proof.
  split.
  - destruct (find_subtree_size_of_node_counts chain_tree 3 "root" 0 wf_chain_tree)
      as [_ H]; [vm_compute; lia|].
    destruct (H _ eq_refl) as (d & _ & Hsize & _ & Hlen).
    rewrite Hsize, (Hlen eq_refl). reflexivity.
  - destruct (find_subtree_size_of_node_counts chain_tree 3 "c1" 5 wf_chain_tree)
      as [_ H]; [vm_compute; lia|].
    destruct (H _ eq_refl) as (d & _ & Hsize & _). exact Hsize.
Defined.

(** The loop of [distance_to_node] and [_distance_to_node_rec] over the
    children of a node, when every child yields the distances below it. *)
Lemma distance_fold t x X (rec : string → exn + list (string * nat)) :
  wf t → nodes t !! x = Some X →
  (∀ c, c ∈ children X →
     ∃ d, rec c = inr d ∧ NoDup d.*1
       ∧ ∀ k i, (k, i) ∈ d ↔ is_Some (nodes t !! k) ∧ nth_parent t i k = Some c) →
  ∃ d, foldl (λ acc node_id,
                distance_dict ← acc;
                neighbour_distances ← rec node_id;
                inr (dict_update distance_dict (prod_map id S <$> neighbour_distances)))
         (inr [(x, 0%nat)]) (children X) = inr ((x, 0%nat) :: d)
    ∧ NoDup ((x, 0%nat) :: d).*1
    ∧ ∀ k i, (k, i) ∈ (x, 0%nat) :: d
             ↔ is_Some (nodes t !! k) ∧ nth_parent t i k = Some x.
Proof.
  intros Hwf HX Hrec.
  set (dc := λ c, match rec c with inr d => prod_map id S <$> d | inl _ => [] end).
  assert (∀ c, c ∈ children X →
            (∃ d, rec c = inr d ∧ dc c = prod_map id S <$> d)
            ∧ NoDup (dc c).*1
            ∧ ∀ k i, (k, i) ∈ dc c
                ↔ is_Some (nodes t !! k) ∧ ∃ j, i = S j ∧ nth_parent t j k = Some c)
    as Hchild.
  { intros c Hc. destruct (Hrec c Hc) as (d & Hd & Hnd & Hspec).
    assert (dc c = prod_map id S <$> d) as Hdc by (unfold dc; by rewrite Hd).
    split; [by exists d|]. rewrite Hdc. split.
    - rewrite <- list_fmap_compose.
      by replace (fst ∘ prod_map id S) with (@fst string nat) by done.
    - intros k i. rewrite list_elem_of_fmap. split.
      + intros ([k' j] & [= -> ->] & Hkj%Hspec). simpl. split; [apply Hkj|].
        exists j. split; [done|apply Hkj].
      + intros (Hk & j & -> & Hj). exists (k, j). split; [done|]. by apply Hspec. }
  exists (children X ≫= dc).
  assert (NoDup ([(x, 0%nat)].*1 ++ (children X ≫= λ c, (dc c).*1))) as Hnd.
  { apply (below_children_NoDup t x X 0%nat dc Hwf HX).
    - intros c Hc. by apply Hchild.
    - intros c k Hc ([k' i] & -> & Hki)%list_elem_of_fmap.
      apply Hchild in Hki as (_ & j & _ & Hj); [|done]. by exists j. }
  split_and!.
  - rewrite (foldl_dict_update _ dc); [done| |done].
    intros acc c Hc. destruct (Hchild c Hc) as ((d & -> & ->) & _). done.
  - change ((x, 0%nat) :: (children X ≫= dc)) with ([(x, 0%nat)] ++ (children X ≫= dc)).
    by rewrite fmap_app, bind_fst.
  - intros k i. rewrite elem_of_cons, list_elem_of_bind. split.
    + intros [Heq|(c & Hki & Hc)].
      * simplify_eq. split; [by eexists|done].
      * destruct (Hchild c Hc) as (_ & _ & Hspec).
        apply Hspec in Hki as (Hk & j & -> & Hj). split; [done|].
        apply (nth_parent_child t x X j k Hwf HX). by exists c.
    + intros (Hk & Hi). destruct i as [|j].
      * simpl in Hi. simplify_eq. by left.
      * apply (nth_parent_child t x X j k Hwf HX) in Hi as (c & Hc & Hj).
        right. exists c. split; [|done].
        destruct (Hchild c Hc) as (_ & _ & Hspec). apply Hspec. eauto.
Qed.

Lemma distance_rec_ok t :
  wf t → ∀ fuel c m p, nodes t !! c = Some m → parent m = Some p →
  (∀ k i, is_Some (nodes t !! k) → nth_parent t i k = Some c → (i < fuel)%nat) →
  ∃ d, _distance_to_node_rec fuel t c p = inr d ∧ NoDup d.*1
    ∧ ∀ k i, (k, i) ∈ d ↔ is_Some (nodes t !! k) ∧ nth_parent t i k = Some c.
Proof.
  intros Hwf. induction fuel as [|fuel IH]; intros c m p Hm Hp Hbound.
  { specialize (Hbound c 0%nat (mk_is_Some _ _ Hm) eq_refl). lia. }
  destruct (distance_fold t c m (λ node_id, _distance_to_node_rec fuel t node_id c) Hwf Hm)
    as (d & Hd & Hrest).
  { intros c' Hc'. destruct (wf_children _ Hwf _ _ _ Hm Hc') as (m' & Hm' & Hp').
    apply (IH c' m' c Hm' Hp').
    intros k i Hk Hi. apply Nat.succ_lt_mono. apply (Hbound k (S i) Hk).
    apply (nth_parent_child t c m i k Hwf Hm). by exists c'. }
  exists ((c, 0%nat) :: d). split; [|done].
  simpl. rewrite Hm. unfold neighbouring_nodes. rewrite Hp. simpl.
  rewrite decide_True by done. exact Hd.
Qed.

(** X29: seen from the root, the distance of a node is its depth.  On a
    well-formed tree [distance_to_node] with the identifier of the root
    raises nothing; the dict it returns starts with the root at distance 0,
    names every node of the tree exactly once, and gives a node the distance
    i exactly when following the parent i times from it leads to the root. *)
Theorem distance_to_node_root (t : TreeStructure) (r : string) :
  wf t → root_id t = Some r →
  ∃ d, distance_to_node t r = inr ((r, 0%nat) :: d)
    ∧ NoDup ((r, 0%nat) :: d).*1
    ∧ (∀ k, is_Some (nodes t !! k) ↔ k ∈ ((r, 0%nat) :: d).*1)
    ∧ ∀ k i, (k, i) ∈ (r, 0%nat) :: d
             ↔ is_Some (nodes t !! k) ∧ nth_parent t i k = Some r.
Proof.
  intros Hwf Hr. destruct (wf_root _ Hwf) as (r' & nr & Hr' & Hnr & Hp).
  assert (r' = r) as -> by congruence.
  destruct (distance_fold t r nr
              (λ node_id, _distance_to_node_rec (size (nodes t)) t node_id r) Hwf Hnr)
    as (d & Hd & Hnd & Hspec).
  { intros c Hc. destruct (wf_children _ Hwf _ _ _ Hnr Hc) as (m & Hm & Hpm).
    apply (distance_rec_ok t Hwf _ c m r Hm Hpm).
    intros k i [n Hk] Hi. by eapply nth_parent_lt_size. }
  exists d. split_and!.
  - unfold distance_to_node. rewrite Hnr. unfold neighbouring_nodes. rewrite Hp. exact Hd.
  - done.
  - intros k. rewrite list_elem_of_fmap. split.
    + intros [n Hk]. destruct (wf_reaches_root t r k n Hwf Hr Hk) as [i Hi].
      exists (k, i). split; [done|]. apply Hspec. split; [by eexists|done].
    + intros ([k' i] & -> & Hki). by apply Hspec in Hki as [Hk _].
  - done.
Qed.

Lemma distance_to_node_root_witness :
  ∃ d, distance_to_node chain_tree "root" = inr (("root", 0%nat) :: d)
    ∧ NoDup (("root", 0%nat) :: d).*1
    ∧ (∀ k, is_Some (nodes chain_tree !! k) ↔ k ∈ (("root", 0%nat) :: d).*1)
    ∧ ∀ k i, (k, i) ∈ ("root", 0%nat) :: d
             ↔ is_Some (nodes chain_tree !! k) ∧ nth_parent chain_tree i k = Some "root".
Proof. apply (distance_to_node_root chain_tree "root" wf_chain_tree). reflexivity. Defined.
